(** * fastText model core (src/model.cc): a shallow embedding

    The development follows model.cc function by function.  Integer
    indices ([int32_t], [size_t]) are values of [Z]; undefined behaviour
    of the C++ code (reading a vector out of range, dividing by zero, a
    failed [assert], signed overflow) is an explicit [Err] result, so a
    theorem that states [Ok] also states that none of these happens.
    Loops whose termination is not evident from their header take a
    fuel argument; the theorems give a fuel that suffices. *)

From Stdlib Require Import ZArith List Bool Lia Reals Lra Permutation Sorted.
Import ListNotations.
Local Open Scope Z_scope.
Set Default Proof Using "Type".

(** ** Results of a run *)

Inductive error : Set :=
| AssertionFailed   (* an [assert] of model.cc does not hold *)
| OutOfBounds       (* a vector is indexed outside its size *)
| DivisionByZero    (* the divisor of [/] or [%] is zero *)
| Overflow          (* an [int32_t] expression leaves its range *)
| LengthError       (* [resize] to a negative size *)
| OutOfFuel.        (* the loop did not finish within the fuel *)

Inductive result (A : Type) : Type :=
| Ok (a : A)
| Err (e : error).
Arguments Ok {A} a.
Arguments Err {A} e.

Definition bind {A B : Type} (m : result A) (k : A -> result B) : result B :=
  match m with
  | Ok a => k a
  | Err e => Err e
  end.

Notation "x <- m ;; k" := (bind m (fun x => k))
  (at level 61, m at next level, right associativity).
Notation "' p <- m ;; k" := (bind m (fun p => k))
  (at level 61, p pattern, m at next level, right associativity).

Definition assert (b : bool) : result unit :=
  if b then Ok tt else Err AssertionFailed.

(** [for (i = lo; i < hi; i++) body], the loop state threaded through. *)
Fixpoint for_loop {S : Type} (n : nat) (i : Z)
         (body : Z -> S -> result S) (s : S) : result S :=
  match n with
  | O => Ok s
  | Datatypes.S n' => bind (body i s) (for_loop n' (i + 1) body)
  end.

Definition for_range {S : Type} (lo hi : Z)
           (body : Z -> S -> result S) (s : S) : result S :=
  for_loop (Z.to_nat (hi - lo)) lo body s.

(** ** Vectors indexed by integers *)

(** [v[i]] for reading. *)
Definition get {A : Type} (v : list A) (i : Z) : result A :=
  if i <? 0 then Err OutOfBounds
  else match nth_error v (Z.to_nat i) with
       | Some a => Ok a
       | None => Err OutOfBounds
       end.

Fixpoint upd_nat {A : Type} (v : list A) (n : nat) (f : A -> A) : list A :=
  match v, n with
  | [], _ => []
  | a :: v', O => f a :: v'
  | a :: v', Datatypes.S n' => a :: upd_nat v' n' f
  end.

(** [v[i] = f (v[i])], an assignment to (a field of) an element. *)
Definition modify {A : Type} (v : list A) (i : Z) (f : A -> A)
  : result (list A) :=
  if (i <? 0) || (Z.of_nat (length v) <=? i) then Err OutOfBounds
  else Ok (upd_nat v (Z.to_nat i) f).

Definition INT32_MAX : Z := 2 ^ 31 - 1.
Definition INT32_MIN : Z := - 2 ^ 31.

(** The value of an [int32_t] expression: a result outside the type
    is signed overflow. *)
Definition int32 (x : Z) : result Z :=
  if (x <? INT32_MIN) || (INT32_MAX <? x) then Err Overflow else Ok x.

Section Fasttext.

(** ** Huffman tree (Model::buildTree)

    [struct Node] is declared in model.h, which is not among the
    sources; model.cc fixes its fields ([parent], [left], [right],
    [count], [binary]) but not the type of [count].  That type and the
    operations model.cc applies to it are parameters. *)

Variable W : Type.                 (* type of [Node::count] *)
Variable of_count : Z -> W.        (* conversion in [tree[i].count = counts[i]] *)
Variable sentinel : W.             (* value of [1e15] in that type *)
Variable wadd : W -> W -> W.       (* [+] on counts *)
Variable wlt : W -> W -> bool.     (* [<] on counts *)

Record Node : Type := mkNode {
  parent : Z;
  left : Z;
  right : Z;
  count : W;
  binary : bool
}.

Definition set_parent (p : Z) (n : Node) : Node :=
  mkNode p (left n) (right n) (count n) (binary n).
Definition set_left (l : Z) (n : Node) : Node :=
  mkNode (parent n) l (right n) (count n) (binary n).
Definition set_right (r : Z) (n : Node) : Node :=
  mkNode (parent n) (left n) r (count n) (binary n).
Definition set_count (c : W) (n : Node) : Node :=
  mkNode (parent n) (left n) (right n) c (binary n).
Definition set_binary (b : bool) (n : Node) : Node :=
  mkNode (parent n) (left n) (right n) (count n) b.

(** The members [tree], [paths] and [codes] of [Model]. *)
Record Hier : Type := mkHier {
  tree : list Node;
  paths : list (list Z);
  codes : list (list bool)
}.

(** As the constructor of [Model] leaves them. *)
Definition fresh : Hier := mkHier [] [] [].

(** Lines 224-228: every field of every node is assigned. *)
Definition blank : Node := mkNode (-1) (-1) (-1) sentinel false.

(** Lines 222-229: [tree.resize(2 * osz_ - 1)] and the loop that
    overwrites all five fields of each of the nodes. *)
Definition init_tree (osz : Z) : result (list Node) :=
  if (2 * osz - 1 <? INT32_MIN) || (INT32_MAX <? 2 * osz) then Err Overflow
  else if 2 * osz - 1 <? 0 then Err LengthError
  else Ok (repeat blank (Z.to_nat (2 * osz - 1))).

(** Lines 230-232. *)
Definition set_counts (osz : Z) (counts : list Z) (t : list Node)
  : result (list Node) :=
  for_range 0 osz
    (fun i t => c <- get counts i ;; modify t i (set_count (of_count c))) t.

(** Lines 238-242, one round of the inner loop: the chosen index and
    the two cursors after it.  [&&] does not read [tree[node]] when
    [leaf < 0]. *)
Definition pick (t : list Node) (leaf node : Z) : result (Z * Z * Z) :=
  if 0 <=? leaf then
    lf <- get t leaf ;;
    nd <- get t node ;;
    if wlt (count lf) (count nd) then Ok (leaf, leaf - 1, node)
    else Ok (node, leaf, node + 1)
  else Ok (node, leaf, node + 1).

(** Lines 236-249, the body of the merge loop on [(tree, leaf, node)]. *)
Definition merge_step (i : Z) (s : list Node * Z * Z)
  : result (list Node * Z * Z) :=
  let '(t, leaf, node) := s in
  ' (m0, leaf1, node1) <- pick t leaf node ;;
  ' (m1, leaf2, node2) <- pick t leaf1 node1 ;;
  t1 <- modify t i (set_left m0) ;;
  t2 <- modify t1 i (set_right m1) ;;
  a <- get t2 m0 ;;
  b <- get t2 m1 ;;
  t3 <- modify t2 i (set_count (wadd (count a) (count b))) ;;
  t4 <- modify t3 m0 (set_parent i) ;;
  t5 <- modify t4 m1 (set_parent i) ;;
  t6 <- modify t5 m1 (set_binary true) ;;
  Ok (t6, leaf2, node2).

(** Lines 254-259: the walk from [j] to the root, appending to [path]
    and [code]. *)
Fixpoint walk (fuel : nat) (t : list Node) (osz j : Z)
         (path : list Z) (code : list bool)
  : result (list Z * list bool) :=
  match fuel with
  | O => Err OutOfFuel
  | Datatypes.S fuel' =>
      nj <- get t j ;;
      if parent nj =? -1 then Ok (path, code)
      else
        let path' := path ++ [parent nj - osz] in
        let code' := code ++ [binary nj] in
        walk fuel' t osz (parent nj) path' code'
  end.

(** Lines 251-262, the body of the last loop on [(paths, codes)]. *)
Definition path_step (fuel : nat) (t : list Node) (osz : Z) (i : Z)
           (pc : list (list Z) * list (list bool))
  : result (list (list Z) * list (list bool)) :=
  ' (path, code) <- walk fuel t osz i [] [] ;;
  Ok (fst pc ++ [path], snd pc ++ [code]).

Definition buildTree (fuel : nat) (osz : Z) (counts : list Z) (h : Hier)
  : result Hier :=
  t0 <- init_tree osz ;;
  t1 <- set_counts osz counts t0 ;;
  ' (t2, _, _) <- for_range osz (2 * osz - 1) merge_step (t1, osz - 1, osz) ;;
  ' (ps, cs) <- for_range 0 osz (path_step fuel t2 osz) (paths h, codes h) ;;
  Ok (mkHier t2 ps cs).

(** Reading the bits of a code as a descent: bit [true] moves to the
    right child, bit [false] to the left child.  The result is the node
    reached and the internal nodes passed, as ids relative to [osz]. *)
Fixpoint descend (t : list Node) (osz n : Z) (bits : list bool)
  : result (Z * list Z) :=
  match bits with
  | [] => Ok (n, [])
  | b :: bits' =>
      nd <- get t n ;;
      ' (m, visited) <- descend t osz (if b then right nd else left nd) bits' ;;
      Ok (m, (n - osz) :: visited)
  end.


(** ** Dense vectors and matrices

    Modelled from the spec: vector.h and matrix.h are not among the
    sources.  The spec names the primitives model.cc calls
    ("row-indexed dot product, scaled row accumulation, elementwise
    zero/scale, matrix-vector multiply").  The entries are real
    numbers and these primitives compute exactly.  Where model.cc
    calls a function of a library ([sigmoid], [log], [exp], [pow]), or
    counts the rounds of a loop by a floating-point number
    (initTableNegatives), the function and the rounding are
    parameters.  A row index outside the matrix is [OutOfBounds]. *)

Definition Vector : Type := list R.
Definition Matrix : Type := list Vector.

(** [Vector::zero()] *)
Definition vzero (v : Vector) : Vector := map (fun _ => 0%R) v.

(** [Vector::mul(real a)] *)
Definition vscale (a : R) (v : Vector) : Vector := map (fun x => (x * a)%R) v.

(** [y[j] += a * x[j]] for every [j] *)
Fixpoint axpy (a : R) (x y : Vector) : Vector :=
  match y, x with
  | yj :: y', xj :: x' => (yj + a * xj)%R :: axpy a x' y'
  | _, _ => y
  end.

Fixpoint dot (x y : Vector) : R :=
  match x, y with
  | xj :: x', yj :: y' => (xj * yj + dot x' y')%R
  | _, _ => 0%R
  end.

(** [Vector::addRow(const Matrix& A, int64_t i)] *)
Definition vec_addRow (v : Vector) (A : Matrix) (i : Z) : result Vector :=
  row <- get A i ;; Ok (axpy 1 row v).

(** [Vector::addRow(const Matrix& A, int64_t i, real a)] *)
Definition vec_addRow_scaled (v : Vector) (A : Matrix) (i : Z) (a : R)
  : result Vector :=
  row <- get A i ;; Ok (axpy a row v).

(** [Vector::mul(const Matrix& A, const Vector& vec)] *)
Definition mat_vec (A : Matrix) (vec : Vector) : Vector :=
  map (fun row => dot row vec) A.

(** [Matrix::dotRow(const Vector& vec, int64_t i)] *)
Definition dotRow (A : Matrix) (vec : Vector) (i : Z) : result R :=
  row <- get A i ;; Ok (dot row vec).

(** [Matrix::addRow(const Vector& vec, int64_t i, real a)] *)
Definition mat_addRow (A : Matrix) (vec : Vector) (i : Z) (a : R)
  : result Matrix :=
  modify A i (axpy a vec).

(** [a / b] on reals; a zero divisor is reported. *)
Definition fdiv (a b : R) : result R :=
  if Req_dec_T b 0 then Err DivisionByZero else Ok (a / b)%R.

Definition Rltb (x y : R) : bool := if Rlt_dec x y then true else false.

(** ** The model

    model.h and args.h are not among the sources; the members and
    options are those model.cc uses. *)

Inductive loss_name : Set := hs | ns | loss_other.
Inductive model_name : Set := sup | model_other.

Record Args : Set := mkArgs {
  loss : loss_name;
  model : model_name;
  neg : Z
}.

Variable args : Args.                   (* [extern Args args] *)
Variable sigmoid : R -> R.              (* [utils::sigmoid] *)
Variable log : R -> R.                  (* [utils::log] *)
Variable exp : R -> R.                  (* [exp] of <cmath>, on [real] *)
Variable NEGATIVE_TABLE_SIZE : Z.       (* constant of model.h *)
Variable shuffle : list Z -> list Z.    (* [std::shuffle] with [rng] *)

(** Floating-point arithmetic.  real.h, which declares [real], and
    <cmath> are not among the sources.  Where the rounding of a number
    matters (initTableNegatives), an arithmetic operation or a
    conversion gives the exact result rounded to the type it is
    computed in: [round_real] rounds a real number to [real],
    [round_double] to [double].  [pow] is the function of <cmath> on
    doubles. *)
Variable round_real : R -> R.
Variable round_double : R -> R.
Variable pow : R -> R -> R.

Record Model : Type := mkModel {
  wi_ : Matrix;
  wo_ : Matrix;
  hidden_ : Vector;
  output_ : Vector;
  grad_ : Vector;
  isz_ : Z;
  osz_ : Z;
  hsz_ : Z;
  lr_ : R;
  negpos : Z;
  negatives : list Z;
  hier : Hier
}.

Definition set_wi (x : Matrix) (m : Model) : Model :=
  mkModel x (wo_ m) (hidden_ m) (output_ m) (grad_ m) (isz_ m) (osz_ m)
          (hsz_ m) (lr_ m) (negpos m) (negatives m) (hier m).
Definition set_wo (x : Matrix) (m : Model) : Model :=
  mkModel (wi_ m) x (hidden_ m) (output_ m) (grad_ m) (isz_ m) (osz_ m)
          (hsz_ m) (lr_ m) (negpos m) (negatives m) (hier m).
Definition set_hidden (x : Vector) (m : Model) : Model :=
  mkModel (wi_ m) (wo_ m) x (output_ m) (grad_ m) (isz_ m) (osz_ m)
          (hsz_ m) (lr_ m) (negpos m) (negatives m) (hier m).
Definition set_output (x : Vector) (m : Model) : Model :=
  mkModel (wi_ m) (wo_ m) (hidden_ m) x (grad_ m) (isz_ m) (osz_ m)
          (hsz_ m) (lr_ m) (negpos m) (negatives m) (hier m).
Definition set_grad (x : Vector) (m : Model) : Model :=
  mkModel (wi_ m) (wo_ m) (hidden_ m) (output_ m) x (isz_ m) (osz_ m)
          (hsz_ m) (lr_ m) (negpos m) (negatives m) (hier m).
Definition set_negpos (x : Z) (m : Model) : Model :=
  mkModel (wi_ m) (wo_ m) (hidden_ m) (output_ m) (grad_ m) (isz_ m) (osz_ m)
          (hsz_ m) (lr_ m) x (negatives m) (hier m).
Definition set_negatives (x : list Z) (m : Model) : Model :=
  mkModel (wi_ m) (wo_ m) (hidden_ m) (output_ m) (grad_ m) (isz_ m) (osz_ m)
          (hsz_ m) (lr_ m) (negpos m) x (hier m).
Definition set_hier (x : Hier) (m : Model) : Model :=
  mkModel (wi_ m) (wo_ m) (hidden_ m) (output_ m) (grad_ m) (isz_ m) (osz_ m)
          (hsz_ m) (lr_ m) (negpos m) (negatives m) x.

(** [for (auto it = v.cbegin(); it != v.cend(); ++it) body] *)
Fixpoint for_each {S A : Type} (v : list A) (body : A -> S -> result S) (s : S)
  : result S :=
  match v with
  | [] => Ok s
  | a :: v' => bind (body a s) (for_each v' body)
  end.

(** Lines 41-51. *)
Definition binaryLogistic (target : Z) (label : bool) (m : Model)
  : result (R * Model) :=
  d <- dotRow (wo_ m) (hidden_ m) target ;;
  let score := sigmoid d in
  let alpha := (lr_ m * ((if label then 1 else 0) - score))%R in
  g <- vec_addRow_scaled (grad_ m) (wo_ m) target alpha ;;
  wo' <- mat_addRow (wo_ m) (hidden_ m) target alpha ;;
  let m' := set_wo wo' (set_grad g m) in
  if label then Ok ((- log score)%R, m')
  else Ok ((- log (1 - score))%R, m').

(** Lines 212-219; [fuel] bounds the rounds of the do-while loop. *)
Fixpoint getNegative (fuel : nat) (target : Z) (m : Model)
  : result (Z * Model) :=
  match fuel with
  | O => Err OutOfFuel
  | Datatypes.S fuel' =>
      negative <- get (negatives m) (negpos m) ;;
      let size := Z.of_nat (length (negatives m)) in
      if size =? 0 then Err DivisionByZero
      else
        let m' := set_negpos ((negpos m + 1) mod size) m in
        if target =? negative then getNegative fuel' target m'
        else Ok (negative, m')
  end.

(** Lines 53-64. *)
Definition negativeSampling (fuel : nat) (target : Z) (m : Model)
  : result (R * Model) :=
  let m0 := set_grad (vzero (grad_ m)) m in
  for_range 0 (neg args + 1)
    (fun n (s : R * Model) =>
       let '(loss, m1) := s in
       if n =? 0 then
         ' (l, m2) <- binaryLogistic target true m1 ;;
         Ok ((loss + l)%R, m2)
       else
         ' (negative, m2) <- getNegative fuel target m1 ;;
         ' (l, m3) <- binaryLogistic negative false m2 ;;
         Ok ((loss + l)%R, m3))
    (0%R, m0).

(** Lines 66-75. *)
Definition hierarchicalSoftmax (target : Z) (m : Model) : result (R * Model) :=
  let m0 := set_grad (vzero (grad_ m)) m in
  binaryCode <- get (codes (hier m0)) target ;;
  pathToRoot <- get (paths (hier m0)) target ;;
  for_range 0 (Z.of_nat (length pathToRoot))
    (fun i (s : R * Model) =>
       let '(loss, m1) := s in
       p <- get pathToRoot i ;;
       b <- get binaryCode i ;;
       ' (l, m2) <- binaryLogistic p b m1 ;;
       Ok ((loss + l)%R, m2))
    (0%R, m0).

(** Lines 80-83 of softmax: the maximum of the scores. *)
Definition softmax_max (osz : Z) (output : Vector) : result R :=
  max0 <- get output 0 ;;
  for_range 0 osz
    (fun i max => o <- get output i ;; Ok (Rmax o max)) max0.

(** Lines 84-87: exponentials and their sum [z]. *)
Definition softmax_exp (osz : Z) (max : R) (output : Vector)
  : result (Vector * R) :=
  for_range 0 osz
    (fun i (s : Vector * R) =>
       let '(out, z) := s in
       o <- get out i ;;
       out' <- modify out i (fun _ => exp (o - max)) ;;
       o' <- get out' i ;;
       Ok (out', (z + o')%R))
    (output, 0%R).

(** Lines 88-94: normalisation and the update of [grad_] and [wo_]. *)
Definition softmax_update (target : Z) (z : R) (m : Model) : result Model :=
  for_range 0 (osz_ m)
    (fun i m1 =>
       let label := if i =? target then 1%R else 0%R in
       o <- get (output_ m1) i ;;
       q <- fdiv o z ;;
       out' <- modify (output_ m1) i (fun _ => q) ;;
       let m2 := set_output out' m1 in
       o' <- get (output_ m2) i ;;
       let alpha := (lr_ m2 * (label - o'))%R in
       g <- vec_addRow_scaled (grad_ m2) (wo_ m2) i alpha ;;
       let m3 := set_grad g m2 in
       wo' <- mat_addRow (wo_ m3) (hidden_ m3) i alpha ;;
       Ok (set_wo wo' m3))
    m.

(** Lines 77-96. *)
Definition softmax (target : Z) (m : Model) : result (R * Model) :=
  let m0 := set_grad (vzero (grad_ m)) m in
  let m1 := set_output (mat_vec (wo_ m0) (hidden_ m0)) m0 in
  max <- softmax_max (osz_ m1) (output_ m1) ;;
  ' (out, z) <- softmax_exp (osz_ m1) max (output_ m1) ;;
  m2 <- softmax_update target z (set_output out m1) ;;
  o <- get (output_ m2) target ;;
  Ok ((- log o)%R, m2).

(** Lines 98-104. *)
Definition computeHidden (input : list Z) (m : Model) : result Model :=
  h <- for_each input (fun it h => vec_addRow h (wi_ m) it)
                (vzero (hidden_ m)) ;;
  a <- fdiv 1 (IZR (Z.of_nat (length input))) ;;
  Ok (set_hidden (vscale a h) m).

(** Lines 106-109. *)
Definition comparePairs (l r : R * Z) : bool := Rltb (fst r) (fst l).

(** ** The heap of <algorithm>

    [std::push_heap], [std::pop_heap] and [std::sort_heap] are taken at
    their contract: a heap for [comp] is kept as a list in which no
    element is [comp]-before an earlier one, so that its front is the
    first element; only the order of elements that [comp] does not
    separate is left open by the contract. *)

Fixpoint heap_insert {A : Type} (comp : A -> A -> bool) (x : A) (h : list A)
  : list A :=
  match h with
  | [] => [x]
  | y :: h' => if comp y x then x :: h else y :: heap_insert comp x h'
  end.

(** [push_heap(first, last, comp)]: the last element enters the heap
    made of the others. *)
Definition push_heap {A : Type} (comp : A -> A -> bool) (v : list A) : list A :=
  match rev v with
  | [] => []
  | x :: r => heap_insert comp x (rev r)
  end.

(** [pop_heap(first, last, comp)]: the front moves to the back. *)
Definition pop_heap {A : Type} (comp : A -> A -> bool) (v : list A) : list A :=
  match v with
  | [] => []
  | x :: r => r ++ [x]
  end.

(** [sort_heap(first, last, comp)]: [pop_heap] on shorter and shorter
    prefixes. *)
Fixpoint sort_heap {A : Type} (comp : A -> A -> bool) (v : list A) : list A :=
  match v with
  | [] => []
  | x :: r => sort_heap comp r ++ [x]
  end.

(** [v.front()] *)
Definition front {A : Type} (v : list A) : result A :=
  match v with
  | [] => Err OutOfBounds
  | x :: _ => Ok x
  end.

(** [heap.size() == k && score < heap.front().first] *)
Definition worse_than_front (k : Z) (score : R) (heap : list (R * Z))
  : result bool :=
  if Z.of_nat (length heap) =? k then
    f <- front heap ;; Ok (Rltb score (fst f))
  else Ok false.

(** Lines 130-135 and 146-151: insertion into the bounded heap. *)
Definition heap_offer (k : Z) (p : R * Z) (heap : list (R * Z))
  : list (R * Z) :=
  let heap1 := push_heap comparePairs (heap ++ [p]) in
  if k <? Z.of_nat (length heap1)
  then removelast (pop_heap comparePairs heap1)
  else heap1.

(** Lines 125-137. *)
Definition findKBest (k : Z) (heap : list (R * Z)) (m : Model)
  : result (list (R * Z)) :=
  for_range 0 (osz_ m)
    (fun i heap =>
       o <- get (output_ m) i ;;
       skip <- worse_than_front k o heap ;;
       if skip then Ok heap else Ok (heap_offer k (o, i) heap))
    heap.

(** Lines 139-158; [fuel] bounds the depth of the recursion. *)
Fixpoint dfs (fuel : nat) (k node : Z) (score : R) (heap : list (R * Z))
         (m : Model) : result (list (R * Z)) :=
  match fuel with
  | O => Err OutOfFuel
  | Datatypes.S fuel' =>
      skip <- worse_than_front k score heap ;;
      if skip then Ok heap
      else
        n <- get (tree (hier m)) node ;;
        if (left n =? -1) && (right n =? -1) then
          Ok (heap_offer k (score, node) heap)
        else
          d <- dotRow (wo_ m) (hidden_ m) (node - osz_ m) ;;
          let f := sigmoid d in
          heap1 <- dfs fuel' k (left n) (score + log (1 - f))%R heap m ;;
          dfs fuel' k (right n) (score + log f)%R heap1 m
  end.

(** Lines 111-123.  [heap.reserve(k + 1)] changes no element of
    [heap]; its argument is the [int32_t] sum [k + 1], which is
    evaluated before anything else is done.  The root [2 * osz_ - 2]
    that dfs starts from is an [int32_t] expression as well. *)
Definition predict (fuel : nat) (input : list Z) (k : Z)
           (heap : list (R * Z)) (m : Model)
  : result (list (R * Z) * Model) :=
  _ <- assert (0 <? k) ;;
  _ <- int32 (k + 1) ;;
  m1 <- computeHidden input m ;;
  ' (heap1, m2) <-
    match loss args with
    | hs =>
        d <- int32 (2 * osz_ m1) ;;
        root <- int32 (d - 2) ;;
        h <- dfs fuel k root 0%R heap m1 ;; Ok (h, m1)
    | _ =>
        let m2 := set_output (mat_vec (wo_ m1) (hidden_ m1)) m1 in
        h <- findKBest k heap m2 ;; Ok (h, m2)
    end ;;
  Ok (sort_heap comparePairs heap1, m2).

(** Lines 170-177 of update: the configured scoring strategy. *)
Definition strategy (fuel : nat) (target : Z) (m : Model) : result (R * Model) :=
  match loss args with
  | ns => negativeSampling fuel target m
  | hs => hierarchicalSoftmax target m
  | _ => softmax target m
  end.

(** Lines 179-181 of update. *)
Definition rescale_grad (input : list Z) (m : Model) : result Model :=
  match model args with
  | sup =>
      a <- fdiv 1 (IZR (Z.of_nat (length input))) ;;
      Ok (set_grad (vscale a (grad_ m)) m)
  | _ => Ok m
  end.

(** Lines 182-184 of update. *)
Definition propagate (input : list Z) (m : Model) : result Model :=
  wi' <- for_each input (fun it wi => mat_addRow wi (grad_ m) it 1) (wi_ m) ;;
  Ok (set_wi wi' m).

(** Lines 160-186. *)
Definition update (fuel : nat) (input : list Z) (target : Z) (m : Model)
  : result (R * Model) :=
  _ <- assert (0 <=? target) ;;
  _ <- assert (target <? osz_ m) ;;
  if Z.of_nat (length input) =? 0 then Ok (0%R, m)
  else
    h <- for_each input (fun it h => vec_addRow h (wi_ m) it)
                  (vzero (hidden_ m)) ;;
    a <- fdiv 1 (IZR (Z.of_nat (length input))) ;;
    let m1 := set_hidden (vscale a h) m in
    ' (loss, m2) <- strategy fuel target m1 ;;
    m3 <- rescale_grad input m2 ;;
    m4 <- propagate input m3 ;;
    Ok (loss, m4).

(** Lines 205-207 of initTableNegatives, the loop
    [for (size_t j = 0; j < x; j++) negatives.push_back(i)]: the
    comparison converts [j] to [real]; [fuel] bounds the rounds. *)
Fixpoint push_copies (fuel : nat) (j : Z) (x : R) (i : Z) (negs : list Z)
  : result (list Z) :=
  match fuel with
  | O => Err OutOfFuel
  | Datatypes.S fuel' =>
      if Rltb (round_real (IZR j)) x
      then push_copies fuel' (j + 1) x i (negs ++ [i])
      else Ok negs
  end.

(** Lines 203-208: [pow(counts[i], 0.5)] promotes the count to
    [double] and [real c = ...] rounds the result; the product
    [c * NEGATIVE_TABLE_SIZE] and the quotient by [z] are computed in
    [real]. *)
Definition fill_negatives (fuel : nat) (z : R) (counts : list Z)
           (negs : list Z) : result (list Z) :=
  for_range 0 (Z.of_nat (length counts))
    (fun i negs =>
       ci <- get counts i ;;
       let c := round_real (pow (round_double (IZR ci)) (1 / 2)) in
       q <- fdiv (round_real (c * round_real (IZR NEGATIVE_TABLE_SIZE))) z ;;
       push_copies fuel 0 (round_real q) i negs)
    negs.

(** Lines 198-210.  In [z += pow(counts[i], 0.5)] the sum is computed
    in [double] and rounded to [real] by the assignment. *)
Definition initTableNegatives (fuel : nat) (counts : list Z) (m : Model)
  : result Model :=
  z <- for_range 0 (Z.of_nat (length counts))
         (fun i z =>
            ci <- get counts i ;;
            Ok (round_real
                  (round_double (z + pow (round_double (IZR ci)) (1 / 2)))))
         0%R ;;
  negs <- fill_negatives fuel z counts (negatives m) ;;
  Ok (set_negatives (shuffle negs) m).

(** Lines 188-196. *)
Definition setTargetCounts (fuel : nat) (counts : list Z) (m : Model)
  : result Model :=
  _ <- assert (Z.of_nat (length counts) =? osz_ m) ;;
  m1 <- match loss args with
        | ns => initTableNegatives fuel counts m
        | _ => Ok m
        end ;;
  match loss args with
  | hs => h <- buildTree fuel (osz_ m1) counts (hier m1) ;; Ok (set_hier h m1)
  | _ => Ok m1
  end.

(** The entry of the negative table [j] places after the cursor,
    wrapping around at the end of the table. *)
Definition slot (m : Model) (j : Z) : Z :=
  nth (Z.to_nat ((negpos m + j) mod Z.of_nat (length (negatives m))))
      (negatives m) 0.

(** ** What initTableNegatives builds *)

(** [pow(c, 0.5)] for a count [c]. *)
Definition root (c : Z) : R := pow (round_double (IZR c)) (1 / 2).

(** The sum [z] of lines 199-202. *)
Definition sum_root (counts : list Z) : R :=
  fold_left (fun z c => round_real (round_double (z + root c))) counts 0%R.

(** The value of [c * NEGATIVE_TABLE_SIZE / z] at line 205 for a class
    of count [c]. *)
Definition bound (z : R) (c : Z) : R :=
  round_real
    (round_real (round_real (root c) * round_real (IZR NEGATIVE_TABLE_SIZE))
     / z).

(** The numbers [j], [j + 1], ... whose conversion to [real] is below
    [x], up to the first that is not, [n] of them at most. *)
Fixpoint below_from (n : nat) (j : Z) (x : R) : nat :=
  match n with
  | O => O
  | Datatypes.S n' =>
      if Rltb (round_real (IZR j)) x
      then Datatypes.S (below_from n' (j + 1) x)
      else O
  end.

(** How often line 206 runs for a class of count [c]: the loop stops at
    the least [j] whose conversion to [real] is not below the bound,
    which a monotone rounding finds at [ceil] of the bound or before. *)
Definition copies (z : R) (c : Z) : nat :=
  below_from (Z.to_nat (Zceil (bound z c))) 0 (bound z c).

(** The table before the shuffle, for the classes from [i] on. *)
Fixpoint table_from (z : R) (i : Z) (counts : list Z) : list Z :=
  match counts with
  | [] => []
  | c :: counts' => repeat i (copies z c) ++ table_from z (i + 1) counts'
  end.

(** Fuel for the loops of line 205: one more than the largest number
    of copies of a class. *)
Definition table_fuel (counts : list Z) : nat :=
  Datatypes.S (list_max (map (copies (sum_root counts)) counts)).

(** What the theorems on initTableNegatives use of the arithmetic.
    Rounding is monotone and leaves 0, 1 and a number it has produced
    as they are; [pow(c, 0.5)] is 0 for the count 0, at least 1 for a
    count of at least 1, and monotone on counts; and a quotient of a
    number of at least 1 by a positive [real] does not round to 0 (no
    [real] is so large that its inverse underflows).  Nothing is
    assumed on how close a rounded number is to the exact one. *)
Record Rounding : Prop := mkRounding {
  real_mono : forall x y, (x <= y)%R -> (round_real x <= round_real y)%R;
  real_idem : forall x, round_real (round_real x) = round_real x;
  real_0 : round_real 0 = 0%R;
  real_1 : round_real 1 = 1%R;
  double_mono : forall x y, (x <= y)%R -> (round_double x <= round_double y)%R;
  double_0 : round_double 0 = 0%R;
  double_1 : round_double 1 = 1%R;
  root_0 : root 0 = 0%R;
  root_1 : forall c, 1 <= c -> (1 <= root c)%R;
  root_mono : forall c1 c2, 0 <= c1 <= c2 -> (root c1 <= root c2)%R;
  real_quotient : forall x z,
      (1 <= x)%R -> (0 < round_real z)%R -> (0 < round_real (x / round_real z))%R
}.

(** ** What softmax computes *)

(** The maximum of lines 80-83. *)
Definition vmax (raw : Vector) : R :=
  fold_left (fun mx o => Rmax o mx) raw (nth 0 raw 0%R).

(** The sum of a vector, accumulated from its first element on. *)
Definition Rsum (v : Vector) : R := fold_left Rplus v 0%R.

(** The probabilities softmax leaves in [output_], as a function of
    the raw scores [wo_ * hidden_]. *)
Definition softmax_probs (raw : Vector) : Vector :=
  let e := map (fun x => exp (x - vmax raw)) raw in
  map (fun x => (x / Rsum e)%R) e.

(** ** Orders on (score, class) pairs *)

Definition score_le (a b : R * Z) : Prop := (fst a <= fst b)%R.
Definition score_ge (a b : R * Z) : Prop := (fst b <= fst a)%R.
Definition score_gt (a b : R * Z) : Prop := (fst b < fst a)%R.

(** A pair holds the score that [output_] has for its class. *)
Definition scored (m : Model) (p : R * Z) : Prop :=
  get (output_ m) (snd p) = Ok (fst p).

(** ** Invariant of the merge loop *)

(** The node at index [j] of a tree, for indices within the tree. *)
Definition nd (t : list Node) (j : Z) : Node := nth (Z.to_nat j) t blank.

(** [f lo + f (lo + 1) + ... ] over [n] consecutive indices. *)
Fixpoint range_sum (f : Z -> Z) (lo : Z) (n : nat) : Z :=
  match n with
  | O => 0
  | Datatypes.S n' => f lo + range_sum f (lo + 1) n'
  end.

(** The state before iteration [i] of the merge loop.  The leaves above
    the cursor [leaf] and the internal nodes below the cursor [node]
    have been given a parent; everything else is still unlinked. *)
Record Inv (osz : Z) (counts : list Z) (i : Z)
       (t : list Node) (leaf node : Z) : Prop := mkInv {
  inv_len : Z.of_nat (length t) = 2 * osz - 1;
  inv_leaf : -1 <= leaf < osz;
  inv_node : osz <= node <= i;
  inv_node_lt : osz < i -> node < i;
  inv_remaining : leaf + 1 + (i - node) = 2 * osz - i;
  inv_leaves : forall j, 0 <= j < osz ->
      left (nd t j) = -1 /\ right (nd t j) = -1 /\
      count (nd t j) = of_count (nth (Z.to_nat j) counts 0);
  inv_future : forall j, i <= j < 2 * osz - 1 -> nd t j = blank;
  inv_created : forall n, osz <= n < i ->
      0 <= left (nd t n) < n /\ 0 <= right (nd t n) < n /\
      left (nd t n) <> right (nd t n) /\
      parent (nd t (left (nd t n))) = n /\
      parent (nd t (right (nd t n))) = n /\
      binary (nd t (left (nd t n))) = false /\
      binary (nd t (right (nd t n))) = true /\
      count (nd t n) =
        wadd (count (nd t (left (nd t n)))) (count (nd t (right (nd t n))));
  inv_picked : forall j, leaf < j < node ->
      j < parent (nd t j) < i /\ osz <= parent (nd t j) /\
      (j = left (nd t (parent (nd t j))) \/
       j = right (nd t (parent (nd t j))));
  inv_unpicked : forall j, 0 <= j <= leaf \/ node <= j < 2 * osz - 1 ->
      parent (nd t j) = -1 /\ binary (nd t j) = false;
  (* the leaves below the unlinked nodes are all the classes *)
  inv_count : exists cnt : Z -> Z,
      (forall j, 0 <= j < osz -> cnt j = 1) /\
      (forall n, osz <= n < i ->
         cnt n = cnt (left (nd t n)) + cnt (right (nd t n))) /\
      leaf + 1 + range_sum cnt node (Z.to_nat (i - node)) = osz
}.

(** Every entry of the table compares below the [1e15] that marks a
    node not yet created. *)
Definition below_sentinel (counts : list Z) : Prop :=
  Forall (fun c => wlt (of_count c) sentinel = true) counts.

(** The parent links of a finished tree: every node but the last has
    a parent above it, and is the child its [binary] flag says. *)
Record Linked (osz : Z) (t : list Node) : Prop := mkLinked {
  lk_len : Z.of_nat (length t) = 2 * osz - 1;
  lk_up : forall j, 0 <= j < 2 * osz - 2 ->
      j < parent (nd t j) <= 2 * osz - 2 /\ osz <= parent (nd t j) /\
      (if binary (nd t j) then right (nd t (parent (nd t j)))
       else left (nd t (parent (nd t j)))) = j;
  lk_root : parent (nd t (2 * osz - 2)) = -1
}.

(** The node at index [j] after one iteration of the merge loop that
    picked [m0] and [m1] and computed the count [c]: the assignments of
    lines 244-249 in their order. *)
Definition step_node (i m0 m1 : Z) (c : W) (j : Z) (n : Node) : Node :=
  let n1 := if j =? i then set_count c (set_right m1 (set_left m0 n)) else n in
  let n2 := if j =? m0 then set_parent i n1 else n1 in
  if j =? m1 then set_binary true (set_parent i n2) else n2.

(** A run that has left the invariant because the merge loop picked
    the node it is creating as the second child: some leaf then
    belongs to a set of linked nodes closed under [parent]. *)
Definition Trapped (osz : Z) (t : list Node) (leaf node : Z) : Prop :=
  exists S : Z -> Prop,
    (forall y, S y ->
       0 <= y < Z.of_nat (length t) /\ leaf < y < node /\
       parent (nd t y) <> -1 /\ S (parent (nd t y))) /\
    exists c, 0 <= c < osz /\ S c.

(** A run that has left the invariant because the merge loop picked
    the node it is creating as the first child: the cursor [node] is
    ahead of the loop index for good. *)
Definition Ahead (osz i : Z) (t : list Node) (leaf node : Z) : Prop :=
  Z.of_nat (length t) = 2 * osz - 1 /\
  0 <= leaf < osz /\ osz <= i <= 2 * osz - 2 /\ i < node /\
  (forall j, node <= j < 2 * osz - 1 -> count (nd t j) = sentinel) /\
  wlt (count (nd t leaf)) sentinel = false.

(** [y]'s chain of parents passes through [x]. *)
Inductive under (t : list Node) (x : Z) : Z -> Prop :=
| under_self : under t x x
| under_child (y : Z) :
    0 <= y < Z.of_nat (length t) -> under t x (parent (nd t y)) -> under t x y.

(** What the members hold after a call of [buildTree] that returns. *)
Record Built (osz : Z) (counts : list Z) (h h' : Hier) : Prop := mkBuilt {
  bt_osz : 1 <= osz < 2 ^ 30;
  bt_counts : osz <= Z.of_nat (length counts);
  bt_inv : exists leaf node,
      Inv osz counts (2 * osz - 1) (tree h') leaf node;
  bt_paths : exists ps cs,
      paths h' = paths h ++ ps /\ codes h' = codes h ++ cs /\
      Z.of_nat (length ps) = osz /\ Z.of_nat (length cs) = osz /\
      forall c, 0 <= c < osz ->
        length (nth (Z.to_nat c) ps []) = length (nth (Z.to_nat c) cs []) /\
        descend (tree h') osz (2 * osz - 2) (rev (nth (Z.to_nat c) cs []))
          = Ok (c, rev (nth (Z.to_nat c) ps []))
}.

(** ** What a scoring strategy keeps

    The members that binaryLogistic, and with it negativeSampling,
    hierarchicalSoftmax and softmax, leave as they are, and the
    dimensions of those they update. *)
Record Kept (m m' : Model) : Prop := mkKept {
  kept_wi : wi_ m' = wi_ m;
  kept_hidden : hidden_ m' = hidden_ m;
  kept_isz : isz_ m' = isz_ m;
  kept_osz : osz_ m' = osz_ m;
  kept_hsz : hsz_ m' = hsz_ m;
  kept_lr : lr_ m' = lr_ m;
  kept_negatives : negatives m' = negatives m;
  kept_hier : hier m' = hier m;
  kept_wo_shape : map (@length R) (wo_ m') = map (@length R) (wo_ m);
  kept_grad_len : length (grad_ m') = length (grad_ m)
}.

(** ** What computeHidden computes *)

(** The sum, over the ids of [input], of coordinate [j] of their rows
    of [wi]. *)
Fixpoint col_sum (wi : Matrix) (input : list Z) (j : nat) : R :=
  match input with
  | [] => 0%R
  | it :: input' =>
      (nth j (nth (Z.to_nat it) wi []) 0 + col_sum wi input' j)%R
  end.

(** ** The best [k] of a list of pairs *)

(** [heap] holds [k] of the pairs of [all], or all of them when they
    are fewer, and no pair left out has a higher score than a pair
    kept. *)
Definition TopK (k : Z) (heap all : list (R * Z)) : Prop :=
  Z.of_nat (length heap) = Z.min k (Z.of_nat (length all)) /\
  exists rest,
    Permutation (heap ++ rest) all /\
    Forall (fun d => Forall (fun h => score_le d h) heap) rest.

(** The pairs [(output[i], i)] that findKBest offers, [i] counting
    from [i0]. *)
Fixpoint pairs_from (i0 : Z) (output : Vector) : list (R * Z) :=
  match output with
  | [] => []
  | o :: output' => (o, i0) :: pairs_from (i0 + 1) output'
  end.

(** ** What dfs visits *)

(** The leaves below [node], each with the score dfs has accumulated
    when it reaches it, the left subtree first: the score grows by
    [log (1 - f)] on the way to a left child and by [log f] on the way
    to a right child, [f] the sigmoid of the node's row of [wo_] times
    [hidden_] (lines 155-157). *)
Fixpoint leaf_scores (fuel : nat) (m : Model) (node : Z) (score : R)
  : list (R * Z) :=
  match fuel with
  | O => []
  | Datatypes.S fuel' =>
      let n := nd (tree (hier m)) node in
      if (left n =? -1) && (right n =? -1) then [(score, node)]
      else
        let f := sigmoid (dot (nth (Z.to_nat (node - osz_ m)) (wo_ m) [])
                              (hidden_ m)) in
        leaf_scores fuel' m (left n) (score + log (1 - f))%R ++
        leaf_scores fuel' m (right n) (score + log f)%R
  end.

(** The score of the pair that a descent ends with: [vis] holds the
    rows of [wo_] of the nodes passed and [bits] the turns taken. *)
Fixpoint path_score (m : Model) (vis : list Z) (bits : list bool) (s : R) : R :=
  match vis, bits with
  | v :: vis', b :: bits' =>
      let f := sigmoid (dot (nth (Z.to_nat v) (wo_ m) []) (hidden_ m)) in
      path_score m vis' bits' (s + log (if b then f else 1 - f))%R
  | _, _ => s
  end.

(** The score of class [c]: along its path from the root, the sum of
    [log f] at every right turn and [log (1 - f)] at every left turn. *)
Definition class_score (m : Model) (c : Z) : R :=
  path_score m (rev (nth (Z.to_nat c) (paths (hier m)) []))
             (rev (nth (Z.to_nat c) (codes (hier m)) [])) 0%R.

(** The classes [0 .. osz - 1]. *)
Definition classes (osz : Z) : list Z := map Z.of_nat (seq 0 (Z.to_nat osz)).

(** ** A model ready for training steps

    What update relies on besides its arguments: [wo_] has a row per
    class; with negative sampling, the negative table names classes
    only and the cursor is inside it; with hierarchical softmax, the
    tree is the one buildTree builds. *)
Record Ready (m : Model) : Prop := mkReady {
  ready_wo : Z.of_nat (length (wo_ m)) = osz_ m;
  ready_table : loss args = ns ->
      Forall (fun x => 0 <= x < osz_ m) (negatives m) /\
      0 <= negpos m < Z.of_nat (length (negatives m));
  ready_tree : loss args = hs ->
      exists fuel0 counts,
        buildTree fuel0 (osz_ m) counts fresh = Ok (hier m)
}.

(** ** Construction and learning rate *)

Variable MIN_LR : R.                  (* constant of model.h *)
Variable Vector_new : Z -> Vector.    (* [Vector(int64_t)] of vector.h *)

(** Lines 23-31, the constructor: [wi.m_] and [wo.m_] are the numbers
    of rows of the matrices; [seed] only starts the generator that
    [std::shuffle] draws from; the vectors of the tree and of the
    negative table start empty. *)
Definition Model_new (wi wo : Matrix) (hsz : Z) (lr : R) (seed : Z) : Model :=
  mkModel wi wo (Vector_new hsz) (Vector_new (Z.of_nat (length wo)))
          (Vector_new hsz)
          (Z.of_nat (length wi)) (Z.of_nat (length wo)) hsz lr 0 [] fresh.

Definition set_lr (x : R) (m : Model) : Model :=
  mkModel (wi_ m) (wo_ m) (hidden_ m) (output_ m) (grad_ m) (isz_ m) (osz_ m)
          (hsz_ m) x (negpos m) (negatives m) (hier m).

(** Lines 33-35. *)
Definition setLearningRate (lr : R) (m : Model) : Model :=
  set_lr (if Rltb lr MIN_LR then MIN_LR else lr) m.

(** Lines 37-39. *)
Definition getLearningRate (m : Model) : R := lr_ m.

(** The step of class [j] in softmax (lines 89-91): the learning rate
    times the label of the class minus its probability in [out]. *)
Definition softmax_alpha (lr : R) (target : Z) (out : Vector) (j : Z) : R :=
  (lr * ((if j =? target then 1 else 0) - nth (Z.to_nat j) out 0))%R.

(** ** The order in which the merge loop takes nodes

    The leaves are taken from the highest index down and the internal
    nodes from the lowest index up, so among the leaves taken a higher
    index means an earlier parent, and among the internal nodes taken a
    lower index does. *)
Record Taken (osz i : Z) (t : list Node) (leaf node : Z) : Prop := mkTaken {
  tk_leaf : -1 <= leaf < osz;
  tk_node : osz <= node;
  tk_leaves : forall a b, leaf < a -> a <= b -> b < osz ->
      parent (nd t b) <= parent (nd t a);
  tk_nodes : forall a b, osz <= a -> a <= b -> b < node ->
      parent (nd t a) <= parent (nd t b);
  tk_before : forall j, leaf < j < node -> parent (nd t j) < i
}.

(** [Depth t j k]: node [j] is [k] parent links below a node without
    parent. *)
Inductive Depth (t : list Node) : Z -> nat -> Prop :=
| Depth_top (j : Z) : parent (nd t j) = -1 -> Depth t j 0
| Depth_up (j : Z) (k : nat) :
    parent (nd t j) <> -1 -> Depth t (parent (nd t j)) k ->
    Depth t j (Datatypes.S k).

(** The sum of a list of integers. *)
Definition Zsum (l : list Z) : Z := fold_right Z.add 0 l.

(** The leaves below [node], the left subtree first. *)
Fixpoint leaves_under (fuel : nat) (t : list Node) (node : Z) : list Z :=
  match fuel with
  | O => []
  | Datatypes.S fuel' =>
      let n := nd t node in
      if (left n =? -1) && (right n =? -1) then [node]
      else leaves_under fuel' t (left n) ++ leaves_under fuel' t (right n)
  end.

(** ** The counts of the nodes as integers

    [weight] reads a count as an integer and [total] is what the
    classes weigh together.  Before iteration [i] no node weighs less
    than 0, an internal node weighs what its two children weigh
    together, and the nodes without parent (the leaves up to [leaf]
    and the internal nodes from [node] on) weigh [total] together: a
    merge never adds up more than [total]. *)
Record Weighed (weight : W -> Z) (total : Z) (osz i : Z) (t : list Node)
       (leaf node : Z) : Prop := mkWeighed {
  wg_nonneg : forall x, 0 <= x < i -> 0 <= weight (count (nd t x));
  wg_created : forall a, osz <= a < i ->
      weight (count (nd t a)) =
      weight (count (nd t (left (nd t a))))
      + weight (count (nd t (right (nd t a))));
  wg_sum :
      range_sum (fun x => weight (count (nd t x))) 0 (Z.to_nat (leaf + 1))
      + range_sum (fun x => weight (count (nd t x))) node (Z.to_nat (i - node))
      = total
}.

(** ** The merge loop on a table in non-increasing order

    [weight] reads a count as an integer.  Before iteration [i] the
    nodes without parent are the leaves up to [leaf] and the internal
    nodes from [node] on.  The internal nodes were created in
    non-decreasing order of count, and the two children of each are no
    heavier than any node that was without parent once the node was
    created. *)
Record Greedy (weight : W -> Z) (osz i : Z) (t : list Node) (leaf node : Z)
  : Prop := mkGreedy {
  gr_nonneg : forall x, 0 <= x < i -> 0 <= weight (count (nd t x));
  gr_sorted : forall a b, osz <= a -> a <= b -> b < i ->
      weight (count (nd t a)) <= weight (count (nd t b));
  gr_order : forall a, osz <= a < i ->
      weight (count (nd t (left (nd t a))))
      <= weight (count (nd t (right (nd t a))));
  gr_avail : forall a x, osz <= a < i ->
      0 <= x <= leaf \/ node <= x < i ->
      weight (count (nd t (right (nd t a)))) <= weight (count (nd t x));
  gr_later : forall a x, osz <= a < i -> 0 <= x < a ->
      a < parent (nd t x) ->
      weight (count (nd t (right (nd t a)))) <= weight (count (nd t x))
}.

(** * Properties *)

(** ** The result monad and the loops *)

Lemma bind_Ok_inv {A B : Type} (m : result A) (k : A -> result B) (b : B) :
  bind m k = Ok b -> exists a, m = Ok a /\ k a = Ok b.
Proof.
  destruct m as [a|e]; simpl; intros H; [exists a; auto | discriminate].
Qed.

Lemma for_loop_inv {S : Type} (P : Z -> S -> Prop)
      (body : Z -> S -> result S) (n : nat) :
  forall (i : Z) (s : S),
    P i s ->
    (forall k s0, i <= k < i + Z.of_nat n -> P k s0 ->
                  exists s1, body k s0 = Ok s1 /\ P (k + 1) s1) ->
    exists s', for_loop n i body s = Ok s' /\ P (i + Z.of_nat n) s'.
Proof.
  induction n as [|n IH]; intros i s HP Hstep.
  - exists s. simpl. rewrite Z.add_0_r. auto.
  - destruct (Hstep i s ltac:(lia) HP) as (s1 & Hb & HP1).
    destruct (IH (i + 1) s1 HP1) as (s' & Hl & HP').
    + intros k s0 Hk. apply Hstep. lia.
    + exists s'. cbn [for_loop]. rewrite Hb. cbn [bind]. split; [exact Hl|].
      replace (i + Z.of_nat (Datatypes.S n)) with (i + 1 + Z.of_nat n) by lia.
      exact HP'.
Qed.

Lemma for_range_inv {S : Type} (P : Z -> S -> Prop)
      (body : Z -> S -> result S) (lo hi : Z) (s : S) :
  lo <= hi ->
  P lo s ->
  (forall k s0, lo <= k < hi -> P k s0 ->
                exists s1, body k s0 = Ok s1 /\ P (k + 1) s1) ->
  exists s', for_range lo hi body s = Ok s' /\ P hi s'.
Proof.
  intros Hle HP Hstep. unfold for_range.
  destruct (for_loop_inv P body (Z.to_nat (hi - lo)) lo s HP) as (s' & H1 & H2).
  - intros k s0 Hk. apply Hstep. lia.
  - exists s'. split; [exact H1|].
    replace hi with (lo + Z.of_nat (Z.to_nat (hi - lo))) at 1 by lia. exact H2.
Qed.

Lemma for_loop_sound {S : Type} (P : Z -> S -> Prop)
      (body : Z -> S -> result S) (n : nat) :
  forall (i : Z) (s s' : S),
    for_loop n i body s = Ok s' ->
    P i s ->
    (forall k s0 s1, i <= k < i + Z.of_nat n -> P k s0 ->
                     body k s0 = Ok s1 -> P (k + 1) s1) ->
    P (i + Z.of_nat n) s'.
Proof.
  induction n as [|n IH]; intros i s s' Hrun HP Hstep.
  - cbn in Hrun. injection Hrun as <-. rewrite Z.add_0_r. exact HP.
  - cbn [for_loop] in Hrun. apply bind_Ok_inv in Hrun.
    destruct Hrun as (s1 & Hb & Hrun).
    replace (i + Z.of_nat (Datatypes.S n)) with (i + 1 + Z.of_nat n) by lia.
    apply (IH (i + 1) s1 s' Hrun).
    + apply (Hstep i s s1); [lia|exact HP|exact Hb].
    + intros k s0 s2 Hk. apply Hstep. lia.
Qed.

Lemma for_range_sound {S : Type} (P : Z -> S -> Prop)
      (body : Z -> S -> result S) (lo hi : Z) (s s' : S) :
  lo <= hi ->
  for_range lo hi body s = Ok s' ->
  P lo s ->
  (forall k s0 s1, lo <= k < hi -> P k s0 ->
                   body k s0 = Ok s1 -> P (k + 1) s1) ->
  P hi s'.
Proof.
  intros Hle Hrun HP Hstep. unfold for_range in Hrun.
  replace hi with (lo + Z.of_nat (Z.to_nat (hi - lo))) at 1 by lia.
  apply (for_loop_sound P body _ lo s s' Hrun HP).
  intros k s0 s1 Hk. apply Hstep. lia.
Qed.

(** A loop that finishes has run its body at every index. *)
Lemma for_range_body_Ok {S : Type} (body : Z -> S -> result S)
      (lo hi : Z) (s s' : S) :
  lo <= hi ->
  for_range lo hi body s = Ok s' ->
  forall k, lo <= k < hi -> exists s0 s1, body k s0 = Ok s1.
Proof.
  intros Hle Hrun.
  pose (P := fun (i : Z) (_ : S) =>
               forall k, lo <= k < i -> exists s0 s1, body k s0 = Ok s1).
  apply (for_range_sound P body lo hi s s' Hle Hrun).
  - intros k Hk. lia.
  - intros i s0 s1 Hi HP Hb k Hk.
    destruct (Z.eq_dec k i) as [->|Hne]; [eauto|]. apply HP. lia.
Qed.

(** ** Indexing *)

Lemma get_Ok {A : Type} (v : list A) (i : Z) (d : A) :
  0 <= i < Z.of_nat (length v) -> get v i = Ok (nth (Z.to_nat i) v d).
Proof.
  intros Hi. unfold get.
  destruct (i <? 0) eqn:E; [apply Z.ltb_lt in E; lia|].
  destruct (nth_error v (Z.to_nat i)) as [a|] eqn:En.
  - f_equal. symmetry. apply nth_error_nth. exact En.
  - apply nth_error_None in En. lia.
Qed.

Lemma get_Ok_inv {A : Type} (v : list A) (i : Z) (a d : A) :
  get v i = Ok a -> 0 <= i < Z.of_nat (length v) /\ a = nth (Z.to_nat i) v d.
Proof.
  unfold get. destruct (i <? 0) eqn:E; [discriminate|].
  apply Z.ltb_ge in E.
  destruct (nth_error v (Z.to_nat i)) as [b|] eqn:En; [|discriminate].
  intros H; injection H as <-.
  assert (Hlt : (Z.to_nat i < length v)%nat)
    by (apply nth_error_Some; congruence).
  split; [lia|]. symmetry. apply nth_error_nth. exact En.
Qed.

Lemma get_Err {A : Type} (v : list A) (i : Z) :
  Z.of_nat (length v) <= i -> get v i = Err OutOfBounds.
Proof.
  intros Hi. unfold get.
  destruct (i <? 0) eqn:E; [reflexivity|].
  destruct (nth_error v (Z.to_nat i)) eqn:En; [|reflexivity].
  assert ((Z.to_nat i < length v)%nat) by (apply nth_error_Some; congruence).
  lia.
Qed.

Lemma upd_nat_length {A : Type} (f : A -> A) (v : list A) :
  forall n, length (upd_nat v n f) = length v.
Proof.
  induction v as [|a v IH]; intros [|n]; simpl; auto.
Qed.

Lemma upd_nat_nth {A : Type} (f : A -> A) (d : A) (v : list A) :
  forall n m, (n < length v)%nat ->
    nth m (upd_nat v n f) d = if Nat.eqb m n then f (nth m v d) else nth m v d.
Proof.
  induction v as [|a v IH]; intros n m Hn; simpl in Hn; [lia|].
  destruct n as [|n]; destruct m as [|m]; simpl; auto.
  apply IH. lia.
Qed.

Lemma modify_Ok {A : Type} (v : list A) (i : Z) (f : A -> A) :
  0 <= i < Z.of_nat (length v) ->
  modify v i f = Ok (upd_nat v (Z.to_nat i) f).
Proof.
  intros Hi. unfold modify.
  destruct (i <? 0) eqn:E1; [apply Z.ltb_lt in E1; lia|].
  destruct (Z.of_nat (length v) <=? i) eqn:E2; [apply Z.leb_le in E2; lia|].
  reflexivity.
Qed.

Lemma get_upd_nat {A : Type} (v : list A) (k : Z) (g : A -> A) (d : A) :
  0 <= k < Z.of_nat (length v) ->
  get (upd_nat v (Z.to_nat k) g) k = Ok (g (nth (Z.to_nat k) v d)).
Proof.
  intros Hk. rewrite (get_Ok _ _ d) by (rewrite upd_nat_length; exact Hk).
  rewrite upd_nat_nth by lia. rewrite Nat.eqb_refl. reflexivity.
Qed.

Lemma modify_Ok_inv {A : Type} (v v' : list A) (i : Z) (f : A -> A) :
  modify v i f = Ok v' ->
  0 <= i < Z.of_nat (length v) /\ v' = upd_nat v (Z.to_nat i) f.
Proof.
  unfold modify.
  destruct (i <? 0) eqn:E1; [discriminate|].
  destruct (Z.of_nat (length v) <=? i) eqn:E2; [discriminate|].
  apply Z.ltb_ge in E1. apply Z.leb_gt in E2.
  simpl. intros H; injection H as <-. split; [lia|reflexivity].
Qed.




(** ** [int32_t] expressions *)

Lemma int32_Ok (x : Z) : INT32_MIN <= x <= INT32_MAX -> int32 x = Ok x.
Proof.
  intros H. unfold int32.
  destruct (Z.ltb_spec x INT32_MIN); [lia|].
  destruct (Z.ltb_spec INT32_MAX x); [lia|]. reflexivity.
Qed.

Lemma int32_Err (x : Z) :
  ~ INT32_MIN <= x <= INT32_MAX -> int32 x = Err Overflow.
Proof.
  intros H. unfold int32.
  destruct (Z.ltb_spec x INT32_MIN); [reflexivity|].
  destruct (Z.ltb_spec INT32_MAX x); [reflexivity|lia].
Qed.

Lemma int32_Ok_inv (x y : Z) :
  int32 x = Ok y -> y = x /\ INT32_MIN <= x <= INT32_MAX.
Proof.
  unfold int32.
  destruct (Z.ltb_spec x INT32_MIN); [discriminate|].
  destruct (Z.ltb_spec INT32_MAX x); [discriminate|].
  cbn [orb]. intros E. injection E as <-. lia.
Qed.

Lemma int32_bounds : INT32_MIN = - 2147483648 /\ INT32_MAX = 2147483647.
Proof. split; reflexivity. Qed.

(** ** The merge loop of buildTree *)

Lemma nd_upd (t : list Node) (k j : Z) (f : Node -> Node) :
  0 <= k < Z.of_nat (length t) -> 0 <= j ->
  nd (upd_nat t (Z.to_nat k) f) j = if j =? k then f (nd t j) else nd t j.
Proof.
  intros Hk Hj. unfold nd. rewrite upd_nat_nth by lia.
  destruct (Z.eqb_spec j k) as [->|Hne].
  - rewrite Nat.eqb_refl. reflexivity.
  - destruct (Nat.eqb_spec (Z.to_nat j) (Z.to_nat k)); [lia|reflexivity].
Qed.

Lemma get_nd (t : list Node) (j : Z) :
  0 <= j < Z.of_nat (length t) -> get t j = Ok (nd t j).
Proof. intros H. apply get_Ok. exact H. Qed.

Lemma get_nd_inv (t : list Node) (j : Z) (n : Node) :
  get t j = Ok n -> 0 <= j < Z.of_nat (length t) /\ n = nd t j.
Proof. apply get_Ok_inv. Qed.

Lemma pick_inv (t : list Node) (leaf node m leaf' node' : Z) :
  pick t leaf node = Ok (m, leaf', node') ->
  (m = leaf /\ 0 <= leaf /\ leaf' = leaf - 1 /\ node' = node /\
   0 <= node < Z.of_nat (length t) /\
   wlt (count (nd t leaf)) (count (nd t node)) = true) \/
  (m = node /\ leaf' = leaf /\ node' = node + 1 /\
   (0 <= leaf -> 0 <= node < Z.of_nat (length t) /\
                 wlt (count (nd t leaf)) (count (nd t node)) = false)).
Proof.
  unfold pick. destruct (0 <=? leaf) eqn:E.
  - apply Z.leb_le in E. intros H.
    apply bind_Ok_inv in H. destruct H as (lf & Hlf & H).
    apply bind_Ok_inv in H. destruct H as (n & Hn & H).
    apply get_nd_inv in Hlf. apply get_nd_inv in Hn.
    destruct Hlf as [Hl ->]. destruct Hn as [Hn ->].
    destruct (wlt (count (nd t leaf)) (count (nd t node))) eqn:Ew;
      injection H as <- <- <-; [left|right]; repeat split; auto; lia.
  - apply Z.leb_gt in E. intros H. injection H as <- <- <-.
    right. repeat split; lia.
Qed.

Lemma pick_spec (osz i : Z) (t : list Node) (leaf node : Z) :
  Z.of_nat (length t) = 2 * osz - 1 ->
  -1 <= leaf < osz -> osz <= node <= i -> i <= 2 * osz - 2 ->
  (forall j, 0 <= j < osz -> wlt (count (nd t j)) sentinel = true) ->
  count (nd t i) = sentinel ->
  1 <= leaf + 1 + (i - node) ->
  exists m leaf' node',
    pick t leaf node = Ok (m, leaf', node') /\ m < i.
Proof.
  intros Hlen Hleaf Hnode Hi Hlt Hfut Hrem. unfold pick.
  destruct (0 <=? leaf) eqn:E.
  - apply Z.leb_le in E.
    rewrite (get_nd t leaf) by lia. rewrite (get_nd t node) by lia.
    cbn [bind].
    destruct (wlt (count (nd t leaf)) (count (nd t node))) eqn:Ew.
    + exists leaf, (leaf - 1), node. split; [reflexivity|]. lia.
    + exists node, leaf, (node + 1). split; [reflexivity|].
      destruct (Z.eq_dec node i) as [->|]; [|lia].
      rewrite Hfut, Hlt in Ew by lia. discriminate.
  - apply Z.leb_gt in E.
    exists node, leaf, (node + 1). split; [reflexivity|]. lia.
Qed.

Lemma leaf_below (osz : Z) (counts : list Z) (i : Z)
      (t : list Node) (leaf node : Z) :
  below_sentinel counts -> osz <= Z.of_nat (length counts) ->
  Inv osz counts i t leaf node ->
  forall j, 0 <= j < osz -> wlt (count (nd t j)) sentinel = true.
Proof.
  intros Hb Hc HI j Hj.
  destruct (inv_leaves _ _ _ _ _ _ HI j Hj) as (_ & _ & ->).
  unfold below_sentinel in Hb. rewrite Forall_nth in Hb. apply Hb. lia.
Qed.

(** One iteration, given its two picks. *)
Lemma merge_step_eval (i : Z) (t : list Node)
      (leaf node m0 leaf1 node1 m1 leaf2 node2 : Z) :
  pick t leaf node = Ok (m0, leaf1, node1) ->
  pick t leaf1 node1 = Ok (m1, leaf2, node2) ->
  0 <= i < Z.of_nat (length t) ->
  0 <= m0 < Z.of_nat (length t) ->
  0 <= m1 < Z.of_nat (length t) ->
  exists t',
    merge_step i (t, leaf, node) = Ok (t', leaf2, node2) /\
    length t' = length t /\
    forall j, 0 <= j ->
      nd t' j =
        step_node i m0 m1 (wadd (count (nd t m0)) (count (nd t m1))) j (nd t j).
Proof.
  intros Hp0 Hp1 Hi Hm0 Hm1.
  unfold merge_step. rewrite Hp0. cbn [bind]. rewrite Hp1. cbn [bind].
  rewrite modify_Ok by lia. cbn [bind].
  rewrite modify_Ok by (rewrite upd_nat_length; lia). cbn [bind].
  rewrite !get_nd by (rewrite !upd_nat_length; lia). cbn [bind].
  rewrite modify_Ok by (rewrite !upd_nat_length; lia). cbn [bind].
  rewrite modify_Ok by (rewrite !upd_nat_length; lia). cbn [bind].
  rewrite modify_Ok by (rewrite !upd_nat_length; lia). cbn [bind].
  rewrite modify_Ok by (rewrite !upd_nat_length; lia). cbn [bind].
  eexists. split; [reflexivity|].
  split; [rewrite !upd_nat_length; reflexivity|].
  intros j Hj. unfold step_node.
  rewrite !nd_upd by (rewrite ?upd_nat_length; lia).
  destruct (Z.eqb_spec j i);
    destruct (Z.eqb_spec m0 i); destruct (Z.eqb_spec m1 i);
    destruct (Z.eqb_spec j m0); destruct (Z.eqb_spec j m1);
    try lia; try reflexivity.
Qed.

(** A finished iteration made two picks with indices inside the tree. *)
Lemma merge_step_Ok_inv (i : Z) (t t' : list Node) (leaf node leaf2 node2 : Z) :
  merge_step i (t, leaf, node) = Ok (t', leaf2, node2) ->
  exists m0 leaf1 node1 m1,
    pick t leaf node = Ok (m0, leaf1, node1) /\
    pick t leaf1 node1 = Ok (m1, leaf2, node2) /\
    0 <= i < Z.of_nat (length t) /\
    0 <= m0 < Z.of_nat (length t) /\
    0 <= m1 < Z.of_nat (length t).
Proof using W sentinel wadd wlt.
  unfold merge_step. intros H.
  apply bind_Ok_inv in H. destruct H as ([[m0 leaf1] node1] & Hp0 & H).
  apply bind_Ok_inv in H. destruct H as ([[m1 leaf2'] node2'] & Hp1 & H).
  apply bind_Ok_inv in H. destruct H as (t1 & H1 & H).
  apply bind_Ok_inv in H. destruct H as (t2 & H2 & H).
  apply bind_Ok_inv in H. destruct H as (a & Ha & H).
  apply bind_Ok_inv in H. destruct H as (b & Hb & H).
  apply bind_Ok_inv in H. destruct H as (t3 & H3 & H).
  apply bind_Ok_inv in H. destruct H as (t4 & H4 & H).
  apply bind_Ok_inv in H. destruct H as (t5 & H5 & H).
  apply bind_Ok_inv in H. destruct H as (t6 & H6 & H).
  injection H as <- <- <-.
  apply modify_Ok_inv in H1. destruct H1 as [Hi ->].
  apply modify_Ok_inv in H2. destruct H2 as [_ ->].
  apply get_nd_inv in Ha. destruct Ha as [Hm0 _].
  apply get_nd_inv in Hb. destruct Hb as [Hm1 _].
  rewrite !upd_nat_length in Hm0, Hm1.
  exists m0, leaf1, node1, m1. auto.
Qed.

Ltac decide_eqb :=
  repeat match goal with
         | |- context [Z.eqb ?a ?b] =>
             destruct (Z.eqb_spec a b); [try lia; subst | ]
         end.

Lemma range_sum_ext (f g : Z -> Z) (n : nat) :
  forall lo, (forall j, lo <= j < lo + Z.of_nat n -> f j = g j) ->
             range_sum f lo n = range_sum g lo n.
Proof.
  induction n as [|n IH]; intros lo H; [reflexivity|].
  cbn [range_sum]. rewrite (H lo) by lia. rewrite (IH (lo + 1)); [reflexivity|].
  intros j Hj. apply H. lia.
Qed.

Lemma range_sum_snoc (f : Z -> Z) (n : nat) :
  forall lo, range_sum f lo (n + 1) = range_sum f lo n + f (lo + Z.of_nat n).
Proof.
  induction n as [|n IH]; intros lo.
  - cbn [range_sum Nat.add Z.of_nat]. replace (lo + 0) with lo by lia. lia.
  - cbn [range_sum Nat.add]. rewrite IH.
    replace (lo + 1 + Z.of_nat n) with (lo + Z.of_nat (Datatypes.S n)) by lia.
    lia.
Qed.

Lemma range_sum_cons (f : Z -> Z) (lo : Z) (n : nat) :
  (0 < n)%nat -> range_sum f lo n = f lo + range_sum f (lo + 1) (Nat.pred n).
Proof. intros Hn. destruct n as [|n]; [lia|reflexivity]. Qed.

(** An iteration that picks two nodes below [i] keeps the invariant. *)
Lemma Inv_step (osz : Z) (counts : list Z) (i : Z) (t t' : list Node)
      (leaf node m0 leaf1 node1 m1 leaf' node' : Z) :
  osz <= i <= 2 * osz - 2 ->
  Inv osz counts i t leaf node ->
  pick t leaf node = Ok (m0, leaf1, node1) ->
  pick t leaf1 node1 = Ok (m1, leaf', node') ->
  m0 < i -> m1 < i ->
  length t' = length t ->
  (forall j, 0 <= j ->
     nd t' j =
       step_node i m0 m1 (wadd (count (nd t m0)) (count (nd t m1))) j (nd t j)) ->
  Inv osz counts (i + 1) t' leaf' node'.
Proof.
  intros Hi HI Hp0 Hp1 Hlt0 Hlt1 Hlen' Hnd.
  destruct HI as [Hlen Hleaf Hnode Hnlt Hrem Hleaves Hfut Hcre Hpick Hunp Hcnt].
  apply pick_inv in Hp0. apply pick_inv in Hp1.
  assert (Ha0 : 0 <= m0 <= leaf \/ node <= m0 < i) by lia.
  assert (Ha1 : 0 <= m1 <= leaf \/ node <= m1 < i) by lia.
  assert (Hne : m0 <> m1) by lia.
  assert (Hl' : -1 <= leaf' <= leaf) by lia.
  assert (Hn' : node <= node' <= i) by lia.
  assert (Hiff : forall j, leaf' < j < node' <->
                           (leaf < j < node \/ j = m0 \/ j = m1)) by (intros; lia).
  assert (Hrem' : leaf' + 1 + (i - node') + 2 = leaf + 1 + (i - node)) by lia.
  assert (Hpk0 : leaf' < m0 < node') by lia.
  assert (Hpk1 : leaf' < m1 < node') by lia.
  assert (Hcase :
            (m0 = leaf /\ m1 = leaf - 1 /\ leaf' = leaf - 2 /\ node' = node) \/
            (m0 = leaf /\ m1 = node /\ leaf' = leaf - 1 /\ node' = node + 1) \/
            (m0 = node /\ m1 = leaf /\ leaf' = leaf - 1 /\ node' = node + 1) \/
            (m0 = node /\ m1 = node + 1 /\ leaf' = leaf /\ node' = node + 2)).
  { destruct Hp0 as [(E1 & E2 & E3 & E4 & _)|(E1 & E2 & E3 & _)];
      destruct Hp1 as [(F1 & F2 & F3 & F4 & _)|(F1 & F2 & F3 & _)].
    - left. lia.
    - right. left. lia.
    - right. right. left. lia.
    - right. right. right. lia. }
  clear Hp0 Hp1.
  assert (Hfi : nd t i = blank) by (apply Hfut; lia).
  assert (Hu0 : parent (nd t m0) = -1 /\ binary (nd t m0) = false)
    by (apply Hunp; lia).
  assert (Hu1 : parent (nd t m1) = -1 /\ binary (nd t m1) = false)
    by (apply Hunp; lia).
  assert (Hsame : forall j, 0 <= j -> j <> i -> j <> m0 -> j <> m1 ->
                            nd t' j = nd t j).
  { intros j Hj N1 N2 N3. rewrite Hnd by lia. unfold step_node.
    decide_eqb. reflexivity. }
  assert (Hlrc : forall j, 0 <= j -> j <> i ->
                   left (nd t' j) = left (nd t j) /\
                   right (nd t' j) = right (nd t j) /\
                   count (nd t' j) = count (nd t j)).
  { intros j Hj N1. rewrite Hnd by lia. unfold step_node.
    decide_eqb; cbn; auto. }
  assert (Hni : nd t' i =
                mkNode (-1) m0 m1 (wadd (count (nd t m0)) (count (nd t m1))) false).
  { rewrite Hnd by lia. unfold step_node. rewrite Z.eqb_refl.
    destruct (Z.eqb_spec i m0); [lia|]. destruct (Z.eqb_spec i m1); [lia|].
    rewrite Hfi. reflexivity. }
  assert (Hn0 : nd t' m0 = set_parent i (nd t m0)).
  { rewrite Hnd by lia. unfold step_node.
    destruct (Z.eqb_spec m0 i); [lia|]. rewrite Z.eqb_refl.
    destruct (Z.eqb_spec m0 m1); [lia|]. reflexivity. }
  assert (Hn1 : nd t' m1 = set_binary true (set_parent i (nd t m1))).
  { rewrite Hnd by lia. unfold step_node.
    destruct (Z.eqb_spec m1 i); [lia|]. rewrite Z.eqb_refl.
    destruct (Z.eqb_spec m1 m0); [lia|]. reflexivity. }
  constructor.
  - lia.
  - lia.
  - lia.
  - lia.
  - lia.
  - intros j Hj. destruct (Hlrc j ltac:(lia) ltac:(lia)) as (-> & -> & ->).
    apply Hleaves. exact Hj.
  - intros j Hj. rewrite Hsame by lia. apply Hfut. lia.
  - intros n Hn.
    destruct (Z.eq_dec n i) as [->|Hni'].
    + rewrite Hni. cbn [left right count]. rewrite Hn0, Hn1. cbn.
      repeat split; try lia; solve [apply Hu0 | apply Hu1].
    + destruct (Hcre n ltac:(lia)) as (A1 & A2 & A3 & A4 & A5 & A6 & A7 & A8).
      destruct (Hlrc n ltac:(lia) Hni') as (-> & -> & ->).
      assert (L0 : left (nd t n) <> m0) by (intros E; rewrite E in A4; lia).
      assert (L1 : left (nd t n) <> m1) by (intros E; rewrite E in A4; lia).
      assert (R0 : right (nd t n) <> m0) by (intros E; rewrite E in A5; lia).
      assert (R1 : right (nd t n) <> m1) by (intros E; rewrite E in A5; lia).
      rewrite (Hsame (left (nd t n))) by lia.
      rewrite (Hsame (right (nd t n))) by lia.
      repeat split; try lia; assumption.
  - intros j Hj.
    destruct (Z.eq_dec j m0) as [->|Hj0];
      [|destruct (Z.eq_dec j m1) as [->|Hj1]].
    + rewrite Hn0. cbn [parent set_parent]. rewrite Hni. cbn. lia.
    + rewrite Hn1. cbn [parent set_parent set_binary]. rewrite Hni. cbn. lia.
    + assert (Hold : leaf < j < node) by (apply Hiff in Hj; lia).
      destruct (Hpick j Hold) as (B1 & B2 & B3).
      rewrite (Hsame j) by lia.
      destruct (Hlrc (parent (nd t j)) ltac:(lia) ltac:(lia)) as (-> & -> & _).
      repeat split; try lia; assumption.
  - intros j Hj.
    destruct (Z.eq_dec j i) as [->|Hji]; [rewrite Hni; cbn; auto|].
    rewrite Hsame by lia. apply Hunp. lia.
  - destruct Hcnt as (cnt & Hc1 & Hc2 & Hc3).
    set (cnt' := fun j => if j =? i then cnt m0 + cnt m1 else cnt j).
    assert (Hold : forall j, j < i -> cnt' j = cnt j).
    { intros j Hj. unfold cnt'. destruct (Z.eqb_spec j i); [lia|reflexivity]. }
    exists cnt'. split; [|split].
    + intros j Hj. rewrite Hold by lia. apply Hc1. exact Hj.
    + intros n Hn. destruct (Z.eq_dec n i) as [->|Hni'].
      * rewrite Hni. cbn [left right].
        rewrite (Hold m0), (Hold m1) by lia.
        unfold cnt'. rewrite Z.eqb_refl. reflexivity.
      * destruct (Hcre n ltac:(lia)) as (A1 & A2 & _).
        destruct (Hlrc n ltac:(lia) Hni') as (-> & -> & _).
        rewrite (Hold n), (Hold (left (nd t n))), (Hold (right (nd t n))) by lia.
        apply Hc2. lia.
    + replace (Z.to_nat (i + 1 - node'))
        with (Z.to_nat (i - node') + 1)%nat by lia.
      rewrite range_sum_snoc.
      replace (node' + Z.of_nat (Z.to_nat (i - node'))) with i by lia.
      rewrite (range_sum_ext cnt' cnt) by (intros j Hj; apply Hold; lia).
      unfold cnt' at 1. rewrite Z.eqb_refl.
      destruct Hcase as [(-> & -> & -> & ->)|[(-> & -> & -> & ->)|
                         [(-> & -> & -> & ->)|(-> & -> & -> & ->)]]].
      * rewrite !Hc1 by lia. lia.
      * rewrite (Hc1 leaf) by lia.
        rewrite (range_sum_cons cnt node (Z.to_nat (i - node))) in Hc3 by lia.
        replace (Z.to_nat (i - (node + 1)))
          with (Nat.pred (Z.to_nat (i - node))) by lia.
        lia.
      * rewrite (Hc1 leaf) by lia.
        rewrite (range_sum_cons cnt node (Z.to_nat (i - node))) in Hc3 by lia.
        replace (Z.to_nat (i - (node + 1)))
          with (Nat.pred (Z.to_nat (i - node))) by lia.
        lia.
      * rewrite (range_sum_cons cnt node (Z.to_nat (i - node))) in Hc3 by lia.
        rewrite (range_sum_cons cnt (node + 1) (Nat.pred (Z.to_nat (i - node))))
          in Hc3 by lia.
        replace (node + 1 + 1) with (node + 2) in Hc3 by lia.
        replace (Z.to_nat (i - (node + 2)))
          with (Nat.pred (Nat.pred (Z.to_nat (i - node)))) by lia.
        lia.
Qed.

Lemma merge_step_Inv (osz : Z) (counts : list Z) (i : Z)
      (t : list Node) (leaf node : Z) :
  below_sentinel counts -> osz <= Z.of_nat (length counts) ->
  osz <= i <= 2 * osz - 2 ->
  Inv osz counts i t leaf node ->
  exists t' leaf' node',
    merge_step i (t, leaf, node) = Ok (t', leaf', node') /\
    Inv osz counts (i + 1) t' leaf' node'.
Proof.
  intros Hb Hc Hi HI.
  pose proof (leaf_below _ _ _ _ _ _ Hb Hc HI) as Hlt.
  pose proof (inv_len _ _ _ _ _ _ HI) as Hlen.
  pose proof (inv_leaf _ _ _ _ _ _ HI) as Hleaf.
  pose proof (inv_node _ _ _ _ _ _ HI) as Hnode.
  pose proof (inv_remaining _ _ _ _ _ _ HI) as Hrem.
  assert (Hci : count (nd t i) = sentinel)
    by (rewrite (inv_future _ _ _ _ _ _ HI) by lia; reflexivity).
  destruct (pick_spec osz i t leaf node Hlen Hleaf Hnode ltac:(lia) Hlt Hci
                      ltac:(lia)) as (m0 & leaf1 & node1 & Hp0 & Hm0).
  pose proof (pick_inv _ _ _ _ _ _ Hp0) as Hc0.
  destruct (pick_spec osz i t leaf1 node1 Hlen ltac:(lia) ltac:(lia) ltac:(lia)
                      Hlt Hci ltac:(lia)) as (m1 & leaf2 & node2 & Hp1 & Hm1).
  pose proof (pick_inv _ _ _ _ _ _ Hp1) as Hc1.
  destruct (merge_step_eval i t leaf node m0 leaf1 node1 m1 leaf2 node2 Hp0 Hp1
              ltac:(lia) ltac:(lia) ltac:(lia)) as (t' & Hs & Hlen' & Hnd).
  exists t', leaf2, node2. split; [exact Hs|].
  eapply Inv_step; eauto.
Qed.

(** *** Runs that leave the invariant do not finish *)

Lemma under_nonneg (t : list Node) (x y : Z) :
  under t x y -> 0 <= x -> 0 <= y.
Proof. intros H Hx. destruct H; lia. Qed.

Lemma under_trans (t : list Node) (x y z : Z) :
  under t x y -> under t z x -> under t z y.
Proof.
  intros H Hz. induction H as [|y Hy H IH]; [exact Hz|].
  apply under_child; assumption.
Qed.

(** Picking the node under construction as the first child. *)
Lemma Ahead_enter (osz : Z) (counts : list Z) (i : Z) (t t' : list Node)
      (leaf node leaf1 node1 m1 leaf' node' : Z) :
  osz <= i <= 2 * osz - 2 ->
  Inv osz counts i t leaf node ->
  pick t leaf node = Ok (i, leaf1, node1) ->
  pick t leaf1 node1 = Ok (m1, leaf', node') ->
  length t' = length t ->
  (forall j, 0 <= j ->
     nd t' j =
       step_node i i m1 (wadd (count (nd t i)) (count (nd t m1))) j (nd t j)) ->
  Ahead osz (i + 1) t' leaf' node'.
Proof.
  intros Hi HI Hp0 Hp1 Hlen' Hnd.
  destruct HI as [Hlen Hleaf Hnode Hnlt Hrem Hleaves Hfut Hcre Hpick Hunp Hcnt].
  apply pick_inv in Hp0. apply pick_inv in Hp1.
  assert (Hfi : nd t i = blank) by (apply Hfut; lia).
  destruct Hp0 as [Hp0|(E0 & -> & -> & Hw0)]; [lia|].
  subst node. assert (Hl0 : 0 <= leaf) by lia.
  destruct (Hw0 Hl0) as (_ & Hw). rewrite Hfi in Hw. cbn [count blank] in Hw.
  destruct Hp1 as [(_ & _ & _ & _ & Hb1 & Hw1)|(-> & -> & -> & Hw1)].
  - rewrite (Hfut (i + 1)) in Hw1 by lia. cbn [count blank] in Hw1. congruence.
  - destruct (Hw1 Hl0) as (Hb1 & _).
    assert (Hsame : forall j, 0 <= j -> j <> i -> j <> i + 1 -> nd t' j = nd t j).
    { intros j Hj N1 N2. rewrite Hnd by lia. unfold step_node.
      decide_eqb. reflexivity. }
    unfold Ahead. repeat split; try lia.
    + intros j Hj. rewrite Hsame by lia. rewrite Hfut by lia. reflexivity.
    + rewrite Hsame by lia. exact Hw.
Qed.

Lemma Ahead_step (osz i : Z) (t t' : list Node) (leaf node leaf' node' : Z) :
  Ahead osz i t leaf node ->
  merge_step i (t, leaf, node) = Ok (t', leaf', node') ->
  Ahead osz (i + 1) t' leaf' node'.
Proof.
  intros (Hlen & Hleaf & Hi & Hin & Hcnt & Hw) Hs.
  destruct (merge_step_Ok_inv _ _ _ _ _ _ _ Hs)
    as (m0 & leaf1 & node1 & m1 & Hp0 & Hp1 & Bi & B0 & B1).
  destruct (merge_step_eval i t leaf node m0 leaf1 node1 m1 leaf' node' Hp0 Hp1
              Bi B0 B1) as (t'' & Hs' & Hlen' & Hnd).
  rewrite Hs in Hs'. injection Hs' as <-.
  apply pick_inv in Hp0. apply pick_inv in Hp1.
  destruct Hp0 as [(_ & _ & _ & _ & Hb0 & Hw0)|(-> & -> & -> & Hw0)].
  - rewrite (Hcnt node) in Hw0 by lia. congruence.
  - destruct (Hw0 ltac:(lia)) as (Hb0 & _).
    destruct Hp1 as [(_ & _ & _ & _ & Hb1 & Hw1)|(-> & -> & -> & Hw1)].
    + rewrite (Hcnt (node + 1)) in Hw1 by lia. congruence.
    + assert (Hsame : forall j, 0 <= j -> j <> i -> j <> node -> j <> node + 1 ->
                                nd t' j = nd t j).
      { intros j Hj N1 N2 N3. rewrite Hnd by lia. unfold step_node.
        decide_eqb. reflexivity. }
      unfold Ahead. repeat split; try lia.
      * intros j Hj. rewrite Hsame by lia. apply Hcnt. lia.
      * rewrite Hsame by lia. exact Hw.
Qed.

Lemma Trapped_step (osz i : Z) (t t' : list Node) (leaf node leaf' node' : Z) :
  Trapped osz t leaf node ->
  merge_step i (t, leaf, node) = Ok (t', leaf', node') ->
  Trapped osz t' leaf' node'.
Proof.
  intros (S & HS & c & Hc & HSc) Hs.
  destruct (merge_step_Ok_inv _ _ _ _ _ _ _ Hs)
    as (m0 & leaf1 & node1 & m1 & Hp0 & Hp1 & Bi & B0 & B1).
  destruct (merge_step_eval i t leaf node m0 leaf1 node1 m1 leaf' node' Hp0 Hp1
              Bi B0 B1) as (t'' & Hs' & Hlen' & Hnd).
  rewrite Hs in Hs'. injection Hs' as <-.
  apply pick_inv in Hp0. apply pick_inv in Hp1.
  exists S. split; [|exists c; auto].
  intros y Hy. destruct (HS y Hy) as (Y1 & Y2 & Y3 & Y4).
  assert (Hpar : parent (nd t' y) = parent (nd t y)).
  { rewrite Hnd by lia. unfold step_node.
    destruct (Z.eqb_spec y m0); [lia|]. destruct (Z.eqb_spec y m1); [lia|].
    destruct (y =? i); reflexivity. }
  rewrite Hpar, Hlen'. repeat split; try lia; assumption.
Qed.

(** Below every node that exists there is a leaf. *)
Lemma leaf_under (osz i : Z) (t : list Node) :
  1 <= osz -> osz <= i -> i <= Z.of_nat (length t) ->
  (forall n, osz <= n < i ->
     0 <= left (nd t n) < n /\ parent (nd t (left (nd t n))) = n) ->
  forall n, 0 <= n < i -> exists c, 0 <= c < osz /\ under t n c.
Proof.
  intros Hosz Hi Hlen Hcre n Hn.
  assert (H : forall m, 0 <= m -> forall n, 0 <= n < i -> n <= m ->
                        exists c, 0 <= c < osz /\ under t n c).
  { apply (natlike_ind (fun m => forall n, 0 <= n < i -> n <= m ->
                                   exists c, 0 <= c < osz /\ under t n c)).
    - intros k Hk Hk0. exists k. split; [lia|apply under_self].
    - intros m Hm IH k Hk Hkm.
      destruct (Z_lt_dec k osz) as [Hlt|Hge].
      + exists k. split; [lia|apply under_self].
      + destruct (Hcre k ltac:(lia)) as (Hl & Hp).
        destruct (IH (left (nd t k)) ltac:(lia) ltac:(lia)) as (c & Hc & Hu).
        exists c. split; [exact Hc|].
        apply (under_trans t (left (nd t k))); [exact Hu|].
        apply under_child; [lia|]. rewrite Hp. apply under_self. }
  apply (H n); lia.
Qed.

(** Picking the node under construction as the second child. *)
Lemma Trapped_enter (osz : Z) (counts : list Z) (i : Z) (t t' : list Node)
      (leaf node m0 leaf1 node1 leaf' node' : Z) :
  1 <= osz -> osz <= i <= 2 * osz - 2 ->
  Inv osz counts i t leaf node ->
  pick t leaf node = Ok (m0, leaf1, node1) ->
  pick t leaf1 node1 = Ok (i, leaf', node') ->
  m0 < i ->
  length t' = length t ->
  (forall j, 0 <= j ->
     nd t' j =
       step_node i m0 i (wadd (count (nd t m0)) (count (nd t i))) j (nd t j)) ->
  Trapped osz t' leaf' node'.
Proof.
  intros Hosz Hi HI Hp0 Hp1 Hm0 Hlen' Hnd.
  destruct HI as [Hlen Hleaf Hnode Hnlt Hrem Hleaves Hfut Hcre Hpick Hunp Hcnt].
  apply pick_inv in Hp0. apply pick_inv in Hp1.
  assert (Hn1 : node' = i + 1) by lia.
  assert (Hm0' : 0 <= m0 <= leaf \/ node <= m0 < i) by lia.
  assert (Hpk0 : leaf' < m0 < node') by lia.
  assert (Hl' : leaf' <= leaf) by lia.
  assert (Hlf : leaf' < osz) by lia.
  clear Hp0 Hp1.
  assert (Hu0 : parent (nd t m0) = -1) by (apply Hunp; lia).
  assert (Hsame : forall j, 0 <= j -> j <> i -> j <> m0 -> nd t' j = nd t j).
  { intros j Hj N1 N2. rewrite Hnd by lia. unfold step_node.
    decide_eqb. reflexivity. }
  assert (Hpi : parent (nd t' i) = i).
  { rewrite Hnd by lia. unfold step_node. rewrite Z.eqb_refl.
    destruct (i =? m0); reflexivity. }
  assert (Hp0 : parent (nd t' m0) = i).
  { rewrite Hnd by lia. unfold step_node.
    destruct (Z.eqb_spec m0 i); [lia|]. rewrite Z.eqb_refl. reflexivity. }
  assert (Hleft : forall n, osz <= n < i ->
            0 <= left (nd t' n) < n /\ parent (nd t' (left (nd t' n))) = n).
  { intros n Hn.
    destruct (Hcre n Hn) as (A1 & _ & _ & A4 & _).
    assert (El : left (nd t' n) = left (nd t n)).
    { rewrite Hnd by lia. unfold step_node. decide_eqb; reflexivity. }
    rewrite El.
    assert (L0 : left (nd t n) <> m0) by (intros E; rewrite E in A4; lia).
    rewrite Hsame by lia. auto. }
  destruct (leaf_under osz i t' Hosz ltac:(lia) ltac:(lia) Hleft m0 ltac:(lia))
    as (c & Hc & Hcu).
  exists (under t' i). split.
  - intros y Hy.
    assert (Hyb : 0 <= y < Z.of_nat (length t') /\ under t' i (parent (nd t' y))).
    { destruct Hy as [|y Hyb Hy]; [|auto].
      rewrite Hpi. split; [lia|apply under_self]. }
    destruct Hyb as (Hyb & Hup).
    assert (Hpn : parent (nd t' y) <> -1).
    { apply under_nonneg in Hup; lia. }
    split; [exact Hyb|]. split; [|auto].
    destruct (Z.eq_dec y i) as [->|Nyi]; [lia|].
    destruct (Z.eq_dec y m0) as [->|Ny0]; [lia|].
    rewrite Hsame in Hpn by lia.
    destruct (Z_le_dec y leaf') as [Hyl|Hyl];
      [destruct (Hunp y ltac:(lia)); lia|].
    destruct (Z_lt_dec y node') as [Hyn|Hyn]; [lia|].
    destruct (Hunp y ltac:(lia)); lia.
  - exists c. split; [exact Hc|].
    apply (under_trans t' m0); [exact Hcu|].
    apply under_child; [lia|]. rewrite Hp0. apply under_self.
Qed.

(** A finished iteration keeps the invariant or leaves it for good. *)
Lemma merge_step_sound (osz : Z) (counts : list Z) (i : Z) (t t' : list Node)
      (leaf node leaf' node' : Z) :
  1 <= osz -> osz <= i <= 2 * osz - 2 ->
  Inv osz counts i t leaf node ->
  merge_step i (t, leaf, node) = Ok (t', leaf', node') ->
  Inv osz counts (i + 1) t' leaf' node' \/
  Trapped osz t' leaf' node' \/
  Ahead osz (i + 1) t' leaf' node'.
Proof.
  intros Hosz Hi HI Hs.
  destruct (merge_step_Ok_inv _ _ _ _ _ _ _ Hs)
    as (m0 & leaf1 & node1 & m1 & Hp0 & Hp1 & Bi & B0 & B1).
  destruct (merge_step_eval i t leaf node m0 leaf1 node1 m1 leaf' node' Hp0 Hp1
              Bi B0 B1) as (t'' & Hs' & Hlen' & Hnd).
  rewrite Hs in Hs'. injection Hs' as <-.
  pose proof (inv_node _ _ _ _ _ _ HI) as Hnode.
  pose proof (inv_leaf _ _ _ _ _ _ HI) as Hleaf.
  pose proof (pick_inv _ _ _ _ _ _ Hp0) as Hc0.
  pose proof (pick_inv _ _ _ _ _ _ Hp1) as Hc1.
  destruct (Z_lt_dec m0 i) as [H0|H0].
  - destruct (Z_lt_dec m1 i) as [H1|H1].
    + left. eapply Inv_step; eauto.
    + right. left. assert (m1 = i) by lia. subst m1.
      eapply Trapped_enter; eauto.
  - right. right. assert (m0 = i) by lia. subst m0.
    eapply Ahead_enter; eauto.
Qed.

(** The state in which the merge loop starts. *)
Lemma init_Inv (osz : Z) (counts : list Z) :
  1 <= osz < 2 ^ 30 -> osz <= Z.of_nat (length counts) ->
  exists t0 t1,
    init_tree osz = Ok t0 /\ set_counts osz counts t0 = Ok t1 /\
    Inv osz counts osz t1 (osz - 1) osz.
Proof.
  intros Hosz Hc.
  exists (repeat blank (Z.to_nat (2 * osz - 1))).
  assert (Hinit : init_tree osz = Ok (repeat blank (Z.to_nat (2 * osz - 1)))).
  { unfold init_tree, INT32_MIN, INT32_MAX.
    destruct (2 * osz - 1 <? - 2 ^ 31) eqn:E1; [apply Z.ltb_lt in E1; lia|].
    destruct (2 ^ 31 - 1 <? 2 * osz) eqn:E2; [apply Z.ltb_lt in E2; lia|].
    destruct (2 * osz - 1 <? 0) eqn:E3; [apply Z.ltb_lt in E3; lia|].
    reflexivity. }
  set (P := fun (k : Z) (t : list Node) =>
              Z.of_nat (length t) = 2 * osz - 1 /\
              forall j, 0 <= j ->
                nd t j = if j <? k
                         then set_count (of_count (nth (Z.to_nat j) counts 0)) blank
                         else blank).
  destruct (for_range_inv P
              (fun i t => c <- get counts i ;; modify t i (set_count (of_count c)))
              0 osz (repeat blank (Z.to_nat (2 * osz - 1))))
    as (t1 & Hrun & Hlen & Hnd).
  - lia.
  - split; [rewrite repeat_length; lia|].
    intros j Hj. destruct (j <? 0) eqn:E; [apply Z.ltb_lt in E; lia|].
    unfold nd. apply nth_repeat.
  - intros k t Hk (Hlen & Hnd').
    rewrite (get_Ok counts k 0) by lia. cbn [bind].
    rewrite modify_Ok by lia. eexists. split; [reflexivity|].
    split; [rewrite upd_nat_length; exact Hlen|].
    intros j Hj. rewrite nd_upd by lia. rewrite Hnd' by lia.
    destruct (Z.eqb_spec j k) as [->|Hne].
    + destruct (Z.ltb_spec k k); [lia|].
      destruct (Z.ltb_spec k (k + 1)); [|lia]. reflexivity.
    + destruct (Z.ltb_spec j k); destruct (Z.ltb_spec j (k + 1));
        try lia; reflexivity.
  - exists t1. split; [exact Hinit|]. split; [exact Hrun|].
    constructor; try lia.
    + intros j Hj. rewrite Hnd by lia.
      destruct (Z.ltb_spec j osz); [|lia]. cbn. auto.
    + intros j Hj. rewrite Hnd by lia.
      destruct (Z.ltb_spec j osz); [lia|]. reflexivity.
    + intros j Hj. rewrite Hnd by lia.
      destruct (Z.ltb_spec j osz); cbn; auto.
    + exists (fun _ => 1). split; [reflexivity|]. split; [intros n Hn; lia|].
      rewrite Z.sub_diag. cbn. lia.
Qed.

(** The merge loop runs to its end and keeps the invariant. *)
Lemma merge_loop_Inv (osz : Z) (counts : list Z) (t1 : list Node) :
  below_sentinel counts -> osz <= Z.of_nat (length counts) -> 1 <= osz ->
  Inv osz counts osz t1 (osz - 1) osz ->
  exists t2 leaf node,
    for_range osz (2 * osz - 1) merge_step (t1, osz - 1, osz)
      = Ok (t2, leaf, node) /\
    Inv osz counts (2 * osz - 1) t2 leaf node.
Proof.
  intros Hb Hc Hosz H0.
  set (P := fun (k : Z) (s : list Node * Z * Z) =>
              let '(t, leaf, node) := s in Inv osz counts k t leaf node).
  destruct (for_range_inv P merge_step osz (2 * osz - 1) (t1, osz - 1, osz))
    as ([[t2 leaf] node] & Hrun & HI).
  - lia.
  - exact H0.
  - intros k [[t leaf] node] Hk HI.
    destruct (merge_step_Inv osz counts k t leaf node Hb Hc ltac:(lia) HI)
      as (t' & leaf' & node' & Hs & HI').
    exists (t', leaf', node'). split; assumption.
  - exists t2, leaf, node. split; assumption.
Qed.

Lemma init_sound (osz : Z) (counts : list Z) (t0 t1 : list Node) :
  init_tree osz = Ok t0 -> set_counts osz counts t0 = Ok t1 ->
  1 <= osz < 2 ^ 30 /\ osz <= Z.of_nat (length counts) /\
  Inv osz counts osz t1 (osz - 1) osz.
Proof.
  intros H0 H1.
  assert (Hosz : 1 <= osz < 2 ^ 30).
  { unfold init_tree, INT32_MIN, INT32_MAX in H0.
    destruct (2 * osz - 1 <? - 2 ^ 31) eqn:E1; [discriminate|].
    destruct (2 ^ 31 - 1 <? 2 * osz) eqn:E2; [discriminate|].
    destruct (2 * osz - 1 <? 0) eqn:E3; [discriminate|].
    apply Z.ltb_ge in E2, E3. lia. }
  assert (Hc : osz <= Z.of_nat (length counts)).
  { unfold set_counts in H1.
    destruct (for_range_body_Ok _ 0 osz t0 t1 ltac:(lia) H1 (osz - 1) ltac:(lia))
      as (s0 & s1 & Hb).
    apply bind_Ok_inv in Hb. destruct Hb as (c & Hg & _).
    apply (get_Ok_inv _ _ _ 0) in Hg. lia. }
  destruct (init_Inv osz counts Hosz Hc) as (t0' & t1' & H0' & H1' & HI).
  rewrite H0 in H0'. injection H0' as <-.
  rewrite H1 in H1'. injection H1' as <-.
  auto.
Qed.

(** A merge loop that finishes has kept the invariant, or some leaf is
    trapped below a node that is its own parent. *)
Lemma merge_loop_sound (osz : Z) (counts : list Z) (t1 t2 : list Node)
      (leaf node : Z) :
  1 <= osz ->
  Inv osz counts osz t1 (osz - 1) osz ->
  for_range osz (2 * osz - 1) merge_step (t1, osz - 1, osz)
    = Ok (t2, leaf, node) ->
  Inv osz counts (2 * osz - 1) t2 leaf node \/ Trapped osz t2 leaf node.
Proof.
  intros Hosz H0 Hrun.
  set (P := fun (k : Z) (s : list Node * Z * Z) =>
              let '(t, leaf, node) := s in
              Inv osz counts k t leaf node \/
              Trapped osz t leaf node \/
              Ahead osz k t leaf node).
  assert (HP : P (2 * osz - 1) (t2, leaf, node)).
  { apply (for_range_sound P merge_step osz (2 * osz - 1) _ _ ltac:(lia) Hrun).
    - left. exact H0.
    - intros k [[t lf] nod] [[t' lf'] nod'] Hk HPk Hs.
      destruct HPk as [HI|[HT|HA]].
      + apply (merge_step_sound osz counts k t t' lf nod lf' nod'); auto; lia.
      + right. left. eapply Trapped_step; eauto.
      + right. right. eapply Ahead_step; eauto. }
  destruct HP as [HI|[HT|HA]]; auto.
  destruct HA as (_ & _ & Hi & _). lia.
Qed.

(** ** The finished tree *)

Lemma final_cursors (osz : Z) (counts : list Z) (t : list Node) (leaf node : Z) :
  1 <= osz ->
  Inv osz counts (2 * osz - 1) t leaf node ->
  (osz = 1 /\ leaf = 0 /\ node = 1) \/
  (2 <= osz /\ leaf = -1 /\ node = 2 * osz - 2).
Proof.
  intros Hosz HI.
  pose proof (inv_leaf _ _ _ _ _ _ HI).
  pose proof (inv_node _ _ _ _ _ _ HI).
  pose proof (inv_node_lt _ _ _ _ _ _ HI).
  pose proof (inv_remaining _ _ _ _ _ _ HI).
  lia.
Qed.

Lemma final_Linked (osz : Z) (counts : list Z) (t : list Node) (leaf node : Z) :
  1 <= osz ->
  Inv osz counts (2 * osz - 1) t leaf node ->
  Linked osz t.
Proof.
  intros Hosz HI.
  pose proof (final_cursors _ _ _ _ _ Hosz HI) as Hcur.
  constructor.
  - exact (inv_len _ _ _ _ _ _ HI).
  - intros j Hj.
    destruct (inv_picked _ _ _ _ _ _ HI j ltac:(lia)) as (A1 & A2 & A3).
    destruct (inv_created _ _ _ _ _ _ HI (parent (nd t j)) ltac:(lia))
      as (_ & _ & C3 & _ & _ & C6 & C7 & _).
    split; [lia|]. split; [lia|].
    destruct (binary (nd t j)) eqn:Eb.
    + destruct A3 as [A3|A3]; [|auto]. rewrite <- A3 in C6. congruence.
    + destruct A3 as [A3|A3]; [auto|]. rewrite <- A3 in C7. congruence.
  - apply (inv_unpicked _ _ _ _ _ _ HI). lia.
Qed.

Lemma descend_app (t : list Node) (osz : Z) (b1 b2 : list bool) :
  forall n m v1 r,
    descend t osz n b1 = Ok (m, v1) ->
    descend t osz m b2 = Ok r ->
    descend t osz n (b1 ++ b2) = Ok (fst r, v1 ++ snd r).
Proof.
  induction b1 as [|b b1 IH]; intros n m v1 r H1 H2.
  - cbn in H1. injection H1 as <- <-. destruct r; exact H2.
  - cbn [descend app] in *.
    apply bind_Ok_inv in H1. destruct H1 as (x & Hx & H1).
    apply bind_Ok_inv in H1. destruct H1 as ([m' v'] & Hd & H1).
    injection H1 as <- <-.
    rewrite Hx. cbn [bind]. rewrite (IH _ _ _ _ Hd H2). reflexivity.
Qed.

(** The walk of lines 254-259 ends, and read backwards it is the
    descent from the last node to where the walk started. *)
Lemma walk_spec (osz : Z) (t : list Node) :
  Linked osz t ->
  forall (fuel : nat) (j : Z) (path : list Z) (code : list bool),
    0 <= j <= 2 * osz - 2 ->
    (Z.to_nat (2 * osz - 2 - j) < fuel)%nat ->
    exists ps cs,
      walk fuel t osz j path code = Ok (path ++ ps, code ++ cs) /\
      length ps = length cs /\
      descend t osz (2 * osz - 2) (rev cs) = Ok (j, rev ps).
Proof.
  intros HL. induction fuel as [|fuel IH]; intros j path code Hj Hf; [lia|].
  cbn [walk]. rewrite get_nd by (rewrite (lk_len _ _ HL); lia). cbn [bind].
  destruct (Z.eq_dec j (2 * osz - 2)) as [->|Hne].
  - rewrite (lk_root _ _ HL). cbn.
    exists [], []. rewrite !app_nil_r. auto.
  - destruct (lk_up _ _ HL j ltac:(lia)) as (U1 & U2 & U3).
    destruct (Z.eqb_spec (parent (nd t j)) (-1)); [lia|].
    destruct (IH (parent (nd t j)) (path ++ [parent (nd t j) - osz])
                 (code ++ [binary (nd t j)]) ltac:(lia) ltac:(lia))
      as (ps & cs & Hw & Hlen & Hd).
    exists ((parent (nd t j) - osz) :: ps), (binary (nd t j) :: cs).
    rewrite Hw, <- !app_assoc. split; [reflexivity|].
    split; [cbn; lia|].
    cbn [rev].
    rewrite (descend_app t osz (rev cs) [binary (nd t j)] _ _ _
               (j, [parent (nd t j) - osz]) Hd); [reflexivity|].
    cbn [descend]. rewrite get_nd by (rewrite (lk_len _ _ HL); lia).
    cbn [bind]. rewrite U3. reflexivity.
Qed.

(** The loop of lines 251-262 appends one path and one code per class. *)
Lemma path_loop_spec (osz : Z) (t : list Node) (fuel : nat)
      (ps0 : list (list Z)) (cs0 : list (list bool)) :
  Linked osz t -> 1 <= osz -> (Z.to_nat (2 * osz) <= fuel)%nat ->
  exists ps cs,
    for_range 0 osz (path_step fuel t osz) (ps0, cs0) = Ok (ps0 ++ ps, cs0 ++ cs) /\
    Z.of_nat (length ps) = osz /\ Z.of_nat (length cs) = osz /\
    forall c, 0 <= c < osz ->
      length (nth (Z.to_nat c) ps []) = length (nth (Z.to_nat c) cs []) /\
      descend t osz (2 * osz - 2) (rev (nth (Z.to_nat c) cs []))
        = Ok (c, rev (nth (Z.to_nat c) ps [])).
Proof.
  intros HL Hosz Hfuel.
  set (P := fun (k : Z) (pc : list (list Z) * list (list bool)) =>
              exists ps cs,
                pc = (ps0 ++ ps, cs0 ++ cs) /\
                Z.of_nat (length ps) = k /\ Z.of_nat (length cs) = k /\
                forall c, 0 <= c < k ->
                  length (nth (Z.to_nat c) ps []) = length (nth (Z.to_nat c) cs []) /\
                  descend t osz (2 * osz - 2) (rev (nth (Z.to_nat c) cs []))
                    = Ok (c, rev (nth (Z.to_nat c) ps []))).
  destruct (for_range_inv P (path_step fuel t osz) 0 osz (ps0, cs0))
    as (pc & Hrun & ps & cs & -> & Hlp & Hlc & Hall).
  - lia.
  - exists [], []. rewrite !app_nil_r. split; [reflexivity|].
    split; [reflexivity|]. split; [reflexivity|]. intros c Hc. lia.
  - intros k pc Hk (ps & cs & -> & Hlp & Hlc & Hall).
    destruct (walk_spec osz t HL fuel k [] [] ltac:(lia) ltac:(lia))
      as (p & cd & Hw & Hlen & Hd).
    unfold path_step. rewrite Hw. cbn [bind fst snd app].
    eexists. split; [reflexivity|].
    exists (ps ++ [p]), (cs ++ [cd]).
    rewrite <- !app_assoc. split; [reflexivity|].
    rewrite !length_app. cbn [length]. split; [lia|]. split; [lia|].
    intros c Hc.
    destruct (Z.eq_dec c k) as [->|Hne].
    + assert (Ep : nth (Z.to_nat k) (ps ++ [p]) [] = p).
      { replace (Z.to_nat k) with (length ps) by lia. apply nth_middle. }
      assert (Ec : nth (Z.to_nat k) (cs ++ [cd]) [] = cd).
      { replace (Z.to_nat k) with (length cs) by lia. apply nth_middle. }
      rewrite Ep, Ec. auto.
    + rewrite !app_nth1 by lia. apply Hall. lia.
  - exists ps, cs. auto.
Qed.

Lemma walk_fuel_mono (t : list Node) (osz : Z) :
  forall (fuel fuel' : nat) (j : Z) (path : list Z) (code : list bool) r,
    walk fuel t osz j path code = Ok r -> (fuel <= fuel')%nat ->
    walk fuel' t osz j path code = Ok r.
Proof.
  induction fuel as [|fuel IH]; intros fuel' j path code r H Hle;
    [discriminate|].
  destruct fuel' as [|fuel']; [lia|].
  cbn [walk] in *. destruct (get t j) as [nj|e]; [|discriminate].
  cbn [bind] in *. destruct (parent nj =? -1); [exact H|].
  apply IH; [exact H|lia].
Qed.

Lemma walk_trapped (osz : Z) (t : list Node) (S : Z -> Prop) :
  (forall y, S y -> 0 <= y < Z.of_nat (length t) /\
                    parent (nd t y) <> -1 /\ S (parent (nd t y))) ->
  forall (fuel : nat) (y : Z) (path : list Z) (code : list bool) r,
    S y -> walk fuel t osz y path code <> Ok r.
Proof.
  intros HS. induction fuel as [|fuel IH]; intros y path code r Hy;
    [discriminate|].
  destruct (HS y Hy) as (Y1 & Y2 & Y3).
  cbn [walk]. rewrite get_nd by lia. cbn [bind].
  destruct (Z.eqb_spec (parent (nd t y)) (-1)); [lia|].
  apply IH. exact Y3.
Qed.

Lemma path_loop_not_trapped (osz : Z) (t : list Node) (fuel : nat)
      (leaf node : Z) pc pc' :
  1 <= osz ->
  for_range 0 osz (path_step fuel t osz) pc = Ok pc' ->
  ~ Trapped osz t leaf node.
Proof.
  intros Hosz Hrun (S & HS & c & Hc & HSc).
  destruct (for_range_body_Ok _ 0 osz pc pc' ltac:(lia) Hrun c Hc)
    as (s0 & s1 & Hb).
  unfold path_step in Hb. apply bind_Ok_inv in Hb.
  destruct Hb as (r & Hw & _).
  revert Hw. apply (walk_trapped osz t S); [|exact HSc].
  intros y Hy. destruct (HS y Hy) as (Y1 & _ & Y3 & Y4). auto.
Qed.

Lemma path_loop_fuel_mono (osz : Z) (t : list Node) (fuel fuel' : nat) :
  (fuel <= fuel')%nat ->
  forall (n : nat) (i : Z) pc pc',
    for_loop n i (path_step fuel t osz) pc = Ok pc' ->
    for_loop n i (path_step fuel' t osz) pc = Ok pc'.
Proof.
  intros Hle. induction n as [|n IH]; intros i pc pc' H; [exact H|].
  cbn [for_loop] in *. apply bind_Ok_inv in H. destruct H as (pc1 & Hb & H).
  unfold path_step in Hb. apply bind_Ok_inv in Hb.
  destruct Hb as ([p cd] & Hw & Hb).
  unfold path_step at 1.
  rewrite (walk_fuel_mono t osz fuel fuel' _ _ _ _ Hw Hle).
  cbn in Hb. injection Hb as <-.
  cbn [bind]. apply IH. exact H.
Qed.

(** What a finished path loop has appended. *)
Lemma path_loop_sound (osz : Z) (t : list Node) (fuel : nat)
      (ps0 ps1 : list (list Z)) (cs0 cs1 : list (list bool)) :
  Linked osz t -> 1 <= osz ->
  for_range 0 osz (path_step fuel t osz) (ps0, cs0) = Ok (ps1, cs1) ->
  exists ps cs,
    ps1 = ps0 ++ ps /\ cs1 = cs0 ++ cs /\
    Z.of_nat (length ps) = osz /\ Z.of_nat (length cs) = osz /\
    forall c, 0 <= c < osz ->
      length (nth (Z.to_nat c) ps []) = length (nth (Z.to_nat c) cs []) /\
      descend t osz (2 * osz - 2) (rev (nth (Z.to_nat c) cs []))
        = Ok (c, rev (nth (Z.to_nat c) ps [])).
Proof.
  intros HL Hosz Hrun.
  set (big := Nat.max fuel (Z.to_nat (2 * osz))).
  assert (Hbig : for_range 0 osz (path_step big t osz) (ps0, cs0) = Ok (ps1, cs1)).
  { apply (path_loop_fuel_mono osz t fuel big); [unfold big; lia|exact Hrun]. }
  destruct (path_loop_spec osz t big ps0 cs0 HL Hosz ltac:(unfold big; lia))
    as (ps & cs & Hrun' & Hp & Hc & Hall).
  rewrite Hbig in Hrun'. injection Hrun' as -> ->.
  exists ps, cs. auto.
Qed.

(** ** buildTree as a whole *)

Lemma buildTree_sound (fuel : nat) (osz : Z) (counts : list Z) (h h' : Hier) :
  buildTree fuel osz counts h = Ok h' -> Built osz counts h h'.
Proof.
  unfold buildTree. intros H.
  apply bind_Ok_inv in H. destruct H as (t0 & H0 & H).
  apply bind_Ok_inv in H. destruct H as (t1 & H1 & H).
  apply bind_Ok_inv in H. destruct H as ([[t2 leaf] node] & H2 & H).
  apply bind_Ok_inv in H. destruct H as ([ps cs] & H3 & H).
  injection H as <-.
  destruct (init_sound osz counts t0 t1 H0 H1) as (Hosz & Hc & HI0).
  destruct (merge_loop_sound osz counts t1 t2 leaf node ltac:(lia) HI0 H2)
    as [HI|HT].
  - pose proof (final_Linked osz counts t2 leaf node ltac:(lia) HI) as HL.
    destruct (path_loop_sound osz t2 fuel _ _ _ _ HL ltac:(lia) H3)
      as (ps' & cs' & -> & -> & Hrest).
    constructor; cbn [tree paths codes]; eauto.
  - exfalso. revert HT.
    apply (path_loop_not_trapped osz t2 fuel leaf node _ _ ltac:(lia) H3).
Qed.

Lemma buildTree_total (fuel : nat) (osz : Z) (counts : list Z) (h : Hier) :
  1 <= osz < 2 ^ 30 -> osz <= Z.of_nat (length counts) ->
  below_sentinel counts -> (Z.to_nat (2 * osz) <= fuel)%nat ->
  exists h', buildTree fuel osz counts h = Ok h'.
Proof.
  intros Hosz Hc Hb Hf. unfold buildTree.
  destruct (init_Inv osz counts Hosz Hc) as (t0 & t1 & H0 & H1 & HI0).
  rewrite H0. cbn [bind]. rewrite H1. cbn [bind].
  destruct (merge_loop_Inv osz counts t1 Hb Hc ltac:(lia) HI0)
    as (t2 & leaf & node & H2 & HI).
  rewrite H2. cbn [bind].
  pose proof (final_Linked osz counts t2 leaf node ltac:(lia) HI) as HL.
  destruct (path_loop_spec osz t2 fuel (paths h) (codes h) HL ltac:(lia) Hf)
    as (ps & cs & H3 & _).
  rewrite H3. cbn [bind]. eauto.
Qed.

Lemma get_app_r {A : Type} (d : A) (l : list A) (c : Z) :
  0 <= c < Z.of_nat (length l) ->
  get ([] ++ l) c = Ok (nth (Z.to_nat c) l d).
Proof. intros Hc. cbn [app]. apply get_Ok. exact Hc. Qed.

(** C1 (as amended).  For every frequency table of length [C], with
    [1 <= C < 2^30] and every entry below the [1e15] that marks a node
    not yet created (whatever the order of the entries), buildTree
    returns; the tree has [2C - 1] nodes; every class has a path and a
    code of the same length; and every internal node [i] in
    [C .. 2C-2] has two distinct children [left] and [right], which
    are exactly the nodes whose [parent] is [i], and its count is the
    sum of theirs. *)
Theorem buildTree_structure (fuel : nat) (osz : Z) (counts : list Z) :
  1 <= osz < 2 ^ 30 ->
  Z.of_nat (length counts) = osz ->
  below_sentinel counts ->
  (Z.to_nat (2 * osz) <= fuel)%nat ->
  exists h',
    buildTree fuel osz counts fresh = Ok h' /\
    Z.of_nat (length (tree h')) = 2 * osz - 1 /\
    (forall c, 0 <= c < osz ->
       exists p cd,
         get (paths h') c = Ok p /\ get (codes h') c = Ok cd /\
         length p = length cd) /\
    (forall i, osz <= i <= 2 * osz - 2 ->
       exists n l r,
         get (tree h') i = Ok n /\
         get (tree h') (left n) = Ok l /\ get (tree h') (right n) = Ok r /\
         left n <> right n /\
         parent l = i /\ parent r = i /\
         count n = wadd (count l) (count r) /\
         (forall j nj, get (tree h') j = Ok nj -> parent nj = i ->
                       j = left n \/ j = right n)).
Proof.
  intros Hosz Hlen Hb Hf.
  destruct (buildTree_total fuel osz counts fresh Hosz ltac:(lia) Hb Hf)
    as (h' & Hrun).
  exists h'. split; [exact Hrun|].
  destruct (buildTree_sound _ _ _ _ _ Hrun)
    as [_ _ (leaf & node & HI) (ps & cs & Hp & Hc & Hlp & Hlc & Hall)].
  pose proof (inv_len _ _ _ _ _ _ HI) as Hl.
  split; [exact Hl|]. split.
  - intros c Hc'. rewrite Hp, Hc. cbn [paths codes fresh].
    exists (nth (Z.to_nat c) ps []), (nth (Z.to_nat c) cs []).
    rewrite (get_app_r []), (get_app_r []) by lia.
    split; [reflexivity|]. split; [reflexivity|]. apply Hall. exact Hc'.
  - intros i Hi.
    destruct (inv_created _ _ _ _ _ _ HI i ltac:(lia))
      as (A1 & A2 & A3 & A4 & A5 & _ & _ & A8).
    exists (nd (tree h') i), (nd (tree h') (left (nd (tree h') i))),
      (nd (tree h') (right (nd (tree h') i))).
    rewrite !get_nd by lia.
    repeat split; auto.
    intros j nj Hj Hpj. apply get_nd_inv in Hj. destruct Hj as [Hjb ->].
    destruct (final_cursors osz counts _ _ _ ltac:(lia) HI) as [Hcur|Hcur].
    + lia.
    + destruct (Z.eq_dec j (2 * osz - 2)) as [->|Hne].
      * destruct (inv_unpicked _ _ _ _ _ _ HI (2 * osz - 2) ltac:(lia)). lia.
      * destruct (inv_picked _ _ _ _ _ _ HI j ltac:(lia)) as (_ & _ & B).
        rewrite Hpj in B. exact B.
Qed.

(** C2.  In a tree built by buildTree, reading the code of a class [c]
    backwards (it is stored leaf to root) as a descent from the last
    node, [true] to the right child and [false] to the left child,
    ends at leaf [c], and the internal nodes passed are those of the
    stored path, backwards. *)
Theorem code_roundtrip (fuel : nat) (osz : Z) (counts : list Z) (h' : Hier) :
  buildTree fuel osz counts fresh = Ok h' ->
  forall c, 0 <= c < osz ->
    exists p cd,
      get (paths h') c = Ok p /\ get (codes h') c = Ok cd /\
      descend (tree h') osz (2 * osz - 2) (rev cd) = Ok (c, rev p).
Proof.
  intros Hrun c Hc.
  destruct (buildTree_sound _ _ _ _ _ Hrun)
    as [_ _ _ (ps & cs & Hp & Hcs & Hlp & Hlc & Hall)].
  rewrite Hp, Hcs. cbn [paths codes fresh].
  exists (nth (Z.to_nat c) ps []), (nth (Z.to_nat c) cs []).
  rewrite (get_app_r []), (get_app_r []) by lia.
  split; [reflexivity|]. split; [reflexivity|]. apply Hall. exact Hc.
Qed.

(** A table with an entry that does not compare below the sentinel:
    the first pick of the merge loop is the node under construction,
    the second reads past the end of the tree. *)
Lemma buildTree_sentinel_pair (fuel : nat) (c0 c1 : Z) (h : Hier) :
  wlt (of_count c1) sentinel = false ->
  buildTree fuel 2 [c0; c1] h = Err OutOfBounds.
Proof.
  intros Hw. cbv. rewrite Hw. reflexivity.
Qed.

(** ** Reals *)

Lemma fdiv_Ok (a b : R) : b <> 0%R -> fdiv a b = Ok (a / b)%R.
Proof.
  intros Hb. unfold fdiv. destruct (Req_dec_T b 0); [contradiction|reflexivity].
Qed.

Lemma fdiv_zero (a : R) : fdiv a 0 = Err DivisionByZero.
Proof.
  unfold fdiv. destruct (Req_dec_T 0 0) as [_|H]; [reflexivity|].
  exfalso. apply H. reflexivity.
Qed.

Lemma fdiv_Ok_inv (a b q : R) : fdiv a b = Ok q -> b <> 0%R /\ q = (a / b)%R.
Proof.
  unfold fdiv. destruct (Req_dec_T b 0); [discriminate|].
  intros H. injection H as <-. auto.
Qed.

Lemma Rltb_true (x y : R) : Rltb x y = true <-> (x < y)%R.
Proof.
  unfold Rltb. destruct (Rlt_dec x y); split; auto; discriminate.
Qed.

Lemma Rltb_false (x y : R) : Rltb x y = false <-> (y <= x)%R.
Proof.
  unfold Rltb. destruct (Rlt_dec x y); split; intros; try discriminate;
    try reflexivity; lra.
Qed.

(** ** update and predict on an empty input *)

(** C10.  With an empty [input], computeHidden divides [1.0] by the
    size [0]; predict calls it unguarded, before any scoring or
    ranking, and so ends in that division for every [k] that passes
    the assertion.  ([k] is an [int32_t]: at its largest value the sum
    [k + 1] of line 114, evaluated before computeHidden is called,
    overflows.) *)
Theorem predict_empty_input (fuel : nat) (k : Z) (heap : list (R * Z))
        (m : Model) :
  0 < k ->
  computeHidden [] m = Err DivisionByZero /\
  (k < INT32_MAX -> predict fuel [] k heap m = Err DivisionByZero) /\
  (INT32_MAX <= k -> predict fuel [] k heap m = Err Overflow).
Proof.
  intros Hk.
  assert (Hc : computeHidden [] m = Err DivisionByZero).
  { unfold computeHidden. cbn [for_each bind length Z.of_nat].
    rewrite fdiv_zero. reflexivity. }
  split; [exact Hc|].
  unfold predict, assert.
  destruct (Z.ltb_spec 0 k) as [_|Hn]; [|lia].
  cbn [bind]. split; intros Hk'.
  - rewrite int32_Ok by (destruct int32_bounds; lia).
    cbn [bind]. rewrite Hc. reflexivity.
  - rewrite int32_Err by lia. reflexivity.
Qed.

(** C7.  For a valid target, update on an empty input returns [0.0]
    and the model as it was: no table, buffer or cursor changes. *)
Theorem update_empty_input (fuel : nat) (target : Z) (m : Model) :
  0 <= target < osz_ m ->
  update fuel [] target m = Ok (0%R, m).
Proof.
  intros Ht. unfold update, assert.
  destruct (Z.leb_spec 0 target) as [_|Hn]; [|lia].
  destruct (Z.ltb_spec target (osz_ m)) as [_|Hn]; [|lia].
  reflexivity.
Qed.

(** ** update: the gradient that reaches the input rows *)

(** Lines 182-184 add the gradient to a row once for every occurrence
    of the row in [input]. *)
Lemma propagate_rows (g : Vector) (input : list Z) :
  forall (wi wi' : Matrix),
    for_each input (fun it wi => mat_addRow wi g it 1) wi = Ok wi' ->
    length wi' = length wi /\
    forall r, 0 <= r ->
      nth (Z.to_nat r) wi' [] =
      Nat.iter (count_occ Z.eq_dec input r) (axpy 1 g) (nth (Z.to_nat r) wi []).
Proof.
  induction input as [|it input IH]; intros wi wi' H.
  - cbn in H. injection H as <-. split; [reflexivity|]. intros r Hr. reflexivity.
  - cbn [for_each] in H. apply bind_Ok_inv in H. destruct H as (wi1 & H1 & H).
    unfold mat_addRow in H1. apply modify_Ok_inv in H1. destruct H1 as [Hit ->].
    destruct (IH _ _ H) as (Hlen & Hrows).
    rewrite upd_nat_length in Hlen. split; [exact Hlen|].
    intros r Hr. rewrite (Hrows r Hr). rewrite upd_nat_nth by lia.
    cbn [count_occ].
    destruct (Z.eq_dec it r) as [->|Hne].
    + rewrite Nat.eqb_refl. rewrite Nat.iter_succ_r. reflexivity.
    + destruct (Nat.eqb_spec (Z.to_nat r) (Z.to_nat it)); [lia|reflexivity].
Qed.


(** ** getNegative *)

Lemma least_witness (P : nat -> Prop) (dec : forall n, {P n} + {~ P n}) :
  forall n, P n ->
    exists k, (k <= n)%nat /\ P k /\ forall j, (j < k)%nat -> ~ P j.
Proof.
  assert (H : forall n,
             (exists k, (k <= n)%nat /\ P k /\ forall j, (j < k)%nat -> ~ P j) \/
             (forall j, (j <= n)%nat -> ~ P j)).
  { induction n as [|n [(k & Hk & Pk & Hmin)|Hnone]].
    - destruct (dec O) as [P0|N0].
      + left. exists O. split; [lia|]. split; [exact P0|]. intros j Hj. lia.
      + right. intros j Hj. replace j with O by lia. exact N0.
    - left. exists k. split; [lia|]. auto.
    - destruct (dec (Datatypes.S n)) as [Ps|Ns].
      + left. exists (Datatypes.S n). split; [lia|]. split; [exact Ps|].
        intros j Hj. apply Hnone. lia.
      + right. intros j Hj.
        destruct (Nat.eq_dec j (Datatypes.S n)) as [->|Hne]; [exact Ns|].
        apply Hnone. lia. }
  intros n Pn. destruct (H n) as [Hex|Hnone]; [exact Hex|].
  exfalso. apply (Hnone n); [lia|exact Pn].
Qed.

Lemma slot_shift (m : Model) (j : Z) :
  0 < Z.of_nat (length (negatives m)) ->
  slot (set_negpos ((negpos m + 1) mod Z.of_nat (length (negatives m))) m) j
  = slot m (j + 1).
Proof.
  intros Hlen. unfold slot. cbn [negpos negatives set_negpos].
  rewrite Zplus_mod_idemp_l. f_equal. f_equal. f_equal. lia.
Qed.

(** [k] rejected entries, then one that differs from [target]. *)
Lemma getNegative_rounds (target : Z) :
  forall (k : nat) (m : Model),
    0 <= negpos m < Z.of_nat (length (negatives m)) ->
    (forall j, (j < k)%nat -> slot m (Z.of_nat j) = target) ->
    slot m (Z.of_nat k) <> target ->
    forall fuel, (k < fuel)%nat ->
      getNegative fuel target m =
      Ok (slot m (Z.of_nat k),
          set_negpos ((negpos m + Z.of_nat k + 1)
                        mod Z.of_nat (length (negatives m))) m).
Proof.
  induction k as [|k IH]; intros m Hpos Hrej Hacc fuel Hfuel;
    (destruct fuel as [|fuel]; [lia|]); cbn [getNegative].
  - rewrite (get_Ok _ _ 0) by lia. cbn [bind].
    destruct (Z.eqb_spec (Z.of_nat (length (negatives m))) 0); [lia|].
    assert (E : slot m (Z.of_nat 0) = nth (Z.to_nat (negpos m)) (negatives m) 0).
    { unfold slot. cbn [Z.of_nat]. rewrite Z.add_0_r, Z.mod_small by lia.
      reflexivity. }
    rewrite E in *.
    destruct (Z.eqb_spec target (nth (Z.to_nat (negpos m)) (negatives m) 0));
      [congruence|].
    rewrite Z.add_0_r. reflexivity.
  - rewrite (get_Ok _ _ 0) by lia. cbn [bind].
    destruct (Z.eqb_spec (Z.of_nat (length (negatives m))) 0); [lia|].
    assert (E : nth (Z.to_nat (negpos m)) (negatives m) 0 = target).
    { rewrite <- (Hrej O ltac:(lia)). unfold slot. cbn [Z.of_nat].
      rewrite Z.add_0_r, Z.mod_small by lia. reflexivity. }
    rewrite E, Z.eqb_refl.
    set (m1 := set_negpos ((negpos m + 1) mod Z.of_nat (length (negatives m))) m).
    assert (Hshift : forall j, slot m1 j = slot m (j + 1))
      by (intros j; apply slot_shift; lia).
    rewrite (IH m1).
    + rewrite Hshift. unfold m1. cbn [negpos negatives set_negpos].
      rewrite <- Z.add_assoc, Zplus_mod_idemp_l.
      replace (Z.of_nat k + 1) with (Z.of_nat (Datatypes.S k)) by lia.
      replace (negpos m + 1 + Z.of_nat (Datatypes.S k))
        with (negpos m + Z.of_nat (Datatypes.S k) + 1) by lia.
      reflexivity.
    + unfold m1. cbn [negpos negatives set_negpos]. apply Z.mod_pos_bound. lia.
    + intros j Hj. rewrite Hshift.
      replace (Z.of_nat j + 1) with (Z.of_nat (Datatypes.S j)) by lia.
      apply Hrej. lia.
    + rewrite Hshift.
      replace (Z.of_nat k + 1) with (Z.of_nat (Datatypes.S k)) by lia.
      exact Hacc.
    + lia.
Qed.

(** A table that holds nothing but [target]. *)
Lemma getNegative_spins (target : Z) :
  forall (fuel : nat) (m : Model),
    0 <= negpos m < Z.of_nat (length (negatives m)) ->
    (forall x, In x (negatives m) -> x = target) ->
    getNegative fuel target m = Err OutOfFuel.
Proof.
  induction fuel as [|fuel IH]; intros m Hpos Hall; [reflexivity|].
  cbn [getNegative]. rewrite (get_Ok _ _ 0) by lia. cbn [bind].
  destruct (Z.eqb_spec (Z.of_nat (length (negatives m))) 0); [lia|].
  rewrite (Hall (nth (Z.to_nat (negpos m)) (negatives m) 0))
    by (apply nth_In; lia).
  rewrite Z.eqb_refl. apply IH.
  - cbn [negpos negatives set_negpos]. apply Z.mod_pos_bound. lia.
  - exact Hall.
Qed.

(** C6.  On a non-empty table with the cursor inside it: if some entry
    differs from [target], getNegative returns after a number [k] of
    rejected entries smaller than the table, with an entry other than
    [target] and the cursor moved [k + 1] places modulo the length; if
    every entry is [target], no amount of fuel lets the loop end. *)
Theorem getNegative_spec (target : Z) (m : Model) :
  0 <= negpos m < Z.of_nat (length (negatives m)) ->
  ((exists x, In x (negatives m) /\ x <> target) ->
   exists k : nat,
     (k < length (negatives m))%nat /\
     (forall j, (j < k)%nat -> slot m (Z.of_nat j) = target) /\
     slot m (Z.of_nat k) <> target /\
     forall fuel, (k < fuel)%nat ->
       getNegative fuel target m =
       Ok (slot m (Z.of_nat k),
           set_negpos ((negpos m + Z.of_nat k + 1)
                         mod Z.of_nat (length (negatives m))) m)) /\
  ((forall x, In x (negatives m) -> x = target) ->
   forall fuel, getNegative fuel target m = Err OutOfFuel).
Proof.
  intros Hpos. split.
  - intros (x & Hin & Hx).
    destruct (In_nth _ _ 0 Hin) as (q & Hq & Eq).
    set (len := Z.of_nat (length (negatives m))) in *.
    set (j0 := Z.to_nat ((Z.of_nat q - negpos m) mod len)).
    assert (Hj0 : (j0 < length (negatives m))%nat).
    { unfold j0. pose proof (Z.mod_pos_bound (Z.of_nat q - negpos m) len).
      lia. }
    assert (P0 : slot m (Z.of_nat j0) <> target).
    { unfold slot. fold len. unfold j0.
      rewrite Z2Nat.id by (apply Z.mod_pos_bound; lia).
      rewrite Zplus_mod_idemp_r.
      replace (negpos m + (Z.of_nat q - negpos m)) with (Z.of_nat q) by lia.
      rewrite Z.mod_small by lia. rewrite Nat2Z.id, Eq. exact Hx. }
    destruct (least_witness (fun j => slot m (Z.of_nat j) <> target)
                (fun j => match Z.eq_dec (slot m (Z.of_nat j)) target with
                          | Specif.left e => Specif.right (fun H => H e)
                          | Specif.right n => Specif.left n
                          end) j0 P0)
      as (k & Hk & Pk & Hmin).
    exists k. split; [lia|]. split.
    + intros j Hj. destruct (Z.eq_dec (slot m (Z.of_nat j)) target) as [E|N];
        [exact E|]. exfalso. exact (Hmin j Hj N).
    + split; [exact Pk|].
      intros fuel Hfuel. apply getNegative_rounds; auto.
      intros j Hj. destruct (Z.eq_dec (slot m (Z.of_nat j)) target) as [E|N];
        [exact E|]. exfalso. exact (Hmin j Hj N).
  - intros Hall fuel. apply getNegative_spins; assumption.
Qed.

(** ** initTableNegatives *)

Lemma firstn_snoc {A : Type} (d : A) (l : list A) :
  forall k, (k < length l)%nat ->
    firstn (Datatypes.S k) l = firstn k l ++ [nth k l d].
Proof.
  induction l as [|a l IH]; intros k Hk; cbn [length] in Hk; [lia|].
  destruct k as [|k]; [reflexivity|].
  cbn [firstn nth app]. f_equal. apply IH. lia.
Qed.

Lemma sum_root_loop (counts : list Z) :
  for_range 0 (Z.of_nat (length counts))
    (fun i z =>
       ci <- get counts i ;;
       Ok (round_real
             (round_double (z + pow (round_double (IZR ci)) (1 / 2)))))
    0%R
  = Ok (sum_root counts).
Proof.
  set (body := fun (i : Z) (z : R) =>
                 ci <- get counts i ;;
                 Ok (round_real
                       (round_double
                          (z + pow (round_double (IZR ci)) (1 / 2))))).
  set (P := fun (k : Z) (z : R) => z = sum_root (firstn (Z.to_nat k) counts)).
  destruct (for_range_inv P body 0 (Z.of_nat (length counts)) 0%R)
    as (z & Hrun & Hz).
  - lia.
  - reflexivity.
  - intros k z Hk ->. unfold body. rewrite (get_Ok _ _ 0) by lia.
    cbn [bind]. eexists. split; [reflexivity|]. unfold P.
    replace (Z.to_nat (k + 1)) with (Datatypes.S (Z.to_nat k)) by lia.
    rewrite (firstn_snoc 0) by lia. unfold sum_root.
    rewrite fold_left_app. reflexivity.
  - rewrite Hrun. unfold P in Hz. rewrite Nat2Z.id, firstn_all in Hz.
    rewrite Hz. reflexivity.
Qed.

Lemma table_from_app (z : R) (l1 l2 : list Z) :
  forall i, table_from z i (l1 ++ l2) =
            table_from z i l1 ++ table_from z (i + Z.of_nat (length l1)) l2.
Proof.
  induction l1 as [|c l1 IH]; intros i.
  - cbn. rewrite Z.add_0_r. reflexivity.
  - cbn [app table_from length]. rewrite IH, <- app_assoc.
    do 3 f_equal. lia.
Qed.

(** *** The loop of line 205 *)

Lemma below_from_spec (n : nat) :
  forall (j : Z) (x : R),
    (x <= round_real (IZR (j + Z.of_nat n)))%R ->
    (forall i, j <= i < j + Z.of_nat (below_from n j x) ->
               (round_real (IZR i) < x)%R) /\
    (x <= round_real (IZR (j + Z.of_nat (below_from n j x))))%R.
Proof.
  induction n as [|n IH]; intros j x Hstop; cbn [below_from].
  - split; [intros i Hi; lia|exact Hstop].
  - destruct (Rltb (round_real (IZR j)) x) eqn:Hc.
    + apply Rltb_true in Hc.
      destruct (IH (j + 1) x) as (Hlow & Hhigh).
      { replace (j + 1 + Z.of_nat n) with (j + Z.of_nat (Datatypes.S n))
          by lia. exact Hstop. }
      split.
      * intros i Hi. destruct (Z.eq_dec i j) as [->|Hne]; [exact Hc|].
        apply Hlow. lia.
      * replace (j + Z.of_nat (Datatypes.S (below_from n (j + 1) x)))
          with (j + 1 + Z.of_nat (below_from n (j + 1) x)) by lia.
        exact Hhigh.
    + apply Rltb_false in Hc. split; [intros i Hi; lia|].
      rewrite Z.add_0_r. exact Hc.
Qed.

Lemma below_from_mono (n1 : nat) :
  forall (n2 : nat) (j : Z) (x1 x2 : R),
    (n1 <= n2)%nat -> (x1 <= x2)%R ->
    (below_from n1 j x1 <= below_from n2 j x2)%nat.
Proof.
  induction n1 as [|n1 IH]; intros n2 j x1 x2 Hn Hx; cbn [below_from];
    [lia|].
  destruct n2 as [|n2]; [lia|]. cbn [below_from].
  destruct (Rltb (round_real (IZR j)) x1) eqn:H1; [|lia].
  apply Rltb_true in H1.
  assert (H2 : Rltb (round_real (IZR j)) x2 = true)
    by (apply Rltb_true; lra).
  rewrite H2. apply le_n_S. apply IH; [lia|exact Hx].
Qed.

Lemma push_copies_spec (n : nat) :
  forall (fuel : nat) (j : Z) (x : R) (i : Z) (negs : list Z),
    (x <= round_real (IZR (j + Z.of_nat n)))%R ->
    (below_from n j x < fuel)%nat ->
    push_copies fuel j x i negs = Ok (negs ++ repeat i (below_from n j x)).
Proof.
  induction n as [|n IH]; intros fuel j x i negs Hstop Hfuel;
    cbn [below_from] in *.
  - destruct fuel as [|fuel]; [lia|]. cbn [push_copies].
    rewrite Z.add_0_r in Hstop. apply Rltb_false in Hstop. rewrite Hstop.
    cbn [repeat]. rewrite app_nil_r. reflexivity.
  - destruct fuel as [|fuel]; [lia|]. cbn [push_copies].
    destruct (Rltb (round_real (IZR j)) x) eqn:Hc.
    + rewrite IH.
      * cbn [repeat]. rewrite <- app_assoc. reflexivity.
      * replace (j + 1 + Z.of_nat n) with (j + Z.of_nat (Datatypes.S n))
          by lia. exact Hstop.
      * lia.
    + cbn [repeat]. rewrite app_nil_r. reflexivity.
Qed.

(** *** The arithmetic of lines 199-205 under [Rounding] *)

Lemma root_nonneg (c : Z) : Rounding -> 0 <= c -> (0 <= root c)%R.
Proof.
  intros HR Hc. rewrite <- (root_0 HR). apply (root_mono HR). lia.
Qed.

Lemma sum_root_snoc (counts : list Z) (c : Z) :
  sum_root (counts ++ [c]) =
  round_real (round_double (sum_root counts + root c)).
Proof. unfold sum_root. rewrite fold_left_app. reflexivity. Qed.

(** [z] is a [real]: rounding it again changes nothing. *)
Lemma sum_root_rounded (counts : list Z) :
  Rounding -> round_real (sum_root counts) = sum_root counts.
Proof.
  intros HR. induction counts as [|c counts _] using rev_ind.
  - unfold sum_root. cbn. apply (real_0 HR).
  - rewrite sum_root_snoc. apply (real_idem HR).
Qed.

Lemma sum_root_bounds (counts : list Z) :
  Rounding -> Forall (fun c => 0 <= c) counts ->
  (0 <= sum_root counts)%R /\
  (Exists (fun c => 0 < c) counts -> (1 <= sum_root counts)%R).
Proof.
  intros HR. induction counts as [|c counts IH] using rev_ind; intros Hnn.
  - split; [unfold sum_root; cbn; lra|]. intros H. inversion H.
  - apply Forall_app in Hnn. destruct Hnn as [Hnn Hc].
    inversion Hc as [|? ? Hc0 _]; subst.
    destruct (IH Hnn) as [H0 H1]. rewrite sum_root_snoc.
    pose proof (root_nonneg c HR Hc0) as Hr.
    split.
    + rewrite <- (real_0 HR). apply (real_mono HR).
      rewrite <- (double_0 HR). apply (double_mono HR). lra.
    + intros Hex. rewrite <- (real_1 HR). apply (real_mono HR).
      rewrite <- (double_1 HR). apply (double_mono HR).
      apply Exists_app in Hex. destruct Hex as [Hex|Hex].
      * specialize (H1 Hex). lra.
      * inversion Hex as [? ? Hpos|? ? Hnil]; subst; [|inversion Hnil].
        pose proof (root_1 HR c ltac:(lia)). lra.
Qed.

Lemma sum_root_pos (counts : list Z) :
  Rounding -> Forall (fun c => 0 <= c) counts ->
  Exists (fun c => 0 < c) counts -> (0 < sum_root counts)%R.
Proof.
  intros HR Hnn Hex. destruct (sum_root_bounds counts HR Hnn) as [_ H].
  specialize (H Hex). lra.
Qed.

Lemma sum_root_zeros (counts : list Z) :
  Rounding -> Forall (fun c => c = 0) counts -> sum_root counts = 0%R.
Proof.
  intros HR. induction counts as [|c counts IH] using rev_ind; intros Hz.
  - reflexivity.
  - apply Forall_app in Hz. destruct Hz as [Hz Hc].
    inversion Hc as [|? ? -> _]; subst.
    rewrite sum_root_snoc, (IH Hz), (root_0 HR), Rplus_0_r.
    rewrite (double_0 HR). apply (real_0 HR).
Qed.

Lemma bound_rounded (z : R) (c : Z) :
  Rounding -> round_real (bound z c) = bound z c.
Proof. intros HR. unfold bound. apply (real_idem HR). Qed.

Lemma bound_zero (z : R) : Rounding -> bound z 0 = 0%R.
Proof.
  intros HR. unfold bound. rewrite (root_0 HR), (real_0 HR), Rmult_0_l.
  rewrite (real_0 HR). unfold Rdiv. rewrite Rmult_0_l. apply (real_0 HR).
Qed.

Lemma table_size_rounded :
  Rounding -> 0 <= NEGATIVE_TABLE_SIZE ->
  (0 <= round_real (IZR NEGATIVE_TABLE_SIZE))%R /\
  (0 < NEGATIVE_TABLE_SIZE -> (1 <= round_real (IZR NEGATIVE_TABLE_SIZE))%R).
Proof.
  intros HR HN. split.
  - rewrite <- (real_0 HR). apply (real_mono HR). apply IZR_le. exact HN.
  - intros Hp. rewrite <- (real_1 HR). apply (real_mono HR).
    apply IZR_le. lia.
Qed.

Lemma bound_pos (counts : list Z) (c : Z) :
  Rounding -> (0 < sum_root counts)%R -> 0 < NEGATIVE_TABLE_SIZE -> 0 < c ->
  (0 < bound (sum_root counts) c)%R.
Proof.
  intros HR Hz HN Hc. unfold bound.
  rewrite <- (sum_root_rounded counts HR) in Hz |- *.
  apply (real_quotient HR); [|exact Hz].
  destruct (table_size_rounded HR ltac:(lia)) as [_ H1]. specialize (H1 HN).
  assert (Hr : (1 <= round_real (root c))%R).
  { rewrite <- (real_1 HR). apply (real_mono HR). apply (root_1 HR). lia. }
  rewrite <- (real_1 HR). apply (real_mono HR).
  replace 1%R with (1 * 1)%R by lra.
  apply Rmult_le_compat; lra.
Qed.

Lemma bound_mono (z : R) (c1 c2 : Z) :
  Rounding -> (0 < z)%R -> 0 <= NEGATIVE_TABLE_SIZE -> 0 <= c1 <= c2 ->
  (bound z c1 <= bound z c2)%R.
Proof.
  intros HR Hz HN Hc. unfold bound. apply (real_mono HR).
  apply Rmult_le_compat_r; [apply Rlt_le, Rinv_0_lt_compat; exact Hz|].
  apply (real_mono HR).
  destruct (table_size_rounded HR HN) as [H0 _].
  apply Rmult_le_compat_r; [exact H0|].
  apply (real_mono HR). apply (root_mono HR). exact Hc.
Qed.

(** The loop has stopped when [j] reaches [ceil] of the bound. *)
Lemma bound_stop (z : R) (c : Z) :
  Rounding ->
  (bound z c
   <= round_real (IZR (0 + Z.of_nat (Z.to_nat (Zceil (bound z c))))))%R.
Proof.
  intros HR. set (x := bound z c).
  pose proof (Zceil_bound x) as [_ Hup]. rewrite Z.add_0_l.
  destruct (Z_le_gt_dec (Zceil x) 0) as [Hle|Hgt].
  - replace (Z.to_nat (Zceil x)) with 0%nat by lia. cbn [Z.of_nat].
    rewrite (real_0 HR). apply IZR_le in Hle. lra.
  - rewrite Z2Nat.id by lia. unfold x at 1.
    rewrite <- (bound_rounded z c HR). fold x.
    apply (real_mono HR). exact Hup.
Qed.

(** The number of copies of a class is the least [j] whose conversion
    to [real] is not below the bound of the class. *)
Lemma copies_spec (z : R) (c : Z) :
  Rounding ->
  (forall j, 0 <= j < Z.of_nat (copies z c) ->
             (round_real (IZR j) < bound z c)%R) /\
  (bound z c <= round_real (IZR (Z.of_nat (copies z c))))%R.
Proof.
  intros HR. unfold copies.
  destruct (below_from_spec (Z.to_nat (Zceil (bound z c))) 0 (bound z c)
              (bound_stop z c HR)) as [Hlow Hhigh].
  rewrite !Z.add_0_l in *. split; [exact Hlow|exact Hhigh].
Qed.

Lemma copies_zero (z : R) : Rounding -> copies z 0 = 0%nat.
Proof.
  intros HR. unfold copies. rewrite (bound_zero z HR).
  rewrite (Zceil_eq 0); [reflexivity|]. lra.
Qed.

Lemma copies_pos (counts : list Z) (c : Z) :
  Rounding -> (0 < sum_root counts)%R -> 0 < NEGATIVE_TABLE_SIZE -> 0 < c ->
  (0 < copies (sum_root counts) c)%nat.
Proof.
  intros HR Hz HN Hc.
  pose proof (bound_pos counts c HR Hz HN Hc) as Hx.
  unfold copies. set (x := bound (sum_root counts) c) in *.
  pose proof (Zceil_bound x) as [_ Hup].
  assert (H1 : 0 < Zceil x) by (apply lt_IZR; lra).
  destruct (Z.to_nat (Zceil x)) as [|n] eqn:En; [lia|].
  cbn [below_from].
  assert (H0 : Rltb (round_real (IZR 0)) x = true)
    by (apply Rltb_true; rewrite (real_0 HR); exact Hx).
  rewrite H0. lia.
Qed.

Lemma copies_mono (z : R) (c1 c2 : Z) :
  Rounding -> (0 < z)%R -> 0 <= NEGATIVE_TABLE_SIZE -> 0 <= c1 <= c2 ->
  (copies z c1 <= copies z c2)%nat.
Proof.
  intros HR Hz HN Hc. unfold copies.
  pose proof (bound_mono z c1 c2 HR Hz HN Hc) as Hb.
  apply below_from_mono; [|exact Hb].
  pose proof (Zceil_le _ _ Hb). lia.
Qed.

Lemma table_fuel_spec (counts : list Z) (c : Z) :
  In c counts -> (copies (sum_root counts) c < table_fuel counts)%nat.
Proof.
  intros Hin. unfold table_fuel. apply Nat.lt_succ_r.
  assert (H : forall l : list nat, forall n, In n l -> (n <= list_max l)%nat).
  { induction l as [|a l IH]; intros n Hn; [contradiction|].
    cbn [list_max fold_right]. destruct Hn as [<-|Hn]; [lia|].
    specialize (IH n Hn). unfold list_max in IH. lia. }
  apply H. apply in_map. exact Hin.
Qed.

Lemma fill_negatives_spec (fuel : nat) (z : R) (counts negs : list Z) :
  Rounding -> z <> 0%R ->
  (forall c, In c counts -> (copies z c < fuel)%nat) ->
  fill_negatives fuel z counts negs = Ok (negs ++ table_from z 0 counts).
Proof.
  intros HR Hz Hfuel. unfold fill_negatives.
  set (body := fun (i : Z) (negs : list Z) =>
                 ci <- get counts i ;;
                 q <- fdiv (round_real
                              (round_real (pow (round_double (IZR ci)) (1 / 2))
                               * round_real (IZR NEGATIVE_TABLE_SIZE))) z ;;
                 push_copies fuel 0 (round_real q) i negs).
  set (P := fun (k : Z) (l : list Z) =>
              l = negs ++ table_from z 0 (firstn (Z.to_nat k) counts)).
  destruct (for_range_inv P body 0 (Z.of_nat (length counts)) negs)
    as (l & Hrun & Hl).
  - lia.
  - unfold P. cbn. rewrite app_nil_r. reflexivity.
  - intros k l Hk ->. unfold body. rewrite (get_Ok _ _ 0) by lia.
    cbn [bind]. rewrite fdiv_Ok by exact Hz. cbn [bind].
    set (c := nth (Z.to_nat k) counts 0).
    change (round_real
              (round_real
                 (round_real (pow (round_double (IZR c)) (1 / 2))
                  * round_real (IZR NEGATIVE_TABLE_SIZE)) / z))
      with (bound z c).
    rewrite (push_copies_spec (Z.to_nat (Zceil (bound z c))));
      [|exact (bound_stop z c HR)|apply Hfuel; apply nth_In; lia].
    eexists. split; [reflexivity|]. unfold P.
    replace (Z.to_nat (k + 1)) with (Datatypes.S (Z.to_nat k)) by lia.
    rewrite (firstn_snoc 0) by lia. rewrite table_from_app.
    rewrite <- app_assoc. do 2 f_equal.
    rewrite length_firstn, Nat.min_l by lia.
    cbn [table_from]. rewrite app_nil_r. fold c. unfold copies.
    f_equal. lia.
  - rewrite Hrun. unfold P in Hl. rewrite Nat2Z.id, firstn_all in Hl.
    rewrite Hl. reflexivity.
Qed.

Lemma initTableNegatives_run (fuel : nat) (counts : list Z) (m : Model) :
  Rounding -> sum_root counts <> 0%R ->
  (table_fuel counts <= fuel)%nat ->
  initTableNegatives fuel counts m =
  Ok (set_negatives
        (shuffle (negatives m ++ table_from (sum_root counts) 0 counts)) m).
Proof.
  intros HR Hz Hfuel. unfold initTableNegatives.
  rewrite sum_root_loop. cbn [bind].
  rewrite fill_negatives_spec; [reflexivity|exact HR|exact Hz|].
  intros c Hc. pose proof (table_fuel_spec counts c Hc). lia.
Qed.

Lemma table_from_count (z : R) (counts : list Z) :
  forall i j,
    count_occ Z.eq_dec (table_from z i counts) j =
    if (i <=? j) && (j <? i + Z.of_nat (length counts))
    then copies z (nth (Z.to_nat (j - i)) counts 0)
    else O.
Proof.
  induction counts as [|c counts IH]; intros i j.
  - cbn [table_from count_occ length Z.of_nat].
    destruct (Z.leb_spec i j); destruct (Z.ltb_spec j (i + 0)); try lia;
      reflexivity.
  - cbn [table_from length]. rewrite count_occ_app, IH.
    destruct (Z.eq_dec j i) as [->|Hne].
    + rewrite count_occ_repeat_eq by reflexivity.
      destruct (Z.leb_spec (i + 1) i); [lia|]. cbn [andb].
      destruct (Z.leb_spec i i); [|lia].
      destruct (Z.ltb_spec i (i + Z.of_nat (Datatypes.S (length counts))));
        [|lia].
      cbn [andb]. rewrite Z.sub_diag. cbn. lia.
    + rewrite count_occ_repeat_neq by exact Hne. cbn [Nat.add].
      destruct (Z_lt_dec j i) as [Hlt|Hge].
      * destruct (Z.leb_spec (i + 1) j); [lia|].
        destruct (Z.leb_spec i j); [lia|]. reflexivity.
      * replace (Z.to_nat (j - i)) with (Datatypes.S (Z.to_nat (j - (i + 1))))
          by lia.
        cbn [nth].
        destruct (Z.leb_spec (i + 1) j); [|lia].
        destruct (Z.leb_spec i j); [|lia]. cbn [andb].
        destruct (Z.ltb_spec j (i + 1 + Z.of_nat (length counts)));
          destruct (Z.ltb_spec j (i + Z.of_nat (Datatypes.S (length counts))));
          try lia; reflexivity.
Qed.

Lemma table_count (counts : list Z) (x : Z) :
  count_occ Z.eq_dec (table_from (sum_root counts) 0 counts) x =
  if (0 <=? x) && (x <? Z.of_nat (length counts))
  then copies (sum_root counts) (nth (Z.to_nat x) counts 0)
  else 0%nat.
Proof.
  rewrite table_from_count. rewrite Z.add_0_l, Z.sub_0_r. reflexivity.
Qed.

(** The table holds the classes with a positive count, and nothing
    else. *)
Lemma table_In (counts : list Z) (x : Z) :
  Rounding ->
  (forall l, Permutation l (shuffle l)) ->
  0 < NEGATIVE_TABLE_SIZE ->
  Forall (fun c => 0 <= c) counts ->
  (0 < sum_root counts)%R ->
  In x (shuffle (table_from (sum_root counts) 0 counts)) <->
  0 <= x < Z.of_nat (length counts) /\ 0 < nth (Z.to_nat x) counts 0.
Proof.
  intros HR Hperm HN Hnn Hz. rewrite (count_occ_In Z.eq_dec).
  rewrite <- (proj1 (Permutation_count_occ Z.eq_dec _ _) (Hperm _) x).
  rewrite table_count.
  destruct (Z.leb_spec 0 x) as [H0|H0]; [|cbn [andb]; lia].
  destruct (Z.ltb_spec x (Z.of_nat (length counts))) as [H1|H1];
    [|cbn [andb]; lia].
  cbn [andb].
  assert (Hc : 0 <= nth (Z.to_nat x) counts 0).
  { rewrite Forall_forall in Hnn. apply Hnn. apply nth_In. lia. }
  destruct (Z.eq_dec (nth (Z.to_nat x) counts 0) 0) as [E|Hne].
  - rewrite E, (copies_zero _ HR). lia.
  - pose proof (copies_pos counts (nth (Z.to_nat x) counts 0)
                  HR Hz HN ltac:(lia)).
    lia.
Qed.

(** Where the conversion of [j] is exact up to the number of copies,
    that number is [ceil] of the bound. *)
Lemma copies_ceil (z : R) (c : Z) :
  Rounding -> (0 < z)%R -> 0 <= NEGATIVE_TABLE_SIZE -> 0 <= c ->
  (forall j, 0 <= j <= Z.of_nat (copies z c) -> round_real (IZR j) = IZR j) ->
  Z.of_nat (copies z c) = Zceil (bound z c).
Proof.
  intros HR Hz HN Hc Hexact.
  destruct (copies_spec z c HR) as [Hlow Hhigh].
  assert (Hnn : (0 <= bound z c)%R).
  { rewrite <- (bound_zero z HR). apply bound_mono; try assumption. lia. }
  set (n := Z.of_nat (copies z c)) in *.
  rewrite (Hexact n) in Hhigh by lia.
  symmetry. apply Zceil_eq. split; [|exact Hhigh].
  destruct (Z.eq_dec n 0) as [E|Hne].
  - rewrite E. lra.
  - specialize (Hlow (n - 1) ltac:(lia)).
    rewrite (Hexact (n - 1)) in Hlow by lia.
    rewrite minus_IZR in Hlow. exact Hlow.
Qed.

(** C5 (as amended).  The arithmetic of lines 199-205 is floating
    point; it enters through a rounding that is monotone and exact at
    0 and 1 and a [pow] that is monotone on the counts ([Rounding]),
    whatever its precision.  For a table of non-negative counts, one
    of them positive, and a positive capacity, initTableNegatives on a
    model whose negative table is still empty returns and fills the
    table with copies of class ids.  Class [i] gets as many copies as
    the loop [j < x] has rounds, [x] the value computed for
    [c * NEGATIVE_TABLE_SIZE / z]: the least [j] whose conversion to
    [real] is not below [x], which is [ceil x] (not [x] rounded or
    truncated) where the integers up to it convert exactly.  The table
    holds exactly the classes with a positive count, so it is not
    empty.  Its size is the sum of these numbers; nothing makes it
    NEGATIVE_TABLE_SIZE. *)
Theorem initTableNegatives_size (fuel : nat) (counts : list Z) (m : Model) :
  Rounding ->
  (forall l, Permutation l (shuffle l)) ->
  0 < NEGATIVE_TABLE_SIZE ->
  Forall (fun c => 0 <= c) counts ->
  Exists (fun c => 0 < c) counts ->
  negatives m = [] ->
  (table_fuel counts <= fuel)%nat ->
  exists m',
    initTableNegatives fuel counts m = Ok m' /\
    (forall i, 0 <= i < Z.of_nat (length counts) ->
       let x := bound (sum_root counts) (nth (Z.to_nat i) counts 0) in
       let n := Z.of_nat (count_occ Z.eq_dec (negatives m') i) in
       (forall j, 0 <= j < n -> (round_real (IZR j) < x)%R) /\
       (x <= round_real (IZR n))%R /\
       ((forall j, 0 <= j <= n -> round_real (IZR j) = IZR j) ->
        n = Zceil x)) /\
    (forall i, In i (negatives m') <->
       0 <= i < Z.of_nat (length counts) /\ 0 < nth (Z.to_nat i) counts 0) /\
    negatives m' <> [] /\
    Z.of_nat (length (negatives m')) =
      fold_right
        (fun c s => Z.of_nat (copies (sum_root counts) c) + s) 0 counts.
Proof.
  intros HR Hperm HN Hnn Hpos Hempty Hfuel.
  pose proof (sum_root_pos counts HR Hnn Hpos) as Hz.
  rewrite (initTableNegatives_run fuel counts m HR) by (lra || exact Hfuel).
  rewrite Hempty. cbn [app].
  eexists. split; [reflexivity|]. cbn [negatives set_negatives].
  set (tbl := table_from (sum_root counts) 0 counts).
  pose proof (Hperm tbl) as Hp.
  assert (Hcount : forall i, 0 <= i < Z.of_nat (length counts) ->
            count_occ Z.eq_dec (shuffle tbl) i =
            copies (sum_root counts) (nth (Z.to_nat i) counts 0)).
  { intros i Hi.
    rewrite <- (proj1 (Permutation_count_occ Z.eq_dec _ _) Hp i).
    unfold tbl. rewrite table_count.
    destruct (Z.leb_spec 0 i); [|lia].
    destruct (Z.ltb_spec i (Z.of_nat (length counts))); [|lia].
    reflexivity. }
  assert (Hin : forall i, In i (shuffle tbl) <->
            0 <= i < Z.of_nat (length counts) /\
            0 < nth (Z.to_nat i) counts 0).
  { intros i. apply table_In; assumption. }
  split; [|split; [exact Hin|split]].
  - intros i Hi. cbv zeta. rewrite (Hcount i Hi).
    set (c := nth (Z.to_nat i) counts 0).
    destruct (copies_spec (sum_root counts) c HR) as [Hlow Hhigh].
    split; [exact Hlow|]. split; [exact Hhigh|].
    intros Hexact. apply copies_ceil; try assumption; [lia|].
    unfold c. rewrite Forall_forall in Hnn. apply Hnn. apply nth_In. lia.
  - apply Exists_exists in Hpos. destruct Hpos as (c & Hc & Hc0).
    destruct (In_nth _ _ 0 Hc) as (i & Hi & Ei).
    assert (Hi' : In (Z.of_nat i) (shuffle tbl)).
    { apply Hin. rewrite Nat2Z.id, Ei. lia. }
    intros E. rewrite E in Hi'. exact Hi'.
  - rewrite <- (Permutation_length Hp). unfold tbl.
    assert (Hgen : forall z l i1,
               Z.of_nat (length (table_from z i1 l)) =
               fold_right (fun c s => Z.of_nat (copies z c) + s) 0 l).
    { intros z. induction l as [|a l IHl]; intros i1; [reflexivity|].
      cbn [table_from fold_right]. rewrite length_app, repeat_length.
      rewrite Nat2Z.inj_add, IHl. reflexivity. }
    apply Hgen.
Qed.

(** ** softmax *)

Lemma upd_nat_middle {A : Type} (g : A -> A) (l1 l2 : list A) (a : A) :
  upd_nat (l1 ++ a :: l2) (length l1) g = l1 ++ g a :: l2.
Proof.
  induction l1 as [|b l1 IH]; cbn; [reflexivity|]. rewrite IH. reflexivity.
Qed.

Lemma upd_nat_at {A : Type} (g : A -> A) (l1 l2 : list A) (a : A) (k : nat) :
  length l1 = k -> upd_nat (l1 ++ a :: l2) k g = l1 ++ g a :: l2.
Proof. intros <-. apply upd_nat_middle. Qed.

Lemma nth_at {A : Type} (l1 l2 : list A) (a d : A) (k : nat) :
  length l1 = k -> nth k (l1 ++ a :: l2) d = a.
Proof. intros <-. apply nth_middle. Qed.

Lemma skipn_nth_cons {A : Type} (d : A) (l : list A) :
  forall k, (k < length l)%nat ->
    skipn k l = nth k l d :: skipn (Datatypes.S k) l.
Proof.
  induction l as [|a l IH]; intros k Hk; cbn [length] in Hk; [lia|].
  destruct k as [|k]; [reflexivity|]. cbn [skipn nth]. apply IH. lia.
Qed.

(** A loop that overwrites a vector in place, before and after index [k]. *)
Lemma overwrite_step {A : Type} (f : A -> A) (d : A) (raw : list A) (k : nat) :
  (k < length raw)%nat ->
  let l1 := map f (firstn k raw) in
  let l2 := skipn (Datatypes.S k) raw in
  length l1 = k /\
  map f (firstn k raw) ++ skipn k raw = l1 ++ nth k raw d :: l2 /\
  map f (firstn (Datatypes.S k) raw) ++ skipn (Datatypes.S k) raw
    = l1 ++ f (nth k raw d) :: l2.
Proof.
  intros Hk l1 l2. split; [|split].
  - unfold l1. rewrite length_map, length_firstn. lia.
  - unfold l1, l2. rewrite (skipn_nth_cons d) by exact Hk. reflexivity.
  - unfold l1, l2. rewrite (firstn_snoc d) by exact Hk.
    rewrite map_app, <- app_assoc. reflexivity.
Qed.

Lemma Rsum_acc (v : Vector) :
  forall a, fold_left Rplus v a = (a + Rsum v)%R.
Proof.
  unfold Rsum. induction v as [|x v IH]; intros a; cbn [fold_left].
  - lra.
  - rewrite IH, (IH (0 + x)%R). lra.
Qed.

Lemma Rsum_snoc (v : Vector) (x : R) : Rsum (v ++ [x]) = (Rsum v + x)%R.
Proof. unfold Rsum. rewrite fold_left_app. reflexivity. Qed.

Lemma Rsum_cons (x : R) (v : Vector) : Rsum (x :: v) = (x + Rsum v)%R.
Proof. unfold Rsum at 1. cbn [fold_left]. rewrite Rsum_acc. lra. Qed.

Lemma Rsum_scaled (z : R) (v : Vector) :
  Rsum (map (fun x => (x / z)%R) v) = (Rsum v / z)%R.
Proof.
  induction v as [|x v IH].
  - unfold Rsum. cbn. lra.
  - cbn [map]. rewrite !Rsum_cons, IH. lra.
Qed.

Lemma Rsum_ge_member (v : Vector) :
  Forall (fun x => (0 <= x)%R) v ->
  (0 <= Rsum v)%R /\ forall x, In x v -> (x <= Rsum v)%R.
Proof.
  induction 1 as [|a v Ha _ IH].
  - split; [unfold Rsum; cbn; lra|]. intros x [].
  - destruct IH as [H0 Hin]. rewrite Rsum_cons. split; [lra|].
    intros x [<-|Hx]; [lra|]. specialize (Hin x Hx). lra.
Qed.

(** The maximum of lines 80-83 is one of the scores, and no score is
    above it. *)
Lemma fold_Rmax_spec (raw : Vector) :
  forall a,
    (fold_left (fun mx o => Rmax o mx) raw a = a \/
     In (fold_left (fun mx o => Rmax o mx) raw a) raw) /\
    (a <= fold_left (fun mx o => Rmax o mx) raw a)%R /\
    Forall (fun x => (x <= fold_left (fun mx o => Rmax o mx) raw a)%R) raw.
Proof.
  induction raw as [|x raw IH]; intros a; cbn [fold_left].
  - split; [left; reflexivity|]. split; [lra|constructor].
  - destruct (IH (Rmax x a)) as (Hin & Hge & Hall).
    pose proof (Rmax_l x a) as Hl. pose proof (Rmax_r x a) as Hr.
    split; [|split].
    + destruct Hin as [E|Hin]; [|right; right; exact Hin].
      rewrite E. unfold Rmax. destruct (Rle_dec x a);
        [left; reflexivity|right; left; reflexivity].
    + lra.
    + constructor; [lra|exact Hall].
Qed.

Lemma vmax_spec (raw : Vector) :
  raw <> [] ->
  In (vmax raw) raw /\ Forall (fun x => (x <= vmax raw)%R) raw.
Proof.
  intros Hne. unfold vmax.
  destruct (fold_Rmax_spec raw (nth 0 raw 0%R)) as (Hin & _ & Hall).
  split; [|exact Hall].
  destruct Hin as [E|Hin]; [|exact Hin].
  rewrite E. destruct raw as [|x raw]; [contradiction|]. left. reflexivity.
Qed.

(** The sum [z] of lines 84-87 is not zero: the term of a score equal
    to the maximum is [exp 0], and no term is negative. *)
Lemma Rsum_exp_pos (raw : Vector) :
  (forall x, (0 <= exp x)%R) -> (0 < exp 0)%R ->
  raw <> [] -> (0 < Rsum (map (fun x => exp (x - vmax raw)) raw))%R.
Proof.
  intros Hnn H0 Hne.
  destruct (vmax_spec raw Hne) as [Hin _].
  assert (He : Forall (fun x => (0 <= x)%R)
                      (map (fun x => exp (x - vmax raw)) raw)).
  { apply Forall_forall. intros y Hy. apply in_map_iff in Hy.
    destruct Hy as (x & <- & _). apply Hnn. }
  destruct (Rsum_ge_member _ He) as [_ Hmem].
  assert (Hm : In (exp (vmax raw - vmax raw))
                  (map (fun x => exp (x - vmax raw)) raw)).
  { apply in_map_iff. exists (vmax raw). split; [reflexivity|exact Hin]. }
  specialize (Hmem _ Hm).
  replace (vmax raw - vmax raw)%R with 0%R in Hmem by lra. lra.
Qed.

Lemma softmax_probs_sum (raw : Vector) :
  (forall x, (0 <= exp x)%R) -> (0 < exp 0)%R ->
  raw <> [] -> Rsum (softmax_probs raw) = 1%R.
Proof.
  intros Hnn H0 Hne. unfold softmax_probs. cbv zeta. rewrite Rsum_scaled.
  pose proof (Rsum_exp_pos raw Hnn H0 Hne). field. lra.
Qed.

Lemma Rmax_shift (a b c : R) : Rmax (a + c) (b + c) = (Rmax a b + c)%R.
Proof.
  unfold Rmax. destruct (Rle_dec (a + c) (b + c));
    destruct (Rle_dec a b); lra.
Qed.

Lemma vmax_shift (c : R) (raw : Vector) :
  raw <> [] -> vmax (map (fun x => (x + c)%R) raw) = (vmax raw + c)%R.
Proof.
  intros Hne. unfold vmax.
  assert (H0 : nth 0 (map (fun x => (x + c)%R) raw) 0%R = (nth 0 raw 0 + c)%R).
  { destruct raw; [contradiction|reflexivity]. }
  rewrite H0. generalize (nth 0 raw 0%R). clear H0 Hne.
  induction raw as [|x raw IH]; intros a; cbn [map fold_left]; [reflexivity|].
  rewrite Rmax_shift. apply IH.
Qed.

(** Adding a constant to every raw score changes no probability. *)
Lemma softmax_probs_shift (c : R) (raw : Vector) :
  softmax_probs (map (fun x => (x + c)%R) raw) = softmax_probs raw.
Proof.
  destruct raw as [|x0 raw']; [reflexivity|].
  set (raw := x0 :: raw').
  assert (Hne : raw <> []) by discriminate.
  unfold softmax_probs. cbv zeta. rewrite vmax_shift by exact Hne.
  assert (E : map (fun x => exp (x - (vmax raw + c)))
                  (map (fun x => (x + c)%R) raw)
              = map (fun x => exp (x - vmax raw)) raw).
  { rewrite map_map. apply map_ext. intros a. f_equal. lra. }
  rewrite E. reflexivity.
Qed.

Lemma softmax_probs_nth (raw : Vector) (i : nat) :
  (i < length raw)%nat ->
  nth i (softmax_probs raw) 0%R =
  (exp (nth i raw 0 - vmax raw)
   / Rsum (map (fun x => exp (x - vmax raw)) raw))%R.
Proof.
  intros Hi. unfold softmax_probs. cbv zeta.
  set (z := Rsum (map (fun x => exp (x - vmax raw)) raw)).
  rewrite (nth_indep _ 0%R ((fun x => (x / z)%R) 0%R))
    by (rewrite !length_map; exact Hi).
  rewrite (map_nth (fun x => (x / z)%R)).
  rewrite (nth_indep _ 0%R ((fun x => exp (x - vmax raw)) 0%R))
    by (rewrite length_map; exact Hi).
  rewrite (map_nth (fun x => exp (x - vmax raw))). reflexivity.
Qed.

Lemma softmax_max_spec (osz : Z) (raw : Vector) :
  1 <= osz -> Z.of_nat (length raw) = osz ->
  softmax_max osz raw = Ok (vmax raw).
Proof.
  intros Hosz Hlen. unfold softmax_max.
  rewrite (get_Ok _ _ 0%R) by lia. cbn [bind].
  set (body := fun (i : Z) (mx : R) => o <- get raw i ;; Ok (Rmax o mx)).
  set (P := fun (k : Z) (mx : R) =>
              mx = fold_left (fun mx o => Rmax o mx) (firstn (Z.to_nat k) raw)
                             (nth 0 raw 0%R)).
  destruct (for_range_inv P body 0 osz (nth (Z.to_nat 0) raw 0%R))
    as (mx & Hrun & Hmx).
  - lia.
  - reflexivity.
  - intros k mx0 Hk ->. unfold body. rewrite (get_Ok _ _ 0%R) by lia.
    cbn [bind]. eexists. split; [reflexivity|]. unfold P.
    replace (Z.to_nat (k + 1)) with (Datatypes.S (Z.to_nat k)) by lia.
    rewrite (firstn_snoc 0%R) by lia. rewrite fold_left_app. reflexivity.
  - rewrite Hrun. unfold P in Hmx.
    rewrite <- Hlen, Nat2Z.id, firstn_all in Hmx. rewrite Hmx. reflexivity.
Qed.

Lemma softmax_exp_spec (osz : Z) (mx : R) (raw : Vector) :
  Z.of_nat (length raw) = osz ->
  softmax_exp osz mx raw =
  Ok (map (fun x => exp (x - mx)) raw, Rsum (map (fun x => exp (x - mx)) raw)).
Proof.
  intros Hlen. unfold softmax_exp.
  set (f := fun x => exp (x - mx)).
  set (body := fun (i : Z) (s : Vector * R) =>
                 let '(out, z) := s in
                 o <- get out i ;;
                 out' <- modify out i (fun _ => exp (o - mx)) ;;
                 o' <- get out' i ;; Ok (out', (z + o')%R)).
  set (P := fun (k : Z) (s : Vector * R) =>
              s = (map f (firstn (Z.to_nat k) raw) ++ skipn (Z.to_nat k) raw,
                   Rsum (map f (firstn (Z.to_nat k) raw)))).
  destruct (for_range_inv P body 0 osz (raw, 0%R)) as (s & Hrun & Hs).
  - lia.
  - reflexivity.
  - intros k s0 Hk ->. unfold body.
    destruct (overwrite_step f 0%R raw (Z.to_nat k) ltac:(lia))
      as (Hl1 & Hcur & Hnext).
    rewrite Hcur.
    set (l1 := map f (firstn (Z.to_nat k) raw)) in *.
    set (l2 := skipn (Datatypes.S (Z.to_nat k)) raw) in *.
    assert (Hlen1 : length (l1 ++ nth (Z.to_nat k) raw 0%R :: l2) = length raw).
    { rewrite <- Hcur, length_app, Hl1, length_skipn. lia. }
    rewrite (get_Ok _ _ 0%R) by lia. cbn [bind].
    rewrite modify_Ok by lia. cbn [bind].
    rewrite (nth_at l1 l2 _ _ _ Hl1), (upd_nat_at _ l1 l2 _ _ Hl1).
    rewrite (get_Ok _ _ 0%R)
      by (rewrite length_app in *; cbn [length] in *; lia).
    cbn [bind]. rewrite (nth_at l1 l2 _ _ _ Hl1).
    eexists. split; [reflexivity|]. unfold P.
    replace (Z.to_nat (k + 1)) with (Datatypes.S (Z.to_nat k)) by lia.
    subst l1 l2. rewrite Hnext. f_equal.
    rewrite (firstn_snoc 0%R) by lia. rewrite map_app. cbn [map].
    rewrite Rsum_snoc. reflexivity.
  - unfold P in Hs.
    rewrite <- Hlen, Nat2Z.id, firstn_all, skipn_all, app_nil_r in Hs.
    rewrite <- Hs. exact Hrun.
Qed.

Lemma softmax_update_spec (target : Z) (z : R) (m : Model) :
  z <> 0%R ->
  Z.of_nat (length (output_ m)) = osz_ m ->
  Z.of_nat (length (wo_ m)) = osz_ m ->
  exists m',
    softmax_update target z m = Ok m' /\
    output_ m' = map (fun x => (x / z)%R) (output_ m).
Proof.
  intros Hz Hout Hwo. unfold softmax_update.
  set (e := output_ m).
  set (f := fun x => (x / z)%R).
  set (P := fun (k : Z) (m1 : Model) =>
              output_ m1 = map f (firstn (Z.to_nat k) e) ++ skipn (Z.to_nat k) e /\
              length (wo_ m1) = length (wo_ m)).
  match goal with
  | |- exists m', for_range 0 (osz_ m) ?b m = Ok m' /\ _ =>
      destruct (for_range_inv P b 0 (osz_ m) m) as (m' & Hrun & Ho & _)
  end.
  - lia.
  - split; reflexivity.
  - intros k m1 Hk (Ho & Hw).
    destruct (overwrite_step f 0%R e (Z.to_nat k) ltac:(unfold e; lia))
      as (Hl1 & Hcur & Hnext).
    rewrite Hcur in Ho.
    set (l1 := map f (firstn (Z.to_nat k) e)) in *.
    set (l2 := skipn (Datatypes.S (Z.to_nat k)) e) in *.
    assert (Hlen1 : length (output_ m1) = length e).
    { rewrite Ho, <- Hcur, length_app, Hl1, length_skipn. unfold e in *. lia. }
    cbv beta.
    assert (Hb : 0 <= k < Z.of_nat (length (output_ m1)))
      by (unfold e in *; lia).
    assert (Hbw : 0 <= k < Z.of_nat (length (wo_ m1))) by lia.
    rewrite (get_Ok _ _ 0%R) by exact Hb. cbn [bind].
    rewrite fdiv_Ok by exact Hz. cbn [bind].
    rewrite modify_Ok by exact Hb. cbn [bind output_ set_output].
    rewrite (get_upd_nat _ _ _ 0%R) by exact Hb.
    cbn [bind wo_ grad_ hidden_ set_output set_grad lr_].
    unfold vec_addRow_scaled.
    rewrite (get_Ok (A:=Vector) _ _ []) by exact Hbw. cbn [bind].
    unfold mat_addRow. rewrite modify_Ok by exact Hbw. cbn [bind].
    eexists. split; [reflexivity|]. unfold P.
    cbn [output_ wo_ set_wo set_grad set_output].
    rewrite upd_nat_length. split; [|exact Hw].
    rewrite Ho.
    rewrite (nth_at l1 l2 _ _ _ Hl1), (upd_nat_at _ l1 l2 _ _ Hl1).
    replace (Z.to_nat (k + 1)) with (Datatypes.S (Z.to_nat k)) by lia.
    subst l1 l2. rewrite Hnext. reflexivity.
  - exists m'. split; [exact Hrun|].
    rewrite Ho. unfold e.
    rewrite <- Hout, Nat2Z.id, firstn_all, skipn_all, app_nil_r. reflexivity.
Qed.

(** What a call of softmax returns and leaves in [output_]. *)
Lemma softmax_run (target : Z) (m : Model) :
  (forall x, (0 <= exp x)%R) -> (0 < exp 0)%R ->
  Z.of_nat (length (wo_ m)) = osz_ m ->
  0 <= target < osz_ m ->
  exists m',
    softmax target m =
      Ok ((- log (nth (Z.to_nat target)
                     (softmax_probs (mat_vec (wo_ m) (hidden_ m))) 0))%R, m') /\
    output_ m' = softmax_probs (mat_vec (wo_ m) (hidden_ m)).
Proof.
  intros Hnn H0 Hwo Ht. unfold softmax.
  cbn [wo_ hidden_ osz_ output_ set_grad set_output].
  set (raw := mat_vec (wo_ m) (hidden_ m)).
  assert (Hraw : Z.of_nat (length raw) = osz_ m)
    by (unfold raw, mat_vec; rewrite length_map; exact Hwo).
  assert (Hne : raw <> []) by (intros E; rewrite E in Hraw; cbn in Hraw; lia).
  rewrite (softmax_max_spec (osz_ m) raw) by lia. cbn [bind].
  rewrite (softmax_exp_spec (osz_ m) (vmax raw) raw Hraw). cbn [bind].
  pose proof (Rsum_exp_pos raw Hnn H0 Hne) as Hz.
  set (e := map (fun x => exp (x - vmax raw)) raw) in *.
  destruct (softmax_update_spec target (Rsum e)
              (set_output e (set_output raw (set_grad (vzero (grad_ m)) m))))
    as (m' & Hrun & Hout).
  - lra.
  - cbn [output_ osz_ set_output set_grad]. unfold e. rewrite length_map.
    exact Hraw.
  - cbn [wo_ osz_ set_output set_grad]. exact Hwo.
  - rewrite Hrun. cbn [bind]. cbn [output_ set_output] in Hout.
    assert (Hp : output_ m' = softmax_probs raw) by (rewrite Hout; reflexivity).
    exists m'. split; [|exact Hp].
    rewrite (get_Ok _ _ 0%R).
    + cbn [bind]. rewrite Hp. reflexivity.
    + rewrite Hp. unfold softmax_probs. cbv zeta. rewrite !length_map. lia.
Qed.

(** C4.  [exp] is any function that is never negative and not zero
    at 0, as the floating-point [exp] is (which returns 0 far below
    0); sums, differences and quotients are those of real numbers.  On
    a model with a row of [wo_] per class and at least one class,
    softmax returns for every class [target].  It leaves in [output_]
    one probability per class: for class [i], [exp] of the raw score
    [wo_ * hidden_] of [i] minus the largest raw score, over the sum
    of these terms over all classes.  The probabilities sum to 1, and
    the loss returned is [- log] of the probability of [target].  Run
    on a second model whose raw scores are those of the first plus one
    constant [c], softmax leaves the same probabilities and returns
    the same loss. *)
Theorem softmax_distribution (target : Z) (m m2 : Model) (c : R) :
  (forall x, (0 <= exp x)%R) -> (0 < exp 0)%R ->
  Z.of_nat (length (wo_ m)) = osz_ m ->
  Z.of_nat (length (wo_ m2)) = osz_ m2 ->
  osz_ m2 = osz_ m ->
  0 <= target < osz_ m ->
  mat_vec (wo_ m2) (hidden_ m2)
    = map (fun x => (x + c)%R) (mat_vec (wo_ m) (hidden_ m)) ->
  let raw := mat_vec (wo_ m) (hidden_ m) in
  exists loss m' loss2 m2',
    softmax target m = Ok (loss, m') /\
    softmax target m2 = Ok (loss2, m2') /\
    Z.of_nat (length (output_ m')) = osz_ m /\
    In (vmax raw) raw /\ Forall (fun x => (x <= vmax raw)%R) raw /\
    (forall i, 0 <= i < osz_ m ->
       nth (Z.to_nat i) (output_ m') 0%R =
       (exp (nth (Z.to_nat i) raw 0 - vmax raw)
        / Rsum (map (fun x => exp (x - vmax raw)) raw))%R) /\
    Rsum (output_ m') = 1%R /\
    loss = (- log (nth (Z.to_nat target) (output_ m') 0))%R /\
    output_ m2' = output_ m' /\
    loss2 = loss.
Proof.
  intros Hnn H0 Hw Hw2 Hosz Ht Hshift raw.
  destruct (softmax_run target m Hnn H0 Hw Ht) as (m' & Hrun & Hout).
  destruct (softmax_run target m2 Hnn H0 Hw2 ltac:(lia))
    as (m2' & Hrun2 & Hout2).
  rewrite Hshift, softmax_probs_shift in Hrun2, Hout2.
  fold raw in Hrun, Hout, Hrun2, Hout2.
  assert (Hlr : Z.of_nat (length raw) = osz_ m)
    by (unfold raw, mat_vec; rewrite length_map; exact Hw).
  assert (Hne : raw <> []) by (intros E; rewrite E in Hlr; cbn in Hlr; lia).
  destruct (vmax_spec raw Hne) as [Hin Hall].
  eexists _, m', _, m2'. split; [exact Hrun|]. split; [exact Hrun2|].
  split.
  { rewrite Hout. unfold softmax_probs. cbv zeta. rewrite !length_map.
    exact Hlr. }
  split; [exact Hin|]. split; [exact Hall|]. split.
  { intros i Hi. rewrite Hout. apply softmax_probs_nth. lia. }
  split; [rewrite Hout; apply softmax_probs_sum; assumption|].
  split; [rewrite Hout; reflexivity|].
  split; [congruence|reflexivity].
Qed.

(** ** The bounded heap *)

Lemma heap_insert_length {A : Type} (comp : A -> A -> bool) (x : A) (h : list A) :
  length (heap_insert comp x h) = Datatypes.S (length h).
Proof.
  induction h as [|y h IH]; cbn [heap_insert]; [reflexivity|].
  destruct (comp y x); cbn [length]; [reflexivity|]. rewrite IH. reflexivity.
Qed.

Lemma heap_insert_Forall {A : Type} (comp : A -> A -> bool) (P : A -> Prop)
      (x : A) (h : list A) :
  P x -> Forall P h -> Forall P (heap_insert comp x h).
Proof.
  intros Hx Hh. induction Hh as [|y h Hy Hh IH]; cbn [heap_insert].
  - constructor; [exact Hx|constructor].
  - destruct (comp y x); repeat constructor; assumption.
Qed.

Lemma heap_insert_sorted (x : R * Z) (h : list (R * Z)) :
  StronglySorted score_le h ->
  StronglySorted score_le (heap_insert comparePairs x h).
Proof.
  induction 1 as [|y h Hs IH Hy]; cbn [heap_insert].
  - constructor; constructor.
  - unfold comparePairs at 1. destruct (Rltb (fst x) (fst y)) eqn:E.
    + apply Rltb_true in E. constructor.
      * constructor; assumption.
      * constructor; [unfold score_le; lra|].
        eapply Forall_impl; [|exact Hy]. intros z Hz.
        unfold score_le in *. lra.
    + apply Rltb_false in E. constructor; [exact IH|].
      apply heap_insert_Forall; [exact E|exact Hy].
Qed.

Lemma push_heap_snoc {A : Type} (comp : A -> A -> bool) (h : list A) (p : A) :
  push_heap comp (h ++ [p]) = heap_insert comp p h.
Proof.
  unfold push_heap. rewrite rev_unit, rev_involutive. reflexivity.
Qed.

Lemma heap_offer_cases (k : Z) (p : R * Z) (h : list (R * Z)) :
  (Z.of_nat (length h) < k /\
   heap_offer k p h = heap_insert comparePairs p h) \/
  (k <= Z.of_nat (length h) /\
   exists x, heap_insert comparePairs p h = x :: heap_offer k p h).
Proof.
  unfold heap_offer. rewrite push_heap_snoc, heap_insert_length.
  destruct (Z.ltb_spec k (Z.of_nat (Datatypes.S (length h)))) as [Hlt|Hge].
  - right. split; [lia|].
    pose proof (heap_insert_length comparePairs p h) as Hl.
    destruct (heap_insert comparePairs p h) as [|x r]; [discriminate|].
    exists x. cbn [pop_heap]. rewrite removelast_last. reflexivity.
  - left. split; [lia|reflexivity].
Qed.

Lemma heap_offer_spec (P : R * Z -> Prop) (k : Z) (p : R * Z)
      (h : list (R * Z)) :
  0 < k ->
  StronglySorted score_le h -> Z.of_nat (length h) <= k -> P p -> Forall P h ->
  StronglySorted score_le (heap_offer k p h) /\
  Z.of_nat (length (heap_offer k p h)) = Z.min k (Z.of_nat (length h) + 1) /\
  Forall P (heap_offer k p h).
Proof.
  intros Hk Hs Hl Hp HP.
  pose proof (heap_insert_sorted p h Hs) as Hs1.
  pose proof (heap_insert_Forall comparePairs P p h Hp HP) as HP1.
  pose proof (heap_insert_length comparePairs p h) as Hl1.
  destruct (heap_offer_cases k p h) as [(Hlt & ->)|(Hge & x & E)].
  - split; [exact Hs1|]. split; [lia|exact HP1].
  - rewrite E in Hs1, HP1, Hl1. cbn [length] in Hl1.
    apply StronglySorted_inv in Hs1. inversion HP1; subst.
    split; [exact (proj1 Hs1)|]. split; [lia|assumption].
Qed.

Lemma worse_than_front_Ok (k : Z) (score : R) (h : list (R * Z)) :
  0 < k ->
  exists b, worse_than_front k score h = Ok b /\
            (b = true -> Z.of_nat (length h) = k).
Proof.
  intros Hk. unfold worse_than_front.
  destruct (Z.eqb_spec (Z.of_nat (length h)) k) as [E|N].
  - destruct h as [|x h]; [cbn in E; lia|]. cbn [front bind].
    eexists. split; [reflexivity|]. intros _. exact E.
  - exists false. split; [reflexivity|discriminate].
Qed.

Lemma sort_heap_rev {A : Type} (comp : A -> A -> bool) (h : list A) :
  sort_heap comp h = rev h.
Proof.
  induction h as [|x h IH]; cbn [sort_heap rev]; [reflexivity|].
  rewrite IH. reflexivity.
Qed.

Lemma sorted_snoc (h : list (R * Z)) (x : R * Z) :
  StronglySorted score_ge h -> Forall (fun y => score_ge y x) h ->
  StronglySorted score_ge (h ++ [x]).
Proof.
  induction 1 as [|y h Hs IH Hy]; intros Hx; cbn [app].
  - constructor; constructor.
  - inversion Hx; subst. constructor; [apply IH; assumption|].
    apply Forall_app. split; [exact Hy|]. constructor; [assumption|constructor].
Qed.

Lemma sorted_rev (h : list (R * Z)) :
  StronglySorted score_le h -> StronglySorted score_ge (rev h).
Proof.
  induction 1 as [|y h Hs IH Hy]; cbn [rev]; [constructor|].
  apply sorted_snoc; [exact IH|].
  apply Forall_rev. eapply Forall_impl; [|exact Hy]. intros z Hz. exact Hz.
Qed.

(** ** findKBest *)

Lemma findKBest_spec (k : Z) (heap : list (R * Z)) (m : Model) :
  0 < k ->
  Z.of_nat (length (output_ m)) = osz_ m ->
  StronglySorted score_le heap ->
  Z.of_nat (length heap) <= k ->
  Forall (scored m) heap ->
  exists heap',
    findKBest k heap m = Ok heap' /\
    StronglySorted score_le heap' /\
    Z.of_nat (length heap') = Z.min k (Z.of_nat (length heap) + osz_ m) /\
    Forall (scored m) heap'.
Proof.
  intros Hk Hout Hs Hl HP. unfold findKBest.
  set (P := fun (i : Z) (h : list (R * Z)) =>
              StronglySorted score_le h /\
              Z.of_nat (length h) = Z.min k (Z.of_nat (length heap) + i) /\
              Forall (scored m) h).
  match goal with
  | |- exists heap', for_range 0 (osz_ m) ?b heap = Ok heap' /\ _ =>
      destruct (for_range_inv P b 0 (osz_ m) heap) as (h' & Hrun & H')
  end.
  - lia.
  - unfold P. split; [exact Hs|]. split; [lia|exact HP].
  - intros i h Hi (Hsh & Hlh & HPh). cbv beta.
    assert (Hg : get (output_ m) i = Ok (nth (Z.to_nat i) (output_ m) 0%R))
      by (apply get_Ok; lia).
    rewrite Hg. cbn [bind].
    destruct (worse_than_front_Ok k (nth (Z.to_nat i) (output_ m) 0%R) h Hk)
      as (b & Hb & Hfull).
    rewrite Hb. cbn [bind]. destruct b.
    + exists h. split; [reflexivity|]. unfold P.
      specialize (Hfull eq_refl). split; [exact Hsh|]. split; [lia|exact HPh].
    + eexists. split; [reflexivity|]. unfold P.
      destruct (heap_offer_spec (scored m) k
                  (nth (Z.to_nat i) (output_ m) 0%R, i) h Hk Hsh ltac:(lia))
        as (A1 & A2 & A3); [exact Hg|exact HPh|].
      split; [exact A1|]. split; [lia|exact A3].
  - exists h'. split; [exact Hrun|]. exact H'.
Qed.

(** ** dfs *)

(** The search below node [n] of a finished tree, [cnt] counting the
    leaves below each node: it adds up to [cnt n] pairs to the heap,
    until the heap holds [k]. *)
Lemma dfs_spec (k : Z) (m : Model) (cnt : Z -> Z) :
  0 < k ->
  Z.of_nat (length (tree (hier m))) = 2 * osz_ m - 1 ->
  Z.of_nat (length (wo_ m)) = osz_ m ->
  (forall j, 0 <= j < osz_ m ->
     left (nd (tree (hier m)) j) = -1 /\ right (nd (tree (hier m)) j) = -1 /\
     cnt j = 1) ->
  (forall n, osz_ m <= n <= 2 * osz_ m - 2 ->
     0 <= left (nd (tree (hier m)) n) < n /\
     0 <= right (nd (tree (hier m)) n) < n /\
     cnt n = cnt (left (nd (tree (hier m)) n))
             + cnt (right (nd (tree (hier m)) n))) ->
  forall b, 0 <= b ->
  forall n, 0 <= n <= b -> n <= 2 * osz_ m - 2 ->
    1 <= cnt n /\
    forall fuel score heap,
      (Z.to_nat n < fuel)%nat ->
      StronglySorted score_le heap -> Z.of_nat (length heap) <= k ->
      exists heap',
        dfs fuel k n score heap m = Ok heap' /\
        StronglySorted score_le heap' /\
        Z.of_nat (length heap') = Z.min k (Z.of_nat (length heap) + cnt n).
Proof.
  intros Hk Hlen Hwo Hleaf Hint.
  assert (Hleafcase : forall n, 0 <= n < osz_ m ->
            1 <= cnt n /\
            forall fuel score heap,
              (Z.to_nat n < fuel)%nat ->
              StronglySorted score_le heap -> Z.of_nat (length heap) <= k ->
              exists heap',
                dfs fuel k n score heap m = Ok heap' /\
                StronglySorted score_le heap' /\
                Z.of_nat (length heap')
                  = Z.min k (Z.of_nat (length heap) + cnt n)).
  { intros n Hn. destruct (Hleaf n Hn) as (L1 & L2 & L3).
    split; [lia|]. intros fuel score heap Hf Hs Hl.
    destruct fuel as [|fuel]; [lia|]. cbn [dfs].
    destruct (worse_than_front_Ok k score heap Hk) as (b & Hb & Hfull).
    rewrite Hb. cbn [bind]. destruct b.
    - exists heap. specialize (Hfull eq_refl).
      split; [reflexivity|]. split; [exact Hs|lia].
    - rewrite get_nd by lia. cbn [bind]. rewrite L1, L2. cbn.
      eexists. split; [reflexivity|].
      destruct (heap_offer_spec (fun _ => True) k (score, n) heap Hk Hs Hl I)
        as (A1 & A2 & _).
      + apply Forall_forall. intros; exact I.
      + split; [exact A1|lia]. }
  apply (natlike_ind
           (fun b => forall n, 0 <= n <= b -> n <= 2 * osz_ m - 2 ->
              1 <= cnt n /\
              forall fuel score heap,
                (Z.to_nat n < fuel)%nat ->
                StronglySorted score_le heap -> Z.of_nat (length heap) <= k ->
                exists heap',
                  dfs fuel k n score heap m = Ok heap' /\
                  StronglySorted score_le heap' /\
                  Z.of_nat (length heap')
                    = Z.min k (Z.of_nat (length heap) + cnt n))).
  - intros n Hn Hroot.
    destruct (Z_lt_dec n (osz_ m)) as [Hlt|Hge]; [apply Hleafcase; lia|].
    destruct (Hint n ltac:(lia)) as (A & _). lia.
  - intros b Hb IH n Hn Hroot.
    destruct (Z_lt_dec n (osz_ m)) as [Hlt|Hge]; [apply Hleafcase; lia|].
    destruct (Hint n ltac:(lia)) as (Al & Ar & Ac).
    destruct (IH (left (nd (tree (hier m)) n)) ltac:(lia) ltac:(lia))
      as (Cl & Dl).
    destruct (IH (right (nd (tree (hier m)) n)) ltac:(lia) ltac:(lia))
      as (Cr & Dr).
    split; [lia|]. intros fuel score heap Hf Hs Hl.
    destruct fuel as [|fuel]; [lia|]. cbn [dfs].
    destruct (worse_than_front_Ok k score heap Hk) as (w & Hw & Hfull).
    rewrite Hw. cbn [bind]. destruct w.
    + exists heap. specialize (Hfull eq_refl).
      split; [reflexivity|]. split; [exact Hs|lia].
    + rewrite get_nd by lia. cbn [bind].
      destruct (Z.eqb_spec (left (nd (tree (hier m)) n)) (-1)); [lia|].
      cbn [andb]. unfold dotRow.
      rewrite (get_Ok (A:=Vector) _ _ []) by lia. cbn [bind].
      match goal with
      | |- context [dfs fuel k (left _) ?s heap m] =>
          destruct (Dl fuel s heap ltac:(lia) Hs Hl) as (h1 & R1 & S1 & L1)
      end.
      rewrite R1. cbn [bind].
      match goal with
      | |- context [dfs fuel k (right _) ?s h1 m] =>
          destruct (Dr fuel s h1 ltac:(lia) S1 ltac:(lia)) as (h2 & R2 & S2 & L2)
      end.
      exists h2. split; [exact R2|]. split; [exact S2|lia].
Qed.

(** ** predict *)

Lemma computeHidden_Ok (input : list Z) (m : Model) :
  input <> [] ->
  Forall (fun it => 0 <= it < Z.of_nat (length (wi_ m))) input ->
  exists h, computeHidden input m = Ok (set_hidden h m).
Proof.
  intros Hne Hin. unfold computeHidden.
  assert (H : forall acc, exists h,
               for_each input (fun it h => vec_addRow h (wi_ m) it) acc = Ok h).
  { clear Hne. induction Hin as [|it input Hit _ IH]; intros acc.
    - exists acc. reflexivity.
    - cbn [for_each]. unfold vec_addRow at 1.
      rewrite (get_Ok (A:=Vector) _ _ []) by exact Hit. cbn [bind]. apply IH. }
  destruct (H (vzero (hidden_ m))) as (h & Hh). rewrite Hh. cbn [bind].
  rewrite fdiv_Ok.
  - cbn [bind]. eexists. reflexivity.
  - destruct input as [|it input]; [contradiction|].
    apply not_0_IZR. cbn [length]. lia.
Qed.

(** predict when the loss is not hierarchical softmax. *)
Lemma predict_scan (fuel : nat) (input : list Z) (k : Z) (m : Model) :
  loss args <> hs ->
  input <> [] -> 0 < k < INT32_MAX ->
  Forall (fun it => 0 <= it < Z.of_nat (length (wi_ m))) input ->
  Z.of_nat (length (wo_ m)) = osz_ m ->
  exists heap m',
    predict fuel input k [] m = Ok (heap, m') /\
    Z.of_nat (length heap) = Z.min k (osz_ m) /\
    StronglySorted score_ge heap /\
    Forall (scored m') heap /\
    output_ m' = mat_vec (wo_ m) (hidden_ m').
Proof.
  intros Hloss Hne [Hk Hkmax] Hin Hwo. unfold predict, assert.
  destruct (Z.ltb_spec 0 k) as [_|C]; [|lia]. cbn [bind].
  rewrite int32_Ok by (destruct int32_bounds; lia). cbn [bind].
  destruct (computeHidden_Ok input m Hne Hin) as (h & Hh).
  rewrite Hh. cbn [bind].
  set (m2 := set_output (mat_vec (wo_ (set_hidden h m)) (hidden_ (set_hidden h m)))
                        (set_hidden h m)).
  destruct (findKBest_spec k [] m2 Hk) as (heap & Hrun & Hs & Hl & HP).
  - unfold m2, mat_vec. cbn [output_ osz_ set_output set_hidden wo_].
    rewrite length_map. exact Hwo.
  - constructor.
  - cbn [length]. lia.
  - constructor.
  - fold m2. rewrite Hrun.
    assert (E : forall X : result (list (R * Z) * Model),
              (match loss args with
               | hs => X
               | _ => h0 <- Ok heap ;; Ok (h0, m2)
               end) = Ok (heap, m2)).
    { intros X. destruct (loss args); [contradiction| |]; reflexivity. }
    rewrite E. cbn [bind].
    exists (sort_heap comparePairs heap), m2.
    split; [reflexivity|]. rewrite sort_heap_rev.
    split; [rewrite length_rev; cbn [length] in Hl; exact Hl|].
    split; [apply sorted_rev; exact Hs|].
    split; [apply Forall_rev; exact HP|reflexivity].
Qed.

(** predict on the tree that buildTree has built. *)
Lemma predict_tree (fuel fuel0 : nat) (input : list Z) (k : Z) (m : Model)
      (counts : list Z) :
  loss args = hs ->
  input <> [] -> 0 < k < INT32_MAX ->
  Forall (fun it => 0 <= it < Z.of_nat (length (wi_ m))) input ->
  Z.of_nat (length (wo_ m)) = osz_ m ->
  buildTree fuel0 (osz_ m) counts fresh = Ok (hier m) ->
  (Z.to_nat (2 * osz_ m) <= fuel)%nat ->
  exists heap m',
    predict fuel input k [] m = Ok (heap, m') /\
    Z.of_nat (length heap) = Z.min k (osz_ m) /\
    StronglySorted score_ge heap.
Proof.
  intros Hloss Hne [Hk Hkmax] Hin Hwo Hbuilt Hfuel. unfold predict, assert.
  destruct (Z.ltb_spec 0 k) as [_|C]; [|lia]. cbn [bind].
  rewrite int32_Ok by (destruct int32_bounds; lia). cbn [bind].
  destruct (computeHidden_Ok input m Hne Hin) as (h & Hh).
  rewrite Hh, Hloss. cbn [bind].
  destruct (buildTree_sound _ _ _ _ _ Hbuilt) as [Hosz _ (leaf & node & HI) _].
  cbn [osz_ set_hidden].
  rewrite (int32_Ok (2 * osz_ m)) by (destruct int32_bounds; lia). cbn [bind].
  rewrite int32_Ok by (destruct int32_bounds; lia). cbn [bind].
  pose proof (final_cursors (osz_ m) counts _ _ _ ltac:(lia) HI) as Hcur.
  destruct HI as [Hlen Hleaf Hnode Hnlt Hrem Hleaves Hfut Hcre Hpick Hunp Hcnt].
  destruct Hcnt as (cnt & Hc1 & Hc2 & Hc3).
  assert (Hroot : cnt (2 * osz_ m - 2) = osz_ m).
  { destruct Hcur as [(E1 & E2 & E3)|(E1 & E2 & E3)].
    - rewrite E1. apply Hc1. lia.
    - rewrite E2, E3 in Hc3.
      replace (Z.to_nat (2 * osz_ m - 1 - (2 * osz_ m - 2))) with 1%nat in Hc3
        by lia.
      cbn [range_sum] in Hc3. lia. }
  destruct (dfs_spec k (set_hidden h m) cnt Hk) with
    (b := 2 * osz_ m - 2) (n := 2 * osz_ m - 2)
    as (_ & Hdfs); cbn [hier osz_ wo_ set_hidden]; try lia; auto.
  - intros j Hj. destruct (Hleaves j Hj) as (A1 & A2 & _).
    split; [exact A1|]. split; [exact A2|]. apply Hc1. exact Hj.
  - intros n Hn. destruct (Hcre n ltac:(lia)) as (A1 & A2 & _).
    split; [exact A1|]. split; [exact A2|]. apply Hc2. lia.
  - destruct (Hdfs fuel 0%R [] ltac:(lia) ltac:(constructor)
                   ltac:(cbn [length]; lia)) as (heap & Hrun & Hs & Hl).
    cbn [hier osz_ wo_ set_hidden] in Hrun. rewrite Hrun. cbn [bind].
    exists (sort_heap comparePairs heap), (set_hidden h m).
    split; [reflexivity|]. rewrite sort_heap_rev, length_rev.
    split; [cbn [length] in Hl; lia|]. apply sorted_rev. exact Hs.
Qed.

(** C3 (as amended).  For a non-empty [input] of rows of [wi_] and
    [0 < k < INT32_MAX] (at [INT32_MAX] the [k + 1] of line 114
    overflows), predict called with an empty [heap] returns
    [min k osz_] pairs, in non-increasing order of score: equal scores
    can stand next to each other.  This holds for the scan of
    [output_] (findKBest) and, when the loss is hierarchical softmax,
    for the search of the tree that buildTree has built. *)
Theorem predict_sorted (fuel fuel0 : nat) (input : list Z) (k : Z) (m : Model)
        (counts : list Z) :
  input <> [] -> 0 < k < INT32_MAX ->
  Forall (fun it => 0 <= it < Z.of_nat (length (wi_ m))) input ->
  Z.of_nat (length (wo_ m)) = osz_ m ->
  (loss args = hs ->
   buildTree fuel0 (osz_ m) counts fresh = Ok (hier m) /\
   (Z.to_nat (2 * osz_ m) <= fuel)%nat) ->
  exists heap m',
    predict fuel input k [] m = Ok (heap, m') /\
    Z.of_nat (length heap) = Z.min k (osz_ m) /\
    StronglySorted score_ge heap.
Proof.
  intros Hne Hk Hin Hwo Hhs.
  destruct (loss args) eqn:Hloss.
  - destruct (Hhs eq_refl) as (Hbuilt & Hfuel).
    apply (predict_tree fuel fuel0 input k m counts); assumption.
  - destruct (predict_scan fuel input k m) as (heap & m' & H1 & H2 & H3 & _);
      try assumption; [rewrite Hloss; discriminate|eauto].
  - destruct (predict_scan fuel input k m) as (heap & m' & H1 & H2 & H3 & _);
      try assumption; [rewrite Hloss; discriminate|eauto].
Qed.

(** * Further properties *)

(** ** buildTree: what a second call does *)

(** The loop of lines 251-262 only appends: started on any lists it
    adds the paths and codes it adds when started on empty lists. *)
Lemma path_loop_prefix (fuel : nat) (t : list Node) (osz : Z) (n : nat) :
  forall (i : Z) (ps0 ps1 : list (list Z)) (cs0 cs1 : list (list bool)),
    for_loop n i (path_step fuel t osz) (ps0, cs0) = Ok (ps1, cs1) ->
    exists ps cs,
      ps1 = ps0 ++ ps /\ cs1 = cs0 ++ cs /\
      forall qs ds,
        for_loop n i (path_step fuel t osz) (qs, ds) = Ok (qs ++ ps, ds ++ cs).
Proof.
  induction n as [|n IH]; intros i ps0 ps1 cs0 cs1 H.
  - cbn in H. injection H as <- <-. exists [], [].
    rewrite !app_nil_r. split; [reflexivity|]. split; [reflexivity|].
    intros qs ds. cbn. rewrite !app_nil_r. reflexivity.
  - cbn [for_loop] in H. apply bind_Ok_inv in H. destruct H as ([ps cs] & Hb & H).
    unfold path_step in Hb. apply bind_Ok_inv in Hb.
    destruct Hb as ([path code] & Hw & Hb). cbn [fst snd] in Hb.
    injection Hb as <- <-.
    destruct (IH _ _ _ _ _ H) as (ps' & cs' & -> & -> & Hrun).
    exists (path :: ps'), (code :: cs').
    rewrite <- !app_assoc. split; [reflexivity|]. split; [reflexivity|].
    intros qs ds. cbn [for_loop]. unfold path_step at 1. rewrite Hw.
    cbn [bind fst snd]. rewrite Hrun, <- !app_assoc. reflexivity.
Qed.

(** buildTree resets every node but does not clear [paths] and
    [codes]: on members that already hold entries it builds the tree it
    builds on fresh members, and appends the paths and codes of that
    tree after the entries that were there. *)
Theorem buildTree_appends (fuel : nat) (osz : Z) (counts : list Z)
        (h h' : Hier) :
  buildTree fuel osz counts h = Ok h' ->
  exists hf,
    buildTree fuel osz counts fresh = Ok hf /\
    tree h' = tree hf /\
    paths h' = paths h ++ paths hf /\
    codes h' = codes h ++ codes hf.
Proof.
  unfold buildTree. intros H.
  apply bind_Ok_inv in H. destruct H as (t0 & H0 & H).
  apply bind_Ok_inv in H. destruct H as (t1 & H1 & H).
  apply bind_Ok_inv in H. destruct H as ([[t2 leaf] node] & H2 & H).
  apply bind_Ok_inv in H. destruct H as ([ps cs] & H3 & H).
  injection H as <-.
  rewrite H0. cbn [bind]. rewrite H1. cbn [bind]. rewrite H2. cbn [bind].
  unfold for_range in H3 |- *.
  destruct (path_loop_prefix _ _ _ _ _ _ _ _ _ H3) as (ps' & cs' & -> & -> & Hrun).
  cbn [paths codes fresh]. rewrite (Hrun [] []). cbn [bind app].
  eexists. split; [reflexivity|]. cbn [tree paths codes]. auto.
Qed.

(** ** buildTree: the shape of the tree *)

(** After a call of buildTree that returns, the first [osz] nodes are
    leaves: they have no children and carry the counts of the classes.
    The children of an internal node have smaller indices than the
    node.  The last node, [2 * osz - 2], is the only one without a
    parent; the parent of any other node is an internal node of larger
    index, and [binary] tells whether the node is its right child. *)
Theorem buildTree_shape (fuel : nat) (osz : Z) (counts : list Z) (h h' : Hier) :
  buildTree fuel osz counts h = Ok h' ->
  (forall j, 0 <= j < osz ->
     left (nd (tree h') j) = -1 /\ right (nd (tree h') j) = -1 /\
     count (nd (tree h') j) = of_count (nth (Z.to_nat j) counts 0)) /\
  (forall n, osz <= n <= 2 * osz - 2 ->
     0 <= left (nd (tree h') n) < n /\ 0 <= right (nd (tree h') n) < n) /\
  parent (nd (tree h') (2 * osz - 2)) = -1 /\
  (forall j, 0 <= j < 2 * osz - 2 ->
     j < parent (nd (tree h') j) <= 2 * osz - 2 /\
     osz <= parent (nd (tree h') j) /\
     (if binary (nd (tree h') j)
      then right (nd (tree h') (parent (nd (tree h') j)))
      else left (nd (tree h') (parent (nd (tree h') j)))) = j).
Proof.
  intros Hrun.
  destruct (buildTree_sound _ _ _ _ _ Hrun) as [Hosz _ (leaf & node & HI) _].
  pose proof (final_Linked osz counts _ leaf node ltac:(lia) HI) as HL.
  split; [exact (inv_leaves _ _ _ _ _ _ HI)|].
  split.
  - intros n Hn.
    destruct (inv_created _ _ _ _ _ _ HI n ltac:(lia)) as (A1 & A2 & _).
    split; assumption.
  - split; [exact (lk_root _ _ HL)|exact (lk_up _ _ HL)].
Qed.

(** ** buildTree: the paths *)

Lemma StronglySorted_snoc {A : Type} (R : A -> A -> Prop) (l : list A) (a : A) :
  StronglySorted R l -> Forall (fun y => R y a) l -> StronglySorted R (l ++ [a]).
Proof.
  induction 1 as [|b l Hs IH Hb]; intros Ha; cbn [app].
  - repeat constructor.
  - inversion Ha as [|? ? Hba Hla]; subst. constructor.
    + apply IH. exact Hla.
    + apply Forall_app. split; [exact Hb|]. repeat constructor. exact Hba.
Qed.

Lemma StronglySorted_rev {A : Type} (R : A -> A -> Prop) (l : list A) :
  StronglySorted R l -> StronglySorted (fun x y => R y x) (rev l).
Proof.
  induction 1 as [|a l Hs IH Ha]; cbn [rev]; [constructor|].
  apply StronglySorted_snoc; [exact IH|].
  apply Forall_rev. exact Ha.
Qed.

(** A descent that ends at a node of the tree passes internal nodes
    only, each of smaller index than the one before. *)
Lemma descend_visits (osz : Z) (t : list Node) :
  Z.of_nat (length t) = 2 * osz - 1 ->
  (forall j, 0 <= j < osz -> left (nd t j) = -1 /\ right (nd t j) = -1) ->
  (forall n, osz <= n <= 2 * osz - 2 ->
     0 <= left (nd t n) < n /\ 0 <= right (nd t n) < n) ->
  forall (bits : list bool) (n c : Z) (vis : list Z),
    descend t osz n bits = Ok (c, vis) -> 0 <= c -> 0 <= n <= 2 * osz - 2 ->
    Forall (fun x => 0 <= x <= n - osz) vis /\
    StronglySorted Z.gt vis /\
    (bits = [] -> c = n) /\
    (bits <> [] -> c < n /\ exists vis', vis = (n - osz) :: vis').
Proof.
  intros Hlen Hleaf Hint.
  induction bits as [|b bits IH]; intros n c vis H Hc Hn.
  - cbn in H. injection H as <- <-.
    split; [constructor|]. split; [constructor|].
    split; [reflexivity|]. intros E. contradiction.
  - cbn [descend] in H. apply bind_Ok_inv in H. destruct H as (x & Hx & H).
    apply get_nd_inv in Hx. destruct Hx as [_ ->].
    apply bind_Ok_inv in H. destruct H as ([m v] & Hd & H).
    injection H as <- <-.
    set (child := if b then right (nd t n) else left (nd t n)) in *.
    assert (Hchild : 0 <= child).
    { destruct bits as [|b' bits'].
      - cbn in Hd. injection Hd as <- <-. exact Hc.
      - cbn [descend] in Hd. apply bind_Ok_inv in Hd. destruct Hd as (y & Hy & _).
        apply get_nd_inv in Hy. lia. }
    assert (Hn' : osz <= n).
    { destruct (Z.lt_ge_cases n osz) as [Hlt|Hge]; [|exact Hge].
      destruct (Hleaf n ltac:(lia)) as [Hl Hr].
      unfold child in Hchild. destruct b; lia. }
    assert (Hcn : 0 <= child < n).
    { destruct (Hint n ltac:(lia)) as [Hl Hr]. unfold child. destruct b; lia. }
    destruct (IH _ _ _ Hd Hc ltac:(lia)) as (Hv & Hs & H0 & H1).
    assert (Hm : m <= child).
    { destruct bits as [|b' bits'].
      - rewrite (H0 eq_refl). lia.
      - destruct (H1 ltac:(discriminate)). lia. }
    split.
    { constructor; [lia|]. eapply Forall_impl; [|exact Hv].
      cbv beta. intros a Ha. lia. }
    split.
    { constructor; [exact Hs|]. eapply Forall_impl; [|exact Hv].
      cbv beta. intros a Ha. lia. }
    split; [intros E; discriminate|].
    intros _. split; [lia|]. eexists. reflexivity.
Qed.

Lemma sorted_range_length (vis : list Z) :
  StronglySorted Z.gt vis ->
  forall b, -1 <= b -> Forall (fun x => 0 <= x <= b) vis ->
    Z.of_nat (length vis) <= b + 1.
Proof.
  induction 1 as [|x vis Hs IH Hx]; intros b Hb1 Hb.
  - cbn; lia.
  - inversion Hb as [|? ? Hxb Hvb]; subst.
    assert (H : Z.of_nat (length vis) <= (x - 1) + 1).
    { apply IH; [lia|]. rewrite Forall_forall in *. intros a Ha.
      specialize (Hx a Ha). specialize (Hvb a Ha). lia. }
    cbn [length]. lia.
Qed.

(** The entries of a path, in a tree built by buildTree. *)
Lemma path_entries (fuel : nat) (osz : Z) (counts : list Z) (h' : Hier) :
  buildTree fuel osz counts fresh = Ok h' ->
  forall c, 0 <= c < osz ->
    exists p cd,
      get (paths h') c = Ok p /\ get (codes h') c = Ok cd /\
      length p = length cd /\
      Forall (fun x => 0 <= x <= osz - 2) p /\
      StronglySorted Z.lt p /\
      Z.of_nat (length p) <= osz - 1 /\
      (2 <= osz -> p <> [] /\ last p 0 = osz - 2).
Proof.
  intros Hrun c Hc.
  destruct (buildTree_sound _ _ _ _ _ Hrun)
    as [Hosz _ (leaf & node & HI) (ps & cs & Hp & Hcs & Hlp & Hlc & Hall)].
  rewrite Hp, Hcs. cbn [paths codes fresh].
  exists (nth (Z.to_nat c) ps []), (nth (Z.to_nat c) cs []).
  rewrite (get_app_r []), (get_app_r []) by lia.
  split; [reflexivity|]. split; [reflexivity|].
  destruct (Hall c Hc) as [Hpc Hd].
  split; [exact Hpc|]. clear Hpc.
  set (p := nth (Z.to_nat c) ps []) in *.
  set (cd := nth (Z.to_nat c) cs []) in *.
  destruct (descend_visits osz (tree h')
              (inv_len _ _ _ _ _ _ HI)
              (fun j Hj => let '(conj a (conj b _)) :=
                             inv_leaves _ _ _ _ _ _ HI j Hj in conj a b)
              (fun n Hn => let '(conj a (conj b _)) :=
                             inv_created _ _ _ _ _ _ HI n ltac:(lia) in conj a b)
              _ _ _ _ Hd ltac:(lia) ltac:(lia))
    as (Hv & Hs & H0 & H1).
  assert (Hv' : Forall (fun x => 0 <= x <= osz - 2) p).
  { rewrite <- (rev_involutive p). apply Forall_rev.
    eapply Forall_impl; [|exact Hv]. cbv beta. intros a Ha. lia. }
  split; [exact Hv'|].
  split.
  { rewrite <- (rev_involutive p).
    apply (StronglySorted_rev Z.gt) in Hs.
    eapply StronglySorted_ind with (P := StronglySorted Z.lt);
      [constructor| |exact Hs].
    intros a l _ IH Ha. constructor; [exact IH|].
    eapply Forall_impl; [|exact Ha]. cbv beta. intros; lia. }
  split.
  { rewrite <- length_rev.
    pose proof (sorted_range_length _ Hs (osz - 2) ltac:(lia)) as Hl.
    replace (osz - 2 + 1) with (osz - 1) in Hl by lia. apply Hl.
    eapply Forall_impl; [|exact Hv]. cbv beta. intros a Ha. lia. }
  intros H2.
  assert (Hne : rev cd <> []).
  { intros E. specialize (H0 E). lia. }
  destruct (H1 Hne) as (_ & vis' & Hvis).
  apply (f_equal (@rev Z)) in Hvis. rewrite rev_involutive in Hvis.
  cbn [rev] in Hvis. rewrite Hvis.
  split; [destruct (rev vis'); discriminate|].
  rewrite last_last. lia.
Qed.

(** In a tree built by buildTree the path of a class lists entries of
    internal nodes ([0 .. osz - 2], rows of [wo_]) in strictly
    increasing order, so it has at most [osz - 1] entries; with two
    classes or more it is not empty and ends with the entry of the
    root, [osz - 2]. *)
Theorem buildTree_paths (fuel : nat) (osz : Z) (counts : list Z) (h' : Hier) :
  buildTree fuel osz counts fresh = Ok h' ->
  forall c, 0 <= c < osz ->
    exists p cd,
      get (paths h') c = Ok p /\ get (codes h') c = Ok cd /\
      length p = length cd /\
      Forall (fun x => 0 <= x <= osz - 2) p /\
      StronglySorted Z.lt p /\
      Z.of_nat (length p) <= osz - 1 /\
      (2 <= osz -> p <> [] /\ last p 0 = osz - 2).
Proof. exact (path_entries fuel osz counts h'). Qed.

(** ** binaryLogistic *)

Lemma axpy_length (a : R) (x y : Vector) : length (axpy a x y) = length y.
Proof.
  revert x. induction y as [|yj y IH]; intros [|xj x]; cbn; try reflexivity.
  rewrite IH. reflexivity.
Qed.

Lemma upd_nat_shape (v : Matrix) (n : nat) (f : Vector -> Vector) :
  (forall r, length (f r) = length r) ->
  map (@length R) (upd_nat v n f) = map (@length R) v.
Proof.
  intros Hf. revert n. induction v as [|r v IH]; intros [|n]; cbn;
    try reflexivity.
  - rewrite Hf. reflexivity.
  - rewrite IH. reflexivity.
Qed.

(** Lines 42-50 for a target that is a row of [wo_]: the row moves by
    [alpha * hidden_], and [grad_] by [alpha] times the row as it was
    before the move. *)
Lemma binaryLogistic_eval (target : Z) (label : bool) (m : Model) :
  0 <= target < Z.of_nat (length (wo_ m)) ->
  let row := nth (Z.to_nat target) (wo_ m) [] in
  let score := sigmoid (dot row (hidden_ m)) in
  let alpha := (lr_ m * ((if label then 1 else 0) - score))%R in
  binaryLogistic target label m =
  Ok ((if label then - log score else - log (1 - score))%R,
      set_wo (upd_nat (wo_ m) (Z.to_nat target) (axpy alpha (hidden_ m)))
             (set_grad (axpy alpha row (grad_ m)) m)).
Proof.
  intros Ht. cbv zeta.
  unfold binaryLogistic, dotRow, vec_addRow_scaled, mat_addRow.
  rewrite (get_Ok (A:=Vector) _ _ []) by exact Ht. cbn [bind].
  rewrite modify_Ok by exact Ht. cbn [bind].
  destruct label; reflexivity.
Qed.

Lemma binaryLogistic_Err (target : Z) (label : bool) (m : Model) :
  ~ 0 <= target < Z.of_nat (length (wo_ m)) ->
  binaryLogistic target label m = Err OutOfBounds.
Proof.
  intros Ht. unfold binaryLogistic, dotRow, get.
  destruct (Z.ltb_spec target 0) as [Hn|Hp]; [reflexivity|].
  destruct (nth_error (wo_ m) (Z.to_nat target)) eqn:E; [|reflexivity].
  exfalso. apply Ht. split; [exact Hp|].
  assert (Z.to_nat target < length (wo_ m))%nat
    by (apply nth_error_Some; rewrite E; discriminate).
  lia.
Qed.

Lemma Kept_refl (m : Model) : Kept m m.
Proof. constructor; reflexivity. Qed.

Lemma Kept_trans (m1 m2 m3 : Model) : Kept m1 m2 -> Kept m2 m3 -> Kept m1 m3.
Proof.
  intros [] []. constructor; etransitivity; eassumption.
Qed.

Lemma binaryLogistic_Kept (target : Z) (label : bool) (m m' : Model) (l : R) :
  binaryLogistic target label m = Ok (l, m') -> Kept m m'.
Proof.
  intros H.
  destruct (Z_lt_ge_dec target 0) as [Hn|Hp].
  { rewrite binaryLogistic_Err in H by lia. discriminate. }
  destruct (Z_lt_ge_dec target (Z.of_nat (length (wo_ m)))) as [Hlt|Hge].
  2:{ rewrite binaryLogistic_Err in H by lia. discriminate. }
  rewrite binaryLogistic_eval in H by lia. injection H as _ <-.
  constructor; cbn; try reflexivity.
  - apply upd_nat_shape. intros r. apply axpy_length.
  - apply axpy_length.
Qed.

(** ** hierarchicalSoftmax on the tree of buildTree *)

Lemma shape_length (a b : Matrix) :
  map (@length R) a = map (@length R) b -> length a = length b.
Proof.
  intros H. apply (f_equal (@length nat)) in H.
  rewrite !length_map in H. exact H.
Qed.

Lemma hierarchicalSoftmax_run (fuel : nat) (counts : list Z) (target : Z)
      (m : Model) :
  buildTree fuel (osz_ m) counts fresh = Ok (hier m) ->
  Z.of_nat (length (wo_ m)) = osz_ m ->
  0 <= target < osz_ m ->
  exists loss m' p,
    hierarchicalSoftmax target m = Ok (loss, m') /\
    get (paths (hier m)) target = Ok p /\
    Kept m m' /\ negpos m' = negpos m /\ output_ m' = output_ m /\
    (forall r, 0 <= r -> ~ In r p ->
       nth (Z.to_nat r) (wo_ m') [] = nth (Z.to_nat r) (wo_ m) []) /\
    nth (Z.to_nat (osz_ m - 1)) (wo_ m') [] =
      nth (Z.to_nat (osz_ m - 1)) (wo_ m) [].
Proof.
  intros Hrun Hwo Ht.
  destruct (path_entries _ _ _ _ Hrun target Ht)
    as (p & cd & Hp & Hcd & Hlen & Hrange & _).
  unfold hierarchicalSoftmax. cbv zeta.
  change (hier (set_grad (vzero (grad_ m)) m)) with (hier m).
  rewrite Hcd, Hp. cbn [bind].
  set (m0 := set_grad (vzero (grad_ m)) m).
  set (P := fun (_ : Z) (s : R * Model) =>
              Kept m (snd s) /\ negpos (snd s) = negpos m /\
              output_ (snd s) = output_ m /\
              forall r, 0 <= r -> ~ In r p ->
                nth (Z.to_nat r) (wo_ (snd s)) [] = nth (Z.to_nat r) (wo_ m) []).
  match goal with
  | |- context [for_range 0 ?hi ?body ?s] =>
      destruct (for_range_inv P body 0 hi s) as ([loss m'] & Hloop & HP)
  end.
  - lia.
  - unfold P, m0. cbn [snd]. split.
    + constructor; cbn; try reflexivity. unfold vzero. apply length_map.
    + cbn. auto.
  - intros k [loss m1] Hk (HK & Hnp & Hout & Hrows). cbn [snd] in *.
    rewrite (get_Ok _ _ 0) by lia.
    rewrite (get_Ok _ _ false) by lia. cbn [bind].
    set (pk := nth (Z.to_nat k) p 0).
    assert (Hin : In pk p) by (apply nth_In; lia).
    assert (Hpk : 0 <= pk <= osz_ m - 2).
    { rewrite Forall_forall in Hrange. apply Hrange. exact Hin. }
    pose proof (shape_length _ _ (kept_wo_shape _ _ HK)) as Hl.
    rewrite binaryLogistic_eval by lia. cbv zeta. cbn [bind].
    eexists. split; [reflexivity|].
    unfold P. cbn [snd].
    match goal with
    | |- Kept m ?m2 /\ _ =>
        assert (HK2 : Kept m1 m2)
    end.
    { constructor; cbn; try reflexivity.
      - apply upd_nat_shape. intros r. apply axpy_length.
      - apply axpy_length. }
    split; [exact (Kept_trans _ _ _ HK HK2)|].
    cbn. split; [exact Hnp|]. split; [exact Hout|].
    intros r Hr Hnin. rewrite upd_nat_nth by lia.
    destruct (Nat.eqb_spec (Z.to_nat r) (Z.to_nat pk)) as [E|_].
    + exfalso. apply Hnin. replace r with pk by lia. exact Hin.
    + apply Hrows; assumption.
  - exists loss, m', p. rewrite Hloop.
    destruct HP as (HK & Hnp & Hout & Hrows). cbn [snd] in *.
    split; [reflexivity|]. split; [reflexivity|].
    split; [exact HK|]. split; [exact Hnp|]. split; [exact Hout|].
    split; [exact Hrows|].
    apply Hrows; [lia|]. intros Hin.
    rewrite Forall_forall in Hrange. specialize (Hrange _ Hin). lia.
Qed.

(** On a model whose tree buildTree has built and whose [wo_] has a
    row per class, hierarchicalSoftmax returns for every class.  It
    changes [grad_] and the rows of [wo_] that the path of the class
    names, and nothing else: every other row, the last row
    [osz_ - 1] among them (the tree has only [osz_ - 1] internal
    nodes), is as before. *)
Theorem hierarchicalSoftmax_built (fuel : nat) (counts : list Z) (target : Z)
        (m : Model) :
  buildTree fuel (osz_ m) counts fresh = Ok (hier m) ->
  Z.of_nat (length (wo_ m)) = osz_ m ->
  0 <= target < osz_ m ->
  exists loss m' p,
    hierarchicalSoftmax target m = Ok (loss, m') /\
    get (paths (hier m)) target = Ok p /\
    Kept m m' /\ negpos m' = negpos m /\ output_ m' = output_ m /\
    (forall r, 0 <= r -> ~ In r p ->
       nth (Z.to_nat r) (wo_ m') [] = nth (Z.to_nat r) (wo_ m) []) /\
    nth (Z.to_nat (osz_ m - 1)) (wo_ m') [] =
      nth (Z.to_nat (osz_ m - 1)) (wo_ m) [].
Proof. exact (hierarchicalSoftmax_run fuel counts target m). Qed.

(** ** What the scoring strategies keep *)

Lemma for_loop_keeps {S : Type} (Q : S -> Prop) (body : Z -> S -> result S)
      (n : nat) :
  forall (i : Z) (s s' : S),
    for_loop n i body s = Ok s' -> Q s ->
    (forall k s0 s1, Q s0 -> body k s0 = Ok s1 -> Q s1) ->
    Q s'.
Proof.
  induction n as [|n IH]; intros i s s' H HQ Hstep.
  - cbn in H. injection H as <-. exact HQ.
  - cbn [for_loop] in H. apply bind_Ok_inv in H. destruct H as (s1 & Hb & H).
    apply (IH _ _ _ H); [|exact Hstep]. exact (Hstep _ _ _ HQ Hb).
Qed.

Lemma for_each_keeps {S A : Type} (Q : S -> Prop) (body : A -> S -> result S)
      (v : list A) :
  forall (s s' : S),
    for_each v body s = Ok s' -> Q s ->
    (forall a s0 s1, In a v -> Q s0 -> body a s0 = Ok s1 -> Q s1) ->
    Q s'.
Proof.
  induction v as [|a v IH]; intros s s' H HQ Hstep.
  - cbn in H. injection H as <-. exact HQ.
  - cbn [for_each] in H. apply bind_Ok_inv in H. destruct H as (s1 & Hb & H).
    apply (IH _ _ H).
    + exact (Hstep a _ _ (or_introl eq_refl) HQ Hb).
    + intros b s0 s2 Hin. apply Hstep. right. exact Hin.
Qed.

(** A call of getNegative that returns has moved the cursor, to a
    position inside the table, and nothing else; what it returns is an
    entry of the table other than [target]. *)
Lemma getNegative_Ok_inv (target : Z) :
  forall (fuel : nat) (m m' : Model) (negative : Z),
    getNegative fuel target m = Ok (negative, m') ->
    negative <> target /\ In negative (negatives m) /\
    exists q, 0 <= q < Z.of_nat (length (negatives m)) /\ m' = set_negpos q m.
Proof.
  induction fuel as [|fuel IH]; intros m m' negative H; [discriminate|].
  cbn [getNegative] in H. apply bind_Ok_inv in H. destruct H as (x & Hx & H).
  pose proof (get_Ok_inv _ _ _ 0 Hx) as [Hb ->].
  destruct (Z.eqb_spec (Z.of_nat (length (negatives m))) 0) as [|Hsz];
    [discriminate|].
  set (q := (negpos m + 1) mod Z.of_nat (length (negatives m))) in *.
  assert (Hq : 0 <= q < Z.of_nat (length (negatives m)))
    by (apply Z.mod_pos_bound; lia).
  destruct (Z.eqb_spec target (nth (Z.to_nat (negpos m)) (negatives m) 0))
    as [E|Hne].
  - destruct (IH _ _ _ H) as (H1 & H2 & q' & Hq' & ->).
    cbn [negatives set_negpos] in *.
    split; [exact H1|]. split; [exact H2|]. exists q'. split; [exact Hq'|].
    reflexivity.
  - injection H as <- <-. split; [congruence|].
    split; [apply nth_In; lia|]. exists q. split; [exact Hq|reflexivity].
Qed.

Lemma set_negpos_Kept (q : Z) (m : Model) : Kept m (set_negpos q m).
Proof. constructor; reflexivity. Qed.

Lemma negativeSampling_Kept (fuel : nat) (target : Z) (m m' : Model) (l : R) :
  negativeSampling fuel target m = Ok (l, m') ->
  Kept m m' /\ output_ m' = output_ m.
Proof.
  unfold negativeSampling, for_range. cbv zeta. intros H.
  apply (for_loop_keeps
           (fun s : R * Model => Kept m (snd s) /\ output_ (snd s) = output_ m))
    in H; [exact H| |].
  - cbn [snd]. split; [|reflexivity].
    constructor; cbn; try reflexivity. unfold vzero. apply length_map.
  - intros k [loss m1] [loss' m3] [HK Hout] Hb. cbn [snd] in *.
    destruct (k =? 0).
    + apply bind_Ok_inv in Hb. destruct Hb as ([l2 m2] & Hbl & Hb).
      injection Hb as _ <-.
      pose proof (binaryLogistic_Kept _ _ _ _ _ Hbl) as HK2.
      split; [exact (Kept_trans _ _ _ HK HK2)|].
      assert (Hin : 0 <= target < Z.of_nat (length (wo_ m1))).
      { destruct (Z_lt_ge_dec target 0);
          [rewrite binaryLogistic_Err in Hbl by lia; discriminate|].
        destruct (Z_lt_ge_dec target (Z.of_nat (length (wo_ m1))));
          [lia|rewrite binaryLogistic_Err in Hbl by lia; discriminate]. }
      rewrite binaryLogistic_eval in Hbl by exact Hin.
      injection Hbl as _ <-. exact Hout.
    + apply bind_Ok_inv in Hb. destruct Hb as ([negative m2] & Hg & Hb).
      apply bind_Ok_inv in Hb. destruct Hb as ([l2 m4] & Hbl & Hb).
      injection Hb as _ <-.
      destruct (getNegative_Ok_inv _ _ _ _ _ Hg) as (_ & _ & q & _ & ->).
      pose proof (binaryLogistic_Kept _ _ _ _ _ Hbl) as HK2.
      split.
      * eapply Kept_trans; [exact HK|].
        eapply Kept_trans; [apply set_negpos_Kept|exact HK2].
      * assert (Hin : 0 <= negative
                      < Z.of_nat (length (wo_ (set_negpos q m1)))).
        { destruct (Z_lt_ge_dec negative 0);
            [rewrite binaryLogistic_Err in Hbl by lia; discriminate|].
          destruct (Z_lt_ge_dec negative
                      (Z.of_nat (length (wo_ (set_negpos q m1)))));
            [lia|rewrite binaryLogistic_Err in Hbl by lia; discriminate]. }
        rewrite binaryLogistic_eval in Hbl by exact Hin.
        injection Hbl as _ <-. exact Hout.
Qed.

Lemma binaryLogistic_Ok_inv (target : Z) (label : bool) (m m' : Model) (l : R) :
  binaryLogistic target label m = Ok (l, m') ->
  0 <= target < Z.of_nat (length (wo_ m)) /\
  Kept m m' /\ output_ m' = output_ m /\ negpos m' = negpos m.
Proof.
  intros H.
  assert (Hin : 0 <= target < Z.of_nat (length (wo_ m))).
  { destruct (Z_lt_ge_dec target 0);
      [rewrite binaryLogistic_Err in H by lia; discriminate|].
    destruct (Z_lt_ge_dec target (Z.of_nat (length (wo_ m))));
      [lia|rewrite binaryLogistic_Err in H by lia; discriminate]. }
  split; [exact Hin|]. split; [exact (binaryLogistic_Kept _ _ _ _ _ H)|].
  rewrite binaryLogistic_eval in H by exact Hin.
  injection H as _ <-. split; reflexivity.
Qed.

Lemma hierarchicalSoftmax_Kept (target : Z) (m m' : Model) (l : R) :
  hierarchicalSoftmax target m = Ok (l, m') ->
  Kept m m' /\ output_ m' = output_ m /\ negpos m' = negpos m.
Proof.
  unfold hierarchicalSoftmax, for_range. cbv zeta. intros H.
  apply bind_Ok_inv in H. destruct H as (cd & _ & H).
  apply bind_Ok_inv in H. destruct H as (p & _ & H).
  apply (for_loop_keeps
           (fun s : R * Model =>
              Kept m (snd s) /\ output_ (snd s) = output_ m /\
              negpos (snd s) = negpos m))
    in H; [exact H| |].
  - cbn [snd]. split; [|split; reflexivity].
    constructor; cbn; try reflexivity. unfold vzero. apply length_map.
  - intros k [loss m1] [loss' m3] (HK & Hout & Hnp) Hb. cbn [snd] in *.
    apply bind_Ok_inv in Hb. destruct Hb as (pk & _ & Hb).
    apply bind_Ok_inv in Hb. destruct Hb as (b & _ & Hb).
    apply bind_Ok_inv in Hb. destruct Hb as ([l2 m2] & Hbl & Hb).
    injection Hb as _ <-.
    destruct (binaryLogistic_Ok_inv _ _ _ _ _ Hbl) as (_ & HK2 & Ho & Hn).
    split; [exact (Kept_trans _ _ _ HK HK2)|]. split; congruence.
Qed.

Lemma softmax_update_Kept (target : Z) (z : R) (m m' : Model) :
  softmax_update target z m = Ok m' ->
  Kept m m' /\ negpos m' = negpos m /\ length (output_ m') = length (output_ m).
Proof.
  unfold softmax_update, for_range. intros H.
  apply (for_loop_keeps
           (fun s : Model =>
              Kept m s /\ negpos s = negpos m /\
              length (output_ s) = length (output_ m)))
    in H; [exact H| |].
  - split; [apply Kept_refl|split; reflexivity].
  - intros k m1 m4 (HK & Hnp & Hlo) Hb.
    apply bind_Ok_inv in Hb. destruct Hb as (o & _ & Hb).
    apply bind_Ok_inv in Hb. destruct Hb as (q & _ & Hb).
    apply bind_Ok_inv in Hb. destruct Hb as (out' & Hm & Hb).
    apply bind_Ok_inv in Hb. destruct Hb as (o' & _ & Hb).
    apply bind_Ok_inv in Hb. destruct Hb as (g & Hg & Hb).
    apply bind_Ok_inv in Hb. destruct Hb as (wo' & Hw & Hb).
    injection Hb as <-.
    apply modify_Ok_inv in Hm. destruct Hm as [_ ->].
    unfold vec_addRow_scaled in Hg. apply bind_Ok_inv in Hg.
    destruct Hg as (row & _ & Hg). injection Hg as <-.
    unfold mat_addRow in Hw. apply modify_Ok_inv in Hw. destruct Hw as [_ ->].
    cbn. split; [|split; [exact Hnp|rewrite upd_nat_length; exact Hlo]].
    eapply Kept_trans; [exact HK|].
    constructor; cbn; try reflexivity.
    + apply upd_nat_shape. intros r. apply axpy_length.
    + apply axpy_length.
Qed.

Lemma softmax_Kept (target : Z) (m m' : Model) (l : R) :
  softmax target m = Ok (l, m') ->
  Kept m m' /\ negpos m' = negpos m.
Proof.
  unfold softmax. cbv zeta. intros H.
  apply bind_Ok_inv in H. destruct H as (mx & _ & H).
  apply bind_Ok_inv in H. destruct H as ([out z] & _ & H).
  apply bind_Ok_inv in H. destruct H as (m2 & Hu & H).
  apply bind_Ok_inv in H. destruct H as (o & _ & H).
  injection H as _ <-.
  destruct (softmax_update_Kept _ _ _ _ Hu) as (HK & Hnp & _).
  split; [|exact Hnp].
  eapply Kept_trans; [|exact HK].
  constructor; cbn; try reflexivity. unfold vzero. apply length_map.
Qed.

Lemma strategy_Kept (fuel : nat) (target : Z) (m m' : Model) (l : R) :
  strategy fuel target m = Ok (l, m') -> Kept m m'.
Proof.
  unfold strategy. destruct (loss args); intros H.
  - apply hierarchicalSoftmax_Kept in H. apply H.
  - apply negativeSampling_Kept in H. apply H.
  - apply softmax_Kept in H. apply H.
Qed.

(** ** update: what a training step keeps *)

Lemma update_Ok_inv (fuel : nat) (input : list Z) (target : Z)
      (m m' : Model) (l : R) :
  update fuel input target m = Ok (l, m') ->
  0 <= target < osz_ m /\
  (input = [] /\ m' = m \/
   input <> [] /\
   exists h m2 m3,
     for_each input (fun it h => vec_addRow h (wi_ m) it) (vzero (hidden_ m))
       = Ok h /\
     strategy fuel target
       (set_hidden (vscale (1 / IZR (Z.of_nat (length input))) h) m)
       = Ok (l, m2) /\
     rescale_grad input m2 = Ok m3 /\
     propagate input m3 = Ok m').
Proof.
  unfold update, assert. intros H.
  destruct (Z.leb_spec 0 target) as [Ht0|]; [|discriminate].
  destruct (Z.ltb_spec target (osz_ m)) as [Ht1|]; [|discriminate].
  cbn [bind] in H. split; [lia|].
  destruct (Z.eqb_spec (Z.of_nat (length input)) 0) as [E|Hne].
  - injection H as _ <-. left. split; [|reflexivity].
    destruct input; [reflexivity|cbn in E; lia].
  - right. split; [intros ->; cbn in Hne; lia|].
    apply bind_Ok_inv in H. destruct H as (h & Hh & H).
    apply bind_Ok_inv in H. destruct H as (a & Ha & H).
    apply fdiv_Ok_inv in Ha. destruct Ha as [_ ->].
    apply bind_Ok_inv in H. destruct H as ([l' m2] & Hs & H).
    apply bind_Ok_inv in H. destruct H as (m3 & H3 & H).
    apply bind_Ok_inv in H. destruct H as (m4 & H4 & H).
    injection H as <- <-.
    exists h, m2, m3. auto.
Qed.

Lemma hidden_loop_length (wi : Matrix) (input : list Z) (h0 h : Vector) :
  for_each input (fun it h => vec_addRow h wi it) h0 = Ok h ->
  length h = length h0.
Proof.
  intros H.
  apply (for_each_keeps (fun h : Vector => length h = length h0)) in H;
    [exact H|reflexivity|].
  intros a s0 s1 _ Hs Hb. unfold vec_addRow in Hb.
  apply bind_Ok_inv in Hb. destruct Hb as (row & _ & Hb). injection Hb as <-.
  rewrite axpy_length. exact Hs.
Qed.

Lemma rescale_grad_Ok_inv (input : list Z) (m m' : Model) :
  rescale_grad input m = Ok m' ->
  exists g, m' = set_grad g m /\ length g = length (grad_ m).
Proof.
  unfold rescale_grad. destruct (model args); intros H.
  - apply bind_Ok_inv in H. destruct H as (a & _ & H). injection H as <-.
    eexists. split; [reflexivity|]. unfold vscale. apply length_map.
  - injection H as <-. exists (grad_ m). split; [|reflexivity].
    destruct m; reflexivity.
Qed.

Lemma propagate_Ok_inv (input : list Z) (m m' : Model) :
  propagate input m = Ok m' ->
  exists wi', m' = set_wi wi' m /\
    map (@length R) wi' = map (@length R) (wi_ m) /\
    forall r, 0 <= r -> ~ In r input ->
      nth (Z.to_nat r) wi' [] = nth (Z.to_nat r) (wi_ m) [].
Proof.
  unfold propagate. intros H.
  apply bind_Ok_inv in H. destruct H as (wi' & Hl & H). injection H as <-.
  exists wi'. split; [reflexivity|]. split.
  - apply (for_each_keeps
             (fun w : Matrix => map (@length R) w = map (@length R) (wi_ m)))
      in Hl; [exact Hl|reflexivity|].
    intros a s0 s1 _ Hs Hb. unfold mat_addRow in Hb.
    apply modify_Ok_inv in Hb. destruct Hb as [_ ->].
    rewrite upd_nat_shape; [exact Hs|]. intros r. apply axpy_length.
  - intros r Hr Hnin.
    destruct (propagate_rows _ _ _ _ Hl) as [_ Hrows].
    rewrite (Hrows r Hr).
    rewrite (proj1 (count_occ_not_In Z.eq_dec input r) Hnin). reflexivity.
Qed.

(** A call of update that returns leaves the dimensions of the model
    as they were: [wi_] and [wo_] keep their rows and the length of
    each row, [hidden_] and [grad_] their length.  The sizes, the
    learning rate, the negative table and the tree are unchanged, and
    the target was within [0 .. osz_ - 1]. *)
Theorem update_keeps (fuel : nat) (input : list Z) (target : Z)
        (m m' : Model) (l : R) :
  update fuel input target m = Ok (l, m') ->
  0 <= target < osz_ m /\
  map (@length R) (wi_ m') = map (@length R) (wi_ m) /\
  map (@length R) (wo_ m') = map (@length R) (wo_ m) /\
  length (hidden_ m') = length (hidden_ m) /\
  length (grad_ m') = length (grad_ m) /\
  isz_ m' = isz_ m /\ osz_ m' = osz_ m /\ hsz_ m' = hsz_ m /\
  lr_ m' = lr_ m /\ negatives m' = negatives m /\ hier m' = hier m.
Proof.
  intros H. apply update_Ok_inv in H.
  destruct H as (Ht & [[_ ->]|(_ & h & m2 & m3 & Hh & Hs & H3 & H4)]).
  { repeat split; try reflexivity; lia. }
  split; [exact Ht|].
  apply hidden_loop_length in Hh.
  apply strategy_Kept in Hs. destruct Hs.
  apply rescale_grad_Ok_inv in H3. destruct H3 as (g & -> & Hg).
  apply propagate_Ok_inv in H4. destruct H4 as (wi' & -> & Hwi & _).
  cbn in *.
  repeat split; try congruence.
  unfold vzero, vscale in *. rewrite length_map in *.
  rewrite kept_hidden0, length_map. congruence.
Qed.

(** A call of update that returns has changed no row of [wi_] other
    than those named in [input]. *)
Theorem update_rows (fuel : nat) (input : list Z) (target : Z)
        (m m' : Model) (l : R) :
  update fuel input target m = Ok (l, m') ->
  forall r, 0 <= r -> ~ In r input ->
    nth (Z.to_nat r) (wi_ m') [] = nth (Z.to_nat r) (wi_ m) [].
Proof.
  intros H r Hr Hnin. apply update_Ok_inv in H.
  destruct H as (Ht & [[_ ->]|(_ & h & m2 & m3 & Hh & Hs & H3 & H4)]).
  { reflexivity. }
  apply strategy_Kept in Hs. destruct Hs.
  apply rescale_grad_Ok_inv in H3. destruct H3 as (g & -> & Hg).
  apply propagate_Ok_inv in H4. destruct H4 as (wi' & -> & _ & Hrows).
  cbn in *. rewrite (Hrows r Hr Hnin). congruence.
Qed.

(** ** update and predict: errors and what predict keeps *)

Lemma get_outside {A : Type} (v : list A) (i : Z) :
  ~ 0 <= i < Z.of_nat (length v) -> get v i = Err OutOfBounds.
Proof.
  intros H. unfold get. destruct (Z.ltb_spec i 0) as [|Hp]; [reflexivity|].
  rewrite (proj2 (nth_error_None v (Z.to_nat i))); [reflexivity|]. lia.
Qed.

(** The loop of lines 100-102 (and 165-167) stops at the first id that
    is not a row of [wi_]. *)
Lemma hidden_loop_outside (wi : Matrix) (input : list Z) :
  Exists (fun it => ~ 0 <= it < Z.of_nat (length wi)) input ->
  forall h0,
    for_each input (fun it h => vec_addRow h wi it) h0 = Err OutOfBounds.
Proof.
  induction input as [|it input IH]; intros Hex h0.
  - inversion Hex.
  - cbn [for_each]. unfold vec_addRow at 1.
    destruct (Z_lt_ge_dec it 0) as [Hn|Hp];
      [rewrite get_outside by lia; reflexivity|].
    destruct (Z_lt_ge_dec it (Z.of_nat (length wi))) as [Hlt|Hge];
      [|rewrite get_outside by lia; reflexivity].
    rewrite (get_Ok (A:=Vector) _ _ []) by lia. cbn [bind].
    apply IH. inversion Hex as [? ? Hbad|? ? Hrest]; subst; [lia|exact Hrest].
Qed.

(** update checks the target before it looks at the input: a target
    outside [0 .. osz_ - 1] fails the assertion, also when the input
    is empty.  With a valid target, an input that names an id that is
    not a row of [wi_] makes update read outside [wi_]. *)
Theorem update_errors (fuel : nat) (input : list Z) (target : Z) (m : Model) :
  (~ 0 <= target < osz_ m ->
   update fuel input target m = Err AssertionFailed) /\
  (0 <= target < osz_ m ->
   Exists (fun it => ~ 0 <= it < Z.of_nat (length (wi_ m))) input ->
   update fuel input target m = Err OutOfBounds).
Proof.
  unfold update, assert. split.
  - intros Ht. destruct (Z.leb_spec 0 target); [|reflexivity].
    destruct (Z.ltb_spec target (osz_ m)); [lia|reflexivity].
  - intros Ht Hex.
    destruct (Z.leb_spec 0 target); [|lia].
    destruct (Z.ltb_spec target (osz_ m)); [|lia]. cbn [bind].
    destruct (Z.eqb_spec (Z.of_nat (length input)) 0) as [E|_].
    { destruct input; [inversion Hex|cbn in E; lia]. }
    rewrite hidden_loop_outside by exact Hex. reflexivity.
Qed.

(** predict fails its assertion unless [k > 0]; for [k = INT32_MAX]
    (and whatever lies above) the sum [k + 1] of line 114 overflows,
    before the input is looked at; for a [k] in between, an input that
    names an id that is not a row of [wi_] makes predict read outside
    [wi_]. *)
Theorem predict_errors (fuel : nat) (input : list Z) (k : Z)
        (heap : list (R * Z)) (m : Model) :
  (k <= 0 -> predict fuel input k heap m = Err AssertionFailed) /\
  (INT32_MAX <= k -> predict fuel input k heap m = Err Overflow) /\
  (0 < k < INT32_MAX ->
   Exists (fun it => ~ 0 <= it < Z.of_nat (length (wi_ m))) input ->
   predict fuel input k heap m = Err OutOfBounds).
Proof.
  unfold predict, assert. split; [|split].
  - intros Hk. destruct (Z.ltb_spec 0 k); [lia|reflexivity].
  - intros Hk. destruct (Z.ltb_spec 0 k); [|destruct int32_bounds; lia].
    cbn [bind]. rewrite int32_Err by lia. reflexivity.
  - intros Hk Hex. destruct (Z.ltb_spec 0 k); [|lia]. cbn [bind].
    rewrite int32_Ok by (destruct int32_bounds; lia). cbn [bind].
    unfold computeHidden. rewrite hidden_loop_outside by exact Hex.
    reflexivity.
Qed.

(** A call of predict that returns has changed [hidden_] (keeping its
    length) and, unless the loss is hierarchical softmax, [output_];
    the weights [wi_] and [wo_], [grad_], the sizes, the learning rate,
    the negative table with its cursor and the tree are as before. *)
Theorem predict_keeps (fuel : nat) (input : list Z) (k : Z)
        (heap heap' : list (R * Z)) (m m' : Model) :
  predict fuel input k heap m = Ok (heap', m') ->
  wi_ m' = wi_ m /\ wo_ m' = wo_ m /\ grad_ m' = grad_ m /\
  isz_ m' = isz_ m /\ osz_ m' = osz_ m /\ hsz_ m' = hsz_ m /\
  lr_ m' = lr_ m /\ negpos m' = negpos m /\ negatives m' = negatives m /\
  hier m' = hier m /\
  length (hidden_ m') = length (hidden_ m) /\
  (loss args = hs -> output_ m' = output_ m).
Proof.
  unfold predict. intros H.
  apply bind_Ok_inv in H. destruct H as (_ & _ & H).
  apply bind_Ok_inv in H. destruct H as (_ & _ & H).
  apply bind_Ok_inv in H. destruct H as (m1 & Hc & H).
  apply bind_Ok_inv in H. destruct H as ([heap1 m2] & Hs & H).
  injection H as _ <-.
  unfold computeHidden in Hc.
  apply bind_Ok_inv in Hc. destruct Hc as (h & Hh & Hc).
  apply bind_Ok_inv in Hc. destruct Hc as (a & _ & Hc). injection Hc as <-.
  apply hidden_loop_length in Hh.
  assert (Hlen : length (vscale a h) = length (hidden_ m)).
  { unfold vscale, vzero in *. rewrite length_map in *. exact Hh. }
  destruct (loss args).
  - apply bind_Ok_inv in Hs. destruct Hs as (d & _ & Hs).
    apply bind_Ok_inv in Hs. destruct Hs as (root & _ & Hs).
    apply bind_Ok_inv in Hs. destruct Hs as (h1 & _ & Hs).
    injection Hs as _ <-. cbn. repeat split; try reflexivity. exact Hlen.
  - apply bind_Ok_inv in Hs. destruct Hs as (h1 & _ & Hs).
    injection Hs as _ <-. cbn. repeat split; try reflexivity; try exact Hlen.
    intros; discriminate.
  - apply bind_Ok_inv in Hs. destruct Hs as (h1 & _ & Hs).
    injection Hs as _ <-. cbn. repeat split; try reflexivity; try exact Hlen.
    intros; discriminate.
Qed.

(** ** computeHidden: the average of the input rows *)

Lemma axpy_nth (a : R) (x y : Vector) (j : nat) :
  (j < length y)%nat ->
  nth j (axpy a x y) 0%R = (nth j y 0 + a * nth j x 0)%R.
Proof.
  revert x j. induction y as [|yj y IH]; intros x j Hj; [cbn in Hj; lia|].
  destruct x as [|xj x]; destruct j as [|j]; cbn [axpy nth].
  - lra.
  - destruct j; lra.
  - reflexivity.
  - apply IH. cbn in Hj. lia.
Qed.

Lemma hidden_loop_sum (wi : Matrix) (input : list Z) :
  Forall (fun it => 0 <= it < Z.of_nat (length wi)) input ->
  forall h0, exists h,
    for_each input (fun it h => vec_addRow h wi it) h0 = Ok h /\
    length h = length h0 /\
    forall j, (j < length h0)%nat ->
      nth j h 0%R = (nth j h0 0 + col_sum wi input j)%R.
Proof.
  induction 1 as [|it input Hit _ IH]; intros h0.
  - exists h0. cbn. split; [reflexivity|]. split; [reflexivity|].
    intros j _. lra.
  - cbn [for_each]. unfold vec_addRow at 1.
    rewrite (get_Ok (A:=Vector) _ _ []) by exact Hit. cbn [bind].
    destruct (IH (axpy 1 (nth (Z.to_nat it) wi []) h0)) as (h & Hh & Hl & Hs).
    exists h. split; [exact Hh|]. rewrite axpy_length in Hl.
    split; [exact Hl|]. intros j Hj.
    rewrite Hs by (rewrite axpy_length; exact Hj).
    rewrite axpy_nth by exact Hj. cbn [col_sum]. lra.
Qed.

(** On a non-empty input of ids that are rows of [wi_], computeHidden
    returns, changing [hidden_] only: coordinate [j] of the new
    [hidden_] is the sum of coordinate [j] of the input rows (a row
    once for every occurrence of its id) times [1 / |input|].  What
    [hidden_] held before does not matter, only its length. *)
Theorem computeHidden_average (input : list Z) (m : Model) :
  input <> [] ->
  Forall (fun it => 0 <= it < Z.of_nat (length (wi_ m))) input ->
  exists h,
    computeHidden input m = Ok (set_hidden h m) /\
    length h = length (hidden_ m) /\
    forall j, (j < length (hidden_ m))%nat ->
      nth j h 0%R =
      (col_sum (wi_ m) input j * (1 / IZR (Z.of_nat (length input))))%R.
Proof.
  intros Hne Hin. unfold computeHidden.
  destruct (hidden_loop_sum (wi_ m) input Hin (vzero (hidden_ m)))
    as (h & Hh & Hl & Hs).
  rewrite Hh. cbn [bind].
  rewrite fdiv_Ok.
  2:{ apply not_0_IZR. destruct input; [contradiction|cbn; lia]. }
  cbn [bind]. eexists. split; [reflexivity|].
  unfold vzero in Hl, Hs. rewrite length_map in Hl, Hs.
  unfold vscale. rewrite length_map. split; [exact Hl|].
  intros j Hj.
  set (f := fun x : R => (x * (1 / IZR (Z.of_nat (length input))))%R).
  rewrite (nth_indep _ 0%R (f 0%R)) by (rewrite length_map; lia).
  rewrite map_nth. unfold f.
  rewrite Hs by exact Hj.
  assert (Hz : nth j (map (fun _ : R => 0%R) (hidden_ m)) 0%R = 0%R)
    by exact (map_nth (fun _ : R => 0%R) (hidden_ m) 0%R j).
  rewrite Hz. lra.
Qed.

(** ** The bounded heap keeps the best [k] *)

Lemma heap_insert_perm {A : Type} (comp : A -> A -> bool) (x : A) (h : list A) :
  Permutation (heap_insert comp x h) (x :: h).
Proof.
  induction h as [|y h IH]; cbn [heap_insert]; [reflexivity|].
  destruct (comp y x); [reflexivity|].
  rewrite IH. apply perm_swap.
Qed.

Lemma TopK_nil (k : Z) : 0 < k -> TopK k [] [].
Proof.
  intros Hk. split; [cbn; lia|]. exists []. split; [reflexivity|constructor].
Qed.

Lemma sorted_head_le (f : R * Z) (h : list (R * Z)) :
  StronglySorted score_le (f :: h) -> Forall (score_le f) (f :: h).
Proof.
  intros Hs. apply StronglySorted_inv in Hs. destruct Hs as [_ Hf].
  constructor; [unfold score_le; lra|exact Hf].
Qed.

(** Lines 127-135 and 141-151: the test against the front and the
    insertion keep the heap the best [k] of what has been offered. *)
Lemma offer_TopK (k : Z) (p : R * Z) (heap all : list (R * Z)) :
  0 < k -> StronglySorted score_le heap -> TopK k heap all ->
  exists b,
    worse_than_front k (fst p) heap = Ok b /\
    StronglySorted score_le (if b then heap else heap_offer k p heap) /\
    TopK k (if b then heap else heap_offer k p heap) (all ++ [p]).
Proof.
  intros Hk Hs (Hlen & rest & Hperm & Hrest).
  pose proof (Permutation_length Hperm) as Hpl.
  rewrite length_app in Hpl.
  assert (Hsnoc : Permutation (p :: all) (all ++ [p])).
  { rewrite Permutation_app_comm. reflexivity. }
  unfold worse_than_front.
  destruct (Z.eqb_spec (Z.of_nat (length heap)) k) as [Hfull|Hnot].
  - destruct heap as [|f heap]; [cbn in Hfull; lia|]. cbn [front bind].
    pose proof (sorted_head_le _ _ Hs) as Hf.
    eexists. split; [reflexivity|].
    destruct (Rltb (fst p) (fst f)) eqn:Hcmp.
    + apply Rltb_true in Hcmp. split; [exact Hs|]. split.
      * rewrite length_app. cbn [length] in *. lia.
      * exists (p :: rest). split.
        -- rewrite <- Hsnoc, <- Hperm. symmetry. apply Permutation_middle.
        -- constructor; [|exact Hrest].
           eapply Forall_impl; [|exact Hf]. unfold score_le. intros a Ha. lra.
    + apply Rltb_false in Hcmp.
      destruct (heap_offer_spec (fun _ => True) k p (f :: heap) Hk Hs)
        as (Hs' & Hl' & _); [lia|exact I|apply Forall_forall; auto|].
      split; [exact Hs'|]. split.
      * rewrite Hl', length_app. cbn [length] in *. lia.
      * destruct (heap_offer_cases k p (f :: heap)) as [[Hlt _]|[_ (x & Hx)]];
          [lia|].
        pose proof (heap_insert_sorted p (f :: heap) Hs) as Hsi.
        rewrite Hx in Hsi. apply StronglySorted_inv in Hsi.
        destruct Hsi as [_ Hxle].
        pose proof (heap_insert_perm comparePairs p (f :: heap)) as Hpi.
        rewrite Hx in Hpi.
        exists (x :: rest). split.
        -- rewrite <- Hsnoc, <- Hperm.
           rewrite <- Permutation_middle.
           change (Permutation ((x :: heap_offer k p (f :: heap)) ++ rest)
                               ((p :: f :: heap) ++ rest)).
           apply Permutation_app_tail. exact Hpi.
        -- constructor; [exact Hxle|].
           rewrite Forall_forall in Hrest |- *. intros d Hd.
           specialize (Hrest d Hd). rewrite Forall_forall in Hrest |- *.
           intros h Hh.
           assert (Hin : In h (p :: f :: heap)).
           { apply (Permutation_in h Hpi). right. exact Hh. }
           destruct Hin as [<-|Hin]; [|apply Hrest; exact Hin].
           specialize (Hrest f (or_introl eq_refl)).
           unfold score_le in *. lra.
  - exists false. split; [reflexivity|].
    destruct (heap_offer_spec (fun _ => True) k p heap Hk Hs)
      as (Hs' & Hl' & _); [lia|exact I|apply Forall_forall; auto|].
    split; [exact Hs'|]. split.
    + rewrite Hl', length_app. cbn [length]. lia.
    + assert (Hr : rest = []) by (destruct rest; [reflexivity|cbn in Hpl; lia]).
      subst rest. rewrite app_nil_r in Hperm.
      exists []. split; [|constructor]. rewrite app_nil_r.
      destruct (heap_offer_cases k p heap) as [[_ ->]|[Hge _]]; [|lia].
      rewrite heap_insert_perm, <- Hsnoc. constructor. exact Hperm.
Qed.

(** Pairs that all score below the front of a full heap change
    nothing in the best [k]. *)
Lemma prune_TopK (k : Z) (s : R) (heap all more : list (R * Z)) :
  StronglySorted score_le heap -> TopK k heap all ->
  worse_than_front k s heap = Ok true ->
  Forall (fun q => (fst q <= s)%R) more ->
  TopK k heap (all ++ more).
Proof.
  intros Hs (Hlen & rest & Hperm & Hrest) Hw Hmore.
  unfold worse_than_front in Hw.
  destruct (Z.eqb_spec (Z.of_nat (length heap)) k) as [Hfull|]; [|discriminate].
  destruct heap as [|f heap]; [discriminate|]. cbn [front bind] in Hw.
  injection Hw as Hw. apply Rltb_true in Hw.
  pose proof (sorted_head_le _ _ Hs) as Hf.
  split; [rewrite length_app; lia|].
  exists (rest ++ more). split.
  - rewrite app_assoc. apply Permutation_app_tail. exact Hperm.
  - apply Forall_app. split; [exact Hrest|].
    eapply Forall_impl; [|exact Hmore]. cbv beta. intros q Hq.
    eapply Forall_impl; [|exact Hf]. unfold score_le. intros a Ha. lra.
Qed.

(** ** findKBest keeps the best [k] scores *)

Lemma pairs_from_snoc (l : Vector) (o : R) :
  forall i0,
    pairs_from i0 (l ++ [o]) =
    pairs_from i0 l ++ [(o, i0 + Z.of_nat (length l))].
Proof.
  induction l as [|x l IH]; intros i0; cbn [pairs_from app length].
  - rewrite Z.add_0_r. reflexivity.
  - rewrite IH.
    replace (i0 + 1 + Z.of_nat (length l))
      with (i0 + Z.of_nat (Datatypes.S (length l))) by lia.
    reflexivity.
Qed.

Lemma TopK_rev (k : Z) (heap all : list (R * Z)) :
  TopK k heap all -> TopK k (rev heap) all.
Proof.
  intros (Hlen & rest & Hperm & Hrest). split; [rewrite length_rev; exact Hlen|].
  exists rest. split.
  - rewrite <- Hperm. apply Permutation_app_tail. symmetry.
    apply Permutation_rev.
  - eapply Forall_impl; [|exact Hrest]. cbv beta. intros d Hd.
    apply Forall_rev. exact Hd.
Qed.

Lemma findKBest_TopK (k : Z) (heap0 all0 : list (R * Z)) (m : Model) :
  0 < k ->
  Z.of_nat (length (output_ m)) = osz_ m ->
  StronglySorted score_le heap0 -> TopK k heap0 all0 ->
  exists heap',
    findKBest k heap0 m = Ok heap' /\
    StronglySorted score_le heap' /\
    TopK k heap' (all0 ++ pairs_from 0 (output_ m)).
Proof.
  intros Hk Hout Hs HT. unfold findKBest.
  set (P := fun (i : Z) (h : list (R * Z)) =>
              StronglySorted score_le h /\
              TopK k h (all0 ++ pairs_from 0 (firstn (Z.to_nat i) (output_ m)))).
  match goal with
  | |- exists heap', for_range 0 (osz_ m) ?b heap0 = Ok heap' /\ _ =>
      destruct (for_range_inv P b 0 (osz_ m) heap0) as (h' & Hrun & H')
  end.
  - lia.
  - unfold P. cbn [Z.to_nat firstn pairs_from]. rewrite app_nil_r. auto.
  - intros i h Hi (Hsh & HTh). cbv beta.
    rewrite (get_Ok _ _ 0%R) by lia. cbn [bind].
    set (o := nth (Z.to_nat i) (output_ m) 0%R).
    destruct (offer_TopK k (o, i) h _ Hk Hsh HTh) as (b & Hb & Hs' & HT').
    cbn [fst] in Hb. rewrite Hb. cbn [bind].
    assert (Hnext : pairs_from 0 (firstn (Z.to_nat (i + 1)) (output_ m)) =
                    pairs_from 0 (firstn (Z.to_nat i) (output_ m)) ++ [(o, i)]).
    { replace (Z.to_nat (i + 1)) with (Datatypes.S (Z.to_nat i)) by lia.
      rewrite (firstn_snoc 0%R) by lia. rewrite pairs_from_snoc.
      rewrite length_firstn, Nat.min_l by lia.
      replace (0 + Z.of_nat (Z.to_nat i)) with i by lia. reflexivity. }
    exists (if b then h else heap_offer k (o, i) h).
    split; [destruct b; reflexivity|].
    unfold P. rewrite Hnext, app_assoc. auto.
  - exists h'. split; [exact Hrun|]. destruct H' as [Hs' HT'].
    split; [exact Hs'|].
    rewrite firstn_all2 in HT' by lia. exact HT'.
Qed.

(** Outside the hierarchical-softmax configuration and for
    [0 < k < INT32_MAX], predict from an empty heap returns the best
    [k] of the pairs [(score, class)], the score of class [i] being
    row [i] of [wo_] times the averaged input rows: [min k osz_] of
    them, no class left out scoring higher than one returned, in
    non-increasing order of score. *)
Theorem predict_scan_best (fuel : nat) (input : list Z) (k : Z) (m : Model) :
  loss args <> hs ->
  input <> [] -> 0 < k < INT32_MAX ->
  Forall (fun it => 0 <= it < Z.of_nat (length (wi_ m))) input ->
  Z.of_nat (length (wo_ m)) = osz_ m ->
  exists heap m',
    predict fuel input k [] m = Ok (heap, m') /\
    computeHidden input m = Ok (set_hidden (hidden_ m') m) /\
    output_ m' = mat_vec (wo_ m) (hidden_ m') /\
    TopK k heap (pairs_from 0 (output_ m')) /\
    StronglySorted score_ge heap.
Proof.
  intros Hloss Hne [Hk Hkmax] Hin Hwo. unfold predict, assert.
  destruct (Z.ltb_spec 0 k) as [_|]; [|lia]. cbn [bind].
  rewrite int32_Ok by (destruct int32_bounds; lia). cbn [bind].
  destruct (computeHidden_Ok input m Hne Hin) as (h & Hc).
  rewrite Hc. cbn [bind].
  set (m2 := set_output (mat_vec (wo_ (set_hidden h m)) (hidden_ (set_hidden h m)))
                        (set_hidden h m)).
  destruct (findKBest_TopK k [] [] m2 Hk) as (heap' & Hrun & Hs & HT).
  - unfold m2, mat_vec. cbn. rewrite length_map. exact Hwo.
  - constructor.
  - apply TopK_nil. exact Hk.
  - assert (Hgoal : exists heap m',
              (' (heap1, m3) <- (h0 <- findKBest k [] m2 ;; Ok (h0, m2)) ;;
               Ok (sort_heap comparePairs heap1, m3)) = Ok (heap, m') /\
              Ok (set_hidden h m) = Ok (set_hidden (hidden_ m') m) /\
              output_ m' = mat_vec (wo_ m) (hidden_ m') /\
              TopK k heap (pairs_from 0 (output_ m')) /\
              StronglySorted score_ge heap).
    { rewrite Hrun. cbn [bind]. exists (sort_heap comparePairs heap'), m2.
      split; [reflexivity|]. split; [reflexivity|]. split; [reflexivity|].
      rewrite sort_heap_rev. split; [apply TopK_rev; exact HT|].
      apply sorted_rev. exact Hs. }
    destruct (loss args); [contradiction|exact Hgoal|exact Hgoal].
Qed.

(** ** dfs keeps the best [k] leaves *)

(** Where [log] of a sigmoid and of its complement is never positive,
    scores only fall on the way down the tree. *)
Lemma leaf_scores_le (m : Model) :
  (forall x, (log (sigmoid x) <= 0)%R /\ (log (1 - sigmoid x) <= 0)%R) ->
  forall fuel n score,
    Forall (fun q => (fst q <= score)%R) (leaf_scores fuel m n score).
Proof.
  intros Hlog. induction fuel as [|fuel IH]; intros n score; [constructor|].
  cbn [leaf_scores]. cbv zeta.
  destruct ((left (nd (tree (hier m)) n) =? -1)
            && (right (nd (tree (hier m)) n) =? -1)).
  - constructor; [cbn; lra|constructor].
  - set (x := dot (nth (Z.to_nat (n - osz_ m)) (wo_ m) []) (hidden_ m)).
    destruct (Hlog x) as [H1 H0].
    apply Forall_app. split.
    + eapply Forall_impl; [|apply IH]. cbv beta. intros q Hq. lra.
    + eapply Forall_impl; [|apply IH]. cbv beta. intros q Hq. lra.
Qed.

Lemma dfs_TopK (k : Z) (m : Model) :
  0 < k ->
  Z.of_nat (length (tree (hier m))) = 2 * osz_ m - 1 ->
  Z.of_nat (length (wo_ m)) = osz_ m ->
  (forall j, 0 <= j < osz_ m ->
     left (nd (tree (hier m)) j) = -1 /\ right (nd (tree (hier m)) j) = -1) ->
  (forall n, osz_ m <= n <= 2 * osz_ m - 2 ->
     0 <= left (nd (tree (hier m)) n) < n /\
     0 <= right (nd (tree (hier m)) n) < n) ->
  (forall x, (log (sigmoid x) <= 0)%R /\ (log (1 - sigmoid x) <= 0)%R) ->
  forall fuel n score heap all,
    0 <= n <= 2 * osz_ m - 2 -> (Z.to_nat n < fuel)%nat ->
    StronglySorted score_le heap -> TopK k heap all ->
    exists heap',
      dfs fuel k n score heap m = Ok heap' /\
      StronglySorted score_le heap' /\
      TopK k heap' (all ++ leaf_scores fuel m n score).
Proof.
  intros Hk Hlen Hwo Hleaf Hint Hlog.
  induction fuel as [|fuel IH]; intros n score heap all Hn Hf Hs HT; [lia|].
  cbn [dfs].
  destruct (offer_TopK k (score, n) heap all Hk Hs HT) as (b & Hb & Hs' & HT').
  cbn [fst] in Hb. rewrite Hb. cbn [bind]. destruct b.
  - exists heap. split; [reflexivity|]. split; [exact Hs|].
    apply (prune_TopK k score); try assumption. apply leaf_scores_le. exact Hlog.
  - rewrite get_nd by lia. cbn [bind]. cbn [leaf_scores]. cbv zeta.
    destruct (Z_lt_dec n (osz_ m)) as [Hlt|Hge].
    + destruct (Hleaf n ltac:(lia)) as [-> ->]. cbn [Z.eqb andb Pos.eqb].
      eexists. split; [reflexivity|]. split; [exact Hs'|exact HT'].
    + destruct (Hint n ltac:(lia)) as [Hl Hr].
      destruct (Z.eqb_spec (left (nd (tree (hier m)) n)) (-1)) as [E|_]; [lia|].
      cbn [andb]. unfold dotRow.
      rewrite (get_Ok (A:=Vector) _ _ []) by lia. cbn [bind].
      set (f := sigmoid (dot (nth (Z.to_nat (n - osz_ m)) (wo_ m) [])
                             (hidden_ m))).
      destruct (IH (left (nd (tree (hier m)) n)) (score + log (1 - f))%R
                   heap all ltac:(lia) ltac:(lia) Hs HT)
        as (heap1 & Hrun1 & Hs1 & HT1).
      rewrite Hrun1. cbn [bind].
      destruct (IH (right (nd (tree (hier m)) n)) (score + log f)%R
                   heap1 _ ltac:(lia) ltac:(lia) Hs1 HT1)
        as (heap2 & Hrun2 & Hs2 & HT2).
      exists heap2. split; [exact Hrun2|]. split; [exact Hs2|].
      rewrite app_assoc. exact HT2.
Qed.

(** What predict and hierarchicalSoftmax use of a tree that buildTree
    has built. *)
Lemma built_facts (fuel : nat) (osz : Z) (counts : list Z) (h' : Hier) :
  buildTree fuel osz counts fresh = Ok h' ->
  1 <= osz /\
  Z.of_nat (length (tree h')) = 2 * osz - 1 /\
  (forall j, 0 <= j < osz ->
     left (nd (tree h') j) = -1 /\ right (nd (tree h') j) = -1) /\
  (forall n, osz <= n <= 2 * osz - 2 ->
     0 <= left (nd (tree h') n) < n /\ 0 <= right (nd (tree h') n) < n) /\
  (exists cnt : Z -> Z,
     (forall j, 0 <= j < osz -> cnt j = 1) /\
     (forall n, osz <= n <= 2 * osz - 2 ->
        cnt n = cnt (left (nd (tree h') n)) + cnt (right (nd (tree h') n))) /\
     cnt (2 * osz - 2) = osz) /\
  (forall c, 0 <= c < osz ->
     descend (tree h') osz (2 * osz - 2) (rev (nth (Z.to_nat c) (codes h') []))
       = Ok (c, rev (nth (Z.to_nat c) (paths h') []))).
Proof.
  intros Hrun.
  destruct (buildTree_sound _ _ _ _ _ Hrun)
    as [Hosz _ (leaf & node & HI) (ps & cs & Hp & Hcs & _ & _ & Hall)].
  pose proof (final_cursors osz counts _ _ _ ltac:(lia) HI) as Hcur.
  split; [lia|]. split; [exact (inv_len _ _ _ _ _ _ HI)|].
  split.
  { intros j Hj. destruct (inv_leaves _ _ _ _ _ _ HI j Hj) as (A & B & _).
    split; assumption. }
  split.
  { intros n Hn.
    destruct (inv_created _ _ _ _ _ _ HI n ltac:(lia)) as (A & B & _).
    split; assumption. }
  split.
  { destruct (inv_count _ _ _ _ _ _ HI) as (cnt & Hc1 & Hc2 & Hc3).
    exists cnt. split; [exact Hc1|]. split.
    - intros n Hn. apply Hc2. lia.
    - destruct Hcur as [(E1 & E2 & E3)|(E1 & E2 & E3)].
      + rewrite E1. apply Hc1. lia.
      + rewrite E2, E3 in Hc3.
        replace (Z.to_nat (2 * osz - 1 - (2 * osz - 2))) with 1%nat in Hc3
          by lia.
        cbn [range_sum] in Hc3. lia. }
  intros c Hc. rewrite Hp, Hcs. cbn [paths codes fresh app].
  apply Hall. exact Hc.
Qed.

(** ** The leaves dfs can reach are the classes *)

Lemma leaf_scores_length (m : Model) (cnt : Z -> Z) :
  (forall j, 0 <= j < osz_ m ->
     left (nd (tree (hier m)) j) = -1 /\ right (nd (tree (hier m)) j) = -1) ->
  (forall n, osz_ m <= n <= 2 * osz_ m - 2 ->
     0 <= left (nd (tree (hier m)) n) < n /\
     0 <= right (nd (tree (hier m)) n) < n) ->
  (forall j, 0 <= j < osz_ m -> cnt j = 1) ->
  (forall n, osz_ m <= n <= 2 * osz_ m - 2 ->
     cnt n = cnt (left (nd (tree (hier m)) n))
             + cnt (right (nd (tree (hier m)) n))) ->
  forall fuel n score,
    0 <= n <= 2 * osz_ m - 2 -> (Z.to_nat n < fuel)%nat ->
    Z.of_nat (length (leaf_scores fuel m n score)) = cnt n.
Proof.
  intros Hleaf Hint Hc1 Hc2.
  induction fuel as [|fuel IH]; intros n score Hn Hf; [lia|].
  cbn [leaf_scores]. cbv zeta.
  destruct (Z_lt_dec n (osz_ m)) as [Hlt|Hge].
  - destruct (Hleaf n ltac:(lia)) as [-> ->]. cbn. rewrite Hc1 by lia.
    reflexivity.
  - destruct (Hint n ltac:(lia)) as [Hl Hr].
    destruct (Z.eqb_spec (left (nd (tree (hier m)) n)) (-1)) as [E|_]; [lia|].
    cbn [andb]. rewrite length_app, Nat2Z.inj_add.
    rewrite !IH by lia. symmetry. apply Hc2. lia.
Qed.

Lemma leaf_scores_reach (m : Model) :
  (forall j, 0 <= j < osz_ m ->
     left (nd (tree (hier m)) j) = -1 /\ right (nd (tree (hier m)) j) = -1) ->
  (forall n, osz_ m <= n <= 2 * osz_ m - 2 ->
     0 <= left (nd (tree (hier m)) n) < n /\
     0 <= right (nd (tree (hier m)) n) < n) ->
  forall (bits : list bool) (n c : Z) (vis : list Z),
    descend (tree (hier m)) (osz_ m) n bits = Ok (c, vis) ->
    0 <= c < osz_ m -> 0 <= n <= 2 * osz_ m - 2 ->
    forall fuel score, (Z.to_nat n < fuel)%nat ->
      In (path_score m vis bits score, c) (leaf_scores fuel m n score).
Proof.
  intros Hleaf Hint.
  induction bits as [|b bits IH]; intros n c vis H Hc Hn fuel score Hf;
    (destruct fuel as [|fuel]; [lia|]).
  - cbn in H. injection H as <- <-. cbn [leaf_scores path_score]. cbv zeta.
    destruct (Hleaf n Hc) as [-> ->]. cbn. left. reflexivity.
  - cbn [descend] in H. apply bind_Ok_inv in H. destruct H as (x & Hx & H).
    apply get_nd_inv in Hx. destruct Hx as [_ ->].
    apply bind_Ok_inv in H. destruct H as ([c' v] & Hd & H).
    injection H as <- <-.
    set (child := if b then right (nd (tree (hier m)) n)
                  else left (nd (tree (hier m)) n)) in *.
    assert (Hchild : 0 <= child).
    { destruct bits as [|b' bits'].
      - cbn in Hd. injection Hd as <- <-. lia.
      - cbn [descend] in Hd. apply bind_Ok_inv in Hd. destruct Hd as (y & Hy & _).
        apply get_nd_inv in Hy. lia. }
    assert (Hn' : osz_ m <= n).
    { destruct (Z.lt_ge_cases n (osz_ m)) as [Hlt|Hge]; [|exact Hge].
      destruct (Hleaf n ltac:(lia)) as [Hl Hr].
      unfold child in Hchild. destruct b; lia. }
    destruct (Hint n ltac:(lia)) as [Hl Hr].
    assert (Hcn : 0 <= child < n) by (unfold child; destruct b; lia).
    cbn [leaf_scores path_score]. cbv zeta.
    destruct (Z.eqb_spec (left (nd (tree (hier m)) n)) (-1)) as [E|_]; [lia|].
    cbn [andb]. apply in_or_app.
    specialize (IH child c' v Hd Hc ltac:(lia) fuel).
    unfold child in IH. destruct b.
    + right. apply IH. lia.
    + left. apply IH. lia.
Qed.

Lemma classes_NoDup (osz : Z) : NoDup (classes osz).
Proof.
  unfold classes. apply (NoDup_map_inv Z.to_nat). rewrite map_map.
  rewrite (map_ext _ (fun n => n)) by (intros; apply Nat2Z.id).
  rewrite map_id. apply seq_NoDup.
Qed.

Lemma classes_In (osz c : Z) : In c (classes osz) <-> 0 <= c < osz.
Proof.
  unfold classes. rewrite in_map_iff. split.
  - intros (n & <- & Hn). apply in_seq in Hn. lia.
  - intros Hc. exists (Z.to_nat c). split; [lia|]. apply in_seq. lia.
Qed.

Lemma classes_length (osz : Z) : length (classes osz) = Z.to_nat osz.
Proof. unfold classes. rewrite length_map, length_seq. reflexivity. Qed.

(** The search of the whole tree meets every class once, with the
    score of the class. *)
Lemma leaf_scores_classes (fuel0 fuel : nat) (counts : list Z) (m : Model) :
  buildTree fuel0 (osz_ m) counts fresh = Ok (hier m) ->
  (Z.to_nat (2 * osz_ m) <= fuel)%nat ->
  Permutation (map (fun c => (class_score m c, c)) (classes (osz_ m)))
              (leaf_scores fuel m (2 * osz_ m - 2) 0%R).
Proof.
  intros Hb Hf.
  destruct (built_facts _ _ _ _ Hb)
    as (Hosz & Hlen & Hleaf & Hint & (cnt & Hc1 & Hc2 & Hc3) & Hdesc).
  apply NoDup_Permutation_bis.
  - apply (NoDup_map_inv snd). rewrite map_map. cbn [snd]. rewrite map_id.
    apply classes_NoDup.
  - rewrite length_map, classes_length.
    pose proof (leaf_scores_length m cnt Hleaf Hint Hc1 Hc2 fuel
                  (2 * osz_ m - 2) 0%R ltac:(lia) ltac:(lia)) as Hl.
    lia.
  - intros q Hq. apply in_map_iff in Hq. destruct Hq as (c & <- & Hc).
    apply classes_In in Hc. unfold class_score.
    apply (leaf_scores_reach m Hleaf Hint _ _ _ _ (Hdesc c Hc) Hc); lia.
Qed.

Lemma TopK_perm (k : Z) (heap all all' : list (R * Z)) :
  Permutation all all' -> TopK k heap all -> TopK k heap all'.
Proof.
  intros Hp (Hlen & rest & Hperm & Hrest). split.
  - rewrite <- (Permutation_length Hp). exact Hlen.
  - exists rest. split; [rewrite Hperm; exact Hp|exact Hrest].
Qed.

(** With the hierarchical-softmax loss, on the tree buildTree has
    built and where [log] of a sigmoid and of its complement is never
    positive, predict from an empty heap returns, for
    [0 < k < INT32_MAX], the best [k] of the
    pairs [(score, class)], in non-increasing order of score: the
    score of a class adds, along its path from the root, [log f] at
    every right turn and [log (1 - f)] at every left turn.  Cutting
    the search below a node that scores under the front of the full
    heap loses none of them. *)
Theorem predict_tree_best (fuel fuel0 : nat) (input : list Z) (k : Z)
        (m : Model) (counts : list Z) :
  loss args = hs ->
  input <> [] -> 0 < k < INT32_MAX ->
  Forall (fun it => 0 <= it < Z.of_nat (length (wi_ m))) input ->
  Z.of_nat (length (wo_ m)) = osz_ m ->
  buildTree fuel0 (osz_ m) counts fresh = Ok (hier m) ->
  (Z.to_nat (2 * osz_ m) <= fuel)%nat ->
  (forall x, (log (sigmoid x) <= 0)%R /\ (log (1 - sigmoid x) <= 0)%R) ->
  exists heap m',
    predict fuel input k [] m = Ok (heap, m') /\
    computeHidden input m = Ok m' /\
    TopK k heap (map (fun c => (class_score m' c, c)) (classes (osz_ m))) /\
    StronglySorted score_ge heap.
Proof.
  intros Hloss Hne [Hk Hkmax] Hin Hwo Hbuilt Hfuel Hlog. unfold predict, assert.
  destruct (Z.ltb_spec 0 k) as [_|C]; [|lia]. cbn [bind].
  rewrite int32_Ok by (destruct int32_bounds; lia). cbn [bind].
  destruct (computeHidden_Ok input m Hne Hin) as (h & Hh).
  rewrite Hh, Hloss. cbn [bind].
  set (m1 := set_hidden h m).
  assert (Hb1 : buildTree fuel0 (osz_ m1) counts fresh = Ok (hier m1))
    by exact Hbuilt.
  change (osz_ m) with (osz_ m1) in Hfuel |- *.
  destruct (built_facts _ _ _ _ Hb1)
    as (Hosz & Hlen & Hleaf & Hint & _ & _).
  pose proof (bt_osz _ _ _ _ (buildTree_sound _ _ _ _ _ Hb1)) as Hosz30.
  rewrite (int32_Ok (2 * osz_ m1)) by (destruct int32_bounds; lia). cbn [bind].
  rewrite int32_Ok by (destruct int32_bounds; lia). cbn [bind].
  destruct (dfs_TopK k m1 Hk Hlen Hwo Hleaf Hint Hlog fuel
              (2 * osz_ m1 - 2) 0%R [] [] ltac:(lia) ltac:(lia)
              ltac:(constructor) (TopK_nil k Hk))
    as (heap & Hrun & Hs & HT).
  rewrite Hrun. cbn [bind].
  exists (sort_heap comparePairs heap), m1.
  split; [reflexivity|]. split; [reflexivity|].
  rewrite sort_heap_rev. split; [|apply sorted_rev; exact Hs].
  apply TopK_rev. cbn [app] in HT.
  eapply TopK_perm; [|exact HT].
  symmetry. apply (leaf_scores_classes fuel0 fuel counts m1 Hb1). exact Hfuel.
Qed.

(** ** hierarchicalSoftmax: the loss is the score of the class *)

Lemma path_score_shift (m : Model) (vis : list Z) :
  forall (bits : list bool) (s x : R),
    path_score m vis bits (s + x) = (path_score m vis bits s + x)%R.
Proof.
  induction vis as [|v vis IH]; intros [|b bits] s x; cbn [path_score];
    try reflexivity.
  cbv zeta. rewrite <- IH. f_equal. lra.
Qed.

Lemma sorted_lt_NoDup (l : list Z) : StronglySorted Z.lt l -> NoDup l.
Proof.
  induction 1 as [|x l _ IH Hx]; constructor; [|exact IH].
  intros Hin. rewrite Forall_forall in Hx. specialize (Hx x Hin). lia.
Qed.

Lemma NoDup_nth_firstn {A : Type} (d : A) (l : list A) (k : nat) :
  NoDup l -> (k < length l)%nat -> ~ In (nth k l d) (firstn k l).
Proof.
  intros Hnd Hk Hin.
  rewrite <- (firstn_skipn k l) in Hnd.
  assert (Hs : skipn k l = nth k l d :: skipn (Datatypes.S k) l).
  { clear Hnd Hin. revert k Hk. induction l as [|a l IH]; intros k Hk;
      [cbn in Hk; lia|].
    destruct k as [|k]; [reflexivity|]. cbn [skipn nth]. apply IH.
    cbn in Hk. lia. }
  rewrite Hs in Hnd. apply NoDup_remove_2 in Hnd. apply Hnd.
  apply in_or_app. left. exact Hin.
Qed.

(** On the tree buildTree has built, the loss hierarchicalSoftmax
    returns for a class is minus the score predict gives that class on
    the same weights and the same [hidden_]: every step of the path
    reads a row of [wo_] that no earlier step has changed. *)
Theorem hierarchicalSoftmax_loss (fuel : nat) (counts : list Z) (target : Z)
        (m : Model) :
  buildTree fuel (osz_ m) counts fresh = Ok (hier m) ->
  Z.of_nat (length (wo_ m)) = osz_ m ->
  0 <= target < osz_ m ->
  exists m',
    hierarchicalSoftmax target m = Ok ((- class_score m target)%R, m').
Proof.
  intros Hrun Hwo Ht.
  destruct (path_entries _ _ _ _ Hrun target Ht)
    as (p & cd & Hp & Hcd & Hlen & Hrange & Hsorted & _).
  pose proof (sorted_lt_NoDup _ Hsorted) as Hnd.
  unfold class_score.
  pose proof (get_Ok_inv _ _ _ [] Hp) as [_ Ep].
  pose proof (get_Ok_inv _ _ _ [] Hcd) as [_ Ecd].
  rewrite <- Ep, <- Ecd. clear Ep Ecd.
  unfold hierarchicalSoftmax. cbv zeta.
  change (hier (set_grad (vzero (grad_ m)) m)) with (hier m).
  rewrite Hcd, Hp. cbn [bind].
  set (m0 := set_grad (vzero (grad_ m)) m).
  set (P := fun (i : Z) (s : R * Model) =>
              fst s = (- path_score m (rev (firstn (Z.to_nat i) p))
                                    (rev (firstn (Z.to_nat i) cd)) 0)%R /\
              hidden_ (snd s) = hidden_ m /\ lr_ (snd s) = lr_ m /\
              length (wo_ (snd s)) = length (wo_ m) /\
              forall r, 0 <= r -> ~ In r (firstn (Z.to_nat i) p) ->
                nth (Z.to_nat r) (wo_ (snd s)) [] = nth (Z.to_nat r) (wo_ m) []).
  match goal with
  | |- context [for_range 0 ?hi ?body ?s] =>
      destruct (for_range_inv P body 0 hi s) as ([loss m'] & Hloop & HP)
  end.
  - lia.
  - unfold P, m0. cbn. split; [lra|]. auto.
  - intros k [loss m1] Hk (Hloss & Hh & Hlr & Hl & Hrows). cbn [fst snd] in *.
    rewrite (get_Ok _ _ 0) by lia.
    rewrite (get_Ok _ _ false) by lia. cbn [bind].
    set (pk := nth (Z.to_nat k) p 0).
    set (bk := nth (Z.to_nat k) cd false).
    assert (Hin : In pk p) by (apply nth_In; lia).
    assert (Hpk : 0 <= pk <= osz_ m - 2).
    { rewrite Forall_forall in Hrange. apply Hrange. exact Hin. }
    rewrite binaryLogistic_eval by lia. cbv zeta. cbn [bind].
    eexists. split; [reflexivity|].
    unfold P. cbn [fst snd].
    replace (Z.to_nat (k + 1)) with (Datatypes.S (Z.to_nat k)) by lia.
    rewrite (firstn_snoc 0) by lia.
    rewrite (firstn_snoc false) by lia.
    rewrite !rev_app_distr. cbn [rev app path_score]. cbv zeta.
    fold pk bk.
    assert (Hfresh : nth (Z.to_nat pk) (wo_ m1) [] = nth (Z.to_nat pk) (wo_ m) []).
    { apply Hrows; [lia|]. apply NoDup_nth_firstn; [exact Hnd|lia]. }
    split.
    { rewrite path_score_shift, Hloss, Hfresh, Hh.
      destruct bk; lra. }
    cbn. split; [exact Hh|]. split; [exact Hlr|].
    split; [rewrite upd_nat_length; exact Hl|].
    intros r Hr Hnin. rewrite upd_nat_nth by lia.
    destruct (Nat.eqb_spec (Z.to_nat r) (Z.to_nat pk)) as [E|_].
    + exfalso. apply Hnin. apply in_or_app. right. left. lia.
    + apply Hrows; [exact Hr|]. intros Hc. apply Hnin.
      apply in_or_app. left. exact Hc.
  - exists m'. rewrite Hloop. destruct HP as (Hloss & _). cbn [fst] in Hloss.
    rewrite Hloss. rewrite Nat2Z.id.
    rewrite firstn_all. rewrite Hlen. rewrite firstn_all. reflexivity.
Qed.

(** ** initTableNegatives: what the table holds *)

(** initTableNegatives does not clear the table: every id keeps the
    entries it had and gains its copies, as many as the loop of line
    205 has rounds for the bound computed for its class (the least [j]
    whose conversion to [real] is not below the bound); an id that is
    no class gains none.  No other member of the model changes. *)
Theorem initTableNegatives_appends (fuel : nat) (counts : list Z) (m : Model) :
  Rounding ->
  (forall l, Permutation l (shuffle l)) ->
  Forall (fun c => 0 <= c) counts ->
  Exists (fun c => 0 < c) counts ->
  (table_fuel counts <= fuel)%nat ->
  exists negs,
    initTableNegatives fuel counts m = Ok (set_negatives negs m) /\
    (forall x, ~ 0 <= x < Z.of_nat (length counts) ->
       count_occ Z.eq_dec negs x = count_occ Z.eq_dec (negatives m) x) /\
    forall x, 0 <= x < Z.of_nat (length counts) ->
      exists n : nat,
        count_occ Z.eq_dec negs x
          = (count_occ Z.eq_dec (negatives m) x + n)%nat /\
        (forall j, 0 <= j < Z.of_nat n ->
           (round_real (IZR j)
            < bound (sum_root counts) (nth (Z.to_nat x) counts 0%Z))%R) /\
        (bound (sum_root counts) (nth (Z.to_nat x) counts 0%Z)
         <= round_real (IZR (Z.of_nat n)))%R.
Proof.
  intros HR Hperm Hnn Hpos Hfuel.
  pose proof (sum_root_pos counts HR Hnn Hpos) as Hz.
  rewrite (initTableNegatives_run fuel counts m HR) by (lra || exact Hfuel).
  eexists. split; [reflexivity|].
  assert (Hcount : forall x,
            count_occ Z.eq_dec
              (shuffle (negatives m ++ table_from (sum_root counts) 0 counts)) x
            = Nat.add (count_occ Z.eq_dec (negatives m) x)
                (if (0 <=? x) && (x <? Z.of_nat (length counts))
                 then copies (sum_root counts) (nth (Z.to_nat x) counts 0)
                 else 0%nat)).
  { intros x.
    rewrite <- (proj1 (Permutation_count_occ Z.eq_dec _ _) (Hperm _) x).
    rewrite count_occ_app, table_count. reflexivity. }
  split.
  - intros x Hx. rewrite Hcount.
    destruct (Z.leb_spec 0 x); [|cbn [andb]; lia].
    destruct (Z.ltb_spec x (Z.of_nat (length counts))); [lia|].
    cbn [andb]. lia.
  - intros x Hx. rewrite Hcount.
    destruct (Z.leb_spec 0 x); [|lia].
    destruct (Z.ltb_spec x (Z.of_nat (length counts))); [|lia].
    cbn [andb].
    exists (copies (sum_root counts) (nth (Z.to_nat x) counts 0)).
    split; [reflexivity|]. apply copies_spec. exact HR.
Qed.

(** Started on an empty table, initTableNegatives fills it with
    exactly the classes whose count is positive: each of them is in
    the table, and the table holds nothing else.  Of the
    floating-point arithmetic this uses what [Rounding] says: the
    bound of line 205 is 0 for the count 0 and positive for a positive
    count. *)
Theorem initTableNegatives_support (fuel : nat) (counts : list Z) (m : Model) :
  Rounding ->
  (forall l, Permutation l (shuffle l)) ->
  0 < NEGATIVE_TABLE_SIZE ->
  Forall (fun c => 0 <= c) counts ->
  Exists (fun c => 0 < c) counts ->
  negatives m = [] ->
  (table_fuel counts <= fuel)%nat ->
  exists m',
    initTableNegatives fuel counts m = Ok m' /\
    forall x, In x (negatives m') <->
              0 <= x < Z.of_nat (length counts) /\
              0 < nth (Z.to_nat x) counts 0.
Proof.
  intros HR Hperm HN Hnn Hpos Hempty Hfuel.
  pose proof (sum_root_pos counts HR Hnn Hpos) as Hz.
  rewrite (initTableNegatives_run fuel counts m HR) by (lra || exact Hfuel).
  eexists. split; [reflexivity|]. intros x.
  cbn [negatives set_negatives]. rewrite Hempty. cbn [app].
  apply table_In; assumption.
Qed.

(** A class with a count at least that of another class gets at least
    as many entries of the table, the rounding and [pow] being
    monotone ([Rounding]). *)
Theorem initTableNegatives_monotone (fuel : nat) (counts : list Z) (m : Model) :
  Rounding ->
  (forall l, Permutation l (shuffle l)) ->
  0 < NEGATIVE_TABLE_SIZE ->
  Forall (fun c => 0 <= c) counts ->
  Exists (fun c => 0 < c) counts ->
  negatives m = [] ->
  (table_fuel counts <= fuel)%nat ->
  exists m',
    initTableNegatives fuel counts m = Ok m' /\
    forall i j,
      0 <= i < Z.of_nat (length counts) -> 0 <= j < Z.of_nat (length counts) ->
      nth (Z.to_nat i) counts 0 <= nth (Z.to_nat j) counts 0 ->
      (count_occ Z.eq_dec (negatives m') i <=
       count_occ Z.eq_dec (negatives m') j)%nat.
Proof.
  intros HR Hperm HN Hnn Hpos Hempty Hfuel.
  pose proof (sum_root_pos counts HR Hnn Hpos) as Hz.
  rewrite (initTableNegatives_run fuel counts m HR) by (lra || exact Hfuel).
  eexists. split; [reflexivity|]. intros i j Hi Hj Hle.
  cbn [negatives set_negatives]. rewrite Hempty. cbn [app].
  rewrite <- !(proj1 (Permutation_count_occ Z.eq_dec _ _) (Hperm _)).
  rewrite !table_count.
  destruct (Z.leb_spec 0 i); [|lia].
  destruct (Z.ltb_spec i (Z.of_nat (length counts))); [|lia].
  destruct (Z.leb_spec 0 j); [|lia].
  destruct (Z.ltb_spec j (Z.of_nat (length counts))); [|lia].
  cbn [andb]. apply copies_mono; [exact HR|exact Hz|lia|].
  split; [|exact Hle].
  rewrite Forall_forall in Hnn. apply Hnn. apply nth_In. lia.
Qed.

(** On a table in which no class has a positive count, the sum [z] of
    the square roots is zero ([pow(0, 0.5)] is 0 and rounding keeps 0,
    as [Rounding] says) and initTableNegatives divides by it
    (line 205). *)
Theorem initTableNegatives_zero (fuel : nat) (counts : list Z) (m : Model) :
  Rounding ->
  counts <> [] ->
  Forall (fun c => c = 0) counts ->
  initTableNegatives fuel counts m = Err DivisionByZero.
Proof.
  intros HR Hne Hz. unfold initTableNegatives. rewrite sum_root_loop.
  cbn [bind]. rewrite (sum_root_zeros _ HR Hz).
  destruct counts as [|c counts]; [contradiction|].
  unfold fill_negatives, for_range. cbn [length].
  replace (Z.to_nat (Z.of_nat (Datatypes.S (length counts)) - 0))
    with (Datatypes.S (length counts)) by lia.
  cbn [for_loop]. cbn [get Z.ltb Z.compare Z.to_nat nth_error bind].
  rewrite fdiv_zero. reflexivity.
Qed.

(** ** getNegative on the table of initTableNegatives *)

Lemma getNegative_returns (target : Z) (m : Model) (fuel : nat) :
  0 <= negpos m < Z.of_nat (length (negatives m)) ->
  (exists x, In x (negatives m) /\ x <> target) ->
  (length (negatives m) <= fuel)%nat ->
  exists negative q,
    getNegative fuel target m = Ok (negative, set_negpos q m) /\
    negative <> target /\ In negative (negatives m) /\
    0 <= q < Z.of_nat (length (negatives m)).
Proof.
  intros Hpos (x & Hin & Hx) Hfuel.
  destruct (In_nth _ _ 0 Hin) as (q & Hq & Eq).
  set (len := Z.of_nat (length (negatives m))) in *.
  set (j0 := Z.to_nat ((Z.of_nat q - negpos m) mod len)).
  assert (Hj0 : (j0 < length (negatives m))%nat).
  { unfold j0. pose proof (Z.mod_pos_bound (Z.of_nat q - negpos m) len). lia. }
  assert (P0 : slot m (Z.of_nat j0) <> target).
  { unfold slot. fold len. unfold j0.
    rewrite Z2Nat.id by (apply Z.mod_pos_bound; lia).
    rewrite Zplus_mod_idemp_r.
    replace (negpos m + (Z.of_nat q - negpos m)) with (Z.of_nat q) by lia.
    rewrite Z.mod_small by lia. rewrite Nat2Z.id, Eq. exact Hx. }
  destruct (least_witness (fun j => slot m (Z.of_nat j) <> target)
              (fun j => match Z.eq_dec (slot m (Z.of_nat j)) target with
                        | Specif.left e => Specif.right (fun H => H e)
                        | Specif.right n => Specif.left n
                        end) j0 P0)
    as (k & Hk & Pk & Hmin).
  assert (Hrun := getNegative_rounds target k m Hpos).
  rewrite Hrun; [| |exact Pk|lia].
  - do 2 eexists. split; [reflexivity|]. split; [exact Pk|].
    unfold len in *.
    split; [|apply Z.mod_pos_bound; lia].
    unfold slot. apply nth_In.
    pose proof (Z.mod_pos_bound (negpos m + Z.of_nat k)
                  (Z.of_nat (length (negatives m)))).
    lia.
  - intros j Hj. destruct (Z.eq_dec (slot m (Z.of_nat j)) target) as [E|N];
      [exact E|]. exfalso. exact (Hmin j Hj N).
Qed.

(** When two classes have a positive count, the table that
    initTableNegatives builds (with arithmetic as [Rounding] says and
    fuel for the loops of line 205) lets getNegative return for every
    target and from every cursor position within it: the class
    returned differs from the target and has a positive count. *)
Theorem getNegative_after_init (fuel : nat) (counts : list Z) (m : Model)
        (i j : Z) :
  Rounding ->
  (forall l, Permutation l (shuffle l)) ->
  0 < NEGATIVE_TABLE_SIZE ->
  Forall (fun c => 0 <= c) counts ->
  negatives m = [] ->
  (table_fuel counts <= fuel)%nat ->
  0 <= i < Z.of_nat (length counts) -> 0 < nth (Z.to_nat i) counts 0 ->
  0 <= j < Z.of_nat (length counts) -> 0 < nth (Z.to_nat j) counts 0 ->
  i <> j ->
  exists m1,
    initTableNegatives fuel counts m = Ok m1 /\
    forall target q,
      0 <= q < Z.of_nat (length (negatives m1)) ->
      exists negative q',
        getNegative (length (negatives m1)) target (set_negpos q m1)
          = Ok (negative, set_negpos q' m1) /\
        negative <> target /\
        0 <= negative < Z.of_nat (length counts) /\
        0 < nth (Z.to_nat negative) counts 0 /\
        0 <= q' < Z.of_nat (length (negatives m1)).
Proof.
  intros HR Hperm HN Hnn Hempty Hfuel Hi Hci Hj Hcj Hij.
  assert (Hpos : Exists (fun c => 0 < c) counts).
  { apply Exists_exists. exists (nth (Z.to_nat i) counts 0).
    split; [apply nth_In; lia|exact Hci]. }
  pose proof (sum_root_pos counts HR Hnn Hpos) as Hz.
  rewrite (initTableNegatives_run fuel counts m HR) by (lra || exact Hfuel).
  rewrite Hempty. cbn [app].
  set (tbl := shuffle (table_from (sum_root counts) 0 counts)).
  assert (Hsup : forall x, In x tbl <->
                   0 <= x < Z.of_nat (length counts) /\
                   0 < nth (Z.to_nat x) counts 0).
  { intros x. unfold tbl. apply table_In; assumption. }
  eexists. split; [reflexivity|]. cbn [negatives set_negatives].
  intros target q Hq.
  destruct (getNegative_returns target (set_negpos q (set_negatives tbl m))
              (length tbl)) as (negative & q' & Hrun & Hne & Hin & Hq').
  - cbn. exact Hq.
  - cbn [negatives set_negpos set_negatives].
    destruct (Z.eq_dec i target) as [E|N].
    + exists j. split; [apply Hsup; auto|congruence].
    + exists i. split; [apply Hsup; auto|exact N].
  - cbn. lia.
  - cbn [negatives set_negpos set_negatives] in *.
    exists negative, q'. split; [exact Hrun|]. split; [exact Hne|].
    apply Hsup in Hin. destruct Hin as [H1 H2].
    split; [exact H1|]. split; [exact H2|exact Hq'].
Qed.

(** When one class alone has a positive count, the table that
    initTableNegatives builds (with arithmetic as [Rounding] says and
    fuel for the loops of line 205) holds that class only, and
    getNegative for it never returns, whatever the fuel and the cursor
    position. *)
Theorem getNegative_single_class (fuel0 : nat) (counts : list Z) (m : Model)
        (t : Z) :
  Rounding ->
  (forall l, Permutation l (shuffle l)) ->
  0 < NEGATIVE_TABLE_SIZE ->
  Forall (fun c => 0 <= c) counts ->
  negatives m = [] ->
  (table_fuel counts <= fuel0)%nat ->
  0 <= t < Z.of_nat (length counts) -> 0 < nth (Z.to_nat t) counts 0 ->
  (forall x, 0 <= x < Z.of_nat (length counts) -> x <> t ->
             nth (Z.to_nat x) counts 0 = 0) ->
  exists m1,
    initTableNegatives fuel0 counts m = Ok m1 /\
    negatives m1 <> [] /\
    forall fuel q,
      0 <= q < Z.of_nat (length (negatives m1)) ->
      getNegative fuel t (set_negpos q m1) = Err OutOfFuel.
Proof.
  intros HR Hperm HN Hnn Hempty Hfuel Ht Hct Hothers.
  assert (Hpos : Exists (fun c => 0 < c) counts).
  { apply Exists_exists. exists (nth (Z.to_nat t) counts 0).
    split; [apply nth_In; lia|exact Hct]. }
  pose proof (sum_root_pos counts HR Hnn Hpos) as Hz.
  rewrite (initTableNegatives_run fuel0 counts m HR) by (lra || exact Hfuel).
  rewrite Hempty. cbn [app].
  set (tbl := shuffle (table_from (sum_root counts) 0 counts)).
  assert (Hsup : forall x, In x tbl <->
                   0 <= x < Z.of_nat (length counts) /\
                   0 < nth (Z.to_nat x) counts 0).
  { intros x. unfold tbl. apply table_In; assumption. }
  eexists. split; [reflexivity|]. cbn [negatives set_negatives]. split.
  - intros E. assert (Hin : In t tbl) by (apply Hsup; auto).
    rewrite E in Hin. exact Hin.
  - intros fuel q Hq. apply getNegative_spins; [exact Hq|].
    cbn [negatives set_negpos set_negatives]. intros x Hin.
    destruct (Z.eq_dec x t) as [E|N]; [exact E|]. exfalso.
    apply Hsup in Hin. destruct Hin as [Hx Hcx].
    rewrite (Hothers x Hx N) in Hcx. lia.
Qed.

(** ** negativeSampling *)



(** ** update: a training step on a model that is ready *)








(** ** From the constructor to a model that is ready *)

(** setTargetCounts on a model as the constructor leaves it, with a
    count per row of [wo]: for negative sampling (counts not negative,
    one of them positive, arithmetic as [Rounding] says, fuel for the
    loops of line 205) it fills the negative table, for
    hierarchical softmax (counts below the [1e15] of blank nodes) it
    builds the tree, otherwise it changes nothing; in each case the
    model is ready for training steps. *)
Theorem setTargetCounts_ready (fuel : nat) (counts : list Z)
        (wi wo : Matrix) (hsz : Z) (lr : R) (seed : Z) :
  Z.of_nat (length counts) = Z.of_nat (length wo) ->
  (loss args = ns ->
   Rounding /\
   (forall l, Permutation l (shuffle l)) /\ 0 < NEGATIVE_TABLE_SIZE /\
   Forall (fun c => 0 <= c) counts /\ Exists (fun c => 0 < c) counts /\
   (table_fuel counts <= fuel)%nat) ->
  (loss args = hs ->
   1 <= Z.of_nat (length wo) < 2 ^ 30 /\ below_sentinel counts /\
   (Z.to_nat (2 * Z.of_nat (length wo)) <= fuel)%nat) ->
  exists m',
    setTargetCounts fuel counts (Model_new wi wo hsz lr seed) = Ok m' /\
    Ready m' /\
    wi_ m' = wi /\ wo_ m' = wo /\ lr_ m' = lr.
Proof.
  intros Hlen Hns Hhs. unfold setTargetCounts, assert.
  cbn [osz_ Model_new].
  rewrite (proj2 (Z.eqb_eq _ _) Hlen). cbn [bind].
  destruct (loss args) eqn:Hloss.
  - destruct (Hhs eq_refl) as (Hosz & Hb & Hf). cbn [bind osz_ hier Model_new].
    destruct (buildTree_total fuel (Z.of_nat (length wo)) counts fresh
                Hosz ltac:(lia) Hb Hf) as (h' & Hrun).
    rewrite Hrun. cbn [bind]. eexists. split; [reflexivity|].
    split; [|cbn; auto].
    constructor; cbn.
    + reflexivity.
    + intros E; congruence.
    + intros _. exists fuel, counts. exact Hrun.
  - destruct (Hns eq_refl) as (HR & Hperm & HN & Hnn & Hpos & Hfuel).
    pose proof (sum_root_pos counts HR Hnn Hpos) as Hz.
    rewrite (initTableNegatives_run fuel counts _ HR)
      by (lra || exact Hfuel).
    cbn [bind].
    eexists. split; [reflexivity|].
    split; [|cbn; auto].
    constructor; cbn.
    + reflexivity.
    + intros _.
      set (tbl := shuffle (table_from (sum_root counts) 0 counts)).
      split.
      * apply Forall_forall. intros x Hx.
        apply (table_In counts x HR Hperm HN Hnn Hz) in Hx. lia.
      * assert (Hne : tbl <> []).
        { apply Exists_exists in Hpos. destruct Hpos as (c & Hc & Hc0).
          destruct (In_nth _ _ 0 Hc) as (i & Hi & Ei).
          assert (Hin : In (Z.of_nat i) tbl).
          { apply (table_In counts _ HR Hperm HN Hnn Hz).
            rewrite Nat2Z.id, Ei. lia. }
          intros E. rewrite E in Hin. exact Hin. }
        destruct tbl; [contradiction|cbn [length]; lia].
    + intros E; congruence.
  - cbn [bind]. eexists. split; [reflexivity|].
    split; [|cbn; auto].
    constructor; cbn.
    + reflexivity.
    + intros E; congruence.
    + intros E; congruence.
Qed.

(** setLearningRate stores the rate it is given, raised to MIN_LR when
    it is below, and changes nothing else; the constructor stores the
    rate it is given as it is. *)
Theorem setLearningRate_floor (lr : R) (m : Model) :
  (MIN_LR <= getLearningRate (setLearningRate lr m))%R /\
  getLearningRate (setLearningRate lr m) = Rmax lr MIN_LR /\
  setLearningRate lr m = set_lr (Rmax lr MIN_LR) m /\
  forall wi wo hsz seed,
    getLearningRate (Model_new wi wo hsz lr seed) = lr.
Proof.
  assert (E : (if Rltb lr MIN_LR then MIN_LR else lr) = Rmax lr MIN_LR).
  { destruct (Rltb lr MIN_LR) eqn:Hc.
    - apply Rltb_true in Hc. rewrite Rmax_right by lra. reflexivity.
    - apply Rltb_false in Hc. rewrite Rmax_left by lra. reflexivity. }
  unfold getLearningRate, setLearningRate. rewrite E. cbn.
  split; [apply Rmax_r|]. split; [reflexivity|]. split; reflexivity.
Qed.

(** ** softmax: the probabilities *)

(** [exp] is any function that is never negative, not zero at 0 and
    monotone, as the floating-point [exp] is (which returns 0 far
    below 0).  On a model whose [wo_] has a row per class, softmax
    returns for every class and leaves in [output_] one number per
    class, each at least 0 and at most 1 (0 is possible: where [exp]
    returns 0), in the order of the raw scores [wo_ * hidden_]: a
    class with a higher raw score never gets a lower probability.  A
    class whose raw score is the largest gets at least [1 / osz_]. *)
Theorem softmax_probabilities (target : Z) (m : Model) :
  (forall x, (0 <= exp x)%R) -> (0 < exp 0)%R ->
  (forall x y, (x <= y)%R -> (exp x <= exp y)%R) ->
  Z.of_nat (length (wo_ m)) = osz_ m ->
  0 <= target < osz_ m ->
  exists l m',
    softmax target m = Ok (l, m') /\
    Z.of_nat (length (output_ m')) = osz_ m /\
    (forall i, (i < length (output_ m'))%nat ->
       (0 <= nth i (output_ m') 0 <= 1)%R) /\
    (forall i j, (i < length (output_ m'))%nat ->
       (j < length (output_ m'))%nat ->
       (nth i (mat_vec (wo_ m) (hidden_ m)) 0
        <= nth j (mat_vec (wo_ m) (hidden_ m)) 0)%R ->
       (nth i (output_ m') 0 <= nth j (output_ m') 0)%R) /\
    (forall i, (i < length (output_ m'))%nat ->
       (forall j, (j < length (output_ m'))%nat ->
          (nth j (mat_vec (wo_ m) (hidden_ m)) 0
           <= nth i (mat_vec (wo_ m) (hidden_ m)) 0)%R) ->
       (1 / IZR (osz_ m) <= nth i (output_ m') 0)%R).
Proof.
  intros Hnn H0 Hmono Hwo Ht.
  destruct (softmax_run target m Hnn H0 Hwo Ht) as (m' & Hrun & Hout).
  eexists. exists m'. split; [exact Hrun|]. rewrite Hout.
  set (raw := mat_vec (wo_ m) (hidden_ m)).
  assert (Hlr : length raw = length (wo_ m))
    by (unfold raw, mat_vec; apply length_map).
  assert (Hlp : length (softmax_probs raw) = length raw)
    by (unfold softmax_probs; cbv zeta; rewrite !length_map; reflexivity).
  assert (Hne : raw <> []) by (intros E; rewrite E in Hlr; cbn in Hlr; lia).
  pose proof (Rsum_exp_pos raw Hnn H0 Hne) as Hz.
  destruct (vmax_spec raw Hne) as [Hvin Hvall].
  set (e := map (fun x => exp (x - vmax raw)) raw) in *.
  assert (He : Forall (fun x => (0 <= x)%R) e).
  { unfold e. apply Forall_forall. intros x Hx. apply in_map_iff in Hx.
    destruct Hx as (y & <- & _). apply Hnn. }
  destruct (Rsum_ge_member e He) as [_ Hmem].
  split; [rewrite Hlp; lia|]. split; [|split].
  - intros i Hi. rewrite Hlp in Hi. rewrite softmax_probs_nth by exact Hi.
    fold e.
    assert (Hin : In (exp (nth i raw 0 - vmax raw)%R) e).
    { unfold e. apply in_map_iff. exists (nth i raw 0%R).
      split; [reflexivity|apply nth_In; exact Hi]. }
    specialize (Hmem _ Hin).
    pose proof (Hnn (nth i raw 0 - vmax raw)%R) as Hp.
    split.
    + apply Rmult_le_pos; [exact Hp|].
      apply Rlt_le, Rinv_0_lt_compat. exact Hz.
    + apply (Rmult_le_reg_r (Rsum e)); [exact Hz|].
      unfold Rdiv. rewrite Rmult_assoc, Rinv_l by lra. lra.
  - intros i j Hi Hj Hle. rewrite Hlp in Hi, Hj.
    rewrite !softmax_probs_nth by assumption. fold e.
    apply Rmult_le_compat_r; [apply Rlt_le, Rinv_0_lt_compat; exact Hz|].
    apply Hmono. lra.
  - intros i Hi Hbest. rewrite Hlp in Hi.
    rewrite softmax_probs_nth by exact Hi. fold e.
    assert (Hmax : nth i raw 0%R = vmax raw).
    { apply Rle_antisym.
      - rewrite Forall_forall in Hvall. apply Hvall. apply nth_In. exact Hi.
      - destruct (In_nth _ _ 0%R Hvin) as (j & Hj & <-).
        apply Hbest. rewrite Hlp. exact Hj. }
    rewrite Hmax. replace (vmax raw - vmax raw)%R with 0%R by lra.
    assert (Hsum : forall v : Vector,
               Forall (fun x => (x <= exp 0)%R) v ->
               (Rsum v <= IZR (Z.of_nat (length v)) * exp 0)%R).
    { induction 1 as [|a v Ha _ IH].
      - unfold Rsum. cbn. lra.
      - rewrite Rsum_cons. cbn [length]. rewrite Nat2Z.inj_succ, succ_IZR. lra. }
    assert (Hle : (Rsum e <= IZR (osz_ m) * exp 0)%R).
    { replace (osz_ m) with (Z.of_nat (length e))
        by (unfold e; rewrite length_map; lia).
      apply Hsum. unfold e. apply Forall_forall. intros x Hx.
      apply in_map_iff in Hx. destruct Hx as (y & <- & Hy).
      apply Hmono. rewrite Forall_forall in Hvall. specialize (Hvall y Hy).
      lra. }
    assert (Hosz : (0 < IZR (osz_ m))%R) by (apply IZR_lt; lia).
    apply (Rmult_le_reg_r (Rsum e)); [exact Hz|].
    unfold Rdiv at 2. rewrite Rmult_assoc, Rinv_l by lra.
    apply (Rmult_le_reg_l (IZR (osz_ m))); [exact Hosz|].
    replace (IZR (osz_ m) * (1 / IZR (osz_ m) * Rsum e))%R with (Rsum e)
      by (field; lra).
    lra.
Qed.

(** ** softmax: the update of the weights *)

Lemma classes_snoc (k : Z) : 0 <= k -> classes (k + 1) = classes k ++ [k].
Proof.
  intros Hk. unfold classes.
  replace (Z.to_nat (k + 1)) with (Z.to_nat k + 1)%nat by lia.
  rewrite seq_app, map_app. cbn [seq map]. rewrite Nat.add_0_l, Z2Nat.id by lia.
  reflexivity.
Qed.

Lemma fold_left_ext_in {A B : Type} (f g : A -> B -> A) (l : list B) :
  (forall a b, In b l -> f a b = g a b) ->
  forall a, fold_left f l a = fold_left g l a.
Proof.
  induction l as [|b l IH]; intros H a; [reflexivity|].
  cbn [fold_left]. rewrite (H a b (or_introl eq_refl)).
  apply IH. intros a' b' Hb. apply H. right. exact Hb.
Qed.

Lemma softmax_update_rule (target : Z) (z : R) (m0 m' : Model) :
  0 <= osz_ m0 ->
  softmax_update target z m0 = Ok m' ->
  (forall i, 0 <= i < osz_ m0 ->
     nth (Z.to_nat i) (wo_ m') [] =
     axpy (softmax_alpha (lr_ m0) target (output_ m') i) (hidden_ m0)
          (nth (Z.to_nat i) (wo_ m0) [])) /\
  grad_ m' =
    fold_left (fun g j =>
                 axpy (softmax_alpha (lr_ m0) target (output_ m') j)
                      (nth (Z.to_nat j) (wo_ m0) []) g)
              (classes (osz_ m0)) (grad_ m0).
Proof.
  intros Hosz H. unfold softmax_update in H.
  set (P := fun (i : Z) (s : Model) =>
              hidden_ s = hidden_ m0 /\ lr_ s = lr_ m0 /\
              (forall r, 0 <= r < i ->
                 nth (Z.to_nat r) (wo_ s) [] =
                 axpy (softmax_alpha (lr_ m0) target (output_ s) r) (hidden_ m0)
                      (nth (Z.to_nat r) (wo_ m0) [])) /\
              (forall r, i <= r ->
                 nth (Z.to_nat r) (wo_ s) [] = nth (Z.to_nat r) (wo_ m0) []) /\
              grad_ s =
                fold_left (fun g j =>
                             axpy (softmax_alpha (lr_ m0) target (output_ s) j)
                                  (nth (Z.to_nat j) (wo_ m0) []) g)
                          (classes i) (grad_ m0)).
  apply (for_range_sound P) in H.
  - destruct H as (_ & _ & Hrows & _ & Hg). split; [exact Hrows|exact Hg].
  - exact Hosz.
  - unfold P. repeat split; try reflexivity. intros r Hr. lia.
  - intros k s s' Hk (Hh & Hlr & Hlow & Hhigh & Hg) Hb.
    apply bind_Ok_inv in Hb. destruct Hb as (o & _ & Hb).
    apply bind_Ok_inv in Hb. destruct Hb as (q & _ & Hb).
    apply bind_Ok_inv in Hb. destruct Hb as (out' & Hm & Hb).
    apply bind_Ok_inv in Hb. destruct Hb as (o' & Ho' & Hb).
    apply bind_Ok_inv in Hb. destruct Hb as (g & Hgr & Hb).
    apply bind_Ok_inv in Hb. destruct Hb as (wo' & Hw & Hb).
    injection Hb as <-.
    apply modify_Ok_inv in Hm. destruct Hm as [Hkout ->].
    cbn [output_ set_output lr_ grad_ wo_ hidden_ set_grad] in *.
    apply (get_Ok_inv _ _ _ 0%R) in Ho'. destruct Ho' as [_ ->].
    unfold vec_addRow_scaled in Hgr. apply bind_Ok_inv in Hgr.
    destruct Hgr as (row & Hrow & Hgr). injection Hgr as <-.
    apply (get_Ok_inv (A:=Vector) _ _ _ []) in Hrow. destruct Hrow as [Hkw ->].
    unfold mat_addRow in Hw. apply modify_Ok_inv in Hw. destruct Hw as [_ ->].
    set (out' := upd_nat (output_ s) (Z.to_nat k) (fun _ => q)) in *.
    assert (Hsame : forall r, 0 <= r < k ->
              softmax_alpha (lr_ m0) target out' r
              = softmax_alpha (lr_ m0) target (output_ s) r).
    { intros r Hr. unfold softmax_alpha, out'.
      rewrite upd_nat_nth by lia.
      destruct (Nat.eqb_spec (Z.to_nat r) (Z.to_nat k)); [lia|reflexivity]. }
    assert (Halpha : (lr_ s * ((if k =? target then 1 else 0)
                               - nth (Z.to_nat k) out' 0))%R
                     = softmax_alpha (lr_ m0) target out' k).
    { unfold softmax_alpha. rewrite Hlr. reflexivity. }
    rewrite Halpha.
    unfold P. cbn [output_ set_output lr_ grad_ wo_ hidden_ set_grad set_wo].
    split; [exact Hh|]. split; [exact Hlr|]. split; [|split].
    + intros r Hr. rewrite upd_nat_nth by lia.
      destruct (Nat.eqb_spec (Z.to_nat r) (Z.to_nat k)) as [E|N].
      * replace r with k by lia. rewrite (Hhigh k) by lia. rewrite Hh.
        reflexivity.
      * rewrite Hsame by lia. apply Hlow. lia.
    + intros r Hr. rewrite upd_nat_nth by lia.
      destruct (Nat.eqb_spec (Z.to_nat r) (Z.to_nat k)) as [E|N]; [lia|].
      apply Hhigh. lia.
    + rewrite classes_snoc by lia. rewrite fold_left_app. cbn [fold_left].
      rewrite (Hhigh k) by lia. f_equal. rewrite Hg.
      apply fold_left_ext_in. intros a b Hb.
      apply classes_In in Hb. rewrite Hsame by lia. reflexivity.
Qed.

(** On a model whose [wo_] has a row per class, and with an [exp]
    that is never negative and not zero at 0, softmax moves row [j]
    of [wo_], for every class [j], by [alpha_j * hidden_], where
    [alpha_j] is the learning rate times the label of [j] (1 for the
    target, 0 otherwise) minus the probability of [j]; and it leaves
    in [grad_] the sum over the classes of [alpha_j] times row [j] as
    it was before the call. *)
Theorem softmax_step (target : Z) (m : Model) :
  (forall x, (0 <= exp x)%R) -> (0 < exp 0)%R ->
  Z.of_nat (length (wo_ m)) = osz_ m ->
  0 <= target < osz_ m ->
  exists l m',
    softmax target m = Ok (l, m') /\
    (forall j, 0 <= j < osz_ m ->
       nth (Z.to_nat j) (wo_ m') [] =
       axpy (softmax_alpha (lr_ m) target (output_ m') j) (hidden_ m)
            (nth (Z.to_nat j) (wo_ m) [])) /\
    grad_ m' =
      fold_left (fun g j =>
                   axpy (softmax_alpha (lr_ m) target (output_ m') j)
                        (nth (Z.to_nat j) (wo_ m) []) g)
                (classes (osz_ m)) (vzero (grad_ m)).
Proof.
  intros Hnn H0 Hwo Ht.
  destruct (softmax_run target m Hnn H0 Hwo Ht) as (m' & Hrun & _).
  eexists. exists m'. split; [exact Hrun|].
  unfold softmax in Hrun. cbv zeta in Hrun.
  apply bind_Ok_inv in Hrun. destruct Hrun as (mx & _ & Hrun).
  apply bind_Ok_inv in Hrun. destruct Hrun as ([out z] & _ & Hrun).
  apply bind_Ok_inv in Hrun. destruct Hrun as (m2 & Hu & Hrun).
  apply bind_Ok_inv in Hrun. destruct Hrun as (o & _ & Hrun).
  injection Hrun as _ <-.
  apply softmax_update_rule in Hu; [|cbn; lia].
  exact Hu.
Qed.

(** ** buildTree: code lengths follow the class index *)

Lemma step_node_parent (i m0 m1 : Z) (c : W) (j : Z) (n : Node) :
  parent (step_node i m0 m1 c j n) =
  if (j =? m1) || (j =? m0) then i else parent n.
Proof.
  unfold step_node.
  destruct (j =? i), (j =? m0), (j =? m1); reflexivity.
Qed.

Lemma merge_step_Taken (osz i : Z) (t t' : list Node)
      (leaf node leaf' node' : Z) :
  Taken osz i t leaf node ->
  merge_step i (t, leaf, node) = Ok (t', leaf', node') ->
  Taken osz (i + 1) t' leaf' node'.
Proof.
  intros [Hleaf Hnode Hls Hns Hbef] Hs.
  destruct (merge_step_Ok_inv _ _ _ _ _ _ _ Hs)
    as (m0 & leaf1 & node1 & m1 & Hp0 & Hp1 & Bi & B0 & B1).
  destruct (merge_step_eval i t leaf node m0 leaf1 node1 m1 leaf' node' Hp0 Hp1
              Bi B0 B1) as (t'' & Hs' & _ & Hnd).
  rewrite Hs in Hs'. injection Hs' as <-.
  assert (Hpar : forall j, 0 <= j ->
            parent (nd t' j) =
            if (j =? m1) || (j =? m0) then i else parent (nd t j)).
  { intros j Hj. rewrite Hnd by exact Hj. apply step_node_parent. }
  pose proof (pick_inv _ _ _ _ _ _ Hp0) as Hc0.
  pose proof (pick_inv _ _ _ _ _ _ Hp1) as Hc1.
  assert (K0 : (m0 = leaf /\ 0 <= leaf /\ leaf1 = leaf - 1 /\ node1 = node) \/
               (m0 = node /\ leaf1 = leaf /\ node1 = node + 1))
    by (destruct Hc0 as [H|H]; [left|right]; lia).
  assert (K1 : (m1 = leaf1 /\ 0 <= leaf1 /\ leaf' = leaf1 - 1 /\ node' = node1) \/
               (m1 = node1 /\ leaf' = leaf1 /\ node' = node1 + 1))
    by (destruct Hc1 as [H|H]; [left|right]; lia).
  clear Hc0 Hc1.
  assert (Hl' : -1 <= leaf' <= leaf) by lia.
  assert (Hn' : node <= node') by lia.
  assert (Hnew : forall j, leaf' < j < node' ->
                   leaf < j < node \/ j = m0 \/ j = m1)
    by (intros j Hj; lia).
  assert (Hold : forall j, leaf < j < node -> j <> m0 /\ j <> m1)
    by (intros j Hj; lia).
  assert (Hp' : forall j, leaf' < j < node' ->
            (leaf < j < node /\ parent (nd t' j) = parent (nd t j) /\
             parent (nd t j) < i) \/
            ((j = m0 \/ j = m1) /\ parent (nd t' j) = i)).
  { intros j Hj. rewrite Hpar by lia.
    destruct (Z.eqb_spec j m1) as [E1|N1]; [right; auto|].
    destruct (Z.eqb_spec j m0) as [E0|N0]; [right; auto|].
    left. cbn [orb]. destruct (Hnew j Hj) as [H|[H|H]]; try contradiction.
    split; [exact H|]. split; [reflexivity|]. apply Hbef. exact H. }
  constructor.
  - lia.
  - lia.
  - intros a b Ha Hab Hb.
    destruct (Hp' a ltac:(lia)) as [(Ra & -> & La)|(Ea & ->)];
      destruct (Hp' b ltac:(lia)) as [(Rb & -> & Lb)|(Eb & ->)].
    + apply Hls; lia.
    + lia.
    + lia.
    + lia.
  - intros a b Ha Hab Hb.
    destruct (Hp' a ltac:(lia)) as [(Ra & -> & La)|(Ea & ->)];
      destruct (Hp' b ltac:(lia)) as [(Rb & -> & Lb)|(Eb & ->)].
    + apply Hns; lia.
    + lia.
    + lia.
    + lia.
  - intros j Hj.
    destruct (Hp' j Hj) as [(_ & -> & L)|(_ & ->)]; lia.
Qed.

Lemma merge_loop_Taken (osz : Z) (t1 t2 : list Node) (leaf node : Z) :
  1 <= osz ->
  for_range osz (2 * osz - 1) merge_step (t1, osz - 1, osz)
    = Ok (t2, leaf, node) ->
  Taken osz (2 * osz - 1) t2 leaf node.
Proof.
  intros Hosz H.
  apply (for_range_sound
           (fun i (s : list Node * Z * Z) =>
              let '(t, leaf, node) := s in Taken osz i t leaf node)) in H.
  - exact H.
  - lia.
  - constructor; intros; lia.
  - intros k [[t l] n] [[t' l'] n'] _ HT Hs.
    exact (merge_step_Taken _ _ _ _ _ _ _ _ HT Hs).
Qed.

(** The final state of the merge loop of a call that returns. *)
Lemma buildTree_final (fuel : nat) (osz : Z) (counts : list Z) (h h' : Hier) :
  buildTree fuel osz counts h = Ok h' ->
  1 <= osz /\
  exists leaf node,
    Inv osz counts (2 * osz - 1) (tree h') leaf node /\
    Taken osz (2 * osz - 1) (tree h') leaf node.
Proof.
  unfold buildTree. intros H.
  apply bind_Ok_inv in H. destruct H as (t0 & H0 & H).
  apply bind_Ok_inv in H. destruct H as (t1 & H1 & H).
  apply bind_Ok_inv in H. destruct H as ([[t2 leaf] node] & H2 & H).
  apply bind_Ok_inv in H. destruct H as ([ps cs] & H3 & H).
  injection H as <-. cbn [tree].
  destruct (init_sound osz counts t0 t1 H0 H1) as (Hosz & Hc & HI0).
  split; [lia|]. exists leaf, node.
  split; [|exact (merge_loop_Taken osz t1 t2 leaf node ltac:(lia) H2)].
  destruct (merge_loop_sound osz counts t1 t2 leaf node ltac:(lia) HI0 H2)
    as [HI|HT]; [exact HI|].
  exfalso. revert HT.
  apply (path_loop_not_trapped osz t2 fuel leaf node _ _ ltac:(lia) H3).
Qed.

Lemma descend_Depth (osz : Z) (t : list Node) :
  (forall j, 0 <= j < osz -> left (nd t j) = -1 /\ right (nd t j) = -1) ->
  (forall n, osz <= n <= 2 * osz - 2 ->
     0 <= left (nd t n) < n /\ 0 <= right (nd t n) < n /\
     parent (nd t (left (nd t n))) = n /\
     parent (nd t (right (nd t n))) = n) ->
  forall (bits : list bool) (n c : Z) (vis : list Z) (d : nat),
    descend t osz n bits = Ok (c, vis) -> 0 <= c -> 0 <= n <= 2 * osz - 2 ->
    Depth t n d -> Depth t c (length bits + d).
Proof.
  intros Hleaf Hint.
  induction bits as [|b bits IH]; intros n c vis d H Hc Hn Hd.
  - cbn in H. injection H as <- <-. exact Hd.
  - cbn [descend] in H. apply bind_Ok_inv in H. destruct H as (x & Hx & H).
    apply get_nd_inv in Hx. destruct Hx as [_ ->].
    apply bind_Ok_inv in H. destruct H as ([m v] & Hdesc & H).
    injection H as <- <-.
    set (child := if b then right (nd t n) else left (nd t n)) in *.
    assert (Hchild : 0 <= child).
    { destruct bits as [|b' bits'].
      - cbn in Hdesc. injection Hdesc as <- <-. exact Hc.
      - cbn [descend] in Hdesc. apply bind_Ok_inv in Hdesc.
        destruct Hdesc as (y & Hy & _). apply get_nd_inv in Hy. lia. }
    assert (Hn' : osz <= n).
    { destruct (Z.lt_ge_cases n osz) as [Hlt|Hge]; [|exact Hge].
      destruct (Hleaf n ltac:(lia)) as [Hl Hr].
      unfold child in Hchild. destruct b; lia. }
    destruct (Hint n ltac:(lia)) as (Hl & Hr & Hpl & Hpr).
    assert (Hcn : 0 <= child < n) by (unfold child; destruct b; lia).
    assert (Hpc : parent (nd t child) = n) by (unfold child; destruct b; assumption).
    cbn [length].
    replace (Datatypes.S (length bits) + d)%nat
      with (length bits + Datatypes.S d)%nat by lia.
    apply (IH child m v (Datatypes.S d) Hdesc Hc ltac:(lia)).
    apply Depth_up; rewrite Hpc; [lia|exact Hd].
Qed.

Lemma Depth_nodes_mono (osz : Z) (t : list Node) :
  Linked osz t ->
  (forall a b, osz <= a -> a <= b -> b < 2 * osz - 2 ->
     parent (nd t a) <= parent (nd t b)) ->
  forall a ka, Depth t a ka ->
    forall b kb, osz <= a -> a <= b -> b <= 2 * osz - 2 -> Depth t b kb ->
      (kb <= ka)%nat.
Proof.
  intros HL Hmono a ka Ha.
  induction Ha as [a Hpa|a k Hpa Ha IH]; intros b kb Hoa Hab Hb Hdb.
  - assert (a = 2 * osz - 2).
    { destruct (Z.eq_dec a (2 * osz - 2)) as [E|N]; [exact E|].
      destruct (lk_up _ _ HL a ltac:(lia)). lia. }
    assert (b = 2 * osz - 2) by lia. subst b.
    inversion Hdb as [? Hp|? ? Hp _]; subst; [lia|].
    exfalso. apply Hp. apply (lk_root _ _ HL).
  - inversion Hdb as [? Hp|? kb' Hp Hdb']; subst; [lia|].
    assert (Ha' : a < 2 * osz - 2).
    { destruct (Z.eq_dec a (2 * osz - 2)) as [E|N]; [|lia].
      exfalso. apply Hpa. rewrite E. apply (lk_root _ _ HL). }
    assert (Hb' : b < 2 * osz - 2).
    { destruct (Z.eq_dec b (2 * osz - 2)) as [E|N]; [|lia].
      exfalso. apply Hp. rewrite E. apply (lk_root _ _ HL). }
    destruct (lk_up _ _ HL a ltac:(lia)) as (A1 & A2 & _).
    destruct (lk_up _ _ HL b ltac:(lia)) as (B1 & B2 & _).
    apply le_n_S. apply (IH (parent (nd t b)) kb'); try lia; [|exact Hdb'].
    apply Hmono; lia.
Qed.

(** Whatever the counts, in the tree of buildTree a class never has a
    longer code than a class of higher index: the merge loop takes the
    leaves from the last class down.  The frequent classes get the
    short codes when the table is in non-increasing order. *)
Theorem code_length_monotone (fuel : nat) (osz : Z) (counts : list Z)
        (h' : Hier) :
  buildTree fuel osz counts fresh = Ok h' ->
  forall c c', 0 <= c -> c <= c' -> c' < osz ->
    (length (nth (Z.to_nat c) (codes h') [])
     <= length (nth (Z.to_nat c') (codes h') []))%nat.
Proof.
  intros Hrun c c' Hc Hcc Hc'.
  destruct (Z.eq_dec c c') as [->|Hne]; [lia|].
  destruct (buildTree_final _ _ _ _ _ Hrun) as (Hosz & leaf & node & HI & HT).
  destruct (built_facts _ _ _ _ Hrun) as (_ & Hlen & Hleaf & _ & _ & Hdesc).
  pose proof (final_Linked osz counts _ leaf node Hosz HI) as HL.
  destruct (final_cursors osz counts _ _ _ Hosz HI) as [(E1 & _)|(Ho & El & En)];
    [lia|]. subst leaf node.
  assert (Hint : forall n, osz <= n <= 2 * osz - 2 ->
            0 <= left (nd (tree h') n) < n /\ 0 <= right (nd (tree h') n) < n /\
            parent (nd (tree h') (left (nd (tree h') n))) = n /\
            parent (nd (tree h') (right (nd (tree h') n))) = n).
  { intros n Hn.
    destruct (inv_created _ _ _ _ _ _ HI n ltac:(lia))
      as (A1 & A2 & _ & A4 & A5 & _).
    auto. }
  assert (Hroot : Depth (tree h') (2 * osz - 2) 0)
    by (apply Depth_top; apply (lk_root _ _ HL)).
  assert (HD : forall x, 0 <= x < osz ->
            Depth (tree h') x (length (nth (Z.to_nat x) (codes h') []))).
  { intros x Hx.
    pose proof (descend_Depth osz (tree h') Hleaf Hint _ _ _ _ 0%nat
                  (Hdesc x Hx) ltac:(lia) ltac:(lia) Hroot) as H.
    rewrite length_rev, Nat.add_0_r in H. exact H. }
  pose proof (HD c ltac:(lia)) as Dc. pose proof (HD c' ltac:(lia)) as Dc'.
  destruct (lk_up _ _ HL c ltac:(lia)) as (C1 & C2 & _).
  destruct (lk_up _ _ HL c' ltac:(lia)) as (C1' & C2' & _).
  inversion Dc as [? Hp|? k Hp Dp]; subst; [lia|].
  inversion Dc' as [? Hp'|? k' Hp' Dp']; subst; [lia|].
  apply le_n_S.
  pose proof (tk_nodes _ _ _ _ _ HT) as Hnodes.
  pose proof (tk_leaves _ _ _ _ _ HT c c' ltac:(lia) Hcc Hc') as Hpar.
  exact (Depth_nodes_mono osz (tree h') HL Hnodes
           (parent (nd (tree h') c')) k' Dp'
           (parent (nd (tree h') c)) k C2' Hpar ltac:(lia) Dp).
Qed.

(** ** buildTree: the count of the root *)

Lemma Zsum_app (l1 l2 : list Z) : Zsum (l1 ++ l2) = Zsum l1 + Zsum l2.
Proof.
  unfold Zsum. induction l1 as [|x l1 IH]; cbn [app fold_right]; lia.
Qed.

Lemma Zsum_perm (l1 l2 : list Z) : Permutation l1 l2 -> Zsum l1 = Zsum l2.
Proof.
  unfold Zsum.
  induction 1 as [|x l l' _ IH|x y l|l l' l'' _ IH1 _ IH2];
    cbn [fold_right] in *; lia.
Qed.

Lemma leaves_under_length (osz : Z) (t : list Node) (cnt : Z -> Z) :
  (forall j, 0 <= j < osz -> left (nd t j) = -1 /\ right (nd t j) = -1) ->
  (forall n, osz <= n <= 2 * osz - 2 ->
     0 <= left (nd t n) < n /\ 0 <= right (nd t n) < n) ->
  (forall j, 0 <= j < osz -> cnt j = 1) ->
  (forall n, osz <= n <= 2 * osz - 2 ->
     cnt n = cnt (left (nd t n)) + cnt (right (nd t n))) ->
  forall fuel n,
    0 <= n <= 2 * osz - 2 -> (Z.to_nat n < fuel)%nat ->
    Z.of_nat (length (leaves_under fuel t n)) = cnt n.
Proof.
  intros Hleaf Hint Hc1 Hc2.
  induction fuel as [|fuel IH]; intros n Hn Hf; [lia|].
  cbn [leaves_under]. cbv zeta.
  destruct (Z_lt_dec n osz) as [Hlt|Hge].
  - destruct (Hleaf n ltac:(lia)) as [-> ->]. cbn. rewrite Hc1 by lia.
    reflexivity.
  - destruct (Hint n ltac:(lia)) as [Hl Hr].
    destruct (Z.eqb_spec (left (nd t n)) (-1)) as [E|_]; [lia|].
    cbn [andb]. rewrite length_app, Nat2Z.inj_add.
    rewrite !IH by lia. symmetry. apply Hc2. lia.
Qed.

Lemma leaves_under_reach (osz : Z) (t : list Node) :
  (forall j, 0 <= j < osz -> left (nd t j) = -1 /\ right (nd t j) = -1) ->
  (forall n, osz <= n <= 2 * osz - 2 ->
     0 <= left (nd t n) < n /\ 0 <= right (nd t n) < n) ->
  forall (bits : list bool) (n c : Z) (vis : list Z),
    descend t osz n bits = Ok (c, vis) ->
    0 <= c < osz -> 0 <= n <= 2 * osz - 2 ->
    forall fuel, (Z.to_nat n < fuel)%nat -> In c (leaves_under fuel t n).
Proof.
  intros Hleaf Hint.
  induction bits as [|b bits IH]; intros n c vis H Hc Hn fuel Hf;
    (destruct fuel as [|fuel]; [lia|]).
  - cbn in H. injection H as <- <-. cbn [leaves_under]. cbv zeta.
    destruct (Hleaf n Hc) as [-> ->]. cbn. left. reflexivity.
  - cbn [descend] in H. apply bind_Ok_inv in H. destruct H as (x & Hx & H).
    apply get_nd_inv in Hx. destruct Hx as [_ ->].
    apply bind_Ok_inv in H. destruct H as ([c' v] & Hd & H).
    injection H as <- <-.
    set (child := if b then right (nd t n) else left (nd t n)) in *.
    assert (Hchild : 0 <= child).
    { destruct bits as [|b' bits'].
      - cbn in Hd. injection Hd as <- <-. lia.
      - cbn [descend] in Hd. apply bind_Ok_inv in Hd. destruct Hd as (y & Hy & _).
        apply get_nd_inv in Hy. lia. }
    assert (Hn' : osz <= n).
    { destruct (Z.lt_ge_cases n osz) as [Hlt|Hge]; [|exact Hge].
      destruct (Hleaf n ltac:(lia)) as [Hl Hr].
      unfold child in Hchild. destruct b; lia. }
    destruct (Hint n ltac:(lia)) as [Hl Hr].
    assert (Hcn : 0 <= child < n) by (unfold child; destruct b; lia).
    cbn [leaves_under]. cbv zeta.
    destruct (Z.eqb_spec (left (nd t n)) (-1)) as [E|_]; [lia|].
    cbn [andb]. apply in_or_app.
    specialize (IH child c' v Hd Hc ltac:(lia) fuel).
    unfold child in IH. destruct b.
    + right. apply IH. lia.
    + left. apply IH. lia.
Qed.

(** The leaves below the last node are the classes, each once. *)
Lemma leaves_under_classes (fuel0 fuel : nat) (osz : Z) (counts : list Z)
      (h' : Hier) :
  buildTree fuel0 osz counts fresh = Ok h' ->
  (Z.to_nat (2 * osz) <= fuel)%nat ->
  Permutation (classes osz) (leaves_under fuel (tree h') (2 * osz - 2)).
Proof.
  intros Hb Hf.
  destruct (built_facts _ _ _ _ Hb)
    as (Hosz & Hlen & Hleaf & Hint & (cnt & Hc1 & Hc2 & Hc3) & Hdesc).
  apply NoDup_Permutation_bis.
  - apply classes_NoDup.
  - rewrite classes_length.
    pose proof (leaves_under_length osz (tree h') cnt Hleaf Hint Hc1 Hc2 fuel
                  (2 * osz - 2) ltac:(lia) ltac:(lia)) as Hl.
    lia.
  - intros c Hc. apply classes_In in Hc.
    apply (leaves_under_reach osz (tree h') Hleaf Hint _ _ _ _ (Hdesc c Hc) Hc);
      lia.
Qed.

Lemma step_node_count (i m0 m1 : Z) (c : W) (j : Z) (n : Node) :
  count (step_node i m0 m1 c j n) = if j =? i then c else count n.
Proof.
  unfold step_node.
  destruct (j =? i), (j =? m0), (j =? m1); reflexivity.
Qed.

Lemma step_node_left (i m0 m1 : Z) (c : W) (j : Z) (n : Node) :
  left (step_node i m0 m1 c j n) = if j =? i then m0 else left n.
Proof.
  unfold step_node.
  destruct (j =? i), (j =? m0), (j =? m1); reflexivity.
Qed.

Lemma step_node_right (i m0 m1 : Z) (c : W) (j : Z) (n : Node) :
  right (step_node i m0 m1 c j n) = if j =? i then m1 else right n.
Proof.
  unfold step_node.
  destruct (j =? i), (j =? m0), (j =? m1); reflexivity.
Qed.

Lemma range_sum_nonneg (f : Z -> Z) (n : nat) :
  forall lo, (forall j, lo <= j < lo + Z.of_nat n -> 0 <= f j) ->
             0 <= range_sum f lo n.
Proof.
  induction n as [|n IH]; intros lo H; cbn [range_sum]; [lia|].
  pose proof (H lo ltac:(lia)).
  pose proof (IH (lo + 1) ltac:(intros j Hj; apply H; lia)). lia.
Qed.

Lemma range_sum_last (f : Z -> Z) (l : Z) :
  0 <= l ->
  range_sum f 0 (Z.to_nat (l + 1)) = range_sum f 0 (Z.to_nat l) + f l.
Proof.
  intros Hl. replace (Z.to_nat (l + 1)) with (Z.to_nat l + 1)%nat by lia.
  rewrite range_sum_snoc. rewrite Z.add_0_l, Z2Nat.id by lia. reflexivity.
Qed.

Lemma range_sum_first (f : Z -> Z) (lo hi : Z) :
  lo < hi ->
  range_sum f lo (Z.to_nat (hi - lo)) =
  f lo + range_sum f (lo + 1) (Z.to_nat (hi - (lo + 1))).
Proof.
  intros H. rewrite range_sum_cons by lia.
  replace (Nat.pred (Z.to_nat (hi - lo))) with (Z.to_nat (hi - (lo + 1)))
    by lia.
  reflexivity.
Qed.

Lemma range_sum_classes (f : Z -> Z) (osz : Z) :
  range_sum f 0 (Z.to_nat osz) = Zsum (map f (classes osz)).
Proof.
  destruct (Z_le_gt_dec 0 osz) as [Hosz|Hneg].
  2:{ unfold classes. replace (Z.to_nat osz) with 0%nat by lia. reflexivity. }
  apply (natlike_ind
           (fun osz => range_sum f 0 (Z.to_nat osz) = Zsum (map f (classes osz))));
    [| |exact Hosz].
  - reflexivity.
  - intros x Hx IH. replace (Z.succ x) with (x + 1) by lia.
    rewrite range_sum_last by lia. rewrite classes_snoc by lia.
    rewrite map_app, Zsum_app, IH. cbn. lia.
Qed.

(** One iteration of the merge loop on [Weighed]: the two nodes it
    merges are without parent, so they weigh [total] together at most,
    and the counts add up as integers do. *)
Lemma merge_step_Weighed (weight : W -> Z) (bnd total osz : Z)
      (counts : list Z) (i : Z) (t t' : list Node)
      (leaf node leaf' node' : Z) :
  (forall a b, 0 <= weight a -> 0 <= weight b -> weight a + weight b <= bnd ->
               weight (wadd a b) = weight a + weight b) ->
  total <= bnd ->
  osz <= i <= 2 * osz - 2 ->
  Inv osz counts i t leaf node ->
  Inv osz counts (i + 1) t' leaf' node' ->
  Weighed weight total osz i t leaf node ->
  merge_step i (t, leaf, node) = Ok (t', leaf', node') ->
  Weighed weight total osz (i + 1) t' leaf' node'.
Proof.
  intros Hadd Hbnd Hi HI HI' [Wnn Wc Ws] Hs.
  destruct (merge_step_Ok_inv _ _ _ _ _ _ _ Hs)
    as (m0 & leaf1 & node1 & m1 & Hp0 & Hp1 & Bi & B0 & B1).
  destruct (merge_step_eval i t leaf node m0 leaf1 node1 m1 leaf' node' Hp0 Hp1
              Bi B0 B1) as (t'' & Hs' & _ & Hnd).
  rewrite Hs in Hs'. injection Hs' as <-.
  pose proof (inv_leaf _ _ _ _ _ _ HI) as Hleaf.
  pose proof (inv_node _ _ _ _ _ _ HI) as Hnode.
  pose proof (inv_node _ _ _ _ _ _ HI') as Hnode'.
  assert (K0 : (m0 = leaf /\ 0 <= leaf /\ leaf1 = leaf - 1 /\ node1 = node) \/
               (m0 = node /\ leaf1 = leaf /\ node1 = node + 1))
    by (destruct (pick_inv _ _ _ _ _ _ Hp0) as [H|H]; [left|right]; lia).
  assert (K1 : (m1 = leaf1 /\ 0 <= leaf1 /\ leaf' = leaf1 - 1 /\ node' = node1) \/
               (m1 = node1 /\ leaf' = leaf1 /\ node' = node1 + 1))
    by (destruct (pick_inv _ _ _ _ _ _ Hp1) as [H|H]; [left|right]; lia).
  assert (Hl' : left (nd t' i) = m0).
  { rewrite Hnd by lia. rewrite step_node_left, Z.eqb_refl. reflexivity. }
  assert (Hr' : right (nd t' i) = m1).
  { rewrite Hnd by lia. rewrite step_node_right, Z.eqb_refl. reflexivity. }
  destruct (inv_created _ _ _ _ _ _ HI' i ltac:(lia)) as (C1 & C2 & _).
  rewrite Hl' in C1. rewrite Hr' in C2.
  set (w := fun x => weight (count (nd t x))) in *.
  assert (Hw : forall x, 0 <= x -> x <> i ->
            weight (count (nd t' x)) = w x).
  { intros x Hx Hne. rewrite Hnd by exact Hx.
    rewrite step_node_count.
    destruct (Z.eqb_spec x i); [contradiction|reflexivity]. }
  assert (Hkids : forall a, 0 <= a -> a <> i ->
            left (nd t' a) = left (nd t a) /\ right (nd t' a) = right (nd t a)).
  { intros a Ha Hne. rewrite Hnd by exact Ha.
    rewrite step_node_left, step_node_right.
    destruct (Z.eqb_spec a i); [contradiction|split; reflexivity]. }
  assert (F : w m0 + w m1 <= total /\
              range_sum w 0 (Z.to_nat (leaf' + 1))
              + range_sum w node' (Z.to_nat (i - node'))
              + (w m0 + w m1) = total).
  { assert (N : forall lo n, 0 <= lo -> lo + Z.of_nat n <= i ->
                  0 <= range_sum w lo n).
    { intros lo n Hlo Hn. apply range_sum_nonneg. intros j Hj.
      apply Wnn. lia. }
    destruct K0 as [(-> & H0 & -> & ->)|(-> & -> & ->)];
      destruct K1 as [(-> & H1 & -> & ->)|(-> & -> & ->)].
    - replace (leaf + 1) with (leaf - 1 + 1 + 1) in Ws by lia.
      rewrite (range_sum_last w (leaf - 1 + 1)) in Ws by lia.
      rewrite (range_sum_last w (leaf - 1)) in Ws by lia.
      replace (leaf - 1 + 1) with leaf in Ws by lia.
      replace (leaf - 1 - 1 + 1) with (leaf - 1) by lia.
      pose proof (N 0 (Z.to_nat (leaf - 1)) ltac:(lia) ltac:(lia)).
      pose proof (N node (Z.to_nat (i - node)) ltac:(lia) ltac:(lia)).
      lia.
    - rewrite (range_sum_last w leaf) in Ws by lia.
      rewrite (range_sum_first w node i) in Ws by lia.
      replace (leaf - 1 + 1) with leaf by lia.
      pose proof (N 0 (Z.to_nat leaf) ltac:(lia) ltac:(lia)).
      pose proof (N (node + 1) (Z.to_nat (i - (node + 1))) ltac:(lia)
                    ltac:(lia)).
      lia.
    - rewrite (range_sum_last w leaf) in Ws by lia.
      rewrite (range_sum_first w node i) in Ws by lia.
      replace (leaf - 1 + 1) with leaf by lia.
      pose proof (N 0 (Z.to_nat leaf) ltac:(lia) ltac:(lia)).
      pose proof (N (node + 1) (Z.to_nat (i - (node + 1))) ltac:(lia)
                    ltac:(lia)).
      lia.
    - rewrite (range_sum_first w node i) in Ws by lia.
      rewrite (range_sum_first w (node + 1) i) in Ws by lia.
      pose proof (N 0 (Z.to_nat (leaf + 1)) ltac:(lia) ltac:(lia)).
      pose proof (N (node + 1 + 1) (Z.to_nat (i - (node + 1 + 1))) ltac:(lia)
                    ltac:(lia)).
      lia. }
  destruct F as [Hpair Hsum].
  assert (N0 : 0 <= w m0) by (apply Wnn; lia).
  assert (N1 : 0 <= w m1) by (apply Wnn; lia).
  assert (Hwi : weight (count (nd t' i)) = w m0 + w m1).
  { rewrite Hnd by lia. rewrite step_node_count, Z.eqb_refl.
    apply Hadd; [exact N0|exact N1|unfold w in Hpair; lia]. }
  constructor.
  - intros x Hx. destruct (Z.eq_dec x i) as [->|Hne].
    + rewrite Hwi. lia.
    + rewrite Hw by lia. apply Wnn. lia.
  - intros a Ha. destruct (Z.eq_dec a i) as [->|Hne].
    + rewrite Hl', Hr', Hwi, !Hw by lia. reflexivity.
    + destruct (Hkids a ltac:(lia) Hne) as [-> ->].
      destruct (inv_created _ _ _ _ _ _ HI a ltac:(lia)) as (D1 & D2 & _).
      rewrite !Hw by lia. apply Wc. lia.
  - pose proof (inv_leaf _ _ _ _ _ _ HI') as Hleaf'.
    rewrite (range_sum_ext (fun x => weight (count (nd t' x))) w)
      by (intros j Hj; apply Hw; lia).
    replace (Z.to_nat (i + 1 - node')) with (Z.to_nat (i - node') + 1)%nat
      by lia.
    rewrite range_sum_snoc.
    replace (node' + Z.of_nat (Z.to_nat (i - node'))) with i by lia.
    rewrite (range_sum_ext (fun x => weight (count (nd t' x))) w)
      by (intros j Hj; apply Hw; lia).
    rewrite Hwi. lia.
Qed.

(** A node without parent weighs [total] at most. *)
Lemma Weighed_bound (weight : W -> Z) (total osz : Z) (counts : list Z)
      (i : Z) (t : list Node) (leaf node : Z) :
  Inv osz counts i t leaf node ->
  Weighed weight total osz i t leaf node ->
  forall x, 0 <= x <= leaf \/ node <= x < i ->
    0 <= weight (count (nd t x)) <= total.
Proof.
  intros HI [Wnn _ Ws] x Hx.
  pose proof (inv_leaf _ _ _ _ _ _ HI) as Hleaf.
  pose proof (inv_node _ _ _ _ _ _ HI) as Hnode.
  set (w := fun x => weight (count (nd t x))) in *.
  assert (N : forall lo n, 0 <= lo -> lo + Z.of_nat n <= i ->
                0 <= range_sum w lo n).
  { intros lo n Hlo Hn. apply range_sum_nonneg. intros j Hj.
    apply Wnn. lia. }
  assert (M : forall n lo, 0 <= lo -> lo + Z.of_nat n <= i ->
                lo <= x < lo + Z.of_nat n -> w x <= range_sum w lo n).
  { induction n as [|n IH]; intros lo Hlo Hn Hin; [lia|].
    cbn [range_sum].
    destruct (Z.eq_dec x lo) as [->|Hne].
    - pose proof (N (lo + 1) n ltac:(lia) ltac:(lia)). lia.
    - pose proof (IH (lo + 1) ltac:(lia) ltac:(lia) ltac:(lia)).
      pose proof (Wnn lo ltac:(lia)). fold (w lo) in *. lia. }
  split; [apply Wnn; lia|].
  pose proof (N 0 (Z.to_nat (leaf + 1)) ltac:(lia) ltac:(lia)).
  pose proof (N node (Z.to_nat (i - node)) ltac:(lia) ltac:(lia)).
  destruct Hx as [Hx|Hx].
  - pose proof (M (Z.to_nat (leaf + 1)) 0 ltac:(lia) ltac:(lia) ltac:(lia)).
    fold (w x). lia.
  - pose proof (M (Z.to_nat (i - node)) node ltac:(lia) ltac:(lia) ltac:(lia)).
    fold (w x). lia.
Qed.

(** The merge loop with [Weighed] carried along. *)
Lemma merge_loop_Weighed (weight : W -> Z) (bnd : Z) (osz : Z)
      (counts : list Z) (Q : Z -> list Node -> Z -> Z -> Prop) :
  (forall a b, 0 <= weight a -> 0 <= weight b -> weight a + weight b <= bnd ->
               weight (wadd a b) = weight a + weight b) ->
  (forall x, 0 <= x < osz ->
     0 <= weight (of_count (nth (Z.to_nat x) counts 0))) ->
  range_sum (fun x => weight (of_count (nth (Z.to_nat x) counts 0))) 0
            (Z.to_nat osz) <= bnd ->
  below_sentinel counts ->
  1 <= osz < 2 ^ 30 -> Z.of_nat (length counts) = osz ->
  (forall t, Inv osz counts osz t (osz - 1) osz -> Q osz t (osz - 1) osz) ->
  (forall i t t' leaf node leaf' node' total,
     total <= bnd -> osz <= i <= 2 * osz - 2 ->
     Inv osz counts i t leaf node ->
     Inv osz counts (i + 1) t' leaf' node' ->
     Weighed weight total osz i t leaf node ->
     Weighed weight total osz (i + 1) t' leaf' node' ->
     merge_step i (t, leaf, node) = Ok (t', leaf', node') ->
     Q i t leaf node -> Q (i + 1) t' leaf' node') ->
  exists t0 t1 t2 leaf node,
    init_tree osz = Ok t0 /\ set_counts osz counts t0 = Ok t1 /\
    for_range osz (2 * osz - 1) merge_step (t1, osz - 1, osz)
      = Ok (t2, leaf, node) /\
    Inv osz counts (2 * osz - 1) t2 leaf node /\
    Weighed weight
      (range_sum (fun x => weight (of_count (nth (Z.to_nat x) counts 0))) 0
                 (Z.to_nat osz))
      osz (2 * osz - 1) t2 leaf node /\
    Q (2 * osz - 1) t2 leaf node.
Proof.
  intros Hadd Hnn Hbnd Hb Hosz Hlen HQ0 HQ.
  set (total := range_sum
                  (fun x => weight (of_count (nth (Z.to_nat x) counts 0))) 0
                  (Z.to_nat osz)) in *.
  destruct (init_Inv osz counts Hosz ltac:(lia)) as (t0 & t1 & H0 & H1 & HI0).
  set (P := fun (k : Z) (s : list Node * Z * Z) =>
              let '(t, leaf, node) := s in
              Inv osz counts k t leaf node /\
              Weighed weight total osz k t leaf node /\ Q k t leaf node).
  destruct (for_range_inv P merge_step osz (2 * osz - 1) (t1, osz - 1, osz))
    as ([[t2 leaf] node] & Hrun & HI & HW & HQ2).
  - lia.
  - split; [exact HI0|]. split; [|apply HQ0; exact HI0].
    assert (Hw0 : forall x, 0 <= x < osz ->
              weight (count (nd t1 x))
              = weight (of_count (nth (Z.to_nat x) counts 0))).
    { intros x Hx. destruct (inv_leaves _ _ _ _ _ _ HI0 x Hx) as (_ & _ & ->).
      reflexivity. }
    constructor.
    + intros x Hx. rewrite Hw0 by exact Hx. apply Hnn. exact Hx.
    + intros a Ha. lia.
    + replace (osz - 1 + 1) with osz by lia.
      replace (Z.to_nat (osz - osz)) with 0%nat by lia.
      cbn [range_sum]. rewrite Z.add_0_r. unfold total.
      apply range_sum_ext. intros j Hj. apply Hw0. lia.
  - intros k [[t leaf] node] Hk (HI & HW & HQk).
    destruct (merge_step_Inv osz counts k t leaf node Hb ltac:(lia) ltac:(lia) HI)
      as (t' & leaf' & node' & Hs & HI').
    exists (t', leaf', node'). split; [exact Hs|].
    pose proof (merge_step_Weighed weight bnd total osz counts k t t'
                  leaf node leaf' node' Hadd Hbnd ltac:(lia) HI HI' HW Hs)
      as HW'.
    split; [exact HI'|]. split; [exact HW'|].
    exact (HQ k t t' leaf node leaf' node' total Hbnd ltac:(lia) HI HI'
              HW HW' Hs HQk).
  - exists t0, t1, t2, leaf, node.
    split; [exact H0|]. split; [exact H1|]. split; [exact Hrun|].
    split; [exact HI|]. split; [exact HW|exact HQ2].
Qed.

(** The counts of the tree add up as integers do when the sum of all
    class counts stays within the range [0 .. bnd] on which the type
    of [Node::count] adds exactly ([weight] reads a count as an
    integer; for [int64_t] counts [bnd] is [2^63 - 1]).  Then buildTree
    returns for a table of counts that are not negative and lie below
    the [1e15] of blank nodes, every internal node weighs what its two
    children weigh together, and the last node of the tree weighs what
    all classes weigh together. *)
Theorem root_count (weight : W -> Z) (bnd : Z) (fuel : nat) (osz : Z)
        (counts : list Z) :
  (forall a b, 0 <= weight a -> 0 <= weight b -> weight a + weight b <= bnd ->
               weight (wadd a b) = weight a + weight b) ->
  (forall x, 0 <= x < osz ->
     0 <= weight (of_count (nth (Z.to_nat x) counts 0))) ->
  Zsum (map (fun c => weight (of_count (nth (Z.to_nat c) counts 0)))
            (classes osz)) <= bnd ->
  below_sentinel counts ->
  1 <= osz < 2 ^ 30 -> Z.of_nat (length counts) = osz ->
  (Z.to_nat (2 * osz) <= fuel)%nat ->
  exists h',
    buildTree fuel osz counts fresh = Ok h' /\
    (forall a, osz <= a <= 2 * osz - 2 ->
       weight (count (nd (tree h') a)) =
       weight (count (nd (tree h') (left (nd (tree h') a))))
       + weight (count (nd (tree h') (right (nd (tree h') a))))) /\
    weight (count (nd (tree h') (2 * osz - 2))) =
    Zsum (map (fun c => weight (of_count (nth (Z.to_nat c) counts 0)))
              (classes osz)).
Proof.
  intros Hadd Hnn Hbnd Hb Hosz Hlen Hf.
  rewrite <- range_sum_classes in Hbnd |- *.
  destruct (merge_loop_Weighed weight bnd osz counts (fun _ _ _ _ => True)
              Hadd Hnn Hbnd Hb Hosz Hlen)
    as (t0 & t1 & t2 & leaf & node & H0 & H1 & Hrun & HI & HW & _);
    [auto|auto|].
  unfold buildTree. rewrite H0. cbn [bind]. rewrite H1. cbn [bind].
  rewrite Hrun. cbn [bind].
  pose proof (final_Linked osz counts t2 leaf node ltac:(lia) HI) as HL.
  destruct (path_loop_spec osz t2 fuel (paths fresh) (codes fresh) HL
              ltac:(lia) Hf) as (ps & cs & H3 & _).
  rewrite H3. cbn [bind]. eexists. split; [reflexivity|]. cbn [tree].
  destruct HW as [Wnn Wc Ws]. split.
  - intros a Ha. apply Wc. lia.
  - destruct (final_cursors osz counts t2 leaf node ltac:(lia) HI)
      as [(E1 & -> & ->)|(E1 & -> & ->)].
    + replace (Z.to_nat (0 + 1)) with 1%nat in Ws by lia.
      replace (Z.to_nat (2 * osz - 1 - 1)) with 0%nat in Ws by lia.
      cbn [range_sum] in Ws. replace (2 * osz - 2) with 0 by lia. lia.
    + replace (Z.to_nat (-1 + 1)) with 0%nat in Ws by lia.
      replace (Z.to_nat (2 * osz - 1 - (2 * osz - 2))) with 1%nat in Ws by lia.
      cbn [range_sum] in Ws. lia.
Qed.

(** The tree of buildTree spans the classes: the leaves below its last
    node, found by following [left] and [right], are the classes
    [0 .. osz - 1], each of them once. *)
Theorem tree_leaves (fuel0 fuel : nat) (osz : Z) (counts : list Z)
        (h' : Hier) :
  buildTree fuel0 osz counts fresh = Ok h' ->
  (Z.to_nat (2 * osz) <= fuel)%nat ->
  Permutation (classes osz) (leaves_under fuel (tree h') (2 * osz - 2)).
Proof. exact (leaves_under_classes fuel0 fuel osz counts h'). Qed.

(** ** buildTree on a table in non-increasing order *)

(** One round of lines 238-242 takes a node of least count among the
    nodes without parent, when the leaves are in non-increasing order
    of count and the internal nodes in non-decreasing order. *)
Lemma pick_least (weight : W -> Z) (bnd osz i : Z) (t : list Node)
      (l n m l' n' : Z) :
  (forall a b, 0 <= weight a <= bnd -> 0 <= weight b <= bnd ->
               wlt a b = (weight a <? weight b)) ->
  (forall x, 0 <= x <= l \/ n <= x < i ->
     0 <= weight (count (nd t x)) <= bnd) ->
  (forall x y, 0 <= x -> x <= y -> y < osz ->
     weight (count (nd t y)) <= weight (count (nd t x))) ->
  (forall a b, osz <= a -> a <= b -> b < i ->
     weight (count (nd t a)) <= weight (count (nd t b))) ->
  l < osz -> osz <= n -> m < i ->
  pick t l n = Ok (m, l', n') ->
  forall x, 0 <= x <= l \/ n <= x < i ->
    weight (count (nd t m)) <= weight (count (nd t x)).
Proof.
  intros Hlt Hrange Hleaves Hnodes Hl Hn Hm Hp x Hx.
  destruct (pick_inv _ _ _ _ _ _ Hp)
    as [(-> & H0 & _ & _ & _ & Hcmp)|(-> & _ & _ & Hcmp)].
  - destruct Hx as [Hx|Hx].
    + apply Hleaves; lia.
    + rewrite Hlt in Hcmp by (apply Hrange; lia). apply Z.ltb_lt in Hcmp.
      pose proof (Hnodes n x Hn ltac:(lia) ltac:(lia)). lia.
  - destruct Hx as [Hx|Hx].
    + destruct (Hcmp ltac:(lia)) as [_ Hc].
      rewrite Hlt in Hc by (apply Hrange; lia). apply Z.ltb_ge in Hc.
      pose proof (Hleaves x l ltac:(lia) ltac:(lia) Hl). lia.
    + apply Hnodes; lia.
Qed.

Lemma merge_step_Greedy (weight : W -> Z) (bnd total osz : Z)
      (counts : list Z) (i : Z)
      (t t' : list Node) (leaf node leaf' node' : Z) :
  (forall a b, 0 <= weight a <= bnd -> 0 <= weight b <= bnd ->
               wlt a b = (weight a <? weight b)) ->
  (forall x y, 0 <= x -> x <= y -> y < osz ->
     weight (of_count (nth (Z.to_nat y) counts 0))
     <= weight (of_count (nth (Z.to_nat x) counts 0))) ->
  total <= bnd ->
  osz <= i <= 2 * osz - 2 ->
  Inv osz counts i t leaf node ->
  Inv osz counts (i + 1) t' leaf' node' ->
  Weighed weight total osz i t leaf node ->
  Weighed weight total osz (i + 1) t' leaf' node' ->
  merge_step i (t, leaf, node) = Ok (t', leaf', node') ->
  Greedy weight osz i t leaf node ->
  Greedy weight osz (i + 1) t' leaf' node'.
Proof.
  intros Hlt Hsorted Hbnd Hi HI HI' HW HW' Hs [Gnn Gs Go Ga Gl].
  pose proof (Weighed_bound weight total osz counts i t leaf node HI HW)
    as Hrange.
  destruct (merge_step_Ok_inv _ _ _ _ _ _ _ Hs)
    as (m0 & leaf1 & node1 & m1 & Hp0 & Hp1 & Bi & B0 & B1).
  destruct (merge_step_eval i t leaf node m0 leaf1 node1 m1 leaf' node' Hp0 Hp1
              Bi B0 B1) as (t'' & Hs' & _ & Hnd).
  rewrite Hs in Hs'. injection Hs' as <-.
  pose proof (inv_leaf _ _ _ _ _ _ HI) as Hleaf.
  pose proof (inv_node _ _ _ _ _ _ HI) as Hnode.
  assert (Hleaves : forall x y, 0 <= x -> x <= y -> y < osz
      -> weight (count (nd t y)) <= weight (count (nd t x))).
  { intros x y Hx Hxy Hy.
    destruct (inv_leaves _ _ _ _ _ _ HI x ltac:(lia)) as (_ & _ & ->).
    destruct (inv_leaves _ _ _ _ _ _ HI y ltac:(lia)) as (_ & _ & ->).
    apply Hsorted; assumption. }
  assert (K0 : (m0 = leaf /\ 0 <= leaf /\ leaf1 = leaf - 1 /\ node1 = node) \/
               (m0 = node /\ leaf1 = leaf /\ node1 = node + 1))
    by (destruct (pick_inv _ _ _ _ _ _ Hp0) as [H|H]; [left|right]; lia).
  assert (K1 : (m1 = leaf1 /\ 0 <= leaf1 /\ leaf' = leaf1 - 1 /\ node' = node1) \/
               (m1 = node1 /\ leaf' = leaf1 /\ node' = node1 + 1))
    by (destruct (pick_inv _ _ _ _ _ _ Hp1) as [H|H]; [left|right]; lia).
  assert (Hl' : left (nd t' i) = m0).
  { rewrite Hnd by lia. rewrite step_node_left, Z.eqb_refl. reflexivity. }
  assert (Hr' : right (nd t' i) = m1).
  { rewrite Hnd by lia. rewrite step_node_right, Z.eqb_refl. reflexivity. }
  destruct (inv_created _ _ _ _ _ _ HI' i ltac:(lia)) as (C1 & C2 & _).
  rewrite Hl' in C1. rewrite Hr' in C2.
  assert (Hw : forall x, 0 <= x -> x <> i -> weight (count (nd t' x))
      = weight (count (nd t x))).
  { intros x Hx Hne. rewrite Hnd by exact Hx.
    rewrite step_node_count.
    destruct (Z.eqb_spec x i); [contradiction|reflexivity]. }
  assert (Hwi : weight (count (nd t' i))
      = weight (count (nd t m0)) + weight (count (nd t m1))).
  { rewrite (wg_created _ _ _ _ _ _ _ HW' i) by lia.
    rewrite Hl', Hr', !Hw by lia. reflexivity. }
  assert (Hkids : forall a, 0 <= a -> a <> i ->
            left (nd t' a) = left (nd t a) /\ right (nd t' a) = right (nd t a)).
  { intros a Ha Hne. rewrite Hnd by exact Ha.
    rewrite step_node_left, step_node_right.
    destruct (Z.eqb_spec a i); [contradiction|split; reflexivity]. }
  assert (Hpar : forall x, 0 <= x ->
            parent (nd t' x) =
            if (x =? m1) || (x =? m0) then i else parent (nd t x)).
  { intros x Hx. rewrite Hnd by exact Hx. apply step_node_parent. }
  assert (M0 : forall x, 0 <= x <= leaf \/ node <= x < i
      -> weight (count (nd t m0)) <= weight (count (nd t x))).
  { apply (pick_least weight bnd osz i t leaf node m0 leaf1 node1 Hlt);
      [|exact Hleaves|exact Gs|lia|lia|lia|exact Hp0].
    intros x Hx. pose proof (Hrange x Hx). lia. }
  assert (M1 : forall x, 0 <= x <= leaf1 \/ node1 <= x < i
      -> weight (count (nd t m1)) <= weight (count (nd t x))).
  { apply (pick_least weight bnd osz i t leaf1 node1 m1 leaf' node' Hlt);
      [|exact Hleaves|exact Gs|lia|lia|lia|exact Hp1].
    intros x Hx. pose proof (Hrange x ltac:(lia)). lia. }
  assert (A0 : 0 <= m0 <= leaf \/ node <= m0 < i) by lia.
  assert (A1 : 0 <= m1 <= leaf \/ node <= m1 < i) by lia.
  assert (N0 : 0 <= weight (count (nd t m0))) by (apply Gnn; lia).
  assert (N1 : 0 <= weight (count (nd t m1))) by (apply Gnn; lia).
  assert (H01 : weight (count (nd t m0))
      <= weight (count (nd t m1))) by (apply M0; exact A1).
  assert (Hold : forall a, osz <= a < i ->
            left (nd t' a) = left (nd t a) /\
            right (nd t' a) = right (nd t a) /\
            weight (count (nd t' (left (nd t a))))
                = weight (count (nd t (left (nd t a)))) /\
            weight (count (nd t' (right (nd t a))))
                = weight (count (nd t (right (nd t a)))) /\
            weight (count (nd t' a)) = weight (count (nd t a))).
  { intros a Ha.
    destruct (Hkids a ltac:(lia) ltac:(lia)) as [E1 E2].
    destruct (inv_created _ _ _ _ _ _ HI a Ha) as (D1 & D2 & _).
    rewrite !Hw by lia. auto. }
  constructor.
  - intros x Hx. destruct (Z.eq_dec x i) as [->|Hne].
    + rewrite Hwi. lia.
    + rewrite Hw by lia. apply Gnn. lia.
  - intros a b Ha Hab Hb. destruct (Z.eq_dec b i) as [->|Hne].
    + destruct (Z.eq_dec a i) as [->|Hna]; [lia|].
      rewrite Hwi, Hw by lia.
      rewrite (wg_created _ _ _ _ _ _ _ HW a) by lia.
      pose proof (Go a ltac:(lia)). pose proof (Ga a m0 ltac:(lia) A0).
      pose proof (Ga a m1 ltac:(lia) A1). lia.
    + rewrite !Hw by lia. apply Gs; lia.
  - intros a Ha. destruct (Z.eq_dec a i) as [->|Hne].
    + rewrite Hl', Hr', !Hw by lia. exact H01.
    + destruct (Hold a ltac:(lia)) as (-> & -> & -> & -> & _).
      apply Go. lia.
  - intros a x Ha Hx. destruct (Z.eq_dec a i) as [->|Hne].
    + rewrite Hr', (Hw m1) by lia.
      destruct (Z.eq_dec x i) as [->|Hnx]; [rewrite Hwi; lia|].
      rewrite Hw by lia. apply M1. lia.
    + destruct (Hold a ltac:(lia)) as (_ & -> & _ & -> & _).
      destruct (Z.eq_dec x i) as [->|Hnx].
      * rewrite Hwi. pose proof (Ga a m0 ltac:(lia) A0). lia.
      * rewrite Hw by lia. apply Ga; lia.
  - intros a x Ha Hx Hp. rewrite (Hw x) by lia.
    rewrite Hpar in Hp by lia.
    destruct (Z.eq_dec a i) as [->|Hne].
    + exfalso.
      destruct ((x =? m1) || (x =? m0)); [lia|].
      destruct (Z_le_gt_dec x leaf) as [H1|H1].
      * destruct (inv_unpicked _ _ _ _ _ _ HI x ltac:(lia)). lia.
      * destruct (Z_lt_ge_dec x node) as [H2|H2].
        -- destruct (inv_picked _ _ _ _ _ _ HI x ltac:(lia)). lia.
        -- destruct (inv_unpicked _ _ _ _ _ _ HI x ltac:(lia)). lia.
    + destruct (Hold a ltac:(lia)) as (_ & -> & _ & -> & _).
      destruct (Z.eqb_spec x m1) as [->|N1'].
      * apply Ga; [lia|exact A1].
      * destruct (Z.eqb_spec x m0) as [->|N0'].
        -- apply Ga; [lia|exact A0].
        -- cbn [orb] in Hp. apply Gl; lia.
Qed.

(** For a table in non-increasing order of counts that are not
    negative and lie below the [1e15] of blank nodes, buildTree returns
    a Huffman tree: the internal nodes are created in non-decreasing
    order of count; the left child of a node is no heavier than the
    right child; and the right child is no heavier than any node that
    existed when the node was created and got its parent later.  Each
    merge joins two lightest nodes among those without parent.  The
    counts are read as integers by [weight]; the type of [Node::count]
    is asked to add and to compare as the integers do only within
    [0 .. bnd], a range that holds the sum of all counts (for
    [int64_t] counts, [bnd] is [2^63 - 1]). *)
Theorem buildTree_greedy (weight : W -> Z) (bnd : Z) (fuel : nat) (osz : Z)
        (counts : list Z) :
  (forall a b, 0 <= weight a -> 0 <= weight b -> weight a + weight b <= bnd ->
               weight (wadd a b) = weight a + weight b) ->
  (forall a b, 0 <= weight a <= bnd -> 0 <= weight b <= bnd ->
               wlt a b = (weight a <? weight b)) ->
  (forall x y, 0 <= x -> x <= y -> y < osz ->
     weight (of_count (nth (Z.to_nat y) counts 0))
     <= weight (of_count (nth (Z.to_nat x) counts 0))) ->
  (forall x, 0 <= x < osz ->
     0 <= weight (of_count (nth (Z.to_nat x) counts 0))) ->
  Zsum (map (fun c => weight (of_count (nth (Z.to_nat c) counts 0)))
            (classes osz)) <= bnd ->
  below_sentinel counts ->
  1 <= osz < 2 ^ 30 -> Z.of_nat (length counts) = osz ->
  (Z.to_nat (2 * osz) <= fuel)%nat ->
  exists h',
    buildTree fuel osz counts fresh = Ok h' /\
    (forall a b, osz <= a -> a <= b -> b <= 2 * osz - 2 ->
       weight (count (nd (tree h') a)) <= weight (count (nd (tree h') b))) /\
    (forall a, osz <= a <= 2 * osz - 2 ->
       weight (count (nd (tree h') (left (nd (tree h') a))))
       <= weight (count (nd (tree h') (right (nd (tree h') a)))) /\
       forall x, 0 <= x < a -> a < parent (nd (tree h') x) ->
         weight (count (nd (tree h') (right (nd (tree h') a))))
         <= weight (count (nd (tree h') x))).
Proof.
  intros Hadd Hlt Hsorted Hnn Hbnd Hb Hosz Hlen Hf.
  rewrite <- range_sum_classes in Hbnd.
  destruct (merge_loop_Weighed weight bnd osz counts
              (fun k t leaf node => Greedy weight osz k t leaf node)
              Hadd Hnn Hbnd Hb Hosz Hlen)
    as (t0 & t1 & t2 & leaf & node & H0 & H1 & Hrun & HI & _ & HG).
  - intros t HI0. constructor; try (intros; lia).
    intros x Hx. destruct (inv_leaves _ _ _ _ _ _ HI0 x Hx) as (_ & _ & ->).
    apply Hnn. exact Hx.
  - intros i t t' leaf node leaf' node' total Htot Hi HI HI' HW HW' Hs HG.
    exact (merge_step_Greedy weight bnd total osz counts i t t' leaf node
             leaf' node' Hlt Hsorted Htot Hi HI HI' HW HW' Hs HG).
  - unfold buildTree. rewrite H0. cbn [bind]. rewrite H1. cbn [bind].
    rewrite Hrun. cbn [bind].
    pose proof (final_Linked osz counts t2 leaf node ltac:(lia) HI) as HL.
    destruct (path_loop_spec osz t2 fuel (paths fresh) (codes fresh) HL
                ltac:(lia) Hf) as (ps & cs & H3 & _).
    rewrite H3. cbn [bind]. eexists. split; [reflexivity|]. cbn [tree].
    destruct HG as [_ Gs Go _ Gl]. split.
    + intros a b Ha Hab Hb'. apply Gs; lia.
    + intros a Ha. split; [apply Go; lia|].
      intros x Hx Hp. apply Gl; [lia|exact Hx|exact Hp].
Qed.

End Fasttext.

(** ** Concrete tables

    For the tables below every count and every sum of counts is a
    small integer, which any numeric type of [Node::count] represents
    exactly; the parameters are instantiated with [Z]. *)

Definition Zbuild := buildTree Z (fun c : Z => c) (10 ^ 15) Z.add Z.ltb.

Lemma buildTree_structure_witness :
  exists h', Zbuild 8%nat 4 [1; 1; 2; 4] (fresh Z) = Ok h' /\
             Z.of_nat (length (tree Z h')) = 7.
Proof.
  destruct (buildTree_structure Z (fun c => c) (10 ^ 15) Z.add Z.ltb
              8%nat 4 [1; 1; 2; 4]) as (h' & Hrun & Hlen & _).
  - lia.
  - reflexivity.
  - unfold below_sentinel. repeat constructor.
  - vm_compute. lia.
  - exists h'. split; [exact Hrun|exact Hlen].
Defined.

(** C1, as stated, fails: the table [1e15; 1e15] is sorted, and
    buildTree produces no tree for it. *)
Lemma buildTree_structure_counterexample :
  Sorted Z.le [10 ^ 15; 10 ^ 15] /\
  ~ exists fuel h', Zbuild fuel 2 [10 ^ 15; 10 ^ 15] (fresh Z) = Ok h'.
Proof.
  split.
  - repeat constructor. lia.
  - intros (fuel & h' & H).
    unfold Zbuild in H.
    rewrite buildTree_sentinel_pair in H by reflexivity. discriminate.
Qed.

Lemma code_roundtrip_witness :
  exists h' p cd,
    Zbuild 8%nat 4 [1; 1; 2; 4] (fresh Z) = Ok h' /\
    get (paths Z h') 3 = Ok p /\ get (codes Z h') 3 = Ok cd /\
    descend Z (tree Z h') 4 6 (rev cd) = Ok (3, rev p).
Proof.
  assert (Hrun : exists h', Zbuild 8%nat 4 [1; 1; 2; 4] (fresh Z) = Ok h')
    by (eexists; vm_compute; reflexivity).
  destruct Hrun as (h' & Hrun).
  destruct (code_roundtrip Z (fun c => c) (10 ^ 15) Z.add Z.ltb
              8%nat 4 [1; 1; 2; 4] h' Hrun 3 ltac:(lia)) as (p & cd & H).
  exists h', p, cd. split; [exact Hrun|exact H].
Defined.

(** The lengths of the codes of a built tree, class by class. *)
Definition code_lengths (r : result (Hier Z)) : option (list nat) :=
  match r with
  | Ok h => Some (map (@length bool) (codes Z h))
  | Err _ => None
  end.

(** C9, as stated, fails: for [1;1;2;4] the code of class 3 is as long
    as every other code. *)
Lemma huffman_1124_counterexample :
  code_lengths (Zbuild 8%nat 4 [1; 1; 2; 4] (fresh Z)) = Some [2; 2; 2; 2]%nat.
Proof. vm_compute. reflexivity. Qed.

(** C9 (as amended).  The merge loop takes leaves from the highest
    index down, so it merges the rarest classes first when the table
    is in non-increasing order.  For [1;1;2;4] all four codes have
    length 2; for the same counts as [4;2;1;1], class 0 (count 4) has
    the strictly shortest code and classes 2 and 3 (count 1) the
    longest. *)
Theorem huffman_1124 :
  code_lengths (Zbuild 8%nat 4 [1; 1; 2; 4] (fresh Z)) = Some [2; 2; 2; 2]%nat /\
  code_lengths (Zbuild 8%nat 4 [4; 2; 1; 1] (fresh Z)) = Some [1; 2; 3; 3]%nat.
Proof. split; vm_compute; reflexivity. Qed.

(** ** Concrete models

    [utils::sigmoid], [utils::log] and [exp] are instantiated with the
    functions they approximate, NEGATIVE_TABLE_SIZE with ten million,
    and [std::shuffle] with the identity permutation. *)

Definition logistic (x : R) : R := (1 / (1 + exp (- x)))%R.

Definition args_hs : Args := mkArgs hs sup 5.
Definition args_softmax : Args := mkArgs loss_other sup 5.

(** One input row, two output rows of zeros, nothing configured. *)
Definition model_zero : Model Z :=
  mkModel Z [[0%R]] [[0%R]; [0%R]] [0%R] [0%R; 0%R] [0%R]
          1 2 1 (5 / 100)%R 0 [] (fresh Z).

(** The same tables with the tree of the counts [2; 1]. *)
Definition model_tree : Model Z :=
  mkModel Z [[0%R]] [[0%R]; [0%R]] [0%R] [0%R; 0%R] [0%R]
          1 2 1 (5 / 100)%R 0 []
          (mkHier Z
             [mkNode Z 2 (-1) (-1) 2 true; mkNode Z 2 (-1) (-1) 1 false;
              mkNode Z (-1) 1 0 3 false]
             [[0]; [0]] [[true]; [false]]).

(** A negative table of three entries, cursor at its start. *)
Definition model_negatives : Model Z :=
  mkModel Z [[0%R]] [[0%R]; [0%R]] [0%R] [0%R; 0%R] [0%R]
          1 2 1 (5 / 100)%R 0 [2; 2; 5] (fresh Z).

Lemma model_tree_built :
  Zbuild 4%nat 2 [2; 1] (fresh Z) = Ok (hier Z model_tree).
Proof. vm_compute. reflexivity. Qed.

(** The tree of the counts [2; 1; 1]: the root is node 4, its children
    are the leaf 0 and node 3, whose children are the leaves 1 and 2. *)
Definition tree_211 : Hier Z :=
  mkHier Z
    [mkNode Z 4 (-1) (-1) 2 true; mkNode Z 3 (-1) (-1) 1 true;
     mkNode Z 3 (-1) (-1) 1 false; mkNode Z 4 2 1 2 false;
     mkNode Z (-1) 3 0 4 false]
    [[1]; [0; 1]; [0; 1]] [[true]; [true; false]; [false; false]].

Lemma tree_211_built : Zbuild 6%nat 3 [2; 1; 1] (fresh Z) = Ok tree_211.
Proof. vm_compute. reflexivity. Qed.

(** One input row [1] and three output rows: with negative sampling
    or softmax the scores of the classes for the input [0] are 1, 2
    and 3. *)
Definition model_three : Model Z :=
  mkModel Z [[1%R]] [[1%R]; [2%R]; [3%R]] [0%R] [0%R; 0%R; 0%R] [0%R]
          1 3 1 (5 / 100)%R 0 [] (fresh Z).

(** One input row [1] and the tree of the counts [2; 1; 1], whose
    internal nodes 3 and 4 have the output rows [1] and [2]. *)
Definition model_hs3 : Model Z :=
  mkModel Z [[1%R]] [[1%R]; [2%R]; [0%R]] [0%R] [0%R; 0%R; 0%R] [0%R]
          1 3 1 (5 / 100)%R 0 [] tree_211.

Lemma k_in_range : 0 < 2 < INT32_MAX.
Proof. unfold INT32_MAX. lia. Qed.

Lemma predict_sorted_witness :
  (exists heap m',
     predict Z args_hs logistic ln 6%nat [0] 2 [] model_hs3 = Ok (heap, m') /\
     Z.of_nat (length heap) = Z.min 2 3 /\
     StronglySorted score_ge heap) /\
  (exists heap m',
     predict Z args_softmax logistic ln 0%nat [0] 2 [] model_three
       = Ok (heap, m') /\
     Z.of_nat (length heap) = Z.min 2 3 /\
     StronglySorted score_ge heap).
Proof.
  split.
  - apply (predict_sorted Z (fun c => c) (10 ^ 15) Z.add Z.ltb args_hs
             logistic ln 6%nat 6%nat [0] 2 model_hs3 [2; 1; 1]).
    + discriminate.
    + exact k_in_range.
    + repeat constructor; cbn; lia.
    + reflexivity.
    + intros _. split; [exact tree_211_built|cbn; lia].
  - apply (predict_sorted Z (fun c => c) (10 ^ 15) Z.add Z.ltb args_softmax
             logistic ln 0%nat 0%nat [0] 2 model_three []).
    + discriminate.
    + exact k_in_range.
    + repeat constructor; cbn; lia.
    + reflexivity.
    + intros H. discriminate.
Defined.

Lemma dot_zero_row (v : Vector) : dot [0%R] v = 0%R.
Proof. destruct v; cbn; lra. Qed.

(** C3, as stated, fails: with output rows of zeros every class has
    score 0, and the two pairs predict returns are not in strictly
    descending order. *)
Lemma predict_sorted_counterexample :
  exists heap m',
    predict Z args_softmax logistic ln 0%nat [0] 2 [] model_zero
      = Ok (heap, m') /\
    ~ StronglySorted score_gt heap.
Proof.
  destruct (predict_scan Z args_softmax logistic ln 0%nat [0] 2 model_zero)
    as (heap & m' & Hrun & Hlen & _ & Hsc & Hout).
  - discriminate.
  - discriminate.
  - exact k_in_range.
  - repeat constructor; cbn; lia.
  - reflexivity.
  - exists heap, m'. split; [exact Hrun|].
    assert (Hzero : forall p, In p heap -> fst p = 0%R).
    { intros p Hp. rewrite Forall_forall in Hsc. specialize (Hsc p Hp).
      unfold scored in Hsc. rewrite Hout in Hsc.
      apply (get_Ok_inv _ _ _ 0%R) in Hsc. destruct Hsc as [_ ->].
      cbn [wo_ model_zero mat_vec map]. rewrite !dot_zero_row.
      destruct (Z.to_nat (snd p)) as [|[|[|n]]]; reflexivity. }
    destruct heap as [|a [|b heap]]; [cbn in Hlen; lia|cbn in Hlen; lia|].
    intros Hs. apply StronglySorted_inv in Hs. destruct Hs as [_ Hs].
    inversion Hs as [|? ? Hab _]; subst. unfold score_gt in Hab.
    rewrite (Hzero a), (Hzero b) in Hab by (cbn; auto). lra.
Qed.

(** Output rows [a] and [b] over the hidden vector [1]: the raw scores
    of the two classes are [a] and [b]. *)
Definition model_scores (a b : R) : Model Z :=
  mkModel Z [[0%R]] [[a]; [b]] [1%R] [0%R; 0%R] [0%R]
          1 2 1 (5 / 100)%R 0 [] (fresh Z).

Lemma exp_nonneg (x : R) : (0 <= exp x)%R.
Proof. apply Rlt_le, exp_pos. Qed.

Lemma softmax_distribution_witness :
  exists loss m' loss2 m2',
    softmax Z ln exp 0 (model_scores 1 2) = Ok (loss, m') /\
    softmax Z ln exp 0 (model_scores 2 3) = Ok (loss2, m2') /\
    Z.of_nat (length (output_ Z m')) = 2 /\
    (forall i, 0 <= i < 2 ->
       nth (Z.to_nat i) (output_ Z m') 0%R =
       (exp (nth (Z.to_nat i) (mat_vec [[1]; [2]] [1]) 0
             - vmax (mat_vec [[1]; [2]] [1]))
        / Rsum (map (fun x => exp (x - vmax (mat_vec [[1]; [2]] [1])))
                    (mat_vec [[1]; [2]] [1])))%R) /\
    Rsum (output_ Z m') = 1%R /\
    loss = (- ln (nth (Z.to_nat 0) (output_ Z m') 0))%R /\
    output_ Z m2' = output_ Z m' /\
    loss2 = loss.
Proof.
  destruct (softmax_distribution Z ln exp 0 (model_scores 1 2)
              (model_scores 2 3) 1)
    as (loss & m' & loss2 & m2' & H1 & H2 & H3 & _ & _ & H4 & H5 & H6 & H7 & H8).
  - exact exp_nonneg.
  - apply exp_pos.
  - reflexivity.
  - reflexivity.
  - reflexivity.
  - cbn. lia.
  - cbn. apply f_equal2; [lra|]. apply f_equal2; [lra|reflexivity].
  - exists loss, m', loss2, m2'.
    split; [exact H1|]. split; [exact H2|]. split; [exact H3|].
    split; [exact H4|]. split; [exact H5|]. split; [exact H6|].
    split; [exact H7|exact H8].
Defined.

(** ** Concrete negative tables *)

Definition TABLE_SIZE : Z := 10000000.

(** Arithmetic that does not round. *)
Definition exact (x : R) : R := x.

(** [pow(x, y)] at the one exponent model.cc passes, [0.5]. *)
Definition square_root (x y : R) : R := sqrt x.

Lemma Rounding_exact : Rounding exact exact square_root.
Proof.
  constructor; unfold exact, root, square_root; intros.
  - assumption.
  - reflexivity.
  - reflexivity.
  - reflexivity.
  - assumption.
  - reflexivity.
  - reflexivity.
  - apply sqrt_0.
  - rewrite <- sqrt_1. apply sqrt_le_1_alt. apply IZR_le. assumption.
  - apply sqrt_le_1_alt. apply IZR_le. lia.
  - apply Rdiv_lt_0_compat; lra.
Qed.

(** The rounds of the loop of line 205 depend on the bound, not on
    the class: whatever the rounding, a run that appends [n] copies of
    one id appends [n] copies of any other id for the same bound. *)
Lemma push_copies_count (rr : R -> R) (fuel : nat) (x : R) :
  forall j i negs negs',
    push_copies rr fuel j x i negs = Ok negs' ->
    exists n, negs' = negs ++ repeat i n /\
      forall i2 negs2,
        push_copies rr fuel j x i2 negs2 = Ok (negs2 ++ repeat i2 n).
Proof.
  induction fuel as [|fuel IH]; intros j i negs negs' H; cbn in H |- *;
    [discriminate|].
  destruct (Rltb (rr (IZR j)) x) eqn:E.
  - destruct (IH _ _ _ _ H) as (n & -> & Hn). exists (S n). split.
    + rewrite <- app_assoc. reflexivity.
    + intros i2 negs2. rewrite Hn, <- app_assoc. reflexivity.
  - injection H as <-. exists 0%nat. split; [rewrite app_nil_r; reflexivity|].
    intros i2 negs2. rewrite app_nil_r. reflexivity.
Qed.

(** For three classes of count 1 the bound is the same for each
    class, so the table holds three times the same number of entries,
    whatever the rounding and [pow]. *)
Lemma table_111_multiple (rr rd : R -> R) (pw : R -> R -> R) (fuel : nat)
      (m' : Model Z) :
  initTableNegatives Z TABLE_SIZE (fun l => l) rr rd pw fuel [1; 1; 1]
    model_zero = Ok m' ->
  exists n : nat, length (negatives Z m') = (3 * n)%nat.
Proof.
  unfold initTableNegatives, fill_negatives, for_range.
  change (Z.to_nat (Z.of_nat (length [1; 1; 1]) - 0)) with 3%nat.
  cbn -[IZR Rdiv Rmult Rplus].
  change (Pos.to_nat 1) with 1%nat. change (Pos.to_nat 2) with 2%nat.
  cbn -[IZR Rdiv Rmult Rplus].
  set (z := rr (rd (_ + _)%R)). set (x := rr (rr (pw _ _) * _)%R).
  destruct (fdiv x z) as [q|e]; cbn [bind]; [|discriminate].
  destruct (push_copies rr fuel 0 (rr q) 0 []) as [n0|e] eqn:E0; cbn [bind];
    [|discriminate].
  destruct (push_copies_count _ _ _ _ _ _ _ E0) as (n & -> & Hn).
  repeat (rewrite Hn; cbn [bind]). intros H. injection H as <-. exists n.
  cbn [negatives set_negatives app]. rewrite !length_app, !repeat_length. lia.
Qed.

(** initTableNegatives in exact arithmetic, with the fuel its loops
    need. *)
Definition initTable (counts : list Z) (m : Model Z) : result (Model Z) :=
  initTableNegatives Z TABLE_SIZE (fun l => l) exact exact square_root
    (table_fuel TABLE_SIZE exact exact square_root counts) counts m.

Lemma shuffle_id (l : list Z) : Permutation l ((fun l : list Z => l) l).
Proof. apply Permutation_refl. Qed.

Lemma sum_root_111 : sum_root exact exact square_root [1; 1; 1] = 3%R.
Proof.
  unfold sum_root, root, exact, square_root. cbn [fold_left].
  rewrite sqrt_1. lra.
Qed.

Lemma bound_111 :
  bound TABLE_SIZE exact exact square_root 3 1 = (10000000 / 3)%R.
Proof.
  unfold bound, root, exact, square_root, TABLE_SIZE. rewrite sqrt_1. lra.
Qed.

Lemma Zceil_111 : Zceil (10000000 / 3) = 3333334.
Proof. apply Zceil_eq. lra. Qed.

Lemma copies_111 :
  Z.of_nat (copies TABLE_SIZE exact exact square_root 3 1) = 3333334.
Proof.
  rewrite copies_ceil.
  - rewrite bound_111. exact Zceil_111.
  - exact Rounding_exact.
  - lra.
  - unfold TABLE_SIZE. lia.
  - lia.
  - intros j _. reflexivity.
Qed.

(** A coarse rounding: a number from 1 up is cut to the integer below
    it, a smaller number is kept. *)
Definition truncating (x : R) : R :=
  if Rle_dec 1 x then IZR (Zfloor x) else x.

Lemma truncating_int (j : Z) : truncating (IZR j) = IZR j.
Proof.
  unfold truncating. destruct (Rle_dec 1 (IZR j)); [rewrite ZfloorZ|];
    reflexivity.
Qed.

Lemma truncating_pos (x : R) : (0 < x)%R -> (0 < truncating x)%R.
Proof.
  intros Hx. unfold truncating. destruct (Rle_dec 1 x) as [H1|H1]; [|exact Hx].
  pose proof (Zfloor_lub 1 x H1) as Hf. apply IZR_le in Hf. lra.
Qed.

Lemma Rounding_truncating : Rounding truncating exact square_root.
Proof.
  constructor; unfold exact, root, square_root.
  - intros x y Hxy. unfold truncating.
    destruct (Rle_dec 1 x) as [Hx|Hx], (Rle_dec 1 y) as [Hy|Hy].
    + apply IZR_le, Zfloor_le, Hxy.
    + lra.
    + pose proof (Zfloor_lub 1 y Hy) as Hf. apply IZR_le in Hf. lra.
    + exact Hxy.
  - intros x. destruct (Rle_dec 1 x) as [Hx|Hx].
    + assert (E : truncating x = IZR (Zfloor x))
        by (unfold truncating; destruct (Rle_dec 1 x);
            [reflexivity|contradiction]).
      rewrite E. apply truncating_int.
    + assert (E : truncating x = x)
        by (unfold truncating; destruct (Rle_dec 1 x);
            [contradiction|reflexivity]).
      rewrite E. exact E.
  - exact (truncating_int 0).
  - exact (truncating_int 1).
  - intros x y Hxy. exact Hxy.
  - reflexivity.
  - reflexivity.
  - apply sqrt_0.
  - intros c Hc. rewrite <- sqrt_1. apply sqrt_le_1_alt. apply IZR_le.
    exact Hc.
  - intros c1 c2 Hc. apply sqrt_le_1_alt. apply IZR_le. lia.
  - intros x z Hx Hz. apply truncating_pos. apply Rdiv_lt_0_compat; lra.
Qed.

Lemma sum_root_111_truncating :
  sum_root truncating exact square_root [1; 1; 1] = 3%R.
Proof.
  unfold sum_root, root, exact, square_root. cbn [fold_left].
  rewrite sqrt_1.
  replace (0 + 1)%R with (IZR 1) by lra. rewrite truncating_int.
  replace (1 + 1)%R with (IZR 2) by lra. rewrite truncating_int.
  replace (2 + 1)%R with (IZR 3) by lra. apply truncating_int.
Qed.

Lemma bound_111_truncating :
  bound TABLE_SIZE truncating exact square_root 3 1 = 3333333%R.
Proof.
  unfold bound, root, exact, square_root, TABLE_SIZE. rewrite sqrt_1.
  rewrite !truncating_int.
  replace (1 * 10000000)%R with (IZR 10000000) by lra.
  rewrite truncating_int. unfold truncating.
  destruct (Rle_dec 1 (10000000 / 3)) as [_|Hn]; [|lra].
  rewrite (Zfloor_eq 3333333); [reflexivity|lra].
Qed.

Lemma copies_111_truncating :
  Z.of_nat (copies TABLE_SIZE truncating exact square_root 3 1) = 3333333.
Proof.
  rewrite copies_ceil.
  - rewrite bound_111_truncating. apply Zceil_eq. lra.
  - exact Rounding_truncating.
  - lra.
  - unfold TABLE_SIZE. lia.
  - lia.
  - intros j _. apply truncating_int.
Qed.

(** Three classes of count 1: in exact arithmetic each gets
    [ceil (10000000 / 3)] entries; with the coarse rounding the
    quotient is cut to 3333333 and each class gets as many. *)
Lemma initTableNegatives_size_witness :
  (exists m',
     initTable [1; 1; 1] model_zero = Ok m' /\
     Z.of_nat (count_occ Z.eq_dec (negatives Z m') 0) = 3333334 /\
     negatives Z m' <> [] /\
     Z.of_nat (length (negatives Z m')) = 10000002) /\
  (exists m',
     initTableNegatives Z TABLE_SIZE (fun l => l) truncating exact square_root
       (table_fuel TABLE_SIZE truncating exact square_root [1; 1; 1])
       [1; 1; 1] model_zero = Ok m' /\
     Z.of_nat (count_occ Z.eq_dec (negatives Z m') 0) = 3333333 /\
     negatives Z m' <> [] /\
     Z.of_nat (length (negatives Z m')) = 9999999).
Proof.
  split.
  - destruct (initTableNegatives_size Z TABLE_SIZE (fun l => l) exact exact
                square_root
                (table_fuel TABLE_SIZE exact exact square_root [1; 1; 1])
                [1; 1; 1] model_zero)
      as (m' & Hrun & Hc & _ & Hne & Hlen).
    + exact Rounding_exact.
    + exact shuffle_id.
    + reflexivity.
    + repeat constructor; lia.
    + constructor. lia.
    + reflexivity.
    + apply le_n.
    + exists m'. split; [exact Hrun|]. split; [|split; [exact Hne|]].
      * pose proof (Hc 0 ltac:(cbn; lia)) as H. cbv zeta in H.
        destruct H as (_ & _ & H). rewrite H by (intros j _; reflexivity).
        change (nth (Z.to_nat 0) [1; 1; 1] 0) with 1.
        rewrite sum_root_111, bound_111. exact Zceil_111.
      * rewrite Hlen. cbn [fold_right]. rewrite sum_root_111, copies_111.
        reflexivity.
  - destruct (initTableNegatives_size Z TABLE_SIZE (fun l => l) truncating
                exact square_root
                (table_fuel TABLE_SIZE truncating exact square_root [1; 1; 1])
                [1; 1; 1] model_zero)
      as (m' & Hrun & Hc & _ & Hne & Hlen).
    + exact Rounding_truncating.
    + exact shuffle_id.
    + reflexivity.
    + repeat constructor; lia.
    + constructor. lia.
    + reflexivity.
    + apply le_n.
    + exists m'. split; [exact Hrun|]. split; [|split; [exact Hne|]].
      * pose proof (Hc 0 ltac:(cbn; lia)) as H. cbv zeta in H.
        destruct H as (_ & _ & H).
        rewrite H by (intros j _; apply truncating_int).
        change (nth (Z.to_nat 0) [1; 1; 1] 0) with 1.
        rewrite sum_root_111_truncating, bound_111_truncating.
        apply Zceil_eq. lra.
      * rewrite Hlen. cbn [fold_right].
        rewrite sum_root_111_truncating, copies_111_truncating.
        reflexivity.
Defined.

(** C5, as stated, fails.  For three classes of count 1 and exact
    arithmetic each class gets [ceil (10000000 / 3) = 3333334] entries
    and the table holds 10000002 entries, not NEGATIVE_TABLE_SIZE.
    Whatever the rounding, the three classes get the same number of
    entries, so the size of the table is a multiple of 3, which
    NEGATIVE_TABLE_SIZE is not. *)
Lemma initTableNegatives_size_counterexample :
  (exists m',
     initTable [1; 1; 1] model_zero = Ok m' /\
     Z.of_nat (length (negatives Z m')) = 10000002 /\
     Z.of_nat (length (negatives Z m')) <> TABLE_SIZE) /\
  (forall (round_real round_double : R -> R) (pow : R -> R -> R)
          (fuel : nat) (m' : Model Z),
     initTableNegatives Z TABLE_SIZE (fun l => l) round_real round_double pow
       fuel [1; 1; 1] model_zero = Ok m' ->
     Z.of_nat (length (negatives Z m')) <> TABLE_SIZE).
Proof.
  split.
  - unfold initTable. rewrite initTableNegatives_run.
    + eexists. split; [reflexivity|].
      cbn [negatives set_negatives model_zero app table_from].
      rewrite sum_root_111.
      rewrite !length_app, !repeat_length. cbn [length].
      rewrite !Nat2Z.inj_add, copies_111. cbn [Z.of_nat].
      split; [reflexivity|]. unfold TABLE_SIZE. lia.
    + exact Rounding_exact.
    + rewrite sum_root_111. lra.
    + apply le_n.
  - intros rr rd pw fuel m' Hrun.
    destruct (table_111_multiple rr rd pw fuel m' Hrun) as (n & ->).
    unfold TABLE_SIZE. lia.
Qed.

Lemma getNegative_spec_witness :
  ((exists x, In x [2; 2; 5] /\ x <> 2) ->
   exists k : nat,
     (k < 3)%nat /\
     (forall j, (j < k)%nat -> slot Z model_negatives (Z.of_nat j) = 2) /\
     slot Z model_negatives (Z.of_nat k) <> 2 /\
     forall fuel, (k < fuel)%nat ->
       getNegative Z fuel 2 model_negatives =
       Ok (slot Z model_negatives (Z.of_nat k),
           set_negpos Z ((0 + Z.of_nat k + 1) mod 3) model_negatives)) /\
  ((forall x, In x [2; 2; 5] -> x = 2) ->
   forall fuel, getNegative Z fuel 2 model_negatives = Err OutOfFuel).
Proof.
  apply (getNegative_spec Z 2 model_negatives). cbn. lia.
Defined.

Lemma update_empty_input_witness :
  update Z args_softmax logistic ln exp 0%nat [] 1 model_zero
    = Ok (0%R, model_zero).
Proof.
  apply (update_empty_input Z args_softmax logistic ln exp 0%nat 1 model_zero).
  cbn. lia.
Defined.






Lemma predict_empty_input_witness :
  computeHidden Z [] model_zero = Err DivisionByZero /\
  predict Z args_softmax logistic ln 0%nat [] 2 [] model_zero
    = Err DivisionByZero.
Proof.
  destruct (predict_empty_input Z args_softmax logistic ln 0%nat 2 []
              model_zero) as (Hc & Hp & _).
  - lia.
  - split; [exact Hc|]. apply Hp. apply k_in_range.
Defined.

(** * Further concrete runs *)

Lemma buildTree_appends_witness :
  exists h' hf,
    Zbuild 4%nat 2 [2; 1] (hier Z model_tree) = Ok h' /\
    Zbuild 4%nat 2 [2; 1] (fresh Z) = Ok hf /\
    paths Z h' = paths Z (hier Z model_tree) ++ paths Z hf.
Proof.
  assert (Hrun : exists h', Zbuild 4%nat 2 [2; 1] (hier Z model_tree) = Ok h')
    by (eexists; vm_compute; reflexivity).
  destruct Hrun as (h' & Hrun).
  destruct (buildTree_appends Z (fun c => c) (10 ^ 15) Z.add Z.ltb
              4%nat 2 [2; 1] (hier Z model_tree) h' Hrun)
    as (hf & Hf & _ & Hp & _).
  exists h', hf. split; [exact Hrun|]. split; [exact Hf|exact Hp].
Defined.

Lemma buildTree_shape_witness :
  parent Z (nd Z (10 ^ 15) (tree Z (hier Z model_tree)) (2 * 2 - 2)) = -1.
Proof.
  destruct (buildTree_shape Z (fun c => c) (10 ^ 15) Z.add Z.ltb
              4%nat 2 [2; 1] (fresh Z) (hier Z model_tree) model_tree_built)
    as (_ & _ & Hroot & _).
  exact Hroot.
Defined.

Lemma buildTree_paths_witness :
  exists p cd,
    get (paths Z (hier Z model_tree)) 0 = Ok p /\
    get (codes Z (hier Z model_tree)) 0 = Ok cd /\
    length p = length cd /\
    Forall (fun x => 0 <= x <= 2 - 2) p.
Proof.
  destruct (buildTree_paths Z (fun c => c) (10 ^ 15) Z.add Z.ltb
              4%nat 2 [2; 1] (hier Z model_tree) model_tree_built 0 ltac:(lia))
    as (p & cd & H1 & H2 & H3 & H4 & _).
  exists p, cd. auto.
Defined.

Lemma code_length_monotone_witness :
  (length (nth (Z.to_nat 0) (codes Z (hier Z model_tree)) [])
   <= length (nth (Z.to_nat 1) (codes Z (hier Z model_tree)) []))%nat.
Proof.
  apply (code_length_monotone Z (fun c => c) (10 ^ 15) Z.add Z.ltb
           4%nat 2 [2; 1] (hier Z model_tree) model_tree_built 0 1); lia.
Defined.

(** [Node::count] as a signed integer of 64 bits: a sum that leaves
    the type wraps around. *)
Definition INT64_MAX : Z := 2 ^ 63 - 1.

Definition add64 (a b : Z) : Z := (a + b + 2 ^ 63) mod 2 ^ 64 - 2 ^ 63.

Lemma add64_exact (a b : Z) :
  0 <= a -> 0 <= b -> a + b <= INT64_MAX -> add64 a b = a + b.
Proof.
  unfold add64, INT64_MAX. intros Ha Hb Hab. rewrite Z.mod_small; lia.
Qed.

Lemma counts_211 (x : Z) :
  0 <= x < 3 ->
  nth (Z.to_nat x) [2; 1; 1] 0 = 2 /\ x = 0 \/
  nth (Z.to_nat x) [2; 1; 1] 0 = 1 /\ 1 <= x.
Proof.
  intros Hx. assert (Hc : x = 0 \/ x = 1 \/ x = 2) by lia.
  destruct Hc as [-> | [-> | ->]]; [left|right|right];
    (split; [reflexivity|lia]).
Qed.

Lemma root_count_witness :
  exists h',
    buildTree Z (fun c => c) (10 ^ 15) add64 Z.ltb 6%nat 3 [2; 1; 1] (fresh Z)
      = Ok h' /\
    count Z (nd Z (10 ^ 15) (tree Z h') (2 * 3 - 2)) = 4.
Proof.
  destruct (root_count Z (fun c => c) (10 ^ 15) add64 Z.ltb (fun c => c)
              INT64_MAX 6%nat 3 [2; 1; 1]) as (h' & Hrun & _ & Hroot).
  - exact add64_exact.
  - intros x Hx. destruct (counts_211 x Hx) as [[-> _]|[-> _]]; lia.
  - vm_compute. discriminate.
  - unfold below_sentinel. repeat constructor.
  - lia.
  - reflexivity.
  - cbn. lia.
  - exists h'. split; [exact Hrun|exact Hroot].
Defined.

Lemma hierarchicalSoftmax_built_witness :
  exists loss m' p,
    hierarchicalSoftmax Z logistic ln 0 model_tree = Ok (loss, m') /\
    get (paths Z (hier Z model_tree)) 0 = Ok p /\
    nth (Z.to_nat (2 - 1)) (wo_ Z m') [] =
      nth (Z.to_nat (2 - 1)) (wo_ Z model_tree) [].
Proof.
  destruct (hierarchicalSoftmax_built Z (fun c => c) (10 ^ 15) Z.add Z.ltb
              logistic ln 4%nat [2; 1] 0 model_tree model_tree_built)
    as (loss & m' & p & H1 & H2 & _ & _ & _ & _ & H3).
  - reflexivity.
  - cbn. lia.
  - exists loss, m', p. auto.
Defined.

Lemma hierarchicalSoftmax_loss_witness :
  exists m',
    hierarchicalSoftmax Z logistic ln 0 model_tree =
    Ok ((- class_score Z logistic ln model_tree 0)%R, m').
Proof.
  apply (hierarchicalSoftmax_loss Z (fun c => c) (10 ^ 15) Z.add Z.ltb
           logistic ln 4%nat [2; 1] 0 model_tree model_tree_built).
  - reflexivity.
  - cbn. lia.
Defined.

(** One class: its path and its code are empty. *)
Definition model_single : Model Z :=
  mkModel Z [[1%R]] [[0%R]] [0%R] [0%R] [0%R]
          1 1 1 (5 / 100)%R 0 []
          (mkHier Z [mkNode Z (-1) (-1) (-1) 5 false] [[]] [[]]).

Lemma update_single_run :
  exists loss m',
    update Z args_hs logistic ln exp 0%nat [0] 0 model_single = Ok (loss, m').
Proof.
  unfold update, assert, strategy, hierarchicalSoftmax, rescale_grad, propagate,
    vec_addRow, mat_addRow, for_range.
  cbn. rewrite fdiv_Ok by lra. cbn.
  eexists. eexists. reflexivity.
Qed.

Lemma update_keeps_witness :
  exists l m',
    update Z args_hs logistic ln exp 0%nat [0] 0 model_single = Ok (l, m') /\
    map (@length R) (wo_ Z m') = map (@length R) (wo_ Z model_single) /\
    hier Z m' = hier Z model_single.
Proof.
  destruct update_single_run as (l & m' & Hrun).
  destruct (update_keeps Z args_hs logistic ln exp 0%nat [0] 0 model_single
              m' l Hrun) as (_ & _ & H1 & _ & _ & _ & _ & _ & _ & _ & H2).
  exists l, m'. auto.
Defined.

Lemma update_rows_witness :
  exists l m',
    update Z args_hs logistic ln exp 0%nat [0] 0 model_single = Ok (l, m') /\
    nth (Z.to_nat 1) (wi_ Z m') [] = nth (Z.to_nat 1) (wi_ Z model_single) [].
Proof.
  destruct update_single_run as (l & m' & Hrun).
  exists l, m'. split; [exact Hrun|].
  apply (update_rows Z args_hs logistic ln exp 0%nat [0] 0 model_single m' l
           Hrun).
  - lia.
  - intros [H|[]]. discriminate.
Defined.

Lemma update_errors_witness :
  update Z args_softmax logistic ln exp 0%nat [] 5 model_zero
    = Err AssertionFailed /\
  update Z args_softmax logistic ln exp 0%nat [3] 0 model_zero
    = Err OutOfBounds.
Proof.
  split.
  - apply (update_errors Z args_softmax logistic ln exp 0%nat [] 5 model_zero).
    cbn. lia.
  - apply (update_errors Z args_softmax logistic ln exp 0%nat [3] 0 model_zero).
    + cbn. lia.
    + constructor. cbn. lia.
Defined.

Lemma predict_errors_witness :
  predict Z args_softmax logistic ln 0%nat [0] 0 [] model_zero
    = Err AssertionFailed /\
  predict Z args_softmax logistic ln 0%nat [0] INT32_MAX [] model_zero
    = Err Overflow /\
  predict Z args_softmax logistic ln 0%nat [3] 2 [] model_zero
    = Err OutOfBounds.
Proof.
  split; [|split].
  - apply (predict_errors Z args_softmax logistic ln 0%nat [0] 0 [] model_zero).
    lia.
  - apply (predict_errors Z args_softmax logistic ln 0%nat [0] INT32_MAX []
             model_zero).
    lia.
  - apply (predict_errors Z args_softmax logistic ln 0%nat [3] 2 [] model_zero).
    + exact k_in_range.
    + constructor. cbn. lia.
Defined.

Lemma predict_zero_run :
  exists heap m',
    predict Z args_softmax logistic ln 0%nat [0] 2 [] model_zero
      = Ok (heap, m').
Proof.
  destruct (predict_scan Z args_softmax logistic ln 0%nat [0] 2 model_zero)
    as (heap & m' & Hrun & _).
  - discriminate.
  - discriminate.
  - exact k_in_range.
  - repeat constructor; cbn; lia.
  - reflexivity.
  - exists heap, m'. exact Hrun.
Qed.

Lemma predict_keeps_witness :
  exists heap m',
    predict Z args_softmax logistic ln 0%nat [0] 2 [] model_zero
      = Ok (heap, m') /\
    wi_ Z m' = wi_ Z model_zero /\ wo_ Z m' = wo_ Z model_zero.
Proof.
  destruct predict_zero_run as (heap & m' & Hrun).
  destruct (predict_keeps Z args_softmax logistic ln 0%nat [0] 2 [] heap
              model_zero m' Hrun) as (H1 & H2 & _).
  exists heap, m'. auto.
Defined.

Lemma computeHidden_average_witness :
  exists h,
    computeHidden Z [0] model_zero = Ok (set_hidden Z h model_zero) /\
    length h = length (hidden_ Z model_zero).
Proof.
  destruct (computeHidden_average Z [0] model_zero) as (h & H1 & H2 & _).
  - discriminate.
  - repeat constructor; cbn; lia.
  - exists h. auto.
Defined.

(** The best two of three pairs with distinct scores. *)
Lemma top2_of_3 (p0 p1 p2 : R * Z) (heap all : list (R * Z)) :
  Permutation all [p0; p1; p2] ->
  (fst p0 < fst p1 < fst p2)%R ->
  TopK 2 heap all ->
  StronglySorted score_ge heap ->
  heap = [p2; p1].
Proof.
  intros Hall Hs (Hlen & rest & Hperm & Hrest) Hsorted.
  pose proof (Permutation_trans Hperm Hall) as Hp.
  pose proof (Permutation_length Hp) as Hl. rewrite length_app in Hl.
  rewrite (Permutation_length Hall) in Hlen.
  cbn [length] in Hlen, Hl.
  destruct heap as [|a [|b [|c heap]]]; cbn [length] in Hlen, Hl; try lia.
  destruct rest as [|d [|e rest]]; cbn [length] in Hl; try lia.
  assert (Hnd : NoDup [a; b; d]).
  { apply (Permutation_NoDup (Permutation_sym Hp)).
    repeat constructor; cbn [In]; intros H;
      repeat (destruct H as [H|H]; [rewrite H in Hs; lra|]); exact H. }
  assert (Ha : In a [p0; p1; p2])
    by (apply (Permutation_in _ Hp); cbn; auto).
  assert (Hb : In b [p0; p1; p2])
    by (apply (Permutation_in _ Hp); cbn; auto).
  assert (Hd : In d [p0; p1; p2])
    by (apply (Permutation_in _ Hp); cbn; auto).
  apply StronglySorted_inv in Hsorted. destruct Hsorted as [_ Hab].
  apply Forall_inv in Hab. unfold score_ge in Hab.
  apply Forall_inv in Hrest.
  pose proof (Forall_inv Hrest) as Hda.
  pose proof (Forall_inv (Forall_inv_tail Hrest)) as Hdb.
  unfold score_le in Hda, Hdb.
  inversion Hnd as [|? ? Hn1 Hnd1]; subst.
  inversion Hnd1 as [|? ? Hn2 _]; subst.
  cbn [In] in Ha, Hb, Hd, Hn1, Hn2.
  destruct Ha as [<-|[<-|[<-|[]]]]; destruct Hb as [<-|[<-|[<-|[]]]];
    destruct Hd as [<-|[<-|[<-|[]]]];
    first [reflexivity
          | exfalso; lra
          | exfalso; apply Hn1; auto
          | exfalso; apply Hn2; auto].
Qed.

Lemma predict_scan_best_witness :
  exists heap m',
    predict Z args_softmax logistic ln 0%nat [0] 2 [] model_three
      = Ok (heap, m') /\
    TopK 2 heap (pairs_from 0 (output_ Z m')) /\
    StronglySorted score_ge heap /\
    map snd heap = [2; 1].
Proof.
  destruct (predict_scan_best Z args_softmax logistic ln 0%nat [0] 2
              model_three)
    as (heap & m' & H1 & Hh & Ho & H2 & H3).
  - discriminate.
  - discriminate.
  - exact k_in_range.
  - repeat constructor; cbn; lia.
  - reflexivity.
  - exists heap, m'. split; [exact H1|]. split; [exact H2|].
    split; [exact H3|].
    unfold computeHidden in Hh. cbn -[IZR Rdiv Rmult Rplus] in Hh.
    rewrite fdiv_Ok in Hh by lra. cbn -[IZR Rdiv Rmult Rplus] in Hh.
    injection Hh as Hh.
    rewrite <- Hh in Ho. cbn -[IZR Rdiv Rmult Rplus] in Ho.
    rewrite Ho in H2. cbn -[IZR Rdiv Rmult Rplus] in H2.
    refine (f_equal (map snd)
              (top2_of_3 (_, 0) (_, 1) (_, 2) heap _ (Permutation_refl _)
                         _ H2 H3)).
    cbn [fst]. split; lra.
Defined.

(** The logarithm of the logistic function, and of its complement, is
    never positive. *)
Lemma logistic_log (x : R) :
  (ln (logistic x) <= 0)%R /\ (ln (1 - logistic x) <= 0)%R.
Proof.
  unfold logistic. pose proof (exp_pos (- x)) as He.
  assert (H1 : (0 < 1 / (1 + exp (- x)) <= 1)%R).
  { split.
    - apply Rdiv_lt_0_compat; lra.
    - apply (Rmult_le_reg_r (1 + exp (- x))); [lra|].
      unfold Rdiv. rewrite Rmult_assoc, Rinv_l by lra. lra. }
  assert (H2 : (0 < 1 - 1 / (1 + exp (- x)) <= 1)%R).
  { split; [|lra].
    assert (1 / (1 + exp (- x)) < 1)%R; [|lra].
    apply (Rmult_lt_reg_r (1 + exp (- x))); [lra|].
    unfold Rdiv. rewrite Rmult_assoc, Rinv_l by lra. lra. }
  assert (Hle : forall y, (0 < y <= 1)%R -> (ln y <= 0)%R).
  { intros y [Hy0 Hy1]. rewrite <- ln_1.
    destruct (Rle_lt_or_eq_dec _ _ Hy1) as [Hlt|Heq]; [|rewrite Heq; lra].
    apply Rlt_le, ln_increasing; assumption. }
  split; apply Hle; assumption.
Qed.

(** Above 0 the logistic function exceeds its complement. *)
Lemma logistic_above (x : R) :
  (0 < x)%R -> (ln (1 - logistic x) < ln (logistic x))%R.
Proof.
  intros Hx. unfold logistic. pose proof (exp_pos (- x)) as He.
  assert (H1 : (exp (- x) < 1)%R).
  { rewrite <- exp_0. apply exp_increasing. lra. }
  assert (Hd : (0 < 1 + exp (- x))%R) by lra.
  assert (E : (1 - 1 / (1 + exp (- x)) = exp (- x) / (1 + exp (- x)))%R)
    by (field; lra).
  rewrite E. apply ln_increasing.
  - apply Rdiv_lt_0_compat; lra.
  - unfold Rdiv. apply Rmult_lt_compat_r; [apply Rinv_0_lt_compat; lra|lra].
Qed.

Lemma predict_tree_best_witness :
  exists heap m',
    predict Z args_hs logistic ln 6%nat [0] 2 [] model_hs3 = Ok (heap, m') /\
    TopK 2 heap (map (fun c => (class_score Z logistic ln m' c, c)) (classes 3)) /\
    StronglySorted score_ge heap /\
    map snd heap = [0; 1].
Proof.
  destruct (predict_tree_best Z (fun c => c) (10 ^ 15) Z.add Z.ltb args_hs
              logistic ln 6%nat 6%nat [0] 2 model_hs3 [2; 1; 1])
    as (heap & m' & H1 & Hh & H2 & H3).
  - reflexivity.
  - discriminate.
  - exact k_in_range.
  - repeat constructor; cbn; lia.
  - reflexivity.
  - exact tree_211_built.
  - cbn. lia.
  - exact logistic_log.
  - exists heap, m'. split; [exact H1|]. split; [exact H2|].
    split; [exact H3|].
    unfold computeHidden in Hh. cbn -[IZR Rdiv Rmult Rplus] in Hh.
    rewrite fdiv_Ok in Hh by lra. cbn -[IZR Rdiv Rmult Rplus] in Hh.
    injection Hh as <-.
    change (classes (osz_ Z model_hs3)) with [0; 1; 2] in H2.
    cbn [map] in H2. unfold class_score in H2.
    change (Z.to_nat 0) with 0%nat in H2.
    change (Z.to_nat 1) with 1%nat in H2.
    change (Z.to_nat 2) with 2%nat in H2.
    cbn -[IZR Rdiv Rmult Rplus Rminus logistic ln] in H2.
    change (Pos.to_nat 1) with 1%nat in H2.
    cbn -[IZR Rdiv Rmult Rplus Rminus logistic ln] in H2.
    set (a := (2 * ((0 + 1 * 1) * (1 / 1)) + 0)%R) in H2.
    set (b := (1 * ((0 + 1 * 1) * (1 / 1)) + 0)%R) in H2.
    pose proof (logistic_above a ltac:(unfold a; lra)) as Ha.
    pose proof (logistic_above b ltac:(unfold b; lra)) as Hb.
    pose proof (proj1 (logistic_log b)) as Hc.
    refine (f_equal (map snd)
              (top2_of_3 (_, 2) (_, 1) (_, 0) heap _ _ _ H2 H3)).
    + exact (Permutation_rev [(_, 0); (_, 1); (_, 2)]).
    + cbn [fst]. split; lra.
Defined.


Definition args_ns : Args := mkArgs ns sup 5.

Lemma initTableNegatives_appends_witness :
  exists negs,
    initTable [1; 1; 1] model_negatives
      = Ok (set_negatives Z negs model_negatives) /\
    Z.of_nat (count_occ Z.eq_dec negs 2) = 2 + 3333334 /\
    count_occ Z.eq_dec negs 5 = 1%nat.
Proof.
  destruct (initTableNegatives_appends Z TABLE_SIZE (fun l => l) exact exact
              square_root
              (table_fuel TABLE_SIZE exact exact square_root [1; 1; 1])
              [1; 1; 1] model_negatives) as (negs & Hrun & Hout & Hin).
  - exact Rounding_exact.
  - exact shuffle_id.
  - repeat constructor; lia.
  - constructor. lia.
  - apply le_n.
  - exists negs. split; [exact Hrun|]. split.
    + destruct (Hin 2 ltac:(cbn; lia)) as (n & -> & Hlt & Hge).
      change (nth (Z.to_nat 2) [1; 1; 1] 0) with 1 in Hlt, Hge.
      rewrite sum_root_111, bound_111 in Hlt, Hge. unfold exact in Hlt, Hge.
      rewrite Nat2Z.inj_add.
      change (Z.of_nat (count_occ Z.eq_dec (negatives Z model_negatives) 2))
        with 2.
      assert (Hlow : 3333334 <= Z.of_nat n).
      { destruct (Z_lt_le_dec (Z.of_nat n) 3333334) as [Hn|Hn]; [|exact Hn].
        assert (H3 : Z.of_nat n <= 3333333) by lia.
        apply IZR_le in H3. lra. }
      assert (Hup : Z.of_nat n <= 3333334).
      { destruct (Z_lt_le_dec 3333334 (Z.of_nat n)) as [Hn|Hn]; [|exact Hn].
        pose proof (Hlt 3333334 ltac:(lia)). lra. }
      lia.
    + rewrite (Hout 5) by (cbn; lia). reflexivity.
Defined.

Lemma initTableNegatives_support_witness :
  exists m',
    initTable [1; 0; 1] model_zero = Ok m' /\
    In 2 (negatives Z m') /\ ~ In 1 (negatives Z m').
Proof.
  destruct (initTableNegatives_support Z TABLE_SIZE (fun l => l) exact exact
              square_root
              (table_fuel TABLE_SIZE exact exact square_root [1; 0; 1])
              [1; 0; 1] model_zero) as (m' & Hrun & Hin).
  - exact Rounding_exact.
  - exact shuffle_id.
  - reflexivity.
  - repeat constructor; lia.
  - constructor. lia.
  - reflexivity.
  - apply le_n.
  - exists m'. split; [exact Hrun|]. split.
    + apply Hin. change (0 <= 2 < 3 /\ 0 < 1). lia.
    + intros H. apply Hin in H. change (0 <= 1 < 3 /\ 0 < 0) in H. lia.
Defined.

Lemma initTableNegatives_monotone_witness :
  exists m',
    initTable [1; 4; 1] model_zero = Ok m' /\
    (count_occ Z.eq_dec (negatives Z m') 0%Z <=
     count_occ Z.eq_dec (negatives Z m') 1%Z)%nat.
Proof.
  destruct (initTableNegatives_monotone Z TABLE_SIZE (fun l => l) exact exact
              square_root
              (table_fuel TABLE_SIZE exact exact square_root [1; 4; 1])
              [1; 4; 1] model_zero) as (m' & Hrun & Hle).
  - exact Rounding_exact.
  - exact shuffle_id.
  - reflexivity.
  - repeat constructor; lia.
  - constructor. lia.
  - reflexivity.
  - apply le_n.
  - exists m'. split; [exact Hrun|].
    apply Hle; [change (0 <= 0 < 3)|change (0 <= 1 < 3)|change (1 <= 4)]; lia.
Defined.

Lemma initTableNegatives_zero_witness :
  initTableNegatives Z TABLE_SIZE (fun l => l) exact exact square_root 0%nat
    [0; 0] model_zero
    = Err DivisionByZero.
Proof.
  apply (initTableNegatives_zero Z TABLE_SIZE (fun l => l) exact exact
           square_root 0%nat [0; 0] model_zero).
  - exact Rounding_exact.
  - discriminate.
  - repeat constructor.
Defined.

Lemma getNegative_after_init_witness :
  exists m1,
    initTable [1; 1; 1] model_zero = Ok m1 /\
    forall target q,
      0 <= q < Z.of_nat (length (negatives Z m1)) ->
      exists negative q',
        getNegative Z (length (negatives Z m1)) target (set_negpos Z q m1)
          = Ok (negative, set_negpos Z q' m1) /\
        negative <> target.
Proof.
  destruct (getNegative_after_init Z TABLE_SIZE (fun l => l) exact exact
              square_root
              (table_fuel TABLE_SIZE exact exact square_root [1; 1; 1])
              [1; 1; 1] model_zero 0 1) as (m1 & Hrun & Hget).
  - exact Rounding_exact.
  - exact shuffle_id.
  - reflexivity.
  - repeat constructor; lia.
  - reflexivity.
  - apply le_n.
  - change (0 <= 0 < 3). lia.
  - change (0 < 1). lia.
  - change (0 <= 1 < 3). lia.
  - change (0 < 1). lia.
  - lia.
  - exists m1. split; [exact Hrun|]. intros target q Hq.
    destruct (Hget target q Hq) as (negative & q' & H1 & H2 & _).
    exists negative, q'. auto.
Defined.

Lemma getNegative_single_class_witness :
  exists m1,
    initTable [1; 0] model_zero = Ok m1 /\
    negatives Z m1 <> [] /\
    forall fuel q,
      0 <= q < Z.of_nat (length (negatives Z m1)) ->
      getNegative Z fuel 0 (set_negpos Z q m1) = Err OutOfFuel.
Proof.
  apply (getNegative_single_class Z TABLE_SIZE (fun l => l) exact exact
           square_root (table_fuel TABLE_SIZE exact exact square_root [1; 0])
           [1; 0] model_zero 0).
  - exact Rounding_exact.
  - exact shuffle_id.
  - reflexivity.
  - repeat constructor; lia.
  - reflexivity.
  - apply le_n.
  - change (0 <= 0 < 2). lia.
  - change (0 < 1). lia.
  - intros x Hx Hne. change (0 <= x < 2) in Hx.
    assert (x = 1) by lia. subst x. reflexivity.
Defined.





Definition Vector_zeros (n : Z) : Vector := repeat 0%R (Z.to_nat n).

Lemma setTargetCounts_ready_witness :
  (exists m',
     setTargetCounts Z (fun c => c) (10 ^ 15) Z.add Z.ltb args_hs TABLE_SIZE
       (fun l => l) exact exact square_root 4%nat [2; 1]
       (Model_new Z Vector_zeros [[0%R]] [[0%R]; [0%R]] 1 (5 / 100)%R 0)
       = Ok m' /\
     Ready Z (fun c => c) (10 ^ 15) Z.add Z.ltb args_hs m') /\
  (exists m',
     setTargetCounts Z (fun c => c) (10 ^ 15) Z.add Z.ltb args_ns TABLE_SIZE
       (fun l => l) exact exact square_root
       (table_fuel TABLE_SIZE exact exact square_root [2; 1]) [2; 1]
       (Model_new Z Vector_zeros [[0%R]] [[0%R]; [0%R]] 1 (5 / 100)%R 0)
       = Ok m' /\
     Ready Z (fun c => c) (10 ^ 15) Z.add Z.ltb args_ns m').
Proof.
  split.
  - destruct (setTargetCounts_ready Z (fun c => c) (10 ^ 15) Z.add Z.ltb
                args_hs TABLE_SIZE (fun l => l) exact exact square_root
                Vector_zeros 4%nat [2; 1] [[0%R]] [[0%R]; [0%R]] 1
                (5 / 100)%R 0)
      as (m' & H1 & H2 & _).
    + reflexivity.
    + intros H. discriminate.
    + intros _. split; [cbn; lia|]. split; [|cbn; lia].
      unfold below_sentinel. repeat constructor.
    + exists m'. split; [exact H1|exact H2].
  - destruct (setTargetCounts_ready Z (fun c => c) (10 ^ 15) Z.add Z.ltb
                args_ns TABLE_SIZE (fun l => l) exact exact square_root
                Vector_zeros
                (table_fuel TABLE_SIZE exact exact square_root [2; 1])
                [2; 1] [[0%R]] [[0%R]; [0%R]] 1 (5 / 100)%R 0)
      as (m' & H1 & H2 & _).
    + reflexivity.
    + intros _. split; [exact Rounding_exact|]. split; [exact shuffle_id|].
      split; [reflexivity|]. split; [repeat constructor; lia|].
      split; [constructor; lia|apply le_n].
    + intros H. discriminate.
    + exists m'. split; [exact H1|exact H2].
Defined.

(** An [exp] that underflows: it returns 0 from [-104] down. *)
Definition exp_underflow (x : R) : R :=
  if Rle_dec x (-104) then 0%R else exp x.

Lemma exp_underflow_nonneg (x : R) : (0 <= exp_underflow x)%R.
Proof.
  unfold exp_underflow. destruct (Rle_dec x (-104)); [lra|apply exp_nonneg].
Qed.

Lemma exp_underflow_0 : (0 < exp_underflow 0)%R.
Proof.
  unfold exp_underflow. destruct (Rle_dec 0 (-104)); [lra|apply exp_pos].
Qed.

Lemma exp_underflow_mono (x y : R) :
  (x <= y)%R -> (exp_underflow x <= exp_underflow y)%R.
Proof.
  intros Hxy. unfold exp_underflow.
  destruct (Rle_dec x (-104)), (Rle_dec y (-104)); try lra.
  - apply exp_nonneg.
  - destruct (Rle_lt_or_eq_dec _ _ Hxy) as [Hlt|Heq]; [|rewrite Heq; lra].
    apply Rlt_le, exp_increasing, Hlt.
Qed.

(** The raw scores 0 and 200: the exponential of the smaller score,
    shifted by the maximum, underflows. *)
Lemma softmax_probabilities_witness :
  exists l m',
    softmax Z ln exp_underflow 0 (model_scores 0 200) = Ok (l, m') /\
    Z.of_nat (length (output_ Z m')) = 2 /\
    (0 <= nth 0 (output_ Z m') 0 <= nth 1 (output_ Z m') 0)%R /\
    (1 / 2 <= nth 1 (output_ Z m') 0 <= 1)%R.
Proof.
  destruct (softmax_probabilities Z ln exp_underflow 0 (model_scores 0 200))
    as (l & m' & H1 & H2 & H3 & H4 & H5).
  - exact exp_underflow_nonneg.
  - exact exp_underflow_0.
  - exact exp_underflow_mono.
  - reflexivity.
  - cbn. lia.
  - assert (Hlen : length (output_ Z m') = 2%nat)
      by (change (osz_ Z (model_scores 0 200)) with 2 in H2; lia).
    exists l, m'. split; [exact H1|]. split; [exact H2|].
    rewrite Hlen in H3, H4, H5. split; [split|split].
    + apply (H3 0%nat). lia.
    + apply (H4 0%nat 1%nat); [lia|lia|]. cbn. lra.
    + apply (H5 1%nat); [lia|].
      intros j Hj. assert (Hc : j = 0%nat \/ j = 1%nat) by lia.
      destruct Hc as [-> | ->]; cbn; lra.
    + apply (H3 1%nat). lia.
Defined.

Lemma softmax_step_witness :
  exists l m',
    softmax Z ln exp 1 (model_scores 1 2) = Ok (l, m') /\
    nth (Z.to_nat 1) (wo_ Z m') [] =
    axpy (softmax_alpha (5 / 100) 1 (output_ Z m') 1) [1%R] [2%R].
Proof.
  destruct (softmax_step Z ln exp 1 (model_scores 1 2))
    as (l & m' & H1 & H2 & _).
  - exact exp_nonneg.
  - apply exp_pos.
  - reflexivity.
  - cbn. lia.
  - exists l, m'. split; [exact H1|]. apply (H2 1). cbn. lia.
Defined.

Lemma tree_leaves_witness :
  Permutation (classes 2)
              (leaves_under Z (10 ^ 15) 4%nat (tree Z (hier Z model_tree))
                            (2 * 2 - 2)).
Proof.
  apply (tree_leaves Z (fun c => c) (10 ^ 15) Z.add Z.ltb
           4%nat 4%nat 2 [2; 1] (hier Z model_tree) model_tree_built).
  cbn. lia.
Defined.

Lemma buildTree_greedy_witness :
  exists h',
    buildTree Z (fun c => c) (10 ^ 15) add64 Z.ltb 6%nat 3 [2; 1; 1] (fresh Z)
      = Ok h' /\
    count Z (nd Z (10 ^ 15) (tree Z h') 3)
    <= count Z (nd Z (10 ^ 15) (tree Z h') 4) /\
    count Z (nd Z (10 ^ 15) (tree Z h')
                (left Z (nd Z (10 ^ 15) (tree Z h') 4)))
    <= count Z (nd Z (10 ^ 15) (tree Z h')
                   (right Z (nd Z (10 ^ 15) (tree Z h') 4))).
Proof.
  destruct (buildTree_greedy Z (fun c => c) (10 ^ 15) add64 Z.ltb (fun c => c)
              INT64_MAX 6%nat 3 [2; 1; 1]) as (h' & Hrun & Hs & Hg).
  - exact add64_exact.
  - intros a b _ _. reflexivity.
  - intros x y Hx Hxy Hy.
    destruct (counts_211 x ltac:(lia)) as [[-> Ex]|[-> Ex]];
      destruct (counts_211 y ltac:(lia)) as [[-> Ey]|[-> Ey]]; lia.
  - intros x Hx. destruct (counts_211 x Hx) as [[-> _]|[-> _]]; lia.
  - vm_compute. discriminate.
  - unfold below_sentinel. repeat constructor.
  - lia.
  - reflexivity.
  - cbn. lia.
  - exists h'. split; [exact Hrun|]. split.
    + apply (Hs 3 4); lia.
    + apply (Hg 4). lia.
Defined.
